(** * brawn: profile-profile alignment merger — a shallow embedding

    The Python sources are embedded function by function.  Python floats
    are IEEE binary64 values, modelled by Rocq's primitive floats, so every
    arithmetic step rounds exactly as the interpreter does.  Exceptions are
    modelled by the [result] type; loops whose termination is not evident
    carry a step budget and report [Fuel] when it runs out.

    Two things live outside the embedded sources and are parameters:
    - [Constants]: the values of [brawn/constants.py];
    - [Libm]: the C library functions behind [math.log] and the power
      operator. *)

From Stdlib Require Import ZArith List String Ascii Bool Lia.
From Stdlib Require Import Floats FunctionalExtensionality Permutation.
From Stdlib Require Import Reals Lra Psatz.
Import ListNotations.

Set Warnings "-inexact-float,-register-all".
Set Implicit Arguments.

Open Scope string_scope.
Open Scope list_scope.
Open Scope Z_scope.

(* ------------------------------------------------------------------ *)
(** ** Python run-time model *)

(** The exception classes that the embedded code can raise. *)
Inductive exn : Type :=
| ValueError
| KeyError (key : string)
| TypeError
| AttributeError
| IndexError
| AssertionError
| NotImplementedError
| ZeroDivisionError
| OverflowError
| StopIteration
| RuntimeError
| InvalidCacheFormatError
| MismatchedCacheVersionError.

(** Outcome of a call: a value, a raised exception, or an exhausted step
    budget (the Python loop would still be running). *)
Inductive result (A : Type) : Type :=
| Ok (a : A)
| Raise (e : exn)
| Fuel.

Arguments Ok {A} a.
Arguments Raise {A} e.
Arguments Fuel {A}.

Definition bind {A B} (m : result A) (k : A -> result B) : result B :=
  match m with
  | Ok a => k a
  | Raise e => Raise e
  | Fuel => Fuel
  end.

Notation "x <- m ;; k" := (bind m (fun x => k))
  (at level 61, m at next level, right associativity).
Notation "' p <- m ;; k" := (bind m (fun p => k))
  (at level 61, p pattern, m at next level, right associativity).

Definition assert (b : bool) : result unit :=
  if b then Ok tt else Raise AssertionError.

(** [for x in l: acc = body(acc, x)], stopping at the first exception. *)
Fixpoint foldM {A S} (body : S -> A -> result S) (l : list A) (s : S) : result S :=
  match l with
  | [] => Ok s
  | x :: l' => s' <- body s x ;; foldM body l' s'
  end.

Fixpoint mapM {A B} (f : A -> result B) (l : list A) : result (list B) :=
  match l with
  | [] => Ok []
  | x :: l' => y <- f x ;; ys <- mapM f l' ;; Ok (y :: ys)
  end.

(** [range(lo, hi)] *)
Definition range (lo hi : Z) : list Z :=
  map (fun k => lo + Z.of_nat k) (seq 0 (Z.to_nat (hi - lo))).

Definition len {A} (l : list A) : Z := Z.of_nat (List.length l).

(** Subscript resolution of a Python sequence: negative indices count from
    the end, anything outside raises [IndexError]. *)
Definition resolve_index (n i : Z) : result nat :=
  let k := if i <? 0 then i + n else i in
  if (k <? 0) || (n <=? k) then Raise IndexError else Ok (Z.to_nat k).

(** [l[i]] *)
Definition getitem {A} (l : list A) (i : Z) : result A :=
  k <- resolve_index (len l) i ;;
  match nth_error l k with
  | Some x => Ok x
  | None => Raise IndexError
  end.

Fixpoint replace_nth {A} (l : list A) (k : nat) (x : A) : list A :=
  match l, k with
  | [], _ => []
  | _ :: l', O => x :: l'
  | y :: l', S k' => y :: replace_nth l' k' x
  end.

(** [l[i] = x] *)
Definition setitem {A} (l : list A) (i : Z) (x : A) : result (list A) :=
  k <- resolve_index (len l) i ;;
  Ok (replace_nth l k x).

(** [[x] * n] *)
Definition replicate {A} (n : Z) (x : A) : list A := repeat x (Z.to_nat n).

(** [s in t] for strings: [s] occurs in [t] as a substring. *)
Fixpoint str_in (s t : string) : bool :=
  prefix s t ||
  match t with
  | EmptyString => false
  | String _ t' => str_in s t'
  end.

(** A one-character string, as produced by iterating over a [str]. *)
Definition str1 (c : ascii) : string := String c EmptyString.

(** Lookup in a [dict] kept in insertion order. *)
Fixpoint dict_get {K V} (eqb : K -> K -> bool) (d : list (K * V)) (k : K) : option V :=
  match d with
  | [] => None
  | (k', v) :: d' => if eqb k' k then Some v else dict_get eqb d' k
  end.

(** *** Floats *)

(** Truth value of a float: everything but the two zeros (a NaN is true). *)
Definition truthy (x : float) : bool := negb (x =? 0)%float.

(** [x / y] on floats raises on a zero divisor. *)
Definition fdiv (x y : float) : result float :=
  if (y =? 0)%float then Raise ZeroDivisionError else Ok (x / y)%float.

(** [float(n)] for the small integers the code mixes into float
    arithmetic; exact below 2^53. *)
Definition float_of_Z (n : Z) : float :=
  match n with
  | Z0 => 0%float
  | Zpos p => SF2Prim (S754_finite false p 0)
  | Zneg p => SF2Prim (S754_finite true p 0)
  end.

(** [math.floor]: the largest integer not above [x]; NaN and the
    infinities raise. *)
Definition floor (x : float) : result Z :=
  match Prim2SF x with
  | S754_zero _ => Ok 0
  | S754_finite s m e =>
      let v := if s then Z.neg m else Z.pos m in
      Ok (if 0 <=? e then v * 2 ^ e else v / 2 ^ (- e))
  | S754_infinity _ => Raise OverflowError
  | S754_nan => Raise ValueError
  end.

(** The C library behind [math.log] and the float power operator. *)
Record Libm : Type := {
  c_log : float -> float;
  c_pow : float -> float -> float
}.

(** [sum(values)] over floats: the integer start value 0 is converted on
    the first addition, then left-to-right additions. *)
Definition fsum (values : list float) : float :=
  fold_left PrimFloat.add values 0%float.

(** The values of [brawn/constants.py], which is not among the embedded
    sources. *)
Record Constants : Type := {
  VERSION : string;
  GAP_OPEN : float;
  GAP_EXTEND : float;
  SCORE_CENTER : float;
  SCORE_GUARD : float;
  ID_GUARD : Z;
  LENGTH_GUARD : float;
  AMINO_SCORE_MATRIX : list (list float);
  OTHER_SCORE_MATRIX : list (list float)
}.

Section Runtime.

Variable libm : Libm.

(** [math.log(x)]: a domain error for anything not above zero. *)
Definition math_log (x : float) : result float :=
  if (x <=? 0)%float then Raise ValueError else Ok (c_log libm x).

(** [x] squared by the power operator: the C [pow], with a range error
    turned into [OverflowError]. *)
Definition square (x : float) : result float :=
  let r := c_pow libm x 2%float in
  if is_infinity r && is_finite x then Raise OverflowError else Ok r.

End Runtime.

(* ------------------------------------------------------------------ *)
(** ** alphabet.py *)

Definition UNKNOWN_CHAR : string := "?".

(** Keys of [RESIDUE_GROUP], in insertion order; [None] is the gap. *)
Definition RESIDUE_GROUP_keys : list (option string) :=
  map Some ["A"; "C"; "D"; "E"; "F"; "G"; "H"; "I"; "K"; "L"; "M"; "N"; "P";
            "Q"; "R"; "S"; "T"; "V"; "W"; "Y"; "B"; "Z"; "X"] ++ [None].

Definition enumerate {A} (l : list A) : list (Z * A) :=
  combine (range 0 (len l)) l.

Definition AMINO_INDICES : list (option string * Z) :=
  map (fun '(i, k) => (k, i)) (enumerate RESIDUE_GROUP_keys)
  ++ [(Some (str1 (ascii_of_nat 0)), len RESIDUE_GROUP_keys + 1);
      (Some UNKNOWN_CHAR, len RESIDUE_GROUP_keys + 2)].

Definition DNA_INDICES : list (option string * Z) :=
  map (fun '(i, k) => (Some k, i)) (enumerate ["G"; "C"; "A"; "T"]).

Definition key_eqb (a b : option string) : bool :=
  match a, b with
  | Some x, Some y => String.eqb x y
  | None, None => true
  | _, _ => false
  end.

(** [d[char]] on the two index tables. *)
Definition index_of (d : list (option string * Z)) (char : string) : result Z :=
  match dict_get key_eqb d (Some char) with
  | Some i => Ok i
  | None => Raise (KeyError char)
  end.

Inductive Alphabet : Type := AMINO | DNA | RNA.

Definition Alphabet_eqb (a b : Alphabet) : bool :=
  match a, b with
  | AMINO, AMINO | DNA, DNA | RNA, RNA => true
  | _, _ => false
  end.

Definition Alphabet_str (a : Alphabet) : string :=
  match a with AMINO => "AMINO" | DNA => "DNA" | RNA => "RNA" end.

Definition get_size (self : Alphabet) : Z :=
  match self with
  | AMINO => 20
  | RNA | DNA => 4
  end.

Definition is_gap_char (char : string) : bool := str_in char "-.".

(** [char] is [None] or a string. *)
Definition is_wildcard (char : option string) (alphabet : Alphabet) : result bool :=
  match char with
  | None => Ok false
  | Some ch =>
      match alphabet with
      | AMINO => Ok (str_in ch "BXZ")
      | DNA => Ok (negb (str_in ch "GATC"))
      | RNA => Raise NotImplementedError
      end
  end.

Definition is_residue (char : option string) (alphabet : Alphabet) : result bool :=
  match char with
  | None => Ok false
  | Some "" => Ok false
  | Some ch =>
      match alphabet with
      | AMINO => Ok (str_in ch "ACDEFGHIKLMNPQRSTVWY")
      | DNA => Ok (str_in ch "GATC")
      | RNA => Raise NotImplementedError
      end
  end.

(* ------------------------------------------------------------------ *)
(** ** alignment.py: [Sequence] *)

(** A sequence holds one entry per column: [None] for a gap, else a
    one-character string. *)
Definition Sequence : Type := list (option ascii).

Definition wildcard_of (alphabet : Alphabet) : ascii :=
  if Alphabet_eqb alphabet AMINO then "X"%char else "N"%char.

Definition Sequence_ingest (alphabet : Alphabet) (c : ascii) : result (option ascii) :=
  if is_gap_char (str1 c) then Ok None
  else
    r <- is_residue (Some (str1 c)) alphabet ;;
    if negb r then
      w <- is_wildcard (Some (str1 c)) alphabet ;;
      if negb w then Ok (Some (wildcard_of alphabet)) else Ok (Some c)
    else Ok (Some c).

Definition Sequence_from_string (line : string) (alphabet : Alphabet) : result Sequence :=
  mapM (Sequence_ingest alphabet) (list_ascii_of_string line).

Definition Sequence_str (s : Sequence) : string :=
  string_of_list_ascii
    (map (fun e => match e with Some c => c | None => "-"%char end) s).

(* ------------------------------------------------------------------ *)
(** ** distance.py *)

Definition _KIMURA_TABLE : list float := [
    1.95; 1.96; 1.97; 1.98; 1.99; 2.00; 2.00; 2.01; 2.02; 2.03;
    2.04; 2.05; 2.06; 2.07; 2.08; 2.09; 2.09; 2.10; 2.11; 2.12;
    2.13; 2.14; 2.15; 2.16; 2.17; 2.18; 2.19; 2.20; 2.21; 2.22;
    2.23; 2.24; 2.26; 2.27; 2.28; 2.29; 2.30; 2.31; 2.32; 2.33;
    2.34; 2.36; 2.37; 2.38; 2.39; 2.40; 2.41; 2.43; 2.44; 2.45;
    2.46; 2.48; 2.49; 2.50; 2.52; 2.53; 2.54; 2.55; 2.57; 2.58;
    2.60; 2.61; 2.62; 2.64; 2.65; 2.67; 2.68; 2.70; 2.71; 2.73;
    2.74; 2.76; 2.77; 2.79; 2.81; 2.82; 2.84; 2.85; 2.87; 2.89;
    2.91; 2.92; 2.94; 2.96; 2.98; 2.99; 3.01; 3.03; 3.05; 3.07;
    3.09; 3.11; 3.13; 3.15; 3.17; 3.19; 3.21; 3.23; 3.25; 3.28;
    3.30; 3.32; 3.35; 3.37; 3.39; 3.42; 3.44; 3.47; 3.49; 3.52;
    3.54; 3.57; 3.60; 3.62; 3.65; 3.68; 3.71; 3.74; 3.77; 3.80;
    3.83; 3.86; 3.89; 3.93; 3.96; 3.99; 4.03; 4.07; 4.10; 4.14;
    4.18; 4.22; 4.26; 4.30; 4.34; 4.38; 4.42; 4.47; 4.51; 4.56;
    4.61; 4.66; 4.71; 4.76; 4.82; 4.87; 4.93; 4.98; 5.04; 5.11;
    5.17; 5.24; 5.31; 5.38; 5.45; 5.53; 5.60; 5.69; 5.77; 5.86;
    5.95; 6.05; 6.15; 6.26; 6.37; 6.49; 6.61; 6.75; 6.88; 7.03;
    7.19; 7.36; 7.54; 7.75; 7.96; 8.19; 8.45; 8.74; 9.07; 9.45;
    9.88
]%float.

Section Distance.

Variable libm : Libm.

Definition calculate_distance (similarity : float) : result float :=
  let diff := (1 - similarity)%float in
  if (diff <? 0.75)%float then
    sq <- square libm diff ;;
    l <- math_log libm (1 - diff - sq / 5)%float ;;
    Ok (- l)%float
  else if (0.93 <? diff)%float then Ok 10%float
  else
    index <- floor ((diff - 0.75) * 1000 + 0.5)%float ;;
    getitem _KIMURA_TABLE index.

End Distance.

(* ------------------------------------------------------------------ *)
(** ** tree.py *)

Record Tree : Type := {
  node_count : Z;
  parents : list Z;
  lefts : list Z;
  rights : list Z;
  left_lengths : list float;
  right_lengths : list float;
  parent_lengths : list float;
  names : list string;
  root_node_index : Z;
  leaf_count : Z
}.

(** [_normalise] *)
Definition _normalise (values : list float) : result (list float) :=
  let total := fsum values in
  mapM (fun v => fdiv v total) values.

Section TreeMethods.

Variable consts : Constants.

(** The dataclass constructor followed by [__post_init__]. *)
Definition Tree_init (node_count : Z) (parents lefts rights : list Z)
    (left_lengths right_lengths parent_lengths : list float)
    (names : list string) (root_node_index : Z) : result Tree :=
  let leaf_count := (node_count + 1) / 2 in
  _ <- assert (0 <? node_count) ;;
  _ <- assert (len parents =? node_count) ;;
  _ <- assert (len lefts =? node_count) ;;
  _ <- assert (len rights =? node_count) ;;
  _ <- assert (len left_lengths =? node_count) ;;
  _ <- assert (len right_lengths =? node_count) ;;
  _ <- assert (len names =? leaf_count) ;;
  p <- getitem parents root_node_index ;;
  _ <- assert (p =? ID_GUARD consts) ;;
  Ok {| node_count := node_count; parents := parents; lefts := lefts;
        rights := rights; left_lengths := left_lengths;
        right_lengths := right_lengths; parent_lengths := parent_lengths;
        names := names; root_node_index := root_node_index;
        leaf_count := leaf_count |}.

Variable self : Tree.

Definition get_parent (index : Z) : result Z :=
  parent <- getitem (parents self) index ;;
  _ <- assert ((0 <=? parent) && (parent <? node_count self)) ;;
  Ok parent.

Definition get_left (index : Z) : result Z := getitem (lefts self) index.

Definition get_right (index : Z) : result Z := getitem (rights self) index.

Definition is_leaf (index : Z) : result bool :=
  _ <- assert (index <? node_count self) ;;
  if node_count self =? 1 then Ok true
  else
    l <- getitem (lefts self) index ;;
    if l =? ID_GUARD consts then
      r <- getitem (rights self) index ;;
      Ok (r =? ID_GUARD consts)
    else Ok false.

Definition get_edge_length (first second : Z) : result float :=
  l <- getitem (lefts self) first ;;
  if l =? second then getitem (left_lengths self) first
  else
    r <- getitem (rights self) first ;;
    if r =? second then getitem (right_lengths self) first
    else
      p <- getitem (parents self) first ;;
      if negb (p =? second) then Raise ValueError
      else getitem (parent_lengths self) first.

(** The recursive helper of [node_child_counts]; [depth] bounds the
    nesting of calls, the list is the closure's [leaves_under_node]. *)
Fixpoint find_count (depth : nat) (leaves_under_node : list Z) (index : Z)
    : result (Z * list Z) :=
  match depth with
  | O => Fuel
  | S depth' =>
      if len leaves_under_node =? 1 then Ok (1, leaves_under_node)
      else
        leaf <- is_leaf index ;;
        if leaf then
          leaves_under_node <- setitem leaves_under_node index 1 ;;
          Ok (1, leaves_under_node)
        else
          left <- get_left index ;;
          '(left_count, leaves_under_node) <- find_count depth' leaves_under_node left ;;
          right <- get_right index ;;
          '(right_count, leaves_under_node) <- find_count depth' leaves_under_node right ;;
          let count := left_count + right_count in
          leaves_under_node <- setitem leaves_under_node index count ;;
          Ok (count, leaves_under_node)
  end.

(** A chain of distinct nodes is no longer than [node_count]. *)
Definition tree_fuel : nat := S (Z.to_nat (node_count self)).

Definition node_child_counts : result (list Z) :=
  let leaves_under_node := replicate (node_count self) 0 in
  '(_, leaves_under_node) <- find_count tree_fuel leaves_under_node (root_node_index self) ;;
  Ok leaves_under_node.

(** First loop of [get_weights]. *)
Definition strength_of (strengths : list float) (entry : Z * Z) : result (list float) :=
  let '(i, leaves) := entry in
  if root_node_index self =? i then Ok (strengths ++ [0%float])
  else
    parent <- get_parent i ;;
    length <- get_edge_length i parent ;;
    s <- fdiv length (float_of_Z leaves) ;;
    Ok (strengths ++ [s]).

(** The [while node != self.root_node_index] loop. *)
Fixpoint climb (steps : nat) (strengths : list float) (node : Z) (weight : float)
    : result float :=
  match steps with
  | O => Fuel
  | S steps' =>
      if negb (node =? root_node_index self) then
        s <- getitem strengths node ;;
        node' <- get_parent node ;;
        climb steps' strengths node' (weight + s)%float
      else Ok weight
  end.

Definition leaf_weight (strengths : list float) (node : Z) : result float :=
  weight <- climb tree_fuel strengths node 0%float ;;
  Ok (if (weight <? 0.0001)%float then 1%float else weight).

Definition get_weights : result (list float) :=
  let leaf_count := leaf_count self in
  if leaf_count =? 0 then Ok []
  else if leaf_count =? 1 then Ok [1.0%float]
  else if leaf_count =? 2 then Ok [0.5%float; 0.5%float]
  else
    counts <- node_child_counts ;;
    strengths <- foldM strength_of (enumerate counts) [] ;;
    weights <- mapM (leaf_weight strengths) (range 0 leaf_count) ;;
    _normalise weights.

End TreeMethods.

(* ------------------------------------------------------------------ *)
(** ** path.py *)

Inductive Modification : Type := DELETION | INSERTION | MATCH.

Definition Modification_eqb (a b : Modification) : bool :=
  match a, b with
  | DELETION, DELETION | INSERTION, INSERTION | MATCH, MATCH => true
  | _, _ => false
  end.

Record Edge : Type := {
  type : Modification;
  query_length : Z;
  reference_length : Z
}.

(** The dataclass constructor with the assertions of [__post_init__];
    [Edge.copy] goes through it as well. *)
Definition Edge_init (type : Modification) (query_length reference_length : Z)
    : result Edge :=
  _ <- assert (0 <=? query_length) ;;
  _ <- assert (0 <=? reference_length) ;;
  Ok {| type := type; query_length := query_length;
        reference_length := reference_length |}.

Definition Path : Type := list Edge.

(* ------------------------------------------------------------------ *)
(** ** positions.py *)

Record AlignmentPosition : Type := {
  sort_order : list Z;
  base_counts : list float;
  scores : list float;
  ungapped_weight : float;
  gap_opens : float;
  gap_closes : float;
  score_gap_open : float;
  score_gap_close : float
}.

Definition AlignmentPositions : Type := list AlignmentPosition.

Definition with_score_gap_open (p : AlignmentPosition) (v : float) : AlignmentPosition :=
  {| sort_order := sort_order p; base_counts := base_counts p; scores := scores p;
     ungapped_weight := ungapped_weight p; gap_opens := gap_opens p;
     gap_closes := gap_closes p; score_gap_open := v;
     score_gap_close := score_gap_close p |}.

Definition with_score_gap_close (p : AlignmentPosition) (v : float) : AlignmentPosition :=
  {| sort_order := sort_order p; base_counts := base_counts p; scores := scores p;
     ungapped_weight := ungapped_weight p; gap_opens := gap_opens p;
     gap_closes := gap_closes p; score_gap_open := score_gap_open p;
     score_gap_close := v |}.

Section Positions.

Variable consts : Constants.
Variable libm : Libm.

(** The dataclass constructor: whatever is passed for the two score
    fields, [__post_init__] overwrites them. *)
Definition AlignmentPosition_init (sort_order : list Z) (base_counts scores : list float)
    (ungapped_weight gap_opens gap_closes : float) : AlignmentPosition :=
  {| sort_order := sort_order; base_counts := base_counts; scores := scores;
     ungapped_weight := ungapped_weight; gap_opens := gap_opens;
     gap_closes := gap_closes;
     score_gap_open := (gap_opens * GAP_OPEN consts / 2)%float;
     score_gap_close := (gap_closes * GAP_OPEN consts / 2)%float |}.

(** The loop of [compare_profile_positions], leaving at the first zero count. *)
Fixpoint compare_loop (query_positions reference_positions : AlignmentPosition)
    (order : list Z) (score : float) : result float :=
  match order with
  | [] => Ok score
  | index :: order' =>
      count <- getitem (base_counts query_positions) index ;;
      if negb (truthy count) then Ok score
      else
        s <- getitem (scores reference_positions) index ;;
        compare_loop query_positions reference_positions order'
          (score + count * s)%float
  end.

Definition compare_profile_positions (query_positions reference_positions : AlignmentPosition)
    (alphabet : Alphabet) : result float :=
  score <- compare_loop query_positions reference_positions
             (sort_order query_positions) 0%float ;;
  if Alphabet_eqb alphabet AMINO then
    if negb (truthy score) then Ok (-2.5)%float
    else
      l <- math_log libm score ;;
      Ok ((l - SCORE_CENTER consts)
          * ungapped_weight query_positions
          * ungapped_weight reference_positions)%float
  else Ok (score - SCORE_CENTER consts)%float.

(** [set_terminal_gaps] mutates the first and last position objects; the
    result is the content of the tuple afterwards. *)
Definition set_terminal_gaps (positions : AlignmentPositions) : AlignmentPositions :=
  match positions with
  | [] => []
  | first :: _ =>
      let positions :=
        if negb (score_gap_open first =? SCORE_GUARD consts)%float
        then replace_nth positions 0 (with_score_gap_open first 0%float)
        else positions in
      match nth_error positions (List.length positions - 1) with
      | Some last =>
          if (1 <? len positions)
             && negb (score_gap_open last =? SCORE_GUARD consts)%float
          then replace_nth positions (List.length positions - 1)
                 (with_score_gap_close last 0%float)
          else positions
      | None => positions
      end
  end.

End Positions.

(* ------------------------------------------------------------------ *)
(** ** align.py *)

Definition BIT_MM : Z := 0x00.
Definition BIT_DM : Z := 0x01.
Definition BIT_IM : Z := 0x02.
Definition BIT__M : Z := 0x03.
Definition BIT_DD : Z := 0x00.
Definition BIT_MD : Z := 0x04.
Definition BIT__D : Z := 0x04.
Definition BIT_II : Z := 0x00.
Definition BIT_MI : Z := 0x08.
Definition BIT__I : Z := 0x08.

Definition get_modification (bits : Z) (previous : Modification) : result Modification :=
  match previous with
  | MATCH =>
      let val := Z.land bits BIT__M in
      if val =? BIT_MM then Ok MATCH
      else if val =? BIT_DM then Ok DELETION
      else if val =? BIT_IM then Ok INSERTION
      else Raise ValueError
  | DELETION =>
      let val := Z.land bits BIT__D in
      if val =? BIT_MD then Ok MATCH
      else if val =? BIT_DD then Ok DELETION
      else Raise ValueError
  | INSERTION =>
      let val := Z.land bits BIT__I in
      if val =? BIT_MI then Ok MATCH
      else if val =? BIT_II then Ok INSERTION
      else Raise ValueError
  end.

(** The [while True] loop of [build_path].  [edge] is the mutable edge
    object, [edges] the list built so far; one unit of [steps] is spent
    per iteration. *)
Fixpoint build_path_loop (steps : nat) (traceback : list (list Z))
    (edge : Edge) (edges : list Edge) : result (list Edge) :=
  match steps with
  | O => Fuel
  | S steps' =>
      let pla := query_length edge in
      let plb := reference_length edge in
      row <- getitem traceback pla ;;
      bits <- getitem row plb ;;
      next_edge_type <- get_modification bits (type edge) ;;
      let edge :=
        match type edge with
        | MATCH => {| type := type edge; query_length := pla - 1;
                      reference_length := plb - 1 |}
        | DELETION => {| type := type edge; query_length := pla - 1;
                         reference_length := plb |}
        | INSERTION => {| type := type edge; query_length := pla;
                          reference_length := plb - 1 |}
        end in
      if (query_length edge =? 0) && (reference_length edge =? 0) then Ok edges
      else
        copy <- Edge_init next_edge_type (query_length edge) (reference_length edge) ;;
        build_path_loop steps' traceback copy (edges ++ [copy])
  end.

(** Every iteration lowers [query_length + reference_length] of an edge
    with non-negative counters, so this many iterations are enough. *)
Definition build_path_fuel (query_len reference_len : Z) : nat :=
  S (Z.to_nat (query_len + reference_len)).

Definition build_path (traceback : list (list Z)) (query_len reference_len : Z)
    (last_edge : Modification) : result Path :=
  edge <- Edge_init last_edge query_len reference_len ;;
  copy <- Edge_init (type edge) (query_length edge) (reference_length edge) ;;
  edges <- build_path_loop (build_path_fuel query_len reference_len)
             traceback edge [copy] ;;
  Ok (rev edges).

(** The local lists of [global_align] that its nested helpers update. *)
Record Matrix : Type := {
  current_match : list float;
  next_match : list float;
  prev_match : list float;
  delete_row : list float;
  traceback : list (list Z)
}.

Definition set_current_match m v :=
  {| current_match := v; next_match := next_match m; prev_match := prev_match m;
     delete_row := delete_row m; traceback := traceback m |}.
Definition set_next_match m v :=
  {| current_match := current_match m; next_match := v; prev_match := prev_match m;
     delete_row := delete_row m; traceback := traceback m |}.
Definition set_prev_match m v :=
  {| current_match := current_match m; next_match := next_match m; prev_match := v;
     delete_row := delete_row m; traceback := traceback m |}.
Definition set_delete_row m v :=
  {| current_match := current_match m; next_match := next_match m;
     prev_match := prev_match m; delete_row := v; traceback := traceback m |}.
Definition set_traceback m v :=
  {| current_match := current_match m; next_match := next_match m;
     prev_match := prev_match m; delete_row := delete_row m; traceback := v |}.

(** [traceback[i][j] = f(traceback[i][j])] *)
Definition update_cell (m : Matrix) (i j : Z) (f : Z -> Z) : result Matrix :=
  row <- getitem (traceback m) i ;;
  old <- getitem row j ;;
  row <- setitem row j (f old) ;;
  tb <- setitem (traceback m) i row ;;
  Ok (set_traceback m tb).

Definition put_bits (mask bit : Z) (old : Z) : Z :=
  Z.lor (Z.land old (Z.lnot mask)) bit.

Section GlobalAlign.

Variable consts : Constants.
Variable libm : Libm.
(** The two position tuples, after [set_terminal_gaps]. *)
Variable query_positions reference_positions : AlignmentPositions.
Variable alphabet : Alphabet.

(** [row] is the index of the traceback row the Python variable [row]
    is an alias of. *)
Definition recurse_d (m : Matrix) (row i j : Z) : result Matrix :=
  d <- getitem (delete_row m) j ;;
  let dd := (d + GAP_EXTEND consts)%float in
  p <- getitem (prev_match m) j ;;
  q <- getitem query_positions (i - 1) ;;
  let md := (p + score_gap_open q)%float in
  if (md <? dd)%float then
    dr <- setitem (delete_row m) j dd ;;
    Ok (set_delete_row m dr)
  else
    dr <- setitem (delete_row m) j md ;;
    update_cell (set_delete_row m dr) row j (put_bits BIT__D BIT_MD).

Definition recurse_i (m : Matrix) (iij : float) (row _i j : Z) : result (float * Matrix) :=
  let iij := (iij + GAP_EXTEND consts)%float in
  c <- getitem (current_match m) (j - 1) ;;
  r <- getitem reference_positions (j - 1) ;;
  let mi := (c + score_gap_open r)%float in
  if (iij <=? mi)%float then
    m <- update_cell m row j (put_bits BIT__I BIT_MI) ;;
    Ok (mi, m)
  else Ok (iij, m).

Definition add_next_match (m : Matrix) (j : Z) (v : float) : result Matrix :=
  old <- getitem (next_match m) j ;;
  nm <- setitem (next_match m) j (old + v)%float ;;
  Ok (set_next_match m nm).

Definition recurse_m (m : Matrix) (iij : float) (i j : Z) : result Matrix :=
  d <- getitem (delete_row m) j ;;
  q <- getitem query_positions (i - 1) ;;
  let dm := (d + score_gap_close q)%float in
  r <- getitem reference_positions (j - 1) ;;
  let im := (iij + score_gap_close r)%float in
  mm <- getitem (current_match m) j ;;
  '(m, bit) <-
    (if (dm <=? mm)%float && (im <=? mm)%float then
       m <- add_next_match m (j + 1) mm ;; Ok (m, BIT_MM)
     else if (mm <=? dm)%float && (im <=? dm)%float then
       m <- add_next_match m (j + 1) dm ;; Ok (m, BIT_DM)
     else
       m <- add_next_match m (j + 1) im ;; Ok (m, BIT_IM)) ;;
  update_cell m (i + 1) (j + 1) (put_bits BIT__M bit).

Definition set_bit_tbm (m : Matrix) (i j : Z) (modification : Modification)
    : result Matrix :=
  let bit :=
    match modification with
    | MATCH => BIT_MM
    | DELETION => BIT_DM
    | INSERTION => BIT_IM
    end in
  update_cell m i j (put_bits BIT__M bit).

Definition store_current_match (m : Matrix) (j : Z) (v : float) : result Matrix :=
  cm <- setitem (current_match m) j v ;;
  Ok (set_current_match m cm).

Definition store_delete_row (m : Matrix) (j : Z) (v : float) : result Matrix :=
  dr <- setitem (delete_row m) j v ;;
  Ok (set_delete_row m dr).

(** Body of [for j in range(2, pref2)] in the start section. *)
Definition init_step (m : Matrix) (j : Z) : result Matrix :=
  q0 <- getitem query_positions 0 ;;
  rj <- getitem reference_positions (j - 1) ;;
  c <- compare_profile_positions consts libm q0 rj alphabet ;;
  r0 <- getitem reference_positions 0 ;;
  rj2 <- getitem reference_positions (j - 2) ;;
  m <- store_current_match m j
         (c + score_gap_open r0 + float_of_Z (j - 2) * GAP_EXTEND consts
          + score_gap_close rj2)%float ;;
  set_bit_tbm m 1 j INSERTION.

(** Body of the second inner loop of the mid section. *)
Definition sweep_step (i : Z) (st : float * Matrix) (j : Z) : result (float * Matrix) :=
  let '(iij, m) := st in
  m <- recurse_d m i i j ;;
  '(iij, m) <- recurse_i m iij i i j ;;
  m <- recurse_m m iij i j ;;
  Ok (iij, m).

(** Body of [for i in range(1, query_length)]. *)
Definition mid_step (reference_length : Z) (m : Matrix) (i : Z) : result Matrix :=
  let iij := SCORE_GUARD consts in
  q0 <- getitem query_positions 0 ;;
  m <- store_delete_row m 0
         (score_gap_open q0 + float_of_Z (i - 1) * GAP_EXTEND consts)%float ;;
  m <- store_current_match m 0 (SCORE_GUARD consts) ;;
  m <- (if i =? 1 then
          q0 <- getitem query_positions 0 ;;
          r0 <- getitem reference_positions 0 ;;
          c <- compare_profile_positions consts libm q0 r0 alphabet ;;
          m <- store_current_match m 1 c ;;
          set_bit_tbm m i 1 MATCH
        else
          qi <- getitem query_positions (i - 1) ;;
          r0 <- getitem reference_positions 0 ;;
          c <- compare_profile_positions consts libm qi r0 alphabet ;;
          q0 <- getitem query_positions 0 ;;
          qi2 <- getitem query_positions (i - 2) ;;
          m <- store_current_match m 1
                 (c + score_gap_open q0 + float_of_Z (i - 2) * GAP_EXTEND consts
                  + score_gap_close qi2)%float ;;
          set_bit_tbm m i 1 DELETION) ;;
  m <- foldM (fun m j =>
                qi <- getitem query_positions i ;;
                rj <- getitem reference_positions j ;;
                c <- compare_profile_positions consts libm qi rj alphabet ;;
                nm <- setitem (next_match m) (j + 1) c ;;
                Ok (set_next_match m nm))
         (range 1 reference_length) m ;;
  '(iij, m) <- foldM (sweep_step i) (range 1 reference_length) (iij, m) ;;
  m <- recurse_d m i i reference_length ;;
  '(iij, m) <- recurse_i m iij i i reference_length ;;
  Ok {| current_match := next_match m; next_match := prev_match m;
        prev_match := current_match m; delete_row := delete_row m;
        traceback := traceback m |}.

(** [global_align] after the two calls of [set_terminal_gaps]. *)
Definition global_align_body : result Path :=
  let query_length := len query_positions in
  let reference_length := len reference_positions in
  let pref1 := query_length + 1 in
  let pref2 := reference_length + 1 in
  let m := {| current_match := replicate pref2 0%float;
              next_match := replicate pref2 0%float;
              prev_match := replicate pref2 (SCORE_GUARD consts);
              delete_row := replicate pref2 (SCORE_GUARD consts);
              traceback := map (fun _ => replicate pref2 0) (range 0 pref1) |} in
  (* start/init *)
  pm <- setitem (prev_match m) 0 0%float ;;
  let m := set_prev_match m pm in
  m <- store_current_match m 0 (SCORE_GUARD consts) ;;
  q0 <- getitem query_positions 0 ;;
  r0 <- getitem reference_positions 0 ;;
  c <- compare_profile_positions consts libm q0 r0 alphabet ;;
  m <- store_current_match m 1 c ;;
  m <- set_bit_tbm m 1 1 MATCH ;;
  m <- foldM init_step (range 2 pref2) m ;;
  (* mid *)
  m <- foldM (mid_step reference_length) (range 1 query_length) m ;;
  (* final *)
  m <- store_current_match m 0 (SCORE_GUARD consts) ;;
  qlast <- getitem query_positions (query_length - 1) ;;
  r0 <- getitem reference_positions 0 ;;
  comparison <- compare_profile_positions consts libm qlast r0 alphabet ;;
  q0 <- getitem query_positions 0 ;;
  m <- store_current_match m 1 (comparison + score_gap_open q0)%float ;;
  c1 <- getitem (current_match m) 1 ;;
  ql2 <- getitem query_positions (query_length - 2) ;;
  m <- store_current_match m 1
         (c1 + (float_of_Z (query_length - 2) * GAP_EXTEND consts
                + score_gap_close ql2))%float ;;
  m <- set_bit_tbm m query_length 1 DELETION ;;
  m <- store_delete_row m 0 (SCORE_GUARD consts) ;;
  m <- foldM (fun m j => recurse_d m query_length query_length j) (range 1 pref2) m ;;
  let iij := SCORE_GUARD consts in
  '(iij, m) <- foldM (fun '(iij, m) j => recurse_i m iij query_length query_length j)
                 (range 1 pref2) (iij, m) ;;
  dab <- getitem (delete_row m) reference_length ;;
  let iab := iij in
  score <- getitem (current_match m) reference_length ;;
  let edge_type := MATCH in
  let '(score, edge_type) :=
    if (score <? dab)%float then (dab, DELETION) else (score, edge_type) in
  let '(score, edge_type) :=
    if (score <? iab)%float then (iab, INSERTION) else (score, edge_type) in
  _ <- assert (len (traceback m) =? query_length + 1) ;;
  tb0 <- getitem (traceback m) 0 ;;
  _ <- assert (len tb0 =? reference_length + 1) ;;
  build_path (traceback m) query_length reference_length edge_type.

End GlobalAlign.

(** [global_align]: the two tuples as the call leaves them, and the
    outcome of the call. *)
Definition global_align (consts : Constants) (libm : Libm)
    (query_positions reference_positions : AlignmentPositions) (alphabet : Alphabet)
    : (AlignmentPositions * AlignmentPositions) * result Path :=
  let query_positions := set_terminal_gaps consts query_positions in
  let reference_positions := set_terminal_gaps consts reference_positions in
  ((query_positions, reference_positions),
   global_align_body consts libm query_positions reference_positions alphabet).

(* ------------------------------------------------------------------ *)
(** ** alignment.py: [Alignment] *)

(** An [Alignment] object.  [_names] and [_sequences] are the keys and
    values of [_sequence_by_name]; the last three fields are the lazily
    filled caches. *)
Record Alignment : Type := {
  _col_count : Z;
  _alphabet : Alphabet;
  _names : list string;
  _sequences : list Sequence;
  _tree : option Tree;
  _weights : option (list float);
  _positions : option AlignmentPositions
}.

Definition set_tree (a : Alignment) (t : option Tree) : Alignment :=
  {| _col_count := _col_count a; _alphabet := _alphabet a; _names := _names a;
     _sequences := _sequences a; _tree := t; _weights := _weights a;
     _positions := _positions a |}.

Definition set_weights (a : Alignment) (w : option (list float)) : Alignment :=
  {| _col_count := _col_count a; _alphabet := _alphabet a; _names := _names a;
     _sequences := _sequences a; _tree := _tree a; _weights := w;
     _positions := _positions a |}.

Definition set_positions (a : Alignment) (p : option AlignmentPositions) : Alignment :=
  {| _col_count := _col_count a; _alphabet := _alphabet a; _names := _names a;
     _sequences := _sequences a; _tree := _tree a; _weights := _weights a;
     _positions := p |}.

Definition set_alphabet (a : Alignment) (alphabet : Alphabet) : Alignment :=
  {| _col_count := _col_count a; _alphabet := alphabet; _names := _names a;
     _sequences := _sequences a; _tree := _tree a; _weights := _weights a;
     _positions := _positions a |}.

Definition strlen (s : string) : Z := Z.of_nat (String.length s).

(** Truth value of an optional list argument: neither [None] nor empty. *)
Definition nonempty {A} (o : option (list A)) : bool :=
  match o with
  | Some (_ :: _) => true
  | _ => false
  end.

Definition olen {A} (o : option (list A)) : Z :=
  match o with
  | Some l => len l
  | None => 0
  end.

(** [Alignment.__init__]; [sequence_by_name] lists the items of the
    dictionary, whose keys are distinct. *)
Definition Alignment_init (sequence_by_name : list (string * string))
    (tree : option Tree) (weights : option (list float))
    (positions : option AlignmentPositions) : result Alignment :=
  match sequence_by_name with
  | [] => Raise ValueError
  | (_, first) :: _ =>
      let col_count := strlen first in
      if negb (forallb (fun '(_, seq) => strlen seq =? col_count) sequence_by_name)
      then Raise ValueError
      else if nonempty weights && negb (olen weights =? len sequence_by_name)
      then Raise ValueError
      else if nonempty positions && negb (olen positions =? col_count)
      then Raise ValueError
      else
        let alphabet := AMINO in
        seqs <- mapM (fun '(_, sequence) => Sequence_from_string sequence alphabet)
                  sequence_by_name ;;
        Ok {| _col_count := col_count; _alphabet := alphabet;
              _names := map fst sequence_by_name; _sequences := seqs;
              _tree := tree; _weights := weights; _positions := positions |}
  end.

Definition is_gap (e : option ascii) : bool :=
  match e with
  | None => true
  | Some _ => false
  end.

Definition elem_eqb (a b : option ascii) : bool :=
  match a, b with
  | Some x, Some y => Ascii.eqb x y
  | None, None => true
  | _, _ => false
  end.

Definition get_percentage_identity_pair (self : Alignment) (i j : Z) : result float :=
  si <- getitem (_sequences self) i ;;
  sj <- getitem (_sequences self) j ;;
  let '(count, same) :=
    fold_left (fun '(count, same) '(first, second) =>
                 if negb (is_gap first) && negb (is_gap second)
                 then (count + 1, if elem_eqb first second then same + 1 else same)
                 else (count, same))
              (combine si sj) (0, 0) in
  if count =? 0 then Ok 0%float
  else Ok (float_of_Z same / float_of_Z count)%float.

(** [get_indices_by_decreasing_value]: indices sorted by decreasing key
    [(value, -index)].  [key_lt] is the tuple comparison; the keys of one
    list are pairwise different, so for NaN-free values the order is the
    one any sort produces. *)
Definition key_lt (a b : Z * float) : bool :=
  let '(i, v) := a in
  let '(j, w) := b in
  if (v =? w)%float then (- i <? - j) else (v <? w)%float.

Fixpoint insert_desc (x : Z * float) (l : list (Z * float)) : list (Z * float) :=
  match l with
  | [] => [x]
  | y :: l' => if key_lt y x then x :: l else y :: insert_desc x l'
  end.

Definition get_indices_by_decreasing_value (values : list float) : list Z :=
  map fst (fold_left (fun acc x => insert_desc x acc) (enumerate values) []).

Definition get_flat_index (i j : Z) : Z :=
  if j <=? i then i * (i - 1) / 2 + j else j * (j - 1) / 2 + i.

(** [min] of two floats, as the builtin picks it. *)
Definition fmin (a b : float) : float := if (b <? a)%float then b else a.

(** The lists of [tree_from_alignment] that its second loop updates. *)
Record Clusters : Type := {
  distances : list float;
  node_indices : list Z;
  nearest_neighbours : list Z;
  min_dists : list float;
  cl_lefts : list Z;
  cl_rights : list Z;
  heights : list float;
  cl_left_lengths : list float;
  cl_right_lengths : list float
}.

Section Building.

Variable consts : Constants.
Variable libm : Libm.

(** First loop: pairwise distances and each leaf's nearest neighbour. *)
Definition distance_row (self : Alignment) (leaf_count : Z)
    (st : list float * list float * list Z) (i : Z)
    : result (list float * list float * list Z) :=
  let '(distances, min_dists, nearest_neighbours) := st in
  let row_start := get_flat_index i 0 in
  distances <- foldM (fun distances j =>
                        pid <- get_percentage_identity_pair self i j ;;
                        d <- calculate_distance libm pid ;;
                        setitem distances (row_start + j) d)
                 (range 0 i) distances ;;
  '(min_dists, nearest_neighbours) <-
    foldM (fun '(min_dists, nearest_neighbours) j =>
             distance <- getitem distances (row_start + j) ;;
             mi <- getitem min_dists i ;;
             '(min_dists, nearest_neighbours) <-
               (if (distance <? mi)%float then
                  md <- setitem min_dists i distance ;;
                  nn <- setitem nearest_neighbours i j ;;
                  Ok (md, nn)
                else Ok (min_dists, nearest_neighbours)) ;;
             mj <- getitem min_dists j ;;
             if (distance <? mj)%float then
               md <- setitem min_dists j distance ;;
               nn <- setitem nearest_neighbours j i ;;
               Ok (md, nn)
             else Ok (min_dists, nearest_neighbours))
      (range 0 i) (min_dists, nearest_neighbours) ;;
  Ok (distances, min_dists, nearest_neighbours).

(** Second loop, first scan: the active slot with the smallest distance. *)
Definition pick_pair (cl : Clusters) (st : Z * Z * float) (j : Z) : result (Z * Z * float) :=
  let '(left_min, right_min, min_dist) := st in
  n <- getitem (node_indices cl) j ;;
  if n =? ID_GUARD consts then Ok st
  else
    distance <- getitem (min_dists cl) j ;;
    if (distance <? min_dist)%float then
      nn <- getitem (nearest_neighbours cl) j ;;
      Ok (j, nn, distance)
    else Ok st.

(** Second loop, second scan: distances from the merged cluster. *)
Definition blend (node_indices : list Z) (left_min right_min : Z)
    (st : list float * list Z * float * Z) (j : Z)
    : result (list float * list Z * float * Z) :=
  let '(distances, nearest_neighbours, new_min_dist, new_nearest) := st in
  if (j =? left_min) || (j =? right_min) then Ok st
  else
    n <- getitem node_indices j ;;
    if n =? ID_GUARD consts then Ok st
    else
      let left_index := get_flat_index left_min j in
      distance_left <- getitem distances left_index ;;
      distance_right <- getitem distances (get_flat_index right_min j) ;;
      let new_dist := (0.1 * ((distance_left + distance_right) / 2)
                       + 0.9 * fmin distance_left distance_right)%float in
      nn <- getitem nearest_neighbours j ;;
      nearest_neighbours <-
        (if nn =? right_min then setitem nearest_neighbours j left_min
         else Ok nearest_neighbours) ;;
      distances <- setitem distances left_index new_dist ;;
      if (new_dist <? new_min_dist)%float
      then Ok (distances, nearest_neighbours, new_dist, j)
      else Ok (distances, nearest_neighbours, new_min_dist, new_nearest).

Definition merge_step (leaf_count : Z) (cl : Clusters) (internal_node_index : Z)
    : result Clusters :=
  '(left_min, right_min, min_dist) <-
    foldM (pick_pair cl) (range 0 leaf_count)
      (ID_GUARD consts, ID_GUARD consts, LENGTH_GUARD consts) ;;
  _ <- assert (negb (left_min =? ID_GUARD consts)) ;;
  _ <- assert (negb (right_min =? ID_GUARD consts)) ;;
  '(distances, nearest_neighbours, new_min_dist, new_nearest) <-
    foldM (blend (node_indices cl) left_min right_min) (range 0 leaf_count)
      (distances cl, nearest_neighbours cl, LENGTH_GUARD consts, ID_GUARD consts) ;;
  _ <- assert ((internal_node_index <? leaf_count - 1)
               || negb (new_min_dist =? LENGTH_GUARD consts)%float) ;;
  _ <- assert ((internal_node_index <? leaf_count - 1)
               || negb (new_nearest =? ID_GUARD consts)) ;;
  d <- getitem distances (get_flat_index left_min right_min) ;;
  let new_height := (d / 2)%float in
  left <- getitem (node_indices cl) left_min ;;
  right <- getitem (node_indices cl) right_min ;;
  height_left <- (if left <? leaf_count then Ok 0%float
                  else getitem (heights cl) (left - leaf_count)) ;;
  height_right <- (if right <? leaf_count then Ok 0%float
                   else getitem (heights cl) (right - leaf_count)) ;;
  lefts <- setitem (cl_lefts cl) internal_node_index left ;;
  rights <- setitem (cl_rights cl) internal_node_index right ;;
  left_lengths <- setitem (cl_left_lengths cl) internal_node_index
                    (new_height - height_left)%float ;;
  right_lengths <- setitem (cl_right_lengths cl) internal_node_index
                     (new_height - height_right)%float ;;
  heights <- setitem (heights cl) internal_node_index new_height ;;
  node_indices <- setitem (node_indices cl) left_min (leaf_count + internal_node_index) ;;
  nearest_neighbours <- setitem nearest_neighbours left_min new_nearest ;;
  min_dists <- setitem (min_dists cl) left_min new_min_dist ;;
  node_indices <- setitem node_indices right_min (ID_GUARD consts) ;;
  Ok {| distances := distances; node_indices := node_indices;
        nearest_neighbours := nearest_neighbours; min_dists := min_dists;
        cl_lefts := lefts; cl_rights := rights; heights := heights;
        cl_left_lengths := left_lengths; cl_right_lengths := right_lengths |}.

(** Third loop: parents of the children of every internal node. *)
Definition adopt (lefts rights : list Z) (left_lengths right_lengths : list float)
    (st : list Z * list float) (i : Z) : result (list Z * list float) :=
  let '(parents, parent_lengths) := st in
  left <- getitem lefts i ;;
  right <- getitem rights i ;;
  parents <- setitem parents left i ;;
  parents <- setitem parents right i ;;
  ll <- getitem left_lengths i ;;
  parent_lengths <- setitem parent_lengths left ll ;;
  rl <- getitem right_lengths i ;;
  parent_lengths <- setitem parent_lengths right rl ;;
  Ok (parents, parent_lengths).

Definition tree_from_alignment (alignment : Alignment) : result Tree :=
  let leaf_count := len (_sequences alignment) in
  let internal_node_count := leaf_count - 1 in
  let distances := replicate ((leaf_count * internal_node_count) / 2) 0%float in
  let node_indices := range 0 leaf_count in
  let nearest_neighbours := replicate leaf_count (ID_GUARD consts) in
  let min_dists := replicate leaf_count (LENGTH_GUARD consts) in
  '(distances, min_dists, nearest_neighbours) <-
    foldM (distance_row alignment leaf_count) (range 1 leaf_count)
      (distances, min_dists, nearest_neighbours) ;;
  cl <- foldM (merge_step leaf_count) (range 0 internal_node_count)
          {| distances := distances; node_indices := node_indices;
             nearest_neighbours := nearest_neighbours; min_dists := min_dists;
             cl_lefts := replicate internal_node_count (ID_GUARD consts);
             cl_rights := replicate internal_node_count (ID_GUARD consts);
             heights := replicate internal_node_count (LENGTH_GUARD consts);
             cl_left_lengths := replicate internal_node_count (LENGTH_GUARD consts);
             cl_right_lengths := replicate internal_node_count (LENGTH_GUARD consts) |} ;;
  let node_count := 2 * leaf_count - 1 in
  let root := node_count - 1 in
  let lefts := replicate leaf_count (ID_GUARD consts) ++ cl_lefts cl in
  let rights := replicate leaf_count (ID_GUARD consts) ++ cl_rights cl in
  let left_lengths := replicate leaf_count (LENGTH_GUARD consts) ++ cl_left_lengths cl in
  let right_lengths := replicate leaf_count (LENGTH_GUARD consts) ++ cl_right_lengths cl in
  '(parents, parent_lengths) <-
    foldM (adopt lefts rights left_lengths right_lengths) (range leaf_count node_count)
      (replicate node_count (ID_GUARD consts), replicate node_count (LENGTH_GUARD consts)) ;;
  Tree_init consts node_count parents lefts rights left_lengths right_lengths
    parent_lengths (_names alignment) root.

(** *** Methods that read or fill the caches

    Each takes the object and returns it along with the value. *)

Definition _build_weights (self : Alignment) : result (list float * Alignment) :=
  match _weights self with
  | Some w => Ok (w, self)
  | None =>
      '(t, self) <- match _tree self with
                    | Some t => Ok (t, self)
                    | None =>
                        t <- tree_from_alignment self ;;
                        Ok (t, set_tree self (Some t))
                    end ;;
      w <- get_weights consts t ;;
      Ok (w, self)
  end.

Definition Alignment_get_weights (self : Alignment) : result (list float * Alignment) :=
  match _weights self with
  | Some w => Ok (w, self)
  | None =>
      '(w, self) <- _build_weights self ;;
      Ok (w, set_weights self (Some w))
  end.

Definition get_sequence_weight (self : Alignment) (index : Z) : result (float * Alignment) :=
  '(w, self) <- Alignment_get_weights self ;;
  x <- getitem w index ;;
  Ok (x, self).

(** The three gap totals share one loop shape: add the weight of every
    sequence that [selects]. *)
Definition weight_total (selects : Sequence -> result bool) (self : Alignment)
    : result (float * Alignment) :=
  foldM (fun '(total, self) '(i, seq) =>
           b <- selects seq ;;
           if b then
             '(w, self) <- get_sequence_weight self i ;;
             Ok ((total + w)%float, self)
           else Ok (total, self))
    (enumerate (_sequences self)) (0%float, self).

Definition get_column_ungapped_weight (self : Alignment) (column : Z)
    : result (float * Alignment) :=
  weight_total (fun seq => e <- getitem seq column ;; Ok (is_gap e)) self.

Definition get_gap_open_weight_total (self : Alignment) (column : Z)
    : result (float * Alignment) :=
  if column <? 1 then
    weight_total (fun seq => e <- getitem seq column ;; Ok (is_gap e)) self
  else
    weight_total (fun seq =>
                    e <- getitem seq column ;;
                    if is_gap e then
                      p <- getitem seq (column - 1) ;; Ok (negb (is_gap p))
                    else Ok false) self.

Definition get_gap_close_weight_total (self : Alignment) (column : Z)
    : result (float * Alignment) :=
  if _col_count self - 1 =? column then
    weight_total (fun seq => e <- getitem seq column ;; Ok (is_gap e)) self
  else
    weight_total (fun seq =>
                    e <- getitem seq column ;;
                    if is_gap e then
                      n <- getitem seq (column + 1) ;; Ok (negb (is_gap n))
                    else Ok false) self.

(** [counts[d[key]] += amount] *)
Definition bump (d : list (option string * Z)) (key : string) (amount : float)
    (counts : list float) : result (list float) :=
  k <- index_of d key ;;
  old <- getitem counts k ;;
  setitem counts k (old + amount)%float.

(** Body of the loop of [get_fractional_weighted_counts]. *)
Definition count_step (alphabet : Alphabet) (col_index : Z)
    (st : list float * float) (entry : Sequence * float) : result (list float * float) :=
  let '(counts, total_weight) := st in
  let '(seq, weight) := entry in
  e <- getitem seq col_index ;;
  match e with
  | None => Ok st
  | Some c =>
      let char := str1 c in
      w <- is_wildcard (Some char) alphabet ;;
      counts <-
        (if w then
           match alphabet with
           | AMINO =>
               if String.eqb char "B" then
                 counts <- bump AMINO_INDICES "D" (weight / 2)%float counts ;;
                 bump AMINO_INDICES "N" (weight / 2)%float counts
               else if String.eqb char "Z" then
                 counts <- bump AMINO_INDICES "E" (weight / 2)%float counts ;;
                 bump AMINO_INDICES "Q" (weight / 2)%float counts
               else
                 let avg := (weight / float_of_Z (get_size alphabet))%float in
                 Ok (map (fun c => (c + avg)%float) counts)
           | DNA | RNA =>
               if String.eqb char "R" then
                 counts <- bump DNA_INDICES "G" (weight / 2)%float counts ;;
                 bump DNA_INDICES "A" (weight / 2)%float counts
               else if String.eqb char "Y" then
                 counts <- bump DNA_INDICES "C" (weight / 2)%float counts ;;
                 bump DNA_INDICES "T" (weight / 2)%float counts
               else
                 let avg := (weight / 20)%float in
                 Ok (map (fun c => (c + avg)%float) counts)
           end
         else
           if Alphabet_eqb alphabet AMINO
           then bump AMINO_INDICES char weight counts
           else bump DNA_INDICES char weight counts) ;;
      Ok (counts, (total_weight + weight)%float)
  end.

Definition get_fractional_weighted_counts (self : Alignment) (col_index : Z)
    : result (list float * Alignment) :=
  let alphabet_size := get_size (_alphabet self) in
  let counts := replicate alphabet_size 0%float in
  '(weights, self) <- Alignment_get_weights self ;;
  '(counts, total_weight) <-
    foldM (count_step (_alphabet self) col_index)
      (combine (_sequences self) weights) (counts, 0%float) ;;
  if truthy total_weight then
    _ <- assert (total_weight <=? 1.001)%float ;;
    Ok (map (fun c => (c / total_weight)%float) counts, self)
  else Ok (counts, self).

Definition dot (counts row : list float) : float :=
  fold_left (fun score '(count, matrix_value) => (score + count * matrix_value)%float)
    (combine counts row) 0%float.

(** The [scores] loop of [_build_positions]. *)
Definition profile_scores (alphabet : Alphabet) (counts : list float)
    : result (list float) :=
  let score_matrix :=
    if Alphabet_eqb alphabet AMINO
    then AMINO_SCORE_MATRIX consts else OTHER_SCORE_MATRIX consts in
  let alphabet_size := get_size alphabet in
  mapM (fun i => row <- getitem score_matrix i ;; Ok (dot counts row))
    (range 0 alphabet_size).

(** One turn of the generator [_build_positions]. *)
Definition build_position (self : Alignment) (column : Z)
    : result (AlignmentPosition * Alignment) :=
  '(counts, self) <- get_fractional_weighted_counts self column ;;
  let sort_order := get_indices_by_decreasing_value counts in
  scores <- profile_scores (_alphabet self) counts ;;
  '(ungapped, self) <- get_column_ungapped_weight self column ;;
  '(opens, self) <- get_gap_open_weight_total self column ;;
  '(closes, self) <- get_gap_close_weight_total self column ;;
  Ok (AlignmentPosition_init consts sort_order counts scores
        (1.0 - ungapped)%float (1.0 - opens)%float (1.0 - closes)%float, self).

Definition _build_positions (self : Alignment) : result (AlignmentPositions * Alignment) :=
  foldM (fun '(acc, self) column =>
           '(pos, self) <- build_position self column ;;
           Ok (acc ++ [pos], self))
    (range 0 (_col_count self)) ([], self).

(** The [positions] property. *)
Definition positions (self : Alignment) : result (AlignmentPositions * Alignment) :=
  match _positions self with
  | Some p => Ok (p, self)
  | None =>
      '(p, self) <- _build_positions self ;;
      Ok (p, set_positions self (Some p))
  end.

End Building.

(* ------------------------------------------------------------------ *)
(** ** alignment.py: applying a path, [ResultAlignment] *)

Definition glyph (e : option ascii) : ascii :=
  match e with
  | Some c => c
  | None => "-"%char
  end.

(** [sequence] is what the iterator [char] has left. *)
Fixpoint build_query_result (sequence : Sequence) (edges : Path) : result string :=
  match edges with
  | [] => Ok ""
  | edge :: edges' =>
      match type edge with
      | INSERTION =>
          rest <- build_query_result sequence edges' ;;
          Ok (String "-"%char rest)
      | MATCH | DELETION =>
          match sequence with
          | [] => Raise StopIteration
          | e :: sequence' =>
              rest <- build_query_result sequence' edges' ;;
              Ok (String (glyph e) rest)
          end
      end
  end.

Fixpoint build_reference_result (sequence : Sequence) (edges : Path) : result string :=
  match edges with
  | [] => Ok ""
  | edge :: edges' =>
      match type edge with
      | DELETION =>
          rest <- build_reference_result sequence edges' ;;
          Ok (String "-"%char rest)
      | MATCH | INSERTION =>
          match sequence with
          | [] => Raise StopIteration
          | e :: sequence' =>
              rest <- build_reference_result sequence' edges' ;;
              Ok (String (glyph e) rest)
          end
      end
  end.

(** A [dict] as the list of its items in insertion order. *)
Fixpoint dict_set {V} (d : list (string * V)) (k : string) (v : V) : list (string * V) :=
  match d with
  | [] => [(k, v)]
  | (k', v') :: d' =>
      if String.eqb k' k then (k', v) :: d' else (k', v') :: dict_set d' k v
  end.

(** [dict(pairs)] *)
Definition dict_of_items {V} (items : list (string * V)) : list (string * V) :=
  fold_left (fun d '(k, v) => dict_set d k v) items [].

(** The two alignments are the objects the result keeps referring to;
    the per-sequence caches of the class only save recomputation and are
    left out. *)
Record ResultAlignment : Type := {
  path : Path;
  _query : Alignment;
  _reference : Alignment
}.

Definition ResultAlignment_names (self : ResultAlignment) : list string :=
  _names (_query self) ++ _names (_reference self).

(** A [StopIteration] that escapes inside a generator surfaces as
    [RuntimeError]. *)
Definition in_generator {A} (r : result A) : result A :=
  match r with
  | Raise StopIteration => Raise RuntimeError
  | _ => r
  end.

Definition ResultAlignment_sequences (self : ResultAlignment) : result (list string) :=
  queries <- mapM (fun seq =>
                     r <- in_generator (build_query_result seq (path self)) ;;
                     _ <- assert (negb (String.eqb r "")) ;;
                     Ok r)
               (_sequences (_query self)) ;;
  references <- mapM (fun seq =>
                        r <- in_generator (build_reference_result seq (path self)) ;;
                        _ <- assert (negb (String.eqb r "")) ;;
                        Ok r)
                  (_sequences (_reference self)) ;;
  Ok (queries ++ references).

Definition get_aligned_references (self : ResultAlignment)
    : result (list (string * string)) :=
  sequences <- mapM (fun seq =>
                       r <- build_reference_result seq (path self) ;;
                       _ <- assert (negb (String.eqb r "")) ;;
                       Ok r)
                 (_sequences (_reference self)) ;;
  Ok (dict_of_items (combine (_names (_reference self)) sequences)).

Definition ResultAlignment_to_dict (self : ResultAlignment)
    : result (list (string * string)) :=
  let names := ResultAlignment_names self in
  sequences <- ResultAlignment_sequences self ;;
  let result := dict_of_items (combine names sequences) in
  if negb (len result =? len names) then Raise ValueError else Ok result.

Section Combining.

Variable consts : Constants.
Variable libm : Libm.

(** [query] and [reference] are two different objects; the result holds
    them as the call leaves them. *)
Definition combine_alignments (query reference : Alignment) : result ResultAlignment :=
  if negb (Alphabet_eqb (_alphabet query) (_alphabet reference)) then Raise ValueError
  else
    '(query_positions, query) <- positions consts libm query ;;
    '(reference_positions, reference) <- positions consts libm reference ;;
    let '((query_positions, reference_positions), outcome) :=
      global_align consts libm query_positions reference_positions
        (_alphabet reference) in
    path <- outcome ;;
    Ok {| path := path;
          _query := set_positions query (Some query_positions);
          _reference := set_positions reference (Some reference_positions) |}.

Definition insert_into_alignment (query_sequence : string) (alignment : Alignment)
    : result (string * list (string * string)) :=
  query <- Alignment_init [("query", query_sequence)] None None None ;;
  result <- combine_alignments query alignment ;;
  references_aligned <- get_aligned_references result ;;
  first <- getitem (_sequences query) 0 ;;
  query_aligned <- build_query_result first (path result) ;;
  Ok (query_aligned, references_aligned).

End Combining.

(* ------------------------------------------------------------------ *)
(** ** The cache file

    The file body is taken as [json.load] sees it: [None] when decoding
    fails, else the decoded document. *)

Inductive json : Type :=
| JNull
| JBool (b : bool)
| JInt (n : Z)
| JFloat (x : float)
| JStr (s : string)
| JList (l : list json)
| JObj (items : list (string * json)).

(** [data[key]] on a decoded document. *)
Definition subscript (data : json) (key : string) : result json :=
  match data with
  | JObj items =>
      match dict_get String.eqb items key with
      | Some v => Ok v
      | None => Raise (KeyError key)
      end
  | _ => Raise TypeError
  end.

(** Iterating over a decoded value: a list gives its elements, an
    object its keys, a string its characters. *)
Definition iterate (data : json) : result (list json) :=
  match data with
  | JList l => Ok l
  | JObj items => Ok (map (fun '(k, _) => JStr k) items)
  | JStr s => Ok (map (fun c => JStr (str1 c)) (list_ascii_of_string s))
  | _ => Raise TypeError
  end.

(** The fields of an [AlignmentPosition] are typed here; a document
    whose field has another shape is refused with [TypeError] where the
    dataclass would store the value as it comes. *)
Definition as_float (v : json) : result float :=
  match v with
  | JFloat x => Ok x
  | JInt n => Ok (float_of_Z n)
  | _ => Raise TypeError
  end.

Definition as_int (v : json) : result Z :=
  match v with
  | JInt n => Ok n
  | _ => Raise TypeError
  end.

Definition as_list {A} (f : json -> result A) (v : json) : result (list A) :=
  match v with
  | JList l => mapM f l
  | _ => Raise TypeError
  end.

Definition position_fields : list string :=
  ["sort_order"; "base_counts"; "scores"; "ungapped_weight"; "gap_opens";
   "gap_closes"; "score_gap_open"; "score_gap_close"].

(** A required keyword argument. *)
Definition keyword (items : list (string * json)) (name : string) : result json :=
  match dict_get String.eqb items name with
  | Some v => Ok v
  | None => Raise TypeError
  end.

(** A keyword argument with a float default. *)
Definition keyword_default (items : list (string * json)) (name : string)
    : result float :=
  match dict_get String.eqb items name with
  | Some v => as_float v
  | None => Ok 0%float
  end.

Section Cache.

Variable consts : Constants.
Variable libm : Libm.

Definition to_json (self : AlignmentPosition) : json :=
  JObj [("sort_order", JList (map JInt (sort_order self)));
        ("base_counts", JList (map JFloat (base_counts self)));
        ("scores", JList (map JFloat (scores self)));
        ("ungapped_weight", JFloat (ungapped_weight self));
        ("gap_opens", JFloat (gap_opens self));
        ("gap_closes", JFloat (gap_closes self));
        ("score_gap_open", JFloat (score_gap_open self));
        ("score_gap_close", JFloat (score_gap_close self))].

(** The class called with the entries of [data] as keyword arguments. *)
Definition from_json (data : json) : result AlignmentPosition :=
  match data with
  | JObj items =>
      if negb (forallb (fun '(k, _) => existsb (String.eqb k) position_fields) items)
      then Raise TypeError
      else
        so <- keyword items "sort_order" ;;
        bc <- keyword items "base_counts" ;;
        sc <- keyword items "scores" ;;
        uw <- keyword items "ungapped_weight" ;;
        go <- keyword items "gap_opens" ;;
        gc <- keyword items "gap_closes" ;;
        so <- as_list as_int so ;;
        bc <- as_list as_float bc ;;
        sc <- as_list as_float sc ;;
        uw <- as_float uw ;;
        go <- as_float go ;;
        gc <- as_float gc ;;
        _ <- keyword_default items "score_gap_open" ;;
        _ <- keyword_default items "score_gap_close" ;;
        Ok (AlignmentPosition_init consts so bc sc uw go gc)
  | _ => Raise TypeError
  end.

Definition json_truthy (v : json) : bool :=
  match v with
  | JNull => false
  | JBool b => b
  | JInt n => negb (n =? 0)
  | JFloat x => truthy x
  | JStr s => negb (String.eqb s "")
  | JList l => negb (len l =? 0)
  | JObj items => negb (len items =? 0)
  end.

(** The first argument of the constructor, as decoded. *)
Definition as_sequences (v : json) : result (list (string * string)) :=
  if negb (json_truthy v) then Raise ValueError
  else
    match v with
    | JObj items =>
        mapM (fun '(k, s) =>
                match s with
                | JStr s => Ok (k, s)
                | _ => Raise TypeError
                end) items
    | _ => Raise AttributeError
    end.

Definition as_weights (v : json) : result (option (list float)) :=
  match v with
  | JNull => Ok None
  | _ => w <- as_list as_float v ;; Ok (Some w)
  end.

Definition from_cache_file (handle : option json) : result Alignment :=
  match handle with
  | None => Raise InvalidCacheFormatError
  | Some data =>
      version <- subscript data "version" ;;
      if negb match version with
              | JStr s => String.eqb s (VERSION consts)
              | _ => false
              end
      then Raise MismatchedCacheVersionError
      else
        ps <- subscript data "positions" ;;
        ps <- iterate ps ;;
        positions <- mapM from_json ps ;;
        sequences <- subscript data "sequences" ;;
        weights <- subscript data "weights" ;;
        sequences <- as_sequences sequences ;;
        weights <- as_weights weights ;;
        Alignment_init sequences None weights (Some positions)
  end.

(** What [to_cache_file] hands to [json.dump], and the object afterwards. *)
Definition to_cache_file (self : Alignment) : result (json * Alignment) :=
  '(ps, self) <- positions consts libm self ;;
  let positions := map to_json ps in
  _ <- assert (nonempty (_weights self)) ;;
  let weights := match _weights self with Some w => w | None => [] end in
  Ok (JObj [("alphabet", JStr (Alphabet_str (_alphabet self)));
            ("sequences",
             JObj (dict_of_items
                     (combine (_names self)
                        (map (fun s => JStr (Sequence_str s)) (_sequences self)))));
            ("weights", JList (map JFloat weights));
            ("positions", JList positions);
            ("version", JStr (VERSION consts))],
      self).

End Cache.

(* ------------------------------------------------------------------ *)
(** ** Sample parameters

    [brawn/constants.py] is not among the embedded sources, so the
    theorems below either hold for every value of [Constants] and [Libm]
    or name what they assume of them.  To run the embedding on concrete
    inputs, one sample is fixed here.

    The sample agrees with everything the repository's tests state about
    the constants: [GAP_OPEN / 2 == -1.45] (test_positions), and the
    score columns of the residues G, T, I, V, K and D, which the same
    tests list to five decimals.  [GAP_EXTEND], [SCORE_CENTER] and
    [SCORE_GUARD] are the defaults of the program the module emulates
    (0, -0.52 and -1e37).  Matrix entries outside the six listed rows and
    columns are not fixed by any test and are set to 1; the two guards
    are arbitrary values outside the ranges they delimit. *)
Definition sample_matrix : list (list float) := [
  [1.00000; 1.00000; 0.82704; 1.00000; 1.00000; 1.09860; 1.00000; 0.80805; 0.81213; 1.00000; 1.00000; 1.00000; 1.00000; 1.00000; 1.00000; 1.00000; 1.20373; 1.05956; 1.00000; 1.00000];
  [1.00000; 1.00000; 0.39862; 1.00000; 1.00000; 0.65541; 1.00000; 0.97185; 0.46414; 1.00000; 1.00000; 1.00000; 1.00000; 1.00000; 1.00000; 1.00000; 0.99069; 1.21604; 1.00000; 1.00000];
  [0.82704; 0.39862; 4.18833; 2.06850; 0.25194; 0.90937; 1.01617; 0.32860; 1.03391; 0.31300; 0.42498; 1.80888; 0.81307; 1.20043; 0.63712; 1.03001; 0.88191; 0.43557; 0.26313; 0.37947];
  [1.00000; 1.00000; 2.06850; 1.00000; 1.00000; 0.77183; 1.00000; 0.43151; 1.35989; 1.00000; 1.00000; 1.00000; 1.00000; 1.00000; 1.00000; 1.00000; 0.88132; 0.54047; 1.00000; 1.00000];
  [1.00000; 1.00000; 0.25194; 1.00000; 1.00000; 0.30140; 1.00000; 1.10969; 0.37069; 1.00000; 1.00000; 1.00000; 1.00000; 1.00000; 1.00000; 1.00000; 0.57172; 0.91256; 1.00000; 1.00000];
  [1.09860; 0.65541; 0.90937; 0.77183; 0.30140; 5.62829; 0.64191; 0.28432; 0.67874; 0.30549; 0.37739; 1.01012; 0.60851; 0.65996; 0.63660; 1.03448; 0.68435; 0.40728; 0.36034; 0.35679];
  [1.00000; 1.00000; 1.01617; 1.00000; 1.00000; 0.64191; 1.00000; 0.50783; 1.03822; 1.00000; 1.00000; 1.00000; 1.00000; 1.00000; 1.00000; 1.00000; 0.83543; 0.54817; 1.00000; 1.00000];
  [0.80805; 0.97185; 0.32860; 0.43151; 1.10969; 0.28432; 0.50783; 3.03766; 0.49310; 1.88886; 1.75039; 0.44246; 0.44431; 0.53213; 0.48153; 0.55603; 0.88168; 2.37367; 0.68494; 0.70035];
  [0.81213; 0.46414; 1.03391; 1.35989; 0.37069; 0.67874; 1.03822; 0.49310; 2.72883; 0.52739; 0.68244; 1.15671; 0.82911; 1.51333; 2.33521; 0.93858; 0.92730; 0.55467; 0.39944; 0.52549];
  [1.00000; 1.00000; 0.31300; 1.00000; 1.00000; 0.30549; 1.00000; 1.88886; 0.52739; 1.00000; 1.00000; 1.00000; 1.00000; 1.00000; 1.00000; 1.00000; 0.69924; 1.50372; 1.00000; 1.00000];
  [1.00000; 1.00000; 0.42498; 1.00000; 1.00000; 0.37739; 1.00000; 1.75039; 0.68244; 1.00000; 1.00000; 1.00000; 1.00000; 1.00000; 1.00000; 1.00000; 0.87759; 1.42742; 1.00000; 1.00000];
  [1.00000; 1.00000; 1.80888; 1.00000; 1.00000; 1.01012; 1.00000; 0.44246; 1.15671; 1.00000; 1.00000; 1.00000; 1.00000; 1.00000; 1.00000; 1.00000; 1.11252; 0.50603; 1.00000; 1.00000];
  [1.00000; 1.00000; 0.81307; 1.00000; 1.00000; 0.60851; 1.00000; 0.44431; 0.82911; 1.00000; 1.00000; 1.00000; 1.00000; 1.00000; 1.00000; 1.00000; 0.83014; 0.56795; 1.00000; 1.00000];
  [1.00000; 1.00000; 1.20043; 1.00000; 1.00000; 0.65996; 1.00000; 0.53213; 1.51333; 1.00000; 1.00000; 1.00000; 1.00000; 1.00000; 1.00000; 1.00000; 0.93103; 0.61085; 1.00000; 1.00000];
  [1.00000; 1.00000; 0.63712; 1.00000; 1.00000; 0.63660; 1.00000; 0.48153; 2.33521; 1.00000; 1.00000; 1.00000; 1.00000; 1.00000; 1.00000; 1.00000; 0.80673; 0.51422; 1.00000; 1.00000];
  [1.00000; 1.00000; 1.03001; 1.00000; 1.00000; 1.03448; 1.00000; 0.55603; 0.93858; 1.00000; 1.00000; 1.00000; 1.00000; 1.00000; 1.00000; 1.00000; 1.52911; 0.67767; 1.00000; 1.00000];
  [1.20373; 0.99069; 0.88191; 0.88132; 0.57172; 0.68435; 0.83543; 0.88168; 0.92730; 0.69924; 0.87759; 1.11252; 0.83014; 0.93103; 0.80673; 1.52911; 2.58221; 0.98702; 0.31541; 0.57954];
  [1.05956; 1.21604; 0.43557; 0.54047; 0.91256; 0.40728; 0.54817; 2.37367; 0.55467; 1.50372; 1.42742; 0.50603; 0.56795; 0.61085; 0.51422; 0.67767; 0.98702; 2.65580; 0.43419; 0.63805];
  [1.00000; 1.00000; 0.26313; 1.00000; 1.00000; 0.36034; 1.00000; 0.68494; 0.39944; 1.00000; 1.00000; 1.00000; 1.00000; 1.00000; 1.00000; 1.00000; 0.31541; 0.43419; 1.00000; 1.00000];
  [1.00000; 1.00000; 0.37947; 1.00000; 1.00000; 0.35679; 1.00000; 0.70035; 0.52549; 1.00000; 1.00000; 1.00000; 1.00000; 1.00000; 1.00000; 1.00000; 0.57954; 0.63805; 1.00000; 1.00000]
]%float.
Definition sample_log_table : list (float * float) := [
  (1, 0);
  (0.28432, -1.2576549145757958);
  (0.32860, -1.1129140733789693);
  (0.40728, -0.8982543693880566);
  (0.43557, -0.831099760818431);
  (0.49310, -0.7070432857520567);
  (0.55467, -0.5893819366717659);
  (0.67874, -0.38751714080753225);
  (0.68435, -0.3792857963248617);
  (0.88168, -0.12592610059885054);
  (0.88191, -0.1256652689981906);
  (0.90937, -0.09500322691918225);
  (0.92730, -0.07547814117595672);
  (0.98702, -0.01306497632943713);
  (1.03391, 0.03334773167902748);
  (2.37367, 0.8644372806280414);
  (2.58221, 0.9486456214177007);
  (2.65580, 0.9767459275740902);
  (2.72883, 1.0038729459053146);
  (3.03766, 1.1110874821765124);
  (4.18833, 1.4323020864656089);
  (5.62829, 1.727805665998533)
]%float.

Definition sample_constants : Constants := {|
  VERSION := "1.0.2";
  GAP_OPEN := (-2.9)%float;
  GAP_EXTEND := 0%float;
  SCORE_CENTER := (-0.52)%float;
  SCORE_GUARD := (-1e37)%float;
  ID_GUARD := -1;
  LENGTH_GUARD := 1e37%float;
  AMINO_SCORE_MATRIX := sample_matrix;
  OTHER_SCORE_MATRIX := []
|}.

Fixpoint table_get (t : list (float * float)) (x : float) : option float :=
  match t with
  | [] => None
  | (k, v) :: t' => if PrimFloat.Leibniz.eqb k x then Some v else table_get t' x
  end.

(** The natural logarithm at the arguments listed in [sample_log_table],
    as the C library returns it; squaring by a correctly rounded product. *)
Definition sample_libm : Libm := {|
  c_log := fun x => match table_get sample_log_table x with
                    | Some y => y
                    | None => nan
                    end;
  c_pow := fun x _ => (x * x)%float
|}.

Definition SMALL_QUERY : list (string * string) := [("query", "GTIV")].

Definition SMALL_DB : list (string * string) := [("A", "GT-DVG"); ("B", "GTK-VG")].

(* ------------------------------------------------------------------ *)
(** ** Worked inputs *)

(** The alignment [{A: "BA-", B: "AZX"}] with the weights [[0.2, 0.8]]. *)
Definition wildcard_alignment : result Alignment :=
  Alignment_init [("A", "BA-"); ("B", "AZX")] None (Some [0.2; 0.8]%float) None.

(** [get_fractional_weighted_counts] on one column of it. *)
Definition wildcard_counts (consts : Constants) (libm : Libm) (col_index : Z)
    : result (list float) :=
  a <- wildcard_alignment ;;
  '(counts, _) <- get_fractional_weighted_counts consts libm a col_index ;;
  Ok counts.

(* ------------------------------------------------------------------ *)
(** ** Measures on paths *)

(** Columns of the query, and of the reference, that an edge consumes. *)
Definition query_step (t : Modification) : Z :=
  match t with
  | MATCH | DELETION => 1
  | INSERTION => 0
  end.

Definition reference_step (t : Modification) : Z :=
  match t with
  | MATCH | INSERTION => 1
  | DELETION => 0
  end.

Definition count_edges (t : Modification) (p : Path) : Z :=
  len (filter (fun e => Modification_eqb (type e) t) p).

Definition query_steps (p : Path) : Z :=
  fold_right (fun e acc => query_step (type e) + acc) 0 p.

Definition reference_steps (p : Path) : Z :=
  fold_right (fun e acc => reference_step (type e) + acc) 0 p.

(** The positions of the two sample alignments, as first built. *)
Definition built_positions (items : list (string * string)) : AlignmentPositions :=
  match (a <- Alignment_init items None None None ;;
         positions sample_constants sample_libm a) with
  | Ok (p, _) => p
  | _ => []
  end.

(** [no_fuel r]: the outcome [r] is a value or a Python exception, not an
    exhausted step budget. *)
Definition no_fuel {A} (r : result A) : Prop := r <> Fuel.

(** *** Frames on profile positions *)

(** The six fields that describe the column itself. *)
Definition same_profile (p p' : AlignmentPosition) : Prop :=
  sort_order p' = sort_order p /\ base_counts p' = base_counts p /\
  scores p' = scores p /\ ungapped_weight p' = ungapped_weight p /\
  gap_opens p' = gap_opens p /\ gap_closes p' = gap_closes p.

(** [after] is [before] up to the two terminal gap scores: only
    [score_gap_open] of the first position and [score_gap_close] of the
    last may differ, and then they are 0. *)
Definition terminal_frame (before after : AlignmentPositions) : Prop :=
  List.length after = List.length before /\
  forall (i : nat) (p p' : AlignmentPosition),
    nth_error before i = Some p -> nth_error after i = Some p' ->
    same_profile p p' /\
    (score_gap_open p' = score_gap_open p \/
     (i = 0%nat /\ score_gap_open p' = 0%float)) /\
    (score_gap_close p' = score_gap_close p \/
     (S i = List.length before /\ (1 < List.length before)%nat /\
      score_gap_close p' = 0%float)).

(** The sample alignments with their positions built, before any merge. *)
Definition empty_alignment : Alignment :=
  {| _col_count := 0; _alphabet := AMINO; _names := []; _sequences := [];
     _tree := None; _weights := None; _positions := None |}.

Definition built_alignment (items : list (string * string)) : Alignment :=
  match (a <- Alignment_init items None None None ;;
         positions sample_constants sample_libm a) with
  | Ok (_, a) => a
  | _ => empty_alignment
  end.

(** [score_gap_open] of the first built position of an alignment. *)
Definition first_gap_open (a : Alignment) : option float :=
  match _positions a with
  | Some (p :: _) => Some (score_gap_open p)
  | _ => None
  end.

(** *** Tree weights, as the specification words them *)

(** [root_path t node path]: [path] lists [node] and its ancestors up to,
    but not including, the root. *)
Inductive root_path (t : Tree) : Z -> list Z -> Prop :=
| root_path_root : root_path t (root_node_index t) []
| root_path_step (node parent : Z) (rest : list Z) :
    node <> root_node_index t ->
    get_parent t node = Ok parent ->
    root_path t parent rest ->
    root_path t node (node :: rest).

(** The strength of node [i], which has [leaves] leaves under it: 0 for
    the root, else the length of the edge to the parent divided by
    [leaves]. *)
Definition is_strength (t : Tree) (i leaves : Z) (s : float) : Prop :=
  if root_node_index t =? i then s = 0%float
  else exists parent length,
         get_parent t i = Ok parent /\
         get_edge_length t i parent = Ok length /\
         fdiv length (float_of_Z leaves) = Ok s.

(** The sum of the strengths of the nodes of [path]. *)
Definition path_weight (strengths : list float) (path : list Z) (w : float) : Prop :=
  exists ss, mapM (getitem strengths) path = Ok ss /\ w = fsum ss.

(** The degenerate-tree guard. *)
Definition guarded (raw : float) : float :=
  if (raw <? 0.0001)%float then 1%float else raw.

(** Not below zero: positive, zero or not a number. *)
Definition never_negative (x : float) : Prop := (x <? 0)%float = false.

(** The tree of test_tree.py. *)
Definition test_tree (consts : Constants) : result Tree :=
  let g := ID_GUARD consts in
  Tree_init consts 7 [4; 6; 4; 5; 5; 6; g] [g; g; g; g; 0; 3; 1] [g; g; g; g; 2; 4; 5]
    [2; 4; 6; 8; 10; 12; 14]%float [1; 3; 5; 7; 9; 11; 13]%float
    [50; 60; 70; 80; 90; 100; 110]%float ["A"; "B"; "C"; "D"] 6.

(** A tree of three leaves whose edges all have length 1e308. *)
Definition long_tree (consts : Constants) : result Tree :=
  let g := ID_GUARD consts in
  Tree_init consts 5 [3; 3; 4; 4; g] [g; g; g; 0; 3] [g; g; g; 1; 2]
    [0; 0; 0; 1e308; 1e308]%float [0; 0; 0; 1e308; 1e308]%float
    [1e308; 1e308; 1e308; 1e308; 0]%float ["A"; "B"; "C"] 4.

(** *** Signs of floats, read off their specification *)

(** Zero with a plus sign, positive, or not a number. *)
Definition sf_nonneg (x : spec_float) : bool :=
  match x with
  | S754_zero false | S754_finite false _ _ | S754_infinity false | S754_nan => true
  | _ => false
  end.

(** Positive or not a number. *)
Definition sf_pos (x : spec_float) : bool :=
  match x with
  | S754_finite false _ _ | S754_infinity false | S754_nan => true
  | _ => false
  end.

(** What [strength_of] appends for one entry of the enumeration. *)
Definition strength_value (t : Tree) (entry : Z * Z) : result float :=
  let '(i, leaves) := entry in
  if root_node_index t =? i then Ok 0%float
  else
    parent <- get_parent t i ;;
    length <- get_edge_length t i parent ;;
    fdiv length (float_of_Z leaves).

(** *** The small merge of the test suite *)

(** The profile of a column that holds the single residue [k]. *)
Definition one_hot (k : Z) : list float :=
  map (fun i => if i =? k then 1%float else 0%float) (range 0 20).

(** The score columns of D, G, I, K, T and V as test_positions.py and
    test_alignment.py list them, to five decimals. *)
Definition pinned_columns : list (Z * list float) :=
  map (fun k => (k, nth (Z.to_nat k) sample_matrix [])) [2; 5; 7; 8; 16; 17].

(** What the small merge needs of the constants and of the C library:
    the gap penalties and the centre of the program the module emulates,
    guards outside the ranges they delimit, the six score columns, and
    the logarithm at the scores it meets. *)
Record pinned (c : Constants) (libm : Libm) : Prop := {
  pin_gap_open : GAP_OPEN c = (-2.9)%float;
  pin_gap_extend : GAP_EXTEND c = 0%float;
  pin_score_center : SCORE_CENTER c = (-0.52)%float;
  pin_score_guard : SCORE_GUARD c = (-1e37)%float;
  pin_id_guard : ID_GUARD c < 0 \/ 2 < ID_GUARD c;
  pin_length_guard : (0 <? LENGTH_GUARD c)%float = true;
  pin_columns : forall k col, In (k, col) pinned_columns ->
                  profile_scores c AMINO (one_hot k) = Ok col;
  pin_log : forall x y, In (x, y) sample_log_table -> c_log libm x = y;
  pin_pow : c_pow libm 0 2 = 0%float
}.

(** [combine_alignments] on two alignments given as name-to-sequence
    items, and the dictionary of the result. *)
Definition merged (c : Constants) (libm : Libm)
    (query reference : list (string * string)) : result (list (string * string)) :=
  q <- Alignment_init query None None None ;;
  r <- Alignment_init reference None None None ;;
  result <- combine_alignments c libm q r ;;
  ResultAlignment_to_dict result.

(** Bitwise equality of two lists of floats. *)
Fixpoint floats_eqb (a b : list float) : bool :=
  match a, b with
  | [], [] => true
  | x :: a', y :: b' => PrimFloat.Leibniz.eqb x y && floats_eqb a' b'
  | _, _ => false
  end.

(** The scores listed in [t] for the profile [counts]. *)
Fixpoint column_get (t : list (list float * list float)) (counts : list float)
    : option (list float) :=
  match t with
  | [] => None
  | (key, col) :: t' =>
      if floats_eqb key counts then Some col else column_get t' counts
  end.

(** [pinned_columns] keyed by profile. *)
Definition pinned_profiles : list (list float * list float) :=
  map (fun '(k, col) => (one_hot k, col)) pinned_columns.

(** *** Merging a sequence with itself *)





(** *** The cache round trip *)

(** What a method that threads the alignment leaves untouched. *)
Definition keeps (a a' : Alignment) : Prop :=
  _col_count a' = _col_count a /\ _alphabet a' = _alphabet a /\
  _names a' = _names a /\ _sequences a' = _sequences a /\
  _positions a' = _positions a.

(** Cached weights number as many as the sequences (or none at all), and
    so do the leaves of a tree that is still to give the weights. *)
Definition weights_fit (a : Alignment) : Prop :=
  (forall w, _weights a = Some w -> w = [] \/ len w = len (_sequences a)) /\
  (_weights a = None -> forall t, _tree a = Some t -> leaf_count t = len (_sequences a)).

Definition steady (a a' : Alignment) : Prop :=
  keeps a a' /\ (weights_fit a -> weights_fit a').

(** The two equations of [__post_init__]. *)
Definition post_init (c : Constants) (p : AlignmentPosition) : Prop :=
  p = AlignmentPosition_init c (sort_order p) (base_counts p) (scores p)
        (ungapped_weight p) (gap_opens p) (gap_closes p).

(** An entry that [Sequence.from_string] returns unchanged when it reads
    it back from [str]. *)
Definition ingested (e : option ascii) : Prop :=
  match e with
  | None => True
  | Some ch => Sequence_ingest AMINO ch = Ok (Some ch)
  end.

(** *** Sequences and the constructor *)

(** An entry that [Sequence.from_string] of [alphabet] gives back
    unchanged when it reads it again. *)
Definition ingested_in (alphabet : Alphabet) (e : option ascii) : Prop :=
  match e with
  | None => True
  | Some ch => Sequence_ingest alphabet ch = Ok (Some ch)
  end.

(** The characters that [Sequence.from_string] of the amino alphabet
    keeps as they are: residues, wildcards and the hyphen. *)
Definition plain_amino (c : ascii) : bool :=
  str_in (str1 c) "ACDEFGHIKLMNPQRSTVWYBXZ-".

(** [Alignment.to_dict] *)
Definition Alignment_to_dict (self : Alignment) : list (string * string) :=
  let seqs := map Sequence_str (_sequences self) in
  dict_of_items (combine (_names self) seqs).

(** Truth of the three conditions under which [Alignment.__init__] raises
    after its first check. *)
Definition consistent_lengths (items : list (string * string)) : Prop :=
  forall n s, In (n, s) items -> strlen s = strlen (snd (hd ("", "") items)).

(** *** [set_terminal_gaps], position by position *)

(** What [set_terminal_gaps] does to the first position. *)
Definition open_reset (c : Constants) (p : AlignmentPosition) : AlignmentPosition :=
  if negb (score_gap_open p =? SCORE_GUARD c)%float
  then with_score_gap_open p 0%float else p.

(** What it does to the last position of a longer tuple. *)
Definition close_reset (c : Constants) (p : AlignmentPosition) : AlignmentPosition :=
  if negb (score_gap_open p =? SCORE_GUARD c)%float
  then with_score_gap_close p 0%float else p.

Fixpoint map_last {A} (g : A -> A) (l : list A) : list A :=
  match l with
  | [] => []
  | [x] => [g x]
  | x :: l' => x :: map_last g l'
  end.

(** The six fields of a position that a document must give. *)
Definition required_fields : list string :=
  ["sort_order"; "base_counts"; "scores"; "ungapped_weight"; "gap_opens"; "gap_closes"].

(** *** Traceback cells and the coordinates of a path *)

(** The bits that stand for a predecessor state in the M field of a
    traceback cell. *)
Definition match_bits (m : Modification) : Z :=
  match m with
  | MATCH => BIT_MM
  | DELETION => BIT_DM
  | INSERTION => BIT_IM
  end.

(** [located l]: in a list of edges read from the end of the path
    backwards, each edge records the columns consumed by itself and the
    edges before it on the path. *)
Fixpoint located (l : list Edge) : Prop :=
  match l with
  | [] => True
  | e :: l' =>
      query_length e = query_step (type e) + query_steps l' /\
      reference_length e = reference_step (type e) + reference_steps l' /\
      located l'
  end.

(** *** Aligned strings, column by column *)

(** The characters of an aligned string that stand at the edges of
    [edges] whose type is not [gap]. *)
Fixpoint kept_columns (gap : Modification) (edges : Path) (s : list ascii) : list ascii :=
  match edges, s with
  | e :: edges', ch :: s' =>
      if Modification_eqb (type e) gap then kept_columns gap edges' s'
      else ch :: kept_columns gap edges' s'
  | _, _ => []
  end.

(** The characters that stand at the edges of type [gap]. *)
Fixpoint gap_columns (gap : Modification) (edges : Path) (s : list ascii) : list ascii :=
  match edges, s with
  | e :: edges', ch :: s' =>
      if Modification_eqb (type e) gap then ch :: gap_columns gap edges' s'
      else gap_columns gap edges' s'
  | _, _ => []
  end.

(** An aligned string [s] against the sequence it was built from: one
    character per edge, hyphens at the edges of type [gap], and the
    sequence, printed, at the others. *)
Definition aligned_to (gap : Modification) (edges : Path) (seq : Sequence) (s : string)
    : Prop :=
  strlen s = len edges /\
  kept_columns gap edges (list_ascii_of_string s) = list_ascii_of_string (Sequence_str seq) /\
  Forall (fun ch => ch = "-"%char) (gap_columns gap edges (list_ascii_of_string s)).

(** An edge of the given type; its two counters play no part in applying
    a path. *)
Definition Edge_of (t : Modification) : Edge :=
  {| type := t; query_length := 0; reference_length := 0 |}.

(** *** Looking up one reference of a merge *)

(** [Alignment.get_sequence_by_name]: the dictionary [_sequence_by_name]
    holds the names and the sequences in the order of [_names] and
    [_sequences]. *)
Definition get_sequence_by_name (self : Alignment) (name : string) : result Sequence :=
  match dict_get String.eqb (combine (_names self) (_sequences self)) name with
  | Some s => Ok s
  | None => Raise (KeyError name)
  end.

Definition get_aligned_pair (consts : Constants) (libm : Libm)
    (query_sequence reference_name : string) (alignment : Alignment)
    : result (string * string) :=
  ref_seq <- match get_sequence_by_name alignment reference_name with
             | Raise (KeyError _) => Raise ValueError
             | r => r
             end ;;
  query <- Alignment_init [("query", query_sequence)] None None None ;;
  result <- combine_alignments consts libm query alignment ;;
  let path := path result in
  query_seq <- Sequence_from_string query_sequence (_alphabet alignment) ;;
  query_align <- build_query_result query_seq path ;;
  ref_align <- build_reference_result ref_seq path ;;
  Ok (query_align, ref_align).

(* ------------------------------------------------------------------ *)
(** ** _cmd.py: MUSCLE-style arguments *)

(** [x in l] *)
Definition list_in (x : string) (l : list string) : bool :=
  existsb (String.eqb x) l.

(** [l.index(x)]: the first place of [x], [ValueError] if there is none. *)
Fixpoint list_index (l : list string) (x : string) : result Z :=
  match l with
  | [] => Raise ValueError
  | y :: l' => if String.eqb y x then Ok 0 else i <- list_index l' x ;; Ok (i + 1)
  end.

Fixpoint remove_nth {A} (l : list A) (k : nat) : list A :=
  match l, k with
  | [], _ => []
  | _ :: l', O => l'
  | y :: l', S k' => y :: remove_nth l' k'
  end.

(** [l.pop(i)], keeping the list that is left. *)
Definition list_pop {A} (l : list A) (i : Z) : result (list A) :=
  k <- resolve_index (len l) i ;;
  Ok (remove_nth l k).

Definition _swap_muscle_args (args : list string) : result (list string) :=
  if existsb (fun a => list_in a ["-profile"; "-in1"; "-in2"]) args then
    args <- (if list_in "-quiet" args
             then i <- list_index args "-quiet" ;; list_pop args i
             else Ok args) ;;
    i <- list_index args "-profile" ;;
    args <- list_pop args i ;;
    i <- list_index args "-in1" ;;
    args <- list_pop args i ;;
    if list_in "-in2" args
    then i <- list_index args "-in2" ;; setitem args i "--reference-alignment"
    else Ok args
  else Ok args.

(** The list without its first [x], and with its first [x] turned into
    [z]. *)
Fixpoint without_first (x : string) (l : list string) : list string :=
  match l with
  | [] => []
  | y :: l' => if String.eqb y x then l' else y :: without_first x l'
  end.

Fixpoint rename_first (x z : string) (l : list string) : list string :=
  match l with
  | [] => []
  | y :: l' => if String.eqb y x then z :: l' else y :: rename_first x z l'
  end.

(** The arguments that are no MUSCLE flag and not the option a flag is
    turned into. *)
Definition plain_argument (a : string) : bool :=
  negb (list_in a ["-quiet"; "-profile"; "-in1"; "-in2"; "--reference-alignment"]).

(* ------------------------------------------------------------------ *)
(** ** alignment.py: reading FASTA *)

(** [str.isspace] of one character; a character stands for its code
    point, below 256. *)
Definition is_space (c : ascii) : bool :=
  let n := N_of_ascii c in
  ((9 <=? n) && (n <=? 13) || (28 <=? n) && (n <=? 32) || (n =? 133) || (n =? 160))%N.

Fixpoint lstrip_list (l : list ascii) : list ascii :=
  match l with
  | [] => []
  | c :: l' => if is_space c then lstrip_list l' else l
  end.

(** [s.strip()] *)
Definition strip (s : string) : string :=
  string_of_list_ascii
    (rev (lstrip_list (rev (lstrip_list (list_ascii_of_string s))))).

(** [s[1:]] *)
Definition str_tail (s : string) : string :=
  match s with
  | EmptyString => EmptyString
  | String _ s' => s'
  end.

Definition is_nil {A} (l : list A) : bool :=
  match l with
  | [] => true
  | _ :: _ => false
  end.

(** The body of the loop of [Alignment.from_file] for a line that has been
    stripped. *)
Definition from_file_entry (st : list string * list (list string)) (line : string)
    : result (list string * list (list string)) :=
  let '(names, seqs) := st in
  if prefix ">" line then
    missing <- (if is_nil seqs then Ok false
                else last <- getitem seqs (-1) ;; Ok (is_nil last)) ;;
    if missing then Raise ValueError
    else Ok (names ++ [str_tail line], seqs ++ [[]])
  else if negb (String.eqb line "") then
    if is_nil seqs then Raise ValueError
    else
      last <- getitem seqs (-1) ;;
      seqs <- setitem seqs (-1) (last ++ [line]) ;;
      Ok (names, seqs)
  else Ok (names, seqs).

(** [Alignment.from_file]; [handle] lists the lines the handle yields
    when iterated over (a handle without [read] is not modelled). *)
Definition Alignment_from_file (handle : list string) : result Alignment :=
  '(names, seqs) <- foldM (fun st line => from_file_entry st (strip line))
                      handle ([], []) ;;
  if negb (len names =? len seqs) then Raise ValueError
  else
    _ <- foldM (fun (_ : unit) '(name, seq) =>
                  if is_nil seq then Raise ValueError else Ok tt)
           (combine names seqs) tt ;;
    let combined := map (String.concat "") seqs in
    Alignment_init (dict_of_items (combine names combined)) None None None.

(** The line feed that ends a line read from a file. *)
Definition NEWLINE : string := String "010"%char EmptyString.

(** The lines of FASTA records: a header with the name, then the pieces
    of the sequence. *)
Definition fasta_lines (records : list (string * list string)) : list string :=
  List.concat (map (fun r => (">" ++ fst r)%string :: snd r) records).

Definition nonblank (s : string) : bool := negb (String.eqb s "").

(** A record has at least one piece, and no piece looks like a header. *)
Definition record_ok (r : string * list string) : Prop :=
  snd r <> [] /\ Forall (fun p => prefix ">" p = false) (snd r).

(* ------------------------------------------------------------------ *)
(** ** alignment.py: writing FASTA *)

(** [range(lo, hi, step)] for a step other than 0. *)
Definition range_step (lo hi step : Z) : list Z :=
  let count := if 0 <? step then (hi - lo + step - 1) / step
               else (lo - hi - step - 1) / (- step) in
  map (fun k => lo + step * Z.of_nat k) (seq 0 (Z.to_nat count)).

(** [s[lo:hi]] *)
Definition str_slice (s : string) (lo hi : Z) : string :=
  let n := strlen s in
  let clamp := fun i => if i <? 0 then Z.max (i + n) 0 else Z.min i n in
  let lo := clamp lo in
  let hi := clamp hi in
  substring (Z.to_nat lo) (Z.to_nat (hi - lo)) s.

(** [Alignment.to_file]: the strings written to the handle, in their
    order; [linesep] is [os.linesep]. *)
Definition Alignment_to_file (linesep : string) (self : Alignment) (columns : Z)
    : result (list string) :=
  _ <- assert (negb (_col_count self =? 0)) ;;
  let seqs := map Sequence_str (_sequences self) in
  let columns := if columns <? 1 then _col_count self else columns in
  Ok (List.concat
        (map (fun '(name, seq) =>
                [(">" ++ name)%string; linesep]
                ++ List.concat
                     (map (fun i => [str_slice seq i (i + columns); linesep])
                        (range_step 0 (_col_count self) columns)))
           (combine (_names self) seqs))).

(** The lines that iterating over a text buffer gives: a line ends after
    each line feed, and what follows the last one is a line if it is not
    empty.  [cur] holds the current line, backwards. *)
Fixpoint lines_from (cur : list ascii) (content : list ascii) : list string :=
  match content with
  | [] =>
      match cur with
      | [] => []
      | _ :: _ => [string_of_list_ascii (rev cur)]
      end
  | c :: content' =>
      if Ascii.eqb c "010"
      then string_of_list_ascii (rev (c :: cur)) :: lines_from [] content'
      else lines_from (c :: cur) content'
  end.

(** The lines read back from a buffer after the given writes. *)
Definition written_lines (writes : list string) : list string :=
  lines_from [] (list_ascii_of_string (String.concat "" writes)).

(** A name that comes back from a header line: it has no line feed and
    does not end in whitespace. *)
Definition name_ok (name : string) : bool :=
  forallb (fun c => negb (Ascii.eqb c "010")) (list_ascii_of_string name)
  && match rev (list_ascii_of_string name) with
     | [] => true
     | c :: _ => negb (is_space c)
     end.

(** A line separator: whitespace that ends in its only line feed. *)
Definition linesep_ok (linesep : string) : bool :=
  match rev (list_ascii_of_string linesep) with
  | [] => false
  | c :: before =>
      Ascii.eqb c "010"
      && forallb (fun x => is_space x && negb (Ascii.eqb x "010")) before
  end.

(** A line that is not empty, has no line feed, and neither begins nor
    ends with whitespace. *)
Definition clean_line (l : string) : Prop :=
  l <> "" /\
  Forall (fun c => Ascii.eqb c "010" = false) (list_ascii_of_string l) /\
  (forall c l', list_ascii_of_string l = c :: l' -> is_space c = false) /\
  (forall c l', rev (list_ascii_of_string l) = c :: l' -> is_space c = false).


(** The pieces [to_file] cuts a sequence into. *)
Definition pieces (columns count : Z) (seq : string) : list string :=
  map (fun i => str_slice seq i (i + columns)) (range_step 0 count columns).

(** *** Writing a merged alignment *)

(** What the generator [ResultAlignment.sequences] is about to yield:
    every sequence is built, or fails to, when the generator gets to it. *)
Definition ResultAlignment_rows (self : ResultAlignment) : list (result string) :=
  map (fun seq =>
         r <- in_generator (build_query_result seq (path self)) ;;
         _ <- assert (negb (String.eqb r "")) ;;
         Ok r)
    (_sequences (_query self))
  ++ map (fun seq =>
            r <- in_generator (build_reference_result seq (path self)) ;;
            _ <- assert (negb (String.eqb r "")) ;;
            Ok r)
       (_sequences (_reference self)).

(** [ResultAlignment.to_file]: the strings written to the handle when the
    call returns; [zip] stops at the shorter of names and sequences, and a
    step of 0 makes [range] raise [ValueError]. *)
Definition ResultAlignment_to_file (linesep : string) (self : ResultAlignment)
    (columns : Z) : result (list string) :=
  let columns := if columns <? 1 then len (path self) else columns in
  foldM (fun written '(name, row) =>
           seq <- row ;;
           if columns =? 0 then Raise ValueError
           else
             Ok (written
                 ++ [(">" ++ name)%string; linesep]
                 ++ List.concat
                      (map (fun i => [str_slice seq i (i + columns); linesep])
                         (range_step 0 (strlen seq) columns))))
    (combine (ResultAlignment_names self) (ResultAlignment_rows self)) [].

(* ------------------------------------------------------------------ *)
(* ------------------------------------------------------------------ *)
(** ** The values of floats

    What the operations on binary64 floats compute is read off their
    specification ([SpecFloat]) as statements about real numbers. *)

(** A power of two. *)
Definition bpow (e : Z) : R := powerRZ 2 e.

(** The real number a finite float stands for; 0 for the others. *)
Definition B2R (x : spec_float) : R :=
  match x with
  | S754_finite s m e => ((if s then -1 else 1) * IZR (Zpos m) * bpow e)%R
  | _ => 0%R
  end.

(** The same with the infinities put just beyond the largest float. *)
Definition B2E (x : spec_float) : R :=
  match x with
  | S754_infinity s => ((if s then -1 else 1) * bpow emax)%R
  | _ => B2R x
  end.

Definition F2R (x : float) : R := B2R (Prim2SF x).
Definition F2E (x : float) : R := B2E (Prim2SF x).

(** Neither an infinity nor not-a-number. *)
Definition sf_finite (x : spec_float) : bool :=
  match x with
  | S754_zero _ | S754_finite _ _ _ => true
  | _ => false
  end.

Definition sf_nan (x : spec_float) : bool :=
  match x with
  | S754_nan => true
  | _ => false
  end.

Definition fl_finite (x : float) : bool := sf_finite (Prim2SF x).
Definition fl_number (x : float) : bool := negb (sf_nan (Prim2SF x)).

(** Where a real number lies between the integer [shr_m] and the next
    one, as the two bits of a shift record say. *)
Definition inb (mrs : shr_record) (x : R) : Prop :=
  match shr_r mrs, shr_s mrs with
  | false, false => x = IZR (shr_m mrs)
  | false, true => (IZR (shr_m mrs) < x < IZR (shr_m mrs) + / 2)%R
  | true, false => x = (IZR (shr_m mrs) + / 2)%R
  | true, true => (IZR (shr_m mrs) + / 2 < x < IZR (shr_m mrs) + 1)%R
  end.

(** [n] is the integer next to [x], the even one of two. *)
Definition nearest_even (x : R) (n : Z) : Prop :=
  (Rabs (IZR n - x) <= / 2)%R /\ (Rabs (IZR n - x) = / 2 -> Z.even n = true)%R.

(** Rounding the positive number [v] at the exponent [e] gives the
    mantissa [n]: [e] is the exponent of the format for [v] and [n] the
    integer nearest to [v / 2^e], the even one in a tie. *)
Definition round_at (v : R) (e n : Z) : Prop :=
  -1074 <= e /\
  nearest_even (v / bpow e) n /\
  0 <= n /\
  (v / bpow e < bpow prec)%R /\
  (e = -1074 \/ (bpow (prec - 1) <= v / bpow e)%R).

(** The float nearest to a positive number, with the value [2^emax]
    standing for the infinity. *)
Definition rounds_pos (v r : R) : Prop :=
  exists (e : Z) (n : Z), round_at v e n /\ r = Rmin (IZR n * bpow e) (bpow emax).

Definition rounds (v r : R) : Prop :=
  (v = 0 /\ r = 0)%R \/ (0 < v /\ rounds_pos v r)%R \/ (v < 0 /\ rounds_pos (- v) (- r))%R.


(** The outcome of rounding: the mantissa [n] at the exponent [e1]. *)
Definition rounded (sx : bool) (n e1 : Z) (r : spec_float) : Prop :=
  (n = 0 /\ r = S754_zero sx) \/
  (0 < n /\ (IZR n * bpow e1 < bpow emax)%R /\
   exists m e, r = S754_finite sx m e /\
               (IZR (Zpos m) * bpow e = IZR n * bpow e1)%R /\
               SpecFloat.bounded prec emax m e = true) \/
  (0 < n /\ (bpow emax <= IZR n * bpow e1)%R /\ r = S754_infinity sx).


(** The sign of a float as a factor. *)
Definition sgn (s : bool) : R := if s then (-1)%R else 1%R.

(** Validity, on floats. *)
Definition sf_valid (x : spec_float) : bool := SpecFloat.valid_binary prec emax x.

(** The half unit in the last place and the half of the smallest
    positive number. *)
Definition u_half : R := bpow (- 53).
Definition eta_half : R := bpow (- 1075).

(** The exact sum of the values of a list of floats. *)
Definition Rsum (l : list float) : R :=
  fold_right (fun v a => (F2R v + a)%R) 0%R l.

(** Finite and not below zero. *)
Definition fl_nonneg (x : float) : Prop :=
  fl_finite x = true /\ (0 <= F2R x)%R.

(** A tree of three leaves whose edges all have infinite length. *)
Definition endless_tree (consts : Constants) : result Tree :=
  let g := ID_GUARD consts in
  Tree_init consts 5 [3; 3; 4; 4; g] [g; g; g; 0; 3] [g; g; g; 1; 2]
    [0; 0; 0; infinity; infinity]%float [0; 0; 0; infinity; infinity]%float
    [infinity; infinity; infinity; infinity; 0]%float ["A"; "B"; "C"] 4.

(** Zero or not a number: what a division by an infinity or by
    not-a-number gives. *)
Definition zero_or_nan (x : float) : bool :=
  match Prim2SF x with
  | S754_zero _ | S754_nan => true
  | _ => false
  end.

(** * Properties *)

(** ** Generic facts about the run-time model *)

Lemma bind_Ok {A B} (m : result A) (k : A -> result B) (b : B) :
  bind m k = Ok b -> exists a, m = Ok a /\ k a = Ok b.
Proof.
  destruct m as [a | e |]; simpl; intros H; try discriminate.
  exists a; split; [reflexivity | exact H].
Qed.

Lemma assert_Ok (b : bool) (u : unit) : assert b = Ok u -> b = true.
Proof. destruct b; simpl; [reflexivity | discriminate]. Qed.

(** Splits a hypothesis [x <- m ;; k = Ok b] into its two steps. *)
Ltac bind_inv H :=
  let a := fresh "a" in
  let Ha := fresh "Ha" in
  apply bind_Ok in H; destruct H as (a & Ha & H).

(* ------------------------------------------------------------------ *)
(** ** alphabet.py *)

Lemma is_residue_RNA (c : string) :
  c <> "" -> is_residue (Some c) RNA = Raise NotImplementedError.
Proof. destruct c; [congruence | reflexivity]. Qed.

Lemma ingest_RNA (ch : ascii) :
  is_gap_char (str1 ch) = false -> Sequence_ingest RNA ch = Raise NotImplementedError.
Proof. intros H. unfold Sequence_ingest. rewrite H. reflexivity. Qed.

Lemma ingest_gap (alphabet : Alphabet) (ch : ascii) :
  is_gap_char (str1 ch) = true -> Sequence_ingest alphabet ch = Ok None.
Proof. intros H. unfold Sequence_ingest. rewrite H. reflexivity. Qed.

Lemma from_string_RNA (l : list ascii) :
  existsb (fun ch => negb (is_gap_char (str1 ch))) l = true ->
  mapM (Sequence_ingest RNA) l = Raise NotImplementedError.
Proof.
  induction l as [| ch l IH]; simpl; [discriminate |].
  destruct (is_gap_char (str1 ch)) eqn:G; simpl.
  - intros H. rewrite (ingest_gap RNA ch G). simpl. rewrite (IH H). reflexivity.
  - intros _. rewrite (ingest_RNA ch G). reflexivity.
Qed.

(** C10: with the RNA alphabet, [is_residue] and [is_wildcard] raise
    [NotImplementedError] on every character that is neither [None] nor
    empty; so ingesting a line that holds anything but gap characters
    raises it too, and so does one step of profile counting on a residue. *)
Theorem rna_classification_raises (c : string) :
  c <> "" ->
  is_residue (Some c) RNA = Raise NotImplementedError /\
  is_wildcard (Some c) RNA = Raise NotImplementedError /\
  (forall line,
     existsb (fun ch => negb (is_gap_char (str1 ch))) (list_ascii_of_string line) = true ->
     Sequence_from_string line RNA = Raise NotImplementedError) /\
  (forall col st seq weight ch,
     getitem seq col = Ok (Some ch) ->
     count_step RNA col st (seq, weight) = Raise NotImplementedError).
Proof.
  intros Hc. split; [exact (is_residue_RNA Hc) |]. split; [reflexivity |]. split.
  - intros line H. exact (from_string_RNA _ H).
  - intros col [counts total] seq weight ch H. unfold count_step. rewrite H. reflexivity.
Qed.

Lemma rna_classification_raises_witness :
  is_residue (Some "A") RNA = Raise NotImplementedError /\
  is_wildcard (Some "A") RNA = Raise NotImplementedError.
Proof.
  assert (H : "A" <> "") by discriminate.
  destruct (rna_classification_raises H) as (H1 & H2 & _).
  split; assumption.
Defined.

(* ------------------------------------------------------------------ *)
(** ** The cache file: errors *)

Lemma not_json_is_invalid_format (consts : Constants) :
  from_cache_file consts None = Raise InvalidCacheFormatError.
Proof. reflexivity. Qed.

Lemma other_version_is_mismatch (consts : Constants) (items : list (string * json))
    (version : json) :
  dict_get String.eqb items "version" = Some version ->
  version <> JStr (VERSION consts) ->
  from_cache_file consts (Some (JObj items)) = Raise MismatchedCacheVersionError.
Proof.
  intros Hv Hne. unfold from_cache_file, subscript. rewrite Hv. simpl.
  destruct version as [| b | n | x | s | l | o]; try reflexivity.
  destruct (String.eqb_spec s (VERSION consts)) as [-> | _]; [congruence | reflexivity].
Qed.

Lemma missing_version_is_KeyError (consts : Constants) (items : list (string * json)) :
  dict_get String.eqb items "version" = None ->
  from_cache_file consts (Some (JObj items)) = Raise (KeyError "version").
Proof.
  intros Hv. unfold from_cache_file, subscript. rewrite Hv. reflexivity.
Qed.

(** C3: what [from_cache_file] raises.  A body that is not JSON gives
    [InvalidCacheFormatError], and a version entry other than the current
    one gives [MismatchedCacheVersionError]; but a JSON object that lacks
    the keys, here the empty object and an object holding the version
    only, leaves with a [KeyError], not with [InvalidCacheFormatError]. *)
Theorem cache_missing_keys_raise_KeyError (consts : Constants) :
  from_cache_file consts None = Raise InvalidCacheFormatError /\
  from_cache_file consts (Some (JObj [("version", JNull)]))
    = Raise MismatchedCacheVersionError /\
  from_cache_file consts (Some (JObj [])) = Raise (KeyError "version") /\
  from_cache_file consts (Some (JObj [("version", JStr (VERSION consts))]))
    = Raise (KeyError "positions").
Proof.
  split; [reflexivity |]. split; [reflexivity |]. split; [reflexivity |].
  unfold from_cache_file, subscript. simpl. rewrite String.eqb_refl. reflexivity.
Qed.

(* ------------------------------------------------------------------ *)
(** ** Fractional weighted counts *)

(** The claim of C5 fails as stated for the third column: the entries
    are not the double nearest to 0.05. *)
Lemma wildcard_counts_not_exact :
  wildcard_counts sample_constants sample_libm 2 <> Ok (replicate 20 0.05%float).
Proof. vm_compute. discriminate. Qed.

(** C5, amended: on [{A: "BA-", B: "AZX"}] with weights [[0.2, 0.8]],
    column 0 has A = 0.8, D = 0.1, N = 0.1 and column 1 has A = 0.2,
    E = 0.4, Q = 0.4, all other entries 0, exactly; every entry of column
    2 is the double 0.8 / 20 / 0.8 = 0.049999999999999996, which is
    within 1e-5 of 0.05. *)
Theorem wildcard_counts_values (consts : Constants) (libm : Libm) :
  wildcard_counts consts libm 0
    = Ok [0.8; 0; 0.1; 0; 0; 0; 0; 0; 0; 0; 0; 0.1; 0; 0; 0; 0; 0; 0; 0; 0]%float /\
  wildcard_counts consts libm 1
    = Ok [0.2; 0; 0; 0.4; 0; 0; 0; 0; 0; 0; 0; 0; 0; 0.4; 0; 0; 0; 0; 0; 0]%float /\
  wildcard_counts consts libm 2 = Ok (replicate 20 (0.8 / 20 / 0.8)%float) /\
  (0.8 / 20 / 0.8)%float = 0.049999999999999996%float /\
  (abs (0.8 / 20 / 0.8 - 0.05) <? 1e-5)%float = true.
Proof.
  repeat split; vm_compute; reflexivity.
Qed.

(* ------------------------------------------------------------------ *)
(** ** distance.py *)

Lemma kimura_table_length : len _KIMURA_TABLE = 181.
Proof. reflexivity. Qed.

(** The two ends of the table range: the difference 0.75 reads entry 0,
    the difference 0.93 reads entry 180, the last one. *)
Lemma kimura_table_ends (libm : Libm) :
  calculate_distance libm 0.25 = Ok 1.95%float /\
  calculate_distance libm 0.07 = Ok 9.88%float.
Proof. split; vm_compute; reflexivity. Qed.

(** C6: [calculate_distance] by cases on [d = 1 - p].  Below 0.75 it is
    the negated logarithm of [1 - d - d^2/5] (whenever the power and the
    logarithm are defined there); above 0.93 it is 10; otherwise it is
    the entry of the 181-entry table at [floor((d - 0.75) * 1000 + 0.5)].
    With a C library for which [log(1) = 0], [pow(0, 2) = 0] and
    [pow(0.5, 2) = 0.25]: the distance at similarity 1 compares equal to
    0, at similarity 0 it is 10, and at 0.5 it is the closed form
    [-log(0.45)]. *)
Theorem calculate_distance_cases (libm : Libm) (p : float) :
  c_log libm 1 = 0%float ->
  c_pow libm 0 2 = 0%float ->
  c_pow libm 0.5 2 = 0.25%float ->
  let d := (1 - p)%float in
  ((d <? 0.75)%float = true ->
   forall sq, square libm d = Ok sq ->
   (1 - d - sq / 5 <=? 0)%float = false ->
   calculate_distance libm p = Ok (- c_log libm (1 - d - sq / 5))%float) /\
  ((d <? 0.75)%float = false -> (0.93 <? d)%float = true ->
   calculate_distance libm p = Ok 10%float) /\
  ((d <? 0.75)%float = false -> (0.93 <? d)%float = false ->
   calculate_distance libm p =
     (index <- floor ((d - 0.75) * 1000 + 0.5)%float ;; getitem _KIMURA_TABLE index)) /\
  len _KIMURA_TABLE = 181 /\
  (exists r, calculate_distance libm 1 = Ok r /\ (r =? 0)%float = true) /\
  calculate_distance libm 0 = Ok 10%float /\
  calculate_distance libm 0.5 = Ok (- c_log libm (1 - 0.5 - 0.5 * 0.5 / 5))%float.
Proof.
  intros Hlog Hpow0 Hpow d. unfold calculate_distance. fold d.
  split; [| split; [| split; [| split; [| split; [| split]]]]].
  - intros Hd sq Hsq Harg. rewrite Hd, Hsq. simpl.
    unfold math_log. rewrite Harg. reflexivity.
  - intros Hd Hd'. rewrite Hd, Hd'. reflexivity.
  - intros Hd Hd'. rewrite Hd, Hd'. reflexivity.
  - reflexivity.
  - exists (- 0)%float. split; [| reflexivity].
    change (1 - 1)%float with 0%float. change (0 <? 0.75)%float with true.
    cbv iota. unfold square. rewrite Hpow0. simpl.
    unfold math_log. change (1 - 0 - 0 / 5)%float with 1%float.
    change (1 <=? 0)%float with false. cbv iota. rewrite Hlog. reflexivity.
  - reflexivity.
  - change (1 - 0.5)%float with 0.5%float. change (0.5 <? 0.75)%float with true.
    cbv iota. unfold square. rewrite Hpow. simpl.
    unfold math_log. change (0.25 / 5)%float with (0.5 * 0.5 / 5)%float.
    change (1 - 0.5 - 0.5 * 0.5 / 5 <=? 0)%float with false. reflexivity.
Qed.

Lemma calculate_distance_cases_witness :
  (exists r, calculate_distance sample_libm 1 = Ok r /\ (r =? 0)%float = true) /\
  calculate_distance sample_libm 0 = Ok 10%float.
Proof.
  pose proof (calculate_distance_cases sample_libm 0.5
                (eq_refl : c_log sample_libm 1 = 0%float)
                (eq_refl : c_pow sample_libm 0 2 = 0%float)
                (eq_refl : c_pow sample_libm 0.5 2 = 0.25%float)) as H.
  simpl in H. destruct H as (_ & _ & _ & _ & H1 & H0 & _).
  split; assumption.
Defined.

(* ------------------------------------------------------------------ *)
(** ** align.py: the shape of a path *)

Lemma Edge_init_Ok (t : Modification) (q r : Z) (e : Edge) :
  Edge_init t q r = Ok e ->
  type e = t /\ query_length e = q /\ reference_length e = r /\ 0 <= q /\ 0 <= r.
Proof.
  unfold Edge_init. intros H. bind_inv H. bind_inv H.
  apply assert_Ok in Ha, Ha0. apply Z.leb_le in Ha, Ha0.
  inversion H; subst; simpl. repeat split; solve [reflexivity | lia].
Qed.

Lemma query_steps_cons (e : Edge) (p : Path) :
  query_steps (e :: p) = query_step (type e) + query_steps p.
Proof. reflexivity. Qed.

Lemma reference_steps_cons (e : Edge) (p : Path) :
  reference_steps (e :: p) = reference_step (type e) + reference_steps p.
Proof. reflexivity. Qed.

Lemma query_steps_app (p1 p2 : Path) :
  query_steps (p1 ++ p2) = query_steps p1 + query_steps p2.
Proof. induction p1 as [| e p1 IH]; simpl; [reflexivity | rewrite IH; lia]. Qed.

Lemma reference_steps_app (p1 p2 : Path) :
  reference_steps (p1 ++ p2) = reference_steps p1 + reference_steps p2.
Proof. induction p1 as [| e p1 IH]; simpl; [reflexivity | rewrite IH; lia]. Qed.

Lemma query_steps_rev (p : Path) : query_steps (rev p) = query_steps p.
Proof.
  induction p as [| e p IH]; simpl; [reflexivity |].
  rewrite query_steps_app, IH. simpl. lia.
Qed.

Lemma reference_steps_rev (p : Path) : reference_steps (rev p) = reference_steps p.
Proof.
  induction p as [| e p IH]; simpl; [reflexivity |].
  rewrite reference_steps_app, IH. simpl. lia.
Qed.

Lemma steps_count (p : Path) :
  query_steps p = count_edges MATCH p + count_edges DELETION p /\
  reference_steps p = count_edges MATCH p + count_edges INSERTION p.
Proof.
  unfold count_edges, len.
  induction p as [| e p [IHq IHr]]; [split; reflexivity |].
  cbn [query_steps reference_steps fold_right filter].
  fold (query_steps p). fold (reference_steps p). rewrite IHq, IHr.
  destruct (type e); cbn [Modification_eqb query_step reference_step List.length];
    rewrite ?Nat2Z.inj_succ; lia.
Qed.

(** What the loop appends accounts exactly for the counters of the edge
    it starts from. *)
Lemma build_path_loop_steps (tb : list (list Z)) (steps : nat) :
  forall (edge : Edge) (acc res : list Edge),
    build_path_loop steps tb edge acc = Ok res ->
    exists extra,
      res = acc ++ extra /\
      query_length edge = query_step (type edge) + query_steps extra /\
      reference_length edge = reference_step (type edge) + reference_steps extra.
Proof.
  induction steps as [| n IH]; intros edge acc res H; simpl in H; [discriminate |].
  bind_inv H. bind_inv H. bind_inv H. rename a1 into next.
  destruct (type edge) eqn:T; simpl in H;
    match type of H with
    | (if ?b then _ else _) = _ => destruct b eqn:Z
    end.
  all: try (inversion H; subst; exists []; rewrite app_nil_r; simpl;
            apply andb_true_iff in Z; destruct Z as [Zq Zr];
            apply Z.eqb_eq in Zq, Zr; repeat split; lia).
  all: bind_inv H; rename a1 into copy;
       apply Edge_init_Ok in Ha2; destruct Ha2 as (Ct & Cq & Cr & _ & _);
       apply IH in H; destruct H as (extra & -> & Hq & Hr);
       exists (copy :: extra); rewrite <- app_assoc;
       rewrite query_steps_cons, reference_steps_cons;
       cbn [query_step reference_step app];
       repeat split; lia.
Qed.

Lemma build_path_steps (tb : list (list Z)) (q r : Z) (last : Modification) (p : Path) :
  build_path tb q r last = Ok p ->
  query_steps p = q /\ reference_steps p = r.
Proof.
  unfold build_path. intros H. bind_inv H. bind_inv H. bind_inv H.
  inversion H; subst; clear H.
  apply Edge_init_Ok in Ha. destruct Ha as (Et & Eq & Er & _ & _).
  apply Edge_init_Ok in Ha0. destruct Ha0 as (Ct & Cq & Cr & _ & _).
  apply build_path_loop_steps in Ha1. destruct Ha1 as (extra & -> & Hq & Hr).
  rewrite query_steps_rev, reference_steps_rev.
  change ([a0] ++ extra) with (a0 :: extra).
  rewrite query_steps_cons, reference_steps_cons, Ct. lia.
Qed.

(** *** The step budget *)

Create HintDb nofuel discriminated.

Lemma no_fuel_Ok {A} (a : A) : no_fuel (Ok a).
Proof. discriminate. Qed.

Lemma no_fuel_Raise {A} (e : exn) : no_fuel (@Raise A e).
Proof. discriminate. Qed.

Lemma no_fuel_bind {A B} (m : result A) (k : A -> result B) :
  no_fuel m -> (forall a, m = Ok a -> no_fuel (k a)) -> no_fuel (bind m k).
Proof.
  unfold no_fuel. intros Hm Hk. destruct m as [a | e |]; simpl;
    [apply Hk; reflexivity | discriminate | congruence].
Qed.

Lemma no_fuel_foldM {A S} (body : S -> A -> result S) (l : list A) :
  (forall s x, no_fuel (body s x)) -> forall s, no_fuel (foldM body l s).
Proof.
  intros Hb. induction l as [| x l IH]; intros s; simpl; [discriminate |].
  apply no_fuel_bind; [apply Hb | intros s' _; apply IH].
Qed.

Lemma no_fuel_mapM {A B} (f : A -> result B) (l : list A) :
  (forall x, no_fuel (f x)) -> no_fuel (mapM f l).
Proof.
  intros Hf. induction l as [| x l IH]; simpl; [discriminate |].
  apply no_fuel_bind; [apply Hf | intros y _].
  apply no_fuel_bind; [apply IH | intros ys _; discriminate].
Qed.

Lemma no_fuel_resolve_index (n i : Z) : no_fuel (resolve_index n i).
Proof. unfold resolve_index. destruct (_ || _); discriminate. Qed.

Lemma no_fuel_getitem {A} (l : list A) (i : Z) : no_fuel (getitem l i).
Proof.
  unfold getitem. apply no_fuel_bind; [apply no_fuel_resolve_index |].
  intros k _. destruct (nth_error l k); discriminate.
Qed.

Lemma no_fuel_setitem {A} (l : list A) (i : Z) (x : A) : no_fuel (setitem l i x).
Proof.
  unfold setitem. apply no_fuel_bind; [apply no_fuel_resolve_index |].
  intros k _. discriminate.
Qed.

Lemma no_fuel_assert (b : bool) : no_fuel (assert b).
Proof. destruct b; discriminate. Qed.

#[local] Hint Resolve no_fuel_Ok no_fuel_Raise no_fuel_resolve_index no_fuel_getitem
  no_fuel_setitem no_fuel_assert : nofuel.

(** Walks through a monadic body: every step is closed by a hint, every
    branch is split. *)
Ltac no_fuel_step :=
  first
    [ solve [auto with nofuel]
    | apply no_fuel_bind; [| intros ? _]
    | apply no_fuel_foldM; intros
    | apply no_fuel_mapM; intros
    | match goal with
      | |- no_fuel (if ?b then _ else _) => destruct b
      | |- no_fuel (let '(_, _) := ?p in _) => destruct p
      | |- no_fuel ((let '(_, _) := ?p in _) _) => destruct p
      | |- no_fuel (match ?x with _ => _ end) => destruct x
      end ].

Ltac no_fuel_all := repeat no_fuel_step.

Lemma no_fuel_Edge_init (t : Modification) (q r : Z) : no_fuel (Edge_init t q r).
Proof. unfold Edge_init. no_fuel_all. Qed.

Lemma no_fuel_get_modification (bits : Z) (previous : Modification) :
  no_fuel (get_modification bits previous).
Proof. unfold get_modification. no_fuel_all. Qed.

#[local] Hint Resolve no_fuel_Edge_init no_fuel_get_modification : nofuel.

(** The step budget of [build_path] is never the reason it stops. *)
Lemma build_path_loop_fuel (tb : list (list Z)) (steps : nat) :
  forall (edge : Edge) (acc : list Edge),
    0 <= query_length edge -> 0 <= reference_length edge ->
    (Z.to_nat (query_length edge + reference_length edge) < steps)%nat ->
    no_fuel (build_path_loop steps tb edge acc).
Proof.
  induction steps as [| n IH]; intros edge acc Hq Hr Hlt; [lia |].
  cbn [build_path_loop].
  apply no_fuel_bind; [auto with nofuel | intros row _].
  apply no_fuel_bind; [auto with nofuel | intros bits _].
  apply no_fuel_bind; [auto with nofuel | intros next _].
  destruct (type edge); cbn [query_length reference_length];
    match goal with
    | |- no_fuel (if ?b then _ else _) => destruct b
    end; try discriminate;
    (apply no_fuel_bind; [auto with nofuel | intros copy C];
     apply Edge_init_Ok in C; destruct C as (_ & Cq & Cr & ? & ?);
     apply IH; lia).
Qed.

Lemma build_path_fuel_enough (tb : list (list Z)) (q r : Z) (last : Modification) :
  no_fuel (build_path tb q r last).
Proof.
  unfold build_path.
  apply no_fuel_bind; [auto with nofuel | intros edge E].
  apply Edge_init_Ok in E. destruct E as (Et & Eq & Er & Hq & Hr).
  apply no_fuel_bind; [auto with nofuel | intros copy _].
  apply no_fuel_bind; [| intros edges _; discriminate].
  apply build_path_loop_fuel; [lia | lia |].
  rewrite Eq, Er. unfold build_path_fuel. lia.
Qed.

#[local] Hint Resolve build_path_fuel_enough : nofuel.

Section AlignFuel.

Variable consts : Constants.
Variable libm : Libm.
Variable query_positions reference_positions : AlignmentPositions.
Variable alphabet : Alphabet.

Lemma no_fuel_compare_loop (q r : AlignmentPosition) (order : list Z) :
  forall score, no_fuel (compare_loop q r order score).
Proof.
  induction order as [| index order IH]; intros score; simpl; [discriminate |].
  apply no_fuel_bind; [auto with nofuel | intros count _].
  destruct (negb (truthy count)); [discriminate |].
  apply no_fuel_bind; [auto with nofuel | intros s _]. apply IH.
Qed.

Lemma no_fuel_math_log (x : float) : no_fuel (math_log libm x).
Proof. unfold math_log. no_fuel_all. Qed.

Hint Resolve no_fuel_compare_loop no_fuel_math_log : nofuel.

Lemma no_fuel_compare (q r : AlignmentPosition) :
  no_fuel (compare_profile_positions consts libm q r alphabet).
Proof. unfold compare_profile_positions. no_fuel_all. Qed.

Lemma no_fuel_update_cell (m : Matrix) (i j : Z) (f : Z -> Z) :
  no_fuel (update_cell m i j f).
Proof. unfold update_cell. no_fuel_all. Qed.

Hint Resolve no_fuel_compare no_fuel_update_cell : nofuel.

Lemma no_fuel_store_current_match (m : Matrix) (j : Z) (v : float) :
  no_fuel (store_current_match m j v).
Proof. unfold store_current_match. no_fuel_all. Qed.

Lemma no_fuel_store_delete_row (m : Matrix) (j : Z) (v : float) :
  no_fuel (store_delete_row m j v).
Proof. unfold store_delete_row. no_fuel_all. Qed.

Lemma no_fuel_add_next_match (m : Matrix) (j : Z) (v : float) :
  no_fuel (add_next_match m j v).
Proof. unfold add_next_match. no_fuel_all. Qed.

Lemma no_fuel_set_bit_tbm (m : Matrix) (i j : Z) (t : Modification) :
  no_fuel (set_bit_tbm m i j t).
Proof. unfold set_bit_tbm. no_fuel_all. Qed.

Hint Resolve no_fuel_store_current_match no_fuel_store_delete_row
  no_fuel_add_next_match no_fuel_set_bit_tbm : nofuel.

Lemma no_fuel_recurse_d (m : Matrix) (row i j : Z) :
  no_fuel (recurse_d consts query_positions m row i j).
Proof. unfold recurse_d. no_fuel_all. Qed.

Lemma no_fuel_recurse_i (m : Matrix) (iij : float) (row i j : Z) :
  no_fuel (recurse_i consts reference_positions m iij row i j).
Proof. unfold recurse_i. no_fuel_all. Qed.

Lemma no_fuel_recurse_m (m : Matrix) (iij : float) (i j : Z) :
  no_fuel (recurse_m query_positions reference_positions m iij i j).
Proof. unfold recurse_m. no_fuel_all. Qed.

Hint Resolve no_fuel_recurse_d no_fuel_recurse_i no_fuel_recurse_m : nofuel.

Lemma no_fuel_init_step (m : Matrix) (j : Z) :
  no_fuel (init_step consts libm query_positions reference_positions alphabet m j).
Proof. unfold init_step. no_fuel_all. Qed.

Lemma no_fuel_sweep_step (i : Z) (st : float * Matrix) (j : Z) :
  no_fuel (sweep_step consts query_positions reference_positions i st j).
Proof. unfold sweep_step. no_fuel_all. Qed.

Hint Resolve no_fuel_init_step no_fuel_sweep_step : nofuel.

Lemma no_fuel_mid_step (reference_length : Z) (m : Matrix) (i : Z) :
  no_fuel (mid_step consts libm query_positions reference_positions alphabet
             reference_length m i).
Proof. unfold mid_step. no_fuel_all. Qed.

Hint Resolve no_fuel_mid_step : nofuel.

Lemma no_fuel_global_align_body :
  no_fuel (global_align_body consts libm query_positions reference_positions alphabet).
Proof. unfold global_align_body. no_fuel_all. Qed.

End AlignFuel.

(* ------------------------------------------------------------------ *)
(** ** align.py: what [global_align] returns and what it changes *)

Lemma replace_nth_length {A} (l : list A) (k : nat) (x : A) :
  List.length (replace_nth l k x) = List.length l.
Proof.
  revert k. induction l as [| y l IH]; intros [| k]; simpl; try reflexivity.
  rewrite IH. reflexivity.
Qed.

Lemma nth_error_replace_nth {A} (l : list A) (k i : nat) (x : A) :
  nth_error (replace_nth l k x) i =
    if Nat.eqb i k then
      match nth_error l i with Some _ => Some x | None => None end
    else nth_error l i.
Proof.
  revert k i. induction l as [| y l IH]; intros k i.
  - destruct k, i; simpl; try reflexivity. destruct (Nat.eqb i k); reflexivity.
  - destruct k, i; simpl; try reflexivity. apply IH.
Qed.

Lemma set_terminal_gaps_length (consts : Constants) (positions : AlignmentPositions) :
  List.length (set_terminal_gaps consts positions) = List.length positions.
Proof.
  unfold set_terminal_gaps. destruct positions as [| first rest]; [reflexivity |].
  set (l1 := if negb _ then _ else _).
  assert (H1 : List.length l1 = List.length (first :: rest)).
  { subst l1. destruct (negb _); [apply replace_nth_length | reflexivity]. }
  destruct (nth_error l1 _); [| exact H1].
  destruct (_ && _); [rewrite replace_nth_length |]; exact H1.
Qed.

Lemma same_profile_refl (p : AlignmentPosition) : same_profile p p.
Proof. repeat split. Qed.

(** [set_terminal_gaps] touches the two terminal gap scores only. *)
Lemma set_terminal_gaps_frame (consts : Constants) (positions : AlignmentPositions) :
  terminal_frame positions (set_terminal_gaps consts positions).
Proof.
  split; [apply set_terminal_gaps_length |].
  unfold set_terminal_gaps. destruct positions as [| first rest].
  { intros [| i] p p' H; discriminate. }
  set (l0 := first :: rest).
  set (l1 := if negb _ then _ else _).
  assert (L1 : List.length l1 = List.length l0).
  { subst l1. destruct (negb _); [apply replace_nth_length | reflexivity]. }
  assert (F1 : forall i p p',
             nth_error l0 i = Some p -> nth_error l1 i = Some p' ->
             same_profile p p' /\ score_gap_close p' = score_gap_close p /\
             (score_gap_open p' = score_gap_open p \/
              (i = 0%nat /\ score_gap_open p' = 0%float))).
  { intros i p p' Hp Hp'. subst l1. destruct (negb _).
    - rewrite nth_error_replace_nth in Hp'. destruct i as [| i]; simpl in Hp, Hp'.
      + inversion Hp; inversion Hp'; subst. repeat split. right. split; reflexivity.
      + rewrite Hp in Hp'. inversion Hp'; subst. repeat split. left. reflexivity.
    - rewrite Hp in Hp'. inversion Hp'; subst. repeat split. left. reflexivity. }
  intros i p p' Hp Hp'.
  destruct (nth_error l1 (List.length l1 - 1)) as [last |] eqn:Hlast.
  - destruct ((1 <? len l1) && _) eqn:C.
    + rewrite nth_error_replace_nth in Hp'.
      apply andb_true_iff in C. destruct C as [C _].
      apply Z.ltb_lt in C. unfold len in C.
      destruct (Nat.eqb_spec i (List.length l1 - 1)) as [-> | Hne].
      * rewrite Hlast in Hp'. inversion Hp'; subst p'. clear Hp'.
        destruct (F1 _ _ _ Hp Hlast) as (S & _ & O).
        split; [exact S |]. split; [exact O |]. right.
        repeat split; rewrite <- L1; lia.
      * destruct (F1 _ _ _ Hp Hp') as (S & Cl & O). repeat split; try apply S; auto.
    + destruct (F1 _ _ _ Hp Hp') as (S & Cl & O). repeat split; try apply S; auto.
  - destruct (F1 _ _ _ Hp Hp') as (S & Cl & O). repeat split; try apply S; auto.
Qed.

(** A second call on the same tuple changes nothing more; this is what
    happens to a tuple passed as both arguments of [global_align]. *)
Lemma global_align_state (consts : Constants) (libm : Libm)
    (q r : AlignmentPositions) (alphabet : Alphabet) :
  fst (global_align consts libm q r alphabet)
    = (set_terminal_gaps consts q, set_terminal_gaps consts r).
Proof. reflexivity. Qed.

(** Peels the steps off a run that ended in [Ok]. *)
Ltac peel H :=
  repeat match type of H with
         | bind _ _ = _ => bind_inv H
         | (let '(_, _) := ?x in _) = _ => destruct x
         end.

Lemma global_align_body_steps (consts : Constants) (libm : Libm)
    (q r : AlignmentPositions) (alphabet : Alphabet) (p : Path) :
  global_align_body consts libm q r alphabet = Ok p ->
  query_steps p = len q /\ reference_steps p = len r.
Proof.
  unfold global_align_body. intros H. peel H.
  apply build_path_steps in H. exact H.
Qed.

(** C4: every path that [global_align] returns for profiles of lengths
    Q >= 1 and R >= 1 has as many M and D edges as Q and as many M and I
    edges as R.  (The call itself ends with a path or an exception: the
    step budget of the traceback loop never runs out.) *)
Theorem global_align_counts (consts : Constants) (libm : Libm)
    (q r : AlignmentPositions) (alphabet : Alphabet) (p : Path) :
  1 <= len q -> 1 <= len r ->
  snd (global_align consts libm q r alphabet) = Ok p ->
  count_edges MATCH p + count_edges DELETION p = len q /\
  count_edges MATCH p + count_edges INSERTION p = len r /\
  no_fuel (snd (global_align consts libm q r alphabet)).
Proof.
  intros _ _ H. unfold global_align in *. cbn [snd] in *.
  apply global_align_body_steps in H. destruct H as [Hq Hr].
  destruct (steps_count p) as [Cq Cr].
  unfold len in Hq, Hr. rewrite set_terminal_gaps_length in Hq, Hr.
  split; [| split].
  - rewrite <- Cq. exact Hq.
  - rewrite <- Cr. exact Hr.
  - apply no_fuel_global_align_body.
Qed.

Lemma global_align_counts_witness :
  exists p,
    snd (global_align sample_constants sample_libm
           (built_positions SMALL_QUERY) (built_positions SMALL_DB) AMINO) = Ok p /\
    map type p = [MATCH; MATCH; INSERTION; INSERTION; MATCH; MATCH] /\
    count_edges MATCH p + count_edges DELETION p = 4 /\
    count_edges MATCH p + count_edges INSERTION p = 6.
Proof.
  eexists. split; [vm_compute; reflexivity |]. split; [reflexivity |].
  refine (let H := global_align_counts sample_constants sample_libm
                     (built_positions SMALL_QUERY) (built_positions SMALL_DB)
                     AMINO _ _ _ in conj (proj1 H) (proj1 (proj2 H))).
  - vm_compute. discriminate.
  - vm_compute. discriminate.
  - vm_compute. reflexivity.
Defined.

Lemma positions_cached (consts : Constants) (libm : Libm) (a : Alignment)
    (p : AlignmentPositions) :
  _positions a = Some p -> positions consts libm a = Ok (p, a).
Proof. intros H. unfold positions. rewrite H. reflexivity. Qed.

(** The claim of C2 fails as stated: the positions of the query
    ["GTIV"] are built, its first position has the gap-open score -1.45;
    after the merge with the reference the same position has 0. *)
Lemma merge_changes_built_position :
  first_gap_open (built_alignment SMALL_QUERY) = Some (-1.45)%float /\
  (res <- combine_alignments sample_constants sample_libm
            (built_alignment SMALL_QUERY) (built_alignment SMALL_DB) ;;
   Ok (first_gap_open (_query res))) = Ok (Some 0%float).
Proof. split; vm_compute; reflexivity. Qed.

(** C2, amended: a merge leaves every field of every built position of
    both alignments as it was, except [score_gap_open] of the first
    position and [score_gap_close] of the last one, which
    [set_terminal_gaps] (called by [global_align]) resets to 0. *)
Theorem built_positions_frame (consts : Constants) (libm : Libm)
    (query reference : Alignment) (qp rp : AlignmentPositions) (res : ResultAlignment) :
  _positions query = Some qp ->
  _positions reference = Some rp ->
  combine_alignments consts libm query reference = Ok res ->
  fst (global_align consts libm qp rp (_alphabet reference))
    = (set_terminal_gaps consts qp, set_terminal_gaps consts rp) /\
  _positions (_query res) = Some (set_terminal_gaps consts qp) /\
  _positions (_reference res) = Some (set_terminal_gaps consts rp) /\
  terminal_frame qp (set_terminal_gaps consts qp) /\
  terminal_frame rp (set_terminal_gaps consts rp).
Proof.
  intros Hq Hr H. split; [reflexivity |].
  unfold combine_alignments in H.
  destruct (negb _); [discriminate |].
  rewrite (positions_cached consts libm query Hq) in H. cbn [bind] in H.
  rewrite (positions_cached consts libm reference Hr) in H. cbn [bind] in H.
  unfold global_align in H. bind_inv H. inversion H; subst; clear H. cbn.
  split; [reflexivity |]. split; [reflexivity |].
  split; apply set_terminal_gaps_frame.
Qed.

Lemma built_positions_frame_witness :
  exists res,
    combine_alignments sample_constants sample_libm
      (built_alignment SMALL_QUERY) (built_alignment SMALL_DB) = Ok res /\
    terminal_frame (built_positions SMALL_QUERY)
      (set_terminal_gaps sample_constants (built_positions SMALL_QUERY)) /\
    _positions (_query res)
      = Some (set_terminal_gaps sample_constants (built_positions SMALL_QUERY)).
Proof.
  assert (E : exists res,
             combine_alignments sample_constants sample_libm
               (built_alignment SMALL_QUERY) (built_alignment SMALL_DB) = Ok res)
    by (eexists; vm_compute; reflexivity).
  destruct E as [res E]. exists res. split; [exact E |].
  assert (Hq : _positions (built_alignment SMALL_QUERY)
               = Some (built_positions SMALL_QUERY)) by (vm_compute; reflexivity).
  assert (Hr : _positions (built_alignment SMALL_DB)
               = Some (built_positions SMALL_DB)) by (vm_compute; reflexivity).
  destruct (built_positions_frame sample_constants sample_libm _ _ Hq Hr E)
    as (_ & Pq & _ & Fq & _).
  split; assumption.
Defined.

(* ------------------------------------------------------------------ *)
(** ** Signs in float arithmetic *)

Lemma binary_round_aux_sign (sx : bool) (mx ex : Z) (lx : location) :
  match binary_round_aux prec emax sx mx ex lx with
  | S754_zero s | S754_infinity s | S754_finite s _ _ => s = sx
  | S754_nan => True
  end.
Proof.
  unfold binary_round_aux.
  destruct (shr_fexp prec emax mx ex lx) as [mrs e].
  destruct (shr_fexp prec emax _ e loc_Exact) as [mrs' e'].
  destruct (shr_m mrs'); [reflexivity | | exact I].
  destruct (Z.leb e' _); reflexivity.
Qed.

Lemma binary_round_aux_nonneg (mx ex : Z) (lx : location) :
  sf_nonneg (binary_round_aux prec emax false mx ex lx) = true.
Proof.
  pose proof (binary_round_aux_sign false mx ex lx) as H.
  destruct (binary_round_aux prec emax false mx ex lx); subst; reflexivity.
Qed.

Lemma sf_pos_nonneg (x : spec_float) : sf_pos x = true -> sf_nonneg x = true.
Proof. destruct x as [[|] | [|] | | [|] m e]; simpl; congruence. Qed.

Lemma SFadd_nonneg (x y : spec_float) :
  sf_nonneg x = true -> sf_nonneg y = true -> sf_nonneg (SFadd prec emax x y) = true.
Proof.
  destruct x as [[|] | [|] | | [|] mx ex], y as [[|] | [|] | | [|] my ey];
    simpl; try congruence; intros _ _.
  unfold binary_round. destruct (shl_align (_ + _) _ _) as [mz ez].
  apply binary_round_aux_nonneg.
Qed.

Lemma SFdiv_nonneg (x y : spec_float) :
  sf_pos x = true -> sf_nonneg y = true -> sf_nonneg (SFdiv prec emax x y) = true.
Proof.
  destruct x as [[|] | [|] | | [|] mx ex], y as [[|] | [|] | | [|] my ey];
    simpl; try congruence; intros _ _.
  destruct (SFdiv_core_binary _ _ _ _ _ _) as [[mz ez] lz].
  apply binary_round_aux_nonneg.
Qed.

Lemma add_nonneg (x y : float) :
  sf_nonneg (Prim2SF x) = true -> sf_nonneg (Prim2SF y) = true ->
  sf_nonneg (Prim2SF (x + y)) = true.
Proof. rewrite add_spec. apply SFadd_nonneg. Qed.

Lemma div_nonneg (x y : float) :
  sf_pos (Prim2SF x) = true -> sf_nonneg (Prim2SF y) = true ->
  sf_nonneg (Prim2SF (x / y)) = true.
Proof. rewrite div_spec. apply SFdiv_nonneg. Qed.

Lemma nonneg_never_negative (x : float) :
  sf_nonneg (Prim2SF x) = true -> never_negative x.
Proof.
  unfold never_negative. rewrite ltb_spec.
  change (Prim2SF 0) with (S754_zero false).
  destruct (Prim2SF x) as [[|] | [|] | | [|] m e]; simpl;
    solve [discriminate | reflexivity].
Qed.

Lemma guarded_pos (raw : float) : sf_pos (Prim2SF (guarded raw)) = true.
Proof.
  unfold guarded. destruct (raw <? 0.0001)%float eqn:L; [reflexivity |].
  rewrite ltb_spec in L.
  destruct (Prim2SF 0.0001) as [s | s | | s m e] eqn:E; vm_compute in E;
    try discriminate.
  inversion E; subst s. clear E.
  destruct (Prim2SF raw) as [[|] | [|] | | [|] mr er]; cbn in L |- *;
    solve [discriminate | reflexivity].
Qed.

Lemma fsum_nonneg (values : list float) :
  Forall (fun v => sf_nonneg (Prim2SF v) = true) values ->
  sf_nonneg (Prim2SF (fsum values)) = true.
Proof.
  unfold fsum. assert (H0 : sf_nonneg (Prim2SF 0) = true) by reflexivity.
  revert H0. generalize 0%float as acc.
  induction values as [| v vs IH]; intros acc Hacc H; simpl; [exact Hacc |].
  inversion H; subst. apply IH; [apply add_nonneg |]; assumption.
Qed.

(* ------------------------------------------------------------------ *)
(** ** Powers of two *)

Lemma bpow_pos (e : Z) : (0 < bpow e)%R.
Proof. apply powerRZ_lt. lra. Qed.

Lemma bpow_add (a b : Z) : bpow (a + b) = (bpow a * bpow b)%R.
Proof. apply powerRZ_add. lra. Qed.

Lemma bpow_0 : bpow 0 = 1%R.
Proof. reflexivity. Qed.

Lemma bpow_1 : bpow 1 = 2%R.
Proof. exact (powerRZ_1 2). Qed.

Lemma bpow_succ (e : Z) : bpow (e + 1) = (2 * bpow e)%R.
Proof. rewrite bpow_add, bpow_1. lra. Qed.

Lemma bpow_pred (e : Z) : bpow (e - 1) = (bpow e / 2)%R.
Proof.
  replace e with ((e - 1) + 1) at 2 by lia. rewrite bpow_succ. lra.
Qed.

Lemma bpow_opp (e : Z) : bpow (- e) = (/ bpow e)%R.
Proof. apply powerRZ_neg'. Qed.

Lemma bpow_sub (a b : Z) : bpow (a - b) = (bpow a / bpow b)%R.
Proof.
  replace (a - b) with (a + - b) by lia. rewrite bpow_add, bpow_opp. reflexivity.
Qed.

Lemma bpow_le (a b : Z) : a <= b -> (bpow a <= bpow b)%R.
Proof.
  intros H. replace b with (a + (b - a)) by lia. rewrite bpow_add.
  assert (H1 : (1 <= bpow (b - a))%R).
  { assert (Hn : 0 <= b - a) by lia. revert Hn. generalize (b - a).
    intros n Hn. pattern n. apply natlike_ind; [rewrite bpow_0; lra | | exact Hn].
    intros x Hx IH. change (Z.succ x) with (x + 1). rewrite bpow_succ. lra. }
  pose proof (bpow_pos a). nra.
Qed.

Lemma bpow_lt (a b : Z) : a < b -> (bpow a < bpow b)%R.
Proof.
  intros H. assert (H1 : (bpow (a + 1) <= bpow b)%R) by (apply bpow_le; lia).
  rewrite bpow_succ in H1. pose proof (bpow_pos a). lra.
Qed.

Lemma bpow_lt_inv (a b : Z) : (bpow a < bpow b)%R -> a < b.
Proof.
  intros H. destruct (Z_lt_le_dec a b) as [L | L]; [exact L |].
  apply bpow_le in L. lra.
Qed.

Lemma bpow_IZR (n : Z) : 0 <= n -> bpow n = IZR (2 ^ n).
Proof.
  intros Hn. pattern n. apply natlike_ind; [reflexivity | | exact Hn].
  intros x Hx IH. change (Z.succ x) with (x + 1).
  rewrite bpow_succ, IH, Z.pow_add_r by lia. rewrite mult_IZR.
  change (2 ^ 1) with 2. lra.
Qed.

(* ------------------------------------------------------------------ *)
(** ** Digits *)

Lemma digits2_size (p : positive) : digits2_pos p = Pos.size p.
Proof. induction p; cbn; congruence. Qed.

Lemma digits2_bounds (p : positive) :
  2 ^ (Zpos (digits2_pos p) - 1) <= Zpos p < 2 ^ Zpos (digits2_pos p).
Proof.
  rewrite digits2_size. split.
  - pose proof (Pos.size_le p) as H.
    assert (H2 : 2 ^ Zpos (Pos.size p) <= 2 * Zpos p).
    { change (2 * Zpos p) with (Zpos p~0). rewrite <- Pos2Z.inj_pow. exact H. }
    replace (Zpos (Pos.size p)) with ((Zpos (Pos.size p) - 1) + 1) in H2 by lia.
    rewrite Z.pow_add_r in H2 by lia. change (2 ^ 1) with 2 in H2. lia.
  - pose proof (Pos.size_gt p) as H. rewrite <- Pos2Z.inj_pow. exact H.
Qed.

Lemma Zdigits2_bounds (m : Z) :
  0 < m -> 2 ^ (Zdigits2 m - 1) <= m < 2 ^ Zdigits2 m.
Proof. destruct m as [| p | p]; try lia. intros _. apply digits2_bounds. Qed.

Lemma Zdigits2_nonneg (m : Z) : 0 <= Zdigits2 m.
Proof. destruct m; cbn; lia. Qed.

(** The number of digits is fixed by the bounds. *)
Lemma Zdigits2_unique (m d : Z) :
  0 < m -> 2 ^ (d - 1) <= m < 2 ^ d -> Zdigits2 m = d.
Proof.
  intros Hm [H1 H2]. pose proof (Zdigits2_bounds Hm) as [B1 B2].
  pose proof (Zdigits2_nonneg m) as Hn.
  assert (Hd : 0 < d).
  { destruct (Z_lt_le_dec 0 d) as [L | L]; [exact L |].
    assert (2 ^ d <= 2 ^ 0) by (destruct (Z.eq_dec d 0) as [-> | N];
      [lia | rewrite Z.pow_neg_r by lia; cbn; lia]).
    cbn in H. lia. }
  destruct (Z.lt_trichotomy (Zdigits2 m) d) as [L | [E | L]]; [| exact E |].
  - assert (2 ^ Zdigits2 m <= 2 ^ (d - 1)) by (apply Z.pow_le_mono_r; lia). lia.
  - assert (2 ^ d <= 2 ^ (Zdigits2 m - 1)) by (apply Z.pow_le_mono_r; lia). lia.
Qed.

Lemma Zdigits2_div2 (m : Z) : 0 <= m -> Zdigits2 (m / 2) = Z.max (Zdigits2 m - 1) 0.
Proof.
  intros Hm. destruct m as [| p | p]; [reflexivity | | lia].
  destruct p as [p | p |].
  - assert (E : Zpos p~1 / 2 = Zpos p) by (symmetry; apply Z.div_unique with 1; lia).
    rewrite E. cbn [Zdigits2 digits2_pos]. rewrite Pos2Z.inj_succ. lia.
  - assert (E : Zpos p~0 / 2 = Zpos p) by (symmetry; apply Z.div_unique with 0; lia).
    rewrite E. cbn [Zdigits2 digits2_pos]. rewrite Pos2Z.inj_succ. lia.
  - reflexivity.
Qed.

(* ------------------------------------------------------------------ *)
(** ** Shifting with a round and a sticky bit *)

Lemma IZR_xO (p : positive) : IZR (Zpos p~0) = (2 * IZR (Zpos p))%R.
Proof. change (Zpos p~0) with (2 * Zpos p). now rewrite mult_IZR. Qed.

Lemma IZR_xI (p : positive) : IZR (Zpos p~1) = (2 * IZR (Zpos p) + 1)%R.
Proof. change (Zpos p~1) with (2 * Zpos p + 1). now rewrite plus_IZR, mult_IZR. Qed.

Lemma shr_1_inb (mrs : shr_record) (x : R) :
  0 <= shr_m mrs -> inb mrs x ->
  inb (shr_1 mrs) (x / 2) /\ shr_m (shr_1 mrs) = shr_m mrs / 2.
Proof.
  destruct mrs as [m r s]. cbn [shr_m]. intros Hm H.
  destruct m as [| p | p]; [| | lia].
  - split; [| reflexivity].
    destruct r, s; unfold inb in *; cbn [shr_1 shr_r shr_s shr_m orb] in *; lra.
  - destruct p as [p | p |].
    + split.
      * pose proof (IZR_xI p) as E.
        destruct r, s; unfold inb in *; cbn [shr_1 shr_r shr_s shr_m orb] in *; lra.
      * cbn [shr_1 shr_m]. apply Z.div_unique with 1; lia.
    + split.
      * pose proof (IZR_xO p) as E.
        destruct r, s; unfold inb in *; cbn [shr_1 shr_r shr_s shr_m orb] in *; lra.
      * cbn [shr_1 shr_m]. apply Z.div_unique with 0; lia.
    + split; [| reflexivity].
      destruct r, s; unfold inb in *; cbn [shr_1 shr_r shr_s shr_m orb] in *; lra.
Qed.

Lemma iter_shr_inb (p : positive) :
  forall (mrs : shr_record) (x : R),
    0 <= shr_m mrs -> inb mrs x ->
    inb (SpecFloat.iter_pos shr_1 p mrs) (x / bpow (Zpos p)) /\
    shr_m (SpecFloat.iter_pos shr_1 p mrs) = shr_m mrs / 2 ^ Zpos p.
Proof.
  induction p as [p IH | p IH |]; intros mrs x Hm H.
  - cbn [SpecFloat.iter_pos].
    destruct (@shr_1_inb mrs x Hm H) as [H1 E1].
    assert (Hm1 : 0 <= shr_m (shr_1 mrs)) by (rewrite E1; apply Z.div_pos; lia).
    destruct (IH _ _ Hm1 H1) as [H2 E2].
    assert (Hm2 : 0 <= shr_m (SpecFloat.iter_pos shr_1 p (shr_1 mrs)))
      by (rewrite E2; apply Z.div_pos; [lia | apply Z.pow_pos_nonneg; lia]).
    destruct (IH _ _ Hm2 H2) as [H3 E3]. split.
    + replace (x / bpow (Zpos p~1))%R with (x / 2 / bpow (Zpos p) / bpow (Zpos p))%R;
        [exact H3 |].
      replace (Zpos p~1) with (1 + (Zpos p + Zpos p)) by lia. rewrite !bpow_add, bpow_1.
      pose proof (bpow_pos (Zpos p)). field. lra.
    + rewrite E3, E2, E1. rewrite !Z.div_div by (try apply Z.pow_pos_nonneg; lia).
      f_equal. replace (Zpos p~1) with (1 + (Zpos p + Zpos p)) by lia.
      rewrite !Z.pow_add_r by lia. reflexivity.
  - cbn [SpecFloat.iter_pos].
    destruct (IH _ _ Hm H) as [H2 E2].
    assert (Hm2 : 0 <= shr_m (SpecFloat.iter_pos shr_1 p mrs))
      by (rewrite E2; apply Z.div_pos; [lia | apply Z.pow_pos_nonneg; lia]).
    destruct (IH _ _ Hm2 H2) as [H3 E3]. split.
    + replace (x / bpow (Zpos p~0))%R with (x / bpow (Zpos p) / bpow (Zpos p))%R;
        [exact H3 |].
      replace (Zpos p~0) with (Zpos p + Zpos p) by lia. rewrite !bpow_add.
      pose proof (bpow_pos (Zpos p)). field. lra.
    + rewrite E3, E2. rewrite !Z.div_div by (try apply Z.pow_pos_nonneg; lia).
      f_equal. replace (Zpos p~0) with (Zpos p + Zpos p) by lia.
      rewrite !Z.pow_add_r by lia. reflexivity.
  - cbn [SpecFloat.iter_pos]. destruct (@shr_1_inb mrs x Hm H) as [H1 E1]. split.
    + rewrite bpow_1. exact H1.
    + exact E1.
Qed.

Lemma Zdigits2_shift (m n : Z) :
  0 <= m -> 0 <= n -> Zdigits2 (m / 2 ^ n) = Z.max (Zdigits2 m - n) 0.
Proof.
  intros Hm Hn. pattern n. apply natlike_ind; [| | exact Hn].
  - rewrite Z.div_1_r. pose proof (Zdigits2_nonneg m). lia.
  - intros k Hk IH. change (Z.succ k) with (k + 1).
    rewrite Z.pow_add_r by lia. change (2 ^ 1) with 2.
    rewrite <- Z.div_div by (try apply Z.pow_pos_nonneg; lia).
    rewrite Zdigits2_div2 by (apply Z.div_pos; [lia | apply Z.pow_pos_nonneg; lia]).
    rewrite IH. lia.
Qed.

Lemma inb_of_loc (m : Z) (l : location) :
  shr_m (shr_record_of_loc m l) = m.
Proof. destruct l as [| []]; reflexivity. Qed.

(** The first shift of [binary_round_aux]. *)
Lemma shr_fexp_inb (m e : Z) (l : location) (x : R) :
  0 <= m -> inb (shr_record_of_loc m l) x ->
  e <= fexp prec emax (Zdigits2 m + e) ->
  exists mrs',
    shr_fexp prec emax m e l = (mrs', fexp prec emax (Zdigits2 m + e)) /\
    inb mrs' (x * bpow e / bpow (fexp prec emax (Zdigits2 m + e))) /\
    shr_m mrs' = m / 2 ^ (fexp prec emax (Zdigits2 m + e) - e).
Proof.
  intros Hm H He. unfold shr_fexp, shr.
  set (e1 := fexp prec emax (Zdigits2 m + e)) in *.
  destruct (e1 - e) as [| p | p] eqn:En; [| | lia].
  - assert (E0 : e1 = e) by lia. exists (shr_record_of_loc m l).
    split; [f_equal; lia |].
    rewrite E0. split.
    + replace (x * bpow e / bpow e)%R with x; [exact H |].
      pose proof (bpow_pos e). field. lra.
    + rewrite inb_of_loc, Z.div_1_r. reflexivity.
  - assert (Hm0 : 0 <= shr_m (shr_record_of_loc m l)) by (rewrite inb_of_loc; exact Hm).
    destruct (@iter_shr_inb p _ _ Hm0 H) as [H1 E1].
    exists (SpecFloat.iter_pos shr_1 p (shr_record_of_loc m l)).
    split; [f_equal; lia |]. split.
    + replace (x * bpow e / bpow e1)%R with (x / bpow (Zpos p))%R; [exact H1 |].
      replace e1 with (e + Zpos p) by lia. rewrite bpow_add.
      pose proof (bpow_pos e). pose proof (bpow_pos (Zpos p)). field. lra.
    + rewrite E1, inb_of_loc. reflexivity.
Qed.

(** Rounding to the nearest integer, the even one of two. *)
Lemma rne_nearest (mrs : shr_record) (x : R) :
  0 <= shr_m mrs -> inb mrs x ->
  let n := round_nearest_even (shr_m mrs) (loc_of_shr_record mrs) in
  nearest_even x n /\ shr_m mrs <= n <= shr_m mrs + 1.
Proof.
  destruct mrs as [m r s]. cbn [shr_m]. intros Hm H. cbv zeta.
  unfold nearest_even.
  destruct r, s; unfold inb in H; cbn [shr_r shr_s shr_m] in H;
    cbn [loc_of_shr_record round_nearest_even].
  - rewrite plus_IZR. split; [| lia].
    split; [apply Rabs_le; lra |]. intros T. exfalso.
    unfold Rabs in T. destruct (Rcase_abs _); lra.
  - destruct (Z.even m) eqn:Ev.
    + split; [| lia]. split; [apply Rabs_le; lra | intros _; exact Ev].
    + rewrite plus_IZR. split; [| lia]. split; [apply Rabs_le; lra |].
      intros _. rewrite Z.even_add, Ev. reflexivity.
  - split; [| lia]. split; [apply Rabs_le; lra |]. intros T. exfalso.
    unfold Rabs in T. destruct (Rcase_abs _); lra.
  - split; [| lia]. subst x. split.
    + rewrite Rminus_diag. rewrite Rabs_R0. lra.
    + rewrite Rminus_diag, Rabs_R0. lra.
Qed.

(* ------------------------------------------------------------------ *)
(** ** What [binary_round_aux] returns *)

Lemma inb_bounds (mrs : shr_record) (x : R) :
  inb mrs x -> (IZR (shr_m mrs) <= x < IZR (shr_m mrs) + 1)%R.
Proof. destruct mrs as [m [] []]; unfold inb; cbn [shr_m shr_r shr_s]; lra. Qed.

Lemma fexp_eq (e : Z) : fexp prec emax e = Z.max (e - 53) (-1074).
Proof. reflexivity. Qed.

Lemma shr_fexp_exact (n e : Z) :
  0 <= n -> -1074 <= e -> Zdigits2 n <= 53 ->
  shr_fexp prec emax n e loc_Exact
  = ({| shr_m := n; shr_r := false; shr_s := false |}, e).
Proof.
  intros Hn He Hd. unfold shr_fexp, shr. rewrite fexp_eq.
  destruct (Z.max (Zdigits2 n + e - 53) (-1074) - e) eqn:E; [reflexivity | lia | reflexivity].
Qed.

Lemma shr_fexp_carry (e : Z) :
  -1074 <= e ->
  shr_fexp prec emax 9007199254740992 e loc_Exact
  = ({| shr_m := 4503599627370496; shr_r := false; shr_s := false |}, e + 1).
Proof.
  intros He. unfold shr_fexp, shr. rewrite fexp_eq.
  change (Zdigits2 9007199254740992) with 54.
  replace (Z.max (54 + e - 53) (-1074) - e) with 1 by lia. reflexivity.
Qed.

Lemma bpow_prec : bpow prec = IZR 9007199254740992.
Proof. rewrite bpow_IZR by (unfold prec; lia). reflexivity. Qed.

Lemma bpow_prec1 : bpow (prec - 1) = IZR 4503599627370496.
Proof. rewrite bpow_IZR by (unfold prec; lia). reflexivity. Qed.

Lemma round_aux_spec (sx : bool) (mx ex : Z) (lx : location) (x : R) :
  0 <= mx -> inb (shr_record_of_loc mx lx) x ->
  ex <= fexp prec emax (Zdigits2 mx + ex) ->
  exists n : Z,
    let e1 := fexp prec emax (Zdigits2 mx + ex) in
    let x1 := (x * bpow ex / bpow e1)%R in
    nearest_even x1 n /\ 0 <= n /\
    (x1 < bpow prec)%R /\
    (e1 = -1074 \/ (bpow (prec - 1) <= x1)%R) /\
    rounded sx n e1 (binary_round_aux prec emax sx mx ex lx).
Proof.
  intros Hmx Hin Hex.
  destruct (@shr_fexp_inb mx ex lx x Hmx Hin Hex) as (mrs' & E1 & Hin1 & Em).
  set (e1 := fexp prec emax (Zdigits2 mx + ex)) in *.
  set (x1 := (x * bpow ex / bpow e1)%R) in *.
  assert (He1 : -1074 <= e1) by (unfold e1; rewrite fexp_eq; lia).
  assert (Hm' : 0 <= shr_m mrs')
    by (rewrite Em; apply Z.div_pos; [lia | apply Z.pow_pos_nonneg; lia]).
  assert (Hd : Zdigits2 (shr_m mrs') = Z.max (Zdigits2 mx - (e1 - ex)) 0)
    by (rewrite Em; apply Zdigits2_shift; lia).
  assert (Hd53 : Zdigits2 (shr_m mrs') <= 53).
  { rewrite Hd. unfold e1. rewrite fexp_eq. lia. }
  assert (Hlt : shr_m mrs' < 9007199254740992).
  { destruct (Z.eq_dec (shr_m mrs') 0) as [-> | Hne]; [lia |].
    assert (Hpos : 0 < shr_m mrs') by lia.
    pose proof (Zdigits2_bounds Hpos) as [_ B].
    assert (2 ^ Zdigits2 (shr_m mrs') <= 2 ^ 53) by (apply Z.pow_le_mono_r; lia).
    change (2 ^ 53) with 9007199254740992 in H. lia. }
  destruct (@rne_nearest mrs' x1 Hm' Hin1) as [Hnear Hn].
  set (n := round_nearest_even (shr_m mrs') (loc_of_shr_record mrs')) in *.
  pose proof (inb_bounds _ _ Hin1) as [Hx1 Hx2].
  exists n. cbv zeta. fold e1. fold x1.
  split; [exact Hnear |]. split; [lia |].
  split.
  { rewrite bpow_prec.
    assert (IZR (shr_m mrs') + 1 <= IZR 9007199254740992)%R
      by (rewrite <- plus_IZR; apply IZR_le; lia).
    lra. }
  assert (Hnormal : e1 = -1074 \/ 4503599627370496 <= shr_m mrs').
  { destruct (Z.eq_dec e1 (-1074)) as [E | Hne]; [now left | right].
    assert (Ed : Zdigits2 (shr_m mrs') = 53).
    { rewrite Hd. unfold e1 in *. rewrite fexp_eq in *. lia. }
    assert (Hpos : 0 < shr_m mrs').
    { destruct (shr_m mrs'); cbn in Ed; lia. }
    pose proof (Zdigits2_bounds Hpos) as [B _]. rewrite Ed in B.
    change (2 ^ (53 - 1)) with 4503599627370496 in B. exact B. }
  split.
  { destruct Hnormal as [E | Hge]; [now left | right].
    rewrite bpow_prec1. apply IZR_le in Hge. lra. }
  unfold binary_round_aux. rewrite E1. fold n. unfold rounded.
  destruct (Z.eq_dec n 9007199254740992) as [En | Hn2].
  - (* the carry *)
    rewrite En, shr_fexp_carry by exact He1. cbn [shr_m].
    right. destruct (Z.leb_spec (e1 + 1) (emax - prec)) as [L | L].
    + left. split; [lia |]. split.
      * change (IZR 9007199254740992) with (IZR (2 ^ 53)). rewrite <- bpow_IZR by lia.
        rewrite <- bpow_add. apply bpow_lt. unfold emax, prec in *. lia.
      * exists 4503599627370496%positive, (e1 + 1). split; [reflexivity |]. split.
        -- rewrite bpow_succ.
           change (IZR 9007199254740992) with (2 * IZR 4503599627370496)%R at 1.
           ++ lra.
        -- unfold SpecFloat.bounded, canonical_mantissa. rewrite fexp_eq.
           change (Zpos (digits2_pos 4503599627370496)) with 53.
           apply andb_true_intro. split; [apply Z.eqb_eq; lia | apply Z.leb_le; exact L].
    + right. split; [lia |]. split; [| reflexivity].
      change (IZR 9007199254740992) with (IZR (2 ^ 53)). rewrite <- bpow_IZR by lia.
      rewrite <- bpow_add. apply bpow_le. unfold emax, prec in *. lia.
  - assert (Hn3 : n < 9007199254740992) by lia.
    assert (Hdn : Zdigits2 n <= 53).
    { destruct (Z.eq_dec n 0) as [-> | Hne]; [cbn; lia |].
      assert (Hpos : 0 < n) by lia.
      destruct (Z_le_gt_dec (Zdigits2 n) 53) as [L | G]; [exact L |].
      pose proof (Zdigits2_bounds Hpos) as [B _].
      assert (2 ^ 53 <= 2 ^ (Zdigits2 n - 1)) by (apply Z.pow_le_mono_r; lia).
      change (2 ^ 53) with 9007199254740992 in H. lia. }
    rewrite shr_fexp_exact by (try assumption; lia). cbn [shr_m].
    destruct n as [| p | p] eqn:En; [left; split; reflexivity | | lia].
    right.
    assert (Hcanon : fexp prec emax (Zpos (digits2_pos p) + e1) = e1).
    { rewrite fexp_eq. destruct Hnormal as [E | Hge]; [cbn in Hdn; lia |].
      assert (Hp : 4503599627370496 <= Zpos p) by lia.
      assert (Ed : Zdigits2 (Zpos p) = 53).
      { apply Zdigits2_unique; [lia |]. change (2 ^ (53 - 1)) with 4503599627370496.
        change (2 ^ 53) with 9007199254740992. lia. }
      cbn in Ed. lia. }
    destruct (Z.leb_spec e1 (emax - prec)) as [L | L].
    + left. split; [lia |]. split.
      * assert (IZR (Zpos p) < bpow prec)%R
          by (rewrite bpow_prec; apply IZR_lt; lia).
        assert (bpow prec * bpow e1 <= bpow emax)%R
          by (rewrite <- bpow_add; apply bpow_le; lia).
        pose proof (bpow_pos e1). nra.
      * exists p, e1. split; [reflexivity |]. split; [reflexivity |].
        unfold SpecFloat.bounded, canonical_mantissa. rewrite Hcanon.
        apply andb_true_intro. split; [apply Z.eqb_refl | apply Z.leb_le; exact L].
    + right. split; [lia |]. split; [| reflexivity].
      destruct Hnormal as [E | Hge]; [unfold emax, prec in L; lia |].
      assert (bpow (prec - 1) <= IZR (Zpos p))%R
        by (rewrite bpow_prec1; apply IZR_le; lia).
      assert (bpow emax <= bpow (prec - 1) * bpow e1)%R
        by (rewrite <- bpow_add; apply bpow_le; lia).
      pose proof (bpow_pos e1). nra.
Qed.

(* ------------------------------------------------------------------ *)
(** ** Rounding an integer mantissa: [binary_round], [binary_normalize] *)

Lemma iter_xO (d m : positive) : Zpos (Pos.iter xO m d) = Zpos m * 2 ^ Zpos d.
Proof.
  induction d using Pos.peano_ind.
  - cbn. lia.
  - rewrite Pos.iter_succ, Pos2Z.inj_succ, Z.pow_succ_r by lia.
    rewrite Pos2Z.inj_xO, IHd. lia.
Qed.

Lemma Zdigits2_pos (m : Z) : 0 < m -> 0 < Zdigits2 m.
Proof. destruct m; cbn; lia. Qed.

Lemma Zdigits2_shl (m d : Z) :
  0 < m -> 0 <= d -> Zdigits2 (m * 2 ^ d) = Zdigits2 m + d.
Proof.
  intros Hm Hd. pose proof (Zdigits2_bounds Hm) as [B1 B2].
  pose proof (Zdigits2_pos Hm) as Hp.
  assert (H2 : 0 < 2 ^ d) by (apply Z.pow_pos_nonneg; lia).
  apply Zdigits2_unique; [nia |].
  replace (Zdigits2 m + d - 1) with ((Zdigits2 m - 1) + d) by lia.
  rewrite !Z.pow_add_r by lia. nia.
Qed.

Lemma shl_align_spec (mx : positive) (ex ex' : Z) :
  exists mz ez,
    shl_align mx ex ex' = (mz, ez) /\ ez = Z.min ex ex' /\
    Zpos mz = Zpos mx * 2 ^ (ex - ez).
Proof.
  unfold shl_align. destruct (ex' - ex) as [| d | d] eqn:E.
  - exists mx, ex. split; [reflexivity |]. split; [lia |].
    rewrite Z.sub_diag. cbn. lia.
  - exists mx, ex. split; [reflexivity |]. split; [lia |].
    rewrite Z.sub_diag. cbn. lia.
  - exists (Pos.iter xO mx d), ex'. split; [reflexivity |]. split; [lia |].
    rewrite iter_xO. f_equal. f_equal. lia.
Qed.

Lemma IZR_shl (m d e : Z) :
  0 <= d -> (IZR (m * 2 ^ d) * bpow (e - d) = IZR m * bpow e)%R.
Proof.
  intros Hd. rewrite mult_IZR, <- bpow_IZR by exact Hd.
  rewrite Rmult_assoc, <- bpow_add. f_equal. f_equal. lia.
Qed.

Lemma binary_round_spec (sx : bool) (mx : positive) (ex : Z) :
  exists (e1 n : Z),
    round_at (IZR (Zpos mx) * bpow ex) e1 n /\
    rounded sx n e1 (binary_round prec emax sx mx ex).
Proof.
  unfold binary_round.
  destruct (shl_align_spec mx ex (fexp prec emax (Zpos (digits2_pos mx) + ex)))
    as (mz & ez & E & Hez & Hmz).
  rewrite E.
  assert (Hd : Zdigits2 (Zpos mz) + ez = Zpos (digits2_pos mx) + ex).
  { rewrite Hmz, Zdigits2_shl by lia. cbn [Zdigits2]. lia. }
  assert (Hex : ez <= fexp prec emax (Zdigits2 (Zpos mz) + ez)).
  { rewrite Hd. lia. }
  destruct (@round_aux_spec sx (Zpos mz) ez loc_Exact (IZR (Zpos mz)))
    as (n & Hnear & Hn & Hlt & Hnorm & Hr); [lia | reflexivity | exact Hex |].
  cbv zeta in *.
  assert (Ev : (IZR (Zpos mz) * bpow ez = IZR (Zpos mx) * bpow ex)%R).
  { rewrite Hmz. pose proof (@IZR_shl (Zpos mx) (ex - ez) ex ltac:(lia)) as K.
    replace (ex - (ex - ez)) with ez in K by lia. exact K. }
  rewrite Ev in *.
  exists (fexp prec emax (Zdigits2 (Zpos mz) + ez)), n.
  split; [| exact Hr].
  unfold round_at. split; [rewrite fexp_eq; lia |].
  split; [exact Hnear |]. split; [exact Hn |]. split; [exact Hlt | exact Hnorm].
Qed.

Lemma Rmin_bpow (a : R) : (0 <= a -> 0 <= Rmin a (bpow emax))%R.
Proof.
  intros H. pose proof (bpow_pos emax). unfold Rmin. destruct (Rle_dec a (bpow emax)); lra.
Qed.

Lemma rounded_facts (sx : bool) (n e1 : Z) (r : spec_float) :
  0 <= n -> rounded sx n e1 r ->
  B2E r = (sgn sx * Rmin (IZR n * bpow e1) (bpow emax))%R /\
  sf_valid r = true /\ sf_nan r = false.
Proof.
  intros Hn [[-> ->] | [(Hp & Hlt & m & e & -> & Ev & Hb) | (Hp & Hge & ->)]].
  - cbn [B2E B2R sf_valid SpecFloat.valid_binary sf_nan]. rewrite Rmult_0_l.
    unfold Rmin. pose proof (bpow_pos emax).
    destruct (Rle_dec 0 (bpow emax)); [| lra]. split; [lra | auto].
  - cbn [B2E B2R sf_valid SpecFloat.valid_binary sf_nan]. rewrite Rmin_left by lra.
    split; [| auto]. unfold sgn. rewrite <- Ev. destruct sx; lra.
  - cbn [B2E B2R sf_valid SpecFloat.valid_binary sf_nan]. rewrite Rmin_right by lra.
    split; [| auto]. unfold sgn. destruct sx; lra.
Qed.

Lemma binary_normalize_spec (m e : Z) (szero : bool) :
  rounds (IZR m * bpow e) (B2E (binary_normalize prec emax m e szero)) /\
  sf_valid (binary_normalize prec emax m e szero) = true /\
  sf_nan (binary_normalize prec emax m e szero) = false.
Proof.
  pose proof (bpow_pos e) as He.
  destruct m as [| p | p]; cbn [binary_normalize].
  - split; [| auto]. left. split; [lra | reflexivity].
  - destruct (binary_round_spec false p e) as (e1 & n & Hat & Hr).
    assert (Hn : 0 <= n) by apply Hat.
    destruct (rounded_facts Hn Hr) as (Ev & Hv & Hnan).
    split; [| auto]. right. left.
    assert (0 < IZR (Zpos p))%R by (apply IZR_lt; lia).
    split; [nra |]. exists e1, n. split; [exact Hat |].
    rewrite Ev. unfold sgn. lra.
  - destruct (binary_round_spec true p e) as (e1 & n & Hat & Hr).
    assert (Hn : 0 <= n) by apply Hat.
    destruct (rounded_facts Hn Hr) as (Ev & Hv & Hnan).
    split; [| auto]. right. right.
    assert (IZR (Zneg p) = - IZR (Zpos p))%R
      by (change (Zneg p) with (- Zpos p); apply opp_IZR).
    assert (0 < IZR (Zpos p))%R by (apply IZR_lt; lia).
    split; [nra |]. exists e1, n. split.
    + replace (- (IZR (Zneg p) * bpow e))%R with (IZR (Zpos p) * bpow e)%R
        by (rewrite H; ring).
      exact Hat.
    + rewrite Ev. unfold sgn. lra.
Qed.

(** *** Valid floats *)

Lemma bounded_facts (m : positive) (e : Z) :
  SpecFloat.bounded prec emax m e = true ->
  -1074 <= e <= 971 /\ Zpos m < 9007199254740992 /\
  (e = -1074 \/ 4503599627370496 <= Zpos m).
Proof.
  unfold SpecFloat.bounded, canonical_mantissa. rewrite fexp_eq.
  intros H. apply andb_prop in H. destruct H as [H1 H2].
  apply Z.eqb_eq in H1. apply Z.leb_le in H2. unfold emax, prec in H2.
  pose proof (digits2_bounds m) as [B1 B2].
  assert (Hd : Zpos (digits2_pos m) <= 53) by lia.
  split; [lia |]. split.
  - assert (2 ^ Zpos (digits2_pos m) <= 2 ^ 53) by (apply Z.pow_le_mono_r; lia).
    change (2 ^ 53) with 9007199254740992 in H. lia.
  - destruct (Z.eq_dec e (-1074)) as [E | N]; [now left | right].
    assert (Ed : Zpos (digits2_pos m) = 53) by lia. rewrite Ed in B1.
    change (2 ^ (53 - 1)) with 4503599627370496 in B1. exact B1.
Qed.

Lemma bpow_emax_split (e : Z) :
  e <= 971 -> (bpow prec * bpow e <= bpow emax)%R.
Proof. intros H. rewrite <- bpow_add. apply bpow_le. unfold prec, emax. lia. Qed.

Lemma finite_below_emax (m : positive) (e : Z) :
  SpecFloat.bounded prec emax m e = true ->
  (IZR (Zpos m) * bpow e < bpow emax)%R.
Proof.
  intros H. apply bounded_facts in H. destruct H as ([_ He] & Hm & _).
  apply IZR_lt in Hm. rewrite <- bpow_prec in Hm.
  pose proof (bpow_emax_split He). pose proof (bpow_pos e). nra.
Qed.

(** A float rounds to itself. *)
Lemma rounds_pos_exact (m : positive) (e : Z) :
  SpecFloat.bounded prec emax m e = true ->
  rounds_pos (IZR (Zpos m) * bpow e) (IZR (Zpos m) * bpow e).
Proof.
  intros H. pose proof (@finite_below_emax m e H) as Hlt.
  apply bounded_facts in H. destruct H as ([He1 He2] & Hm & Hn).
  pose proof (bpow_pos e) as Hp.
  assert (Eq : (IZR (Zpos m) * bpow e / bpow e = IZR (Zpos m))%R)
    by (field; lra).
  exists e, (Zpos m). split.
  - unfold round_at. rewrite Eq. split; [lia |]. split.
    + unfold nearest_even. rewrite Rminus_diag, Rabs_R0. split; lra.
    + split; [lia |]. split.
      * rewrite bpow_prec. apply IZR_lt. exact Hm.
      * destruct Hn as [-> | Hn]; [now left | right].
        rewrite bpow_prec1. apply IZR_le. exact Hn.
  - rewrite Rmin_left by lra. reflexivity.
Qed.

Lemma rounds_exact (x : spec_float) :
  sf_valid x = true -> sf_finite x = true -> rounds (B2R x) (B2R x).
Proof.
  destruct x as [s | s | | s m e]; cbn [sf_finite sf_valid SpecFloat.valid_binary B2R];
    try discriminate; intros Hv _.
  - left. split; reflexivity.
  - pose proof (@rounds_pos_exact m e Hv) as H.
    assert (0 < IZR (Zpos m) * bpow e)%R.
    { assert (0 < IZR (Zpos m))%R by (apply IZR_lt; lia).
      pose proof (bpow_pos e). nra. }
    destruct s.
    + right. right. split; [lra |].
      replace (- (-1 * IZR (Zpos m) * bpow e))%R with (IZR (Zpos m) * bpow e)%R by lra.
      exact H.
    + right. left. split; [lra |].
      replace (1 * IZR (Zpos m) * bpow e)%R with (IZR (Zpos m) * bpow e)%R by lra.
      exact H.
Qed.

Lemma B2E_finite (x : spec_float) : sf_finite x = true -> B2E x = B2R x.
Proof. destruct x; cbn; try discriminate; reflexivity. Qed.

(** *** Addition and subtraction *)

Lemma cond_Zopp_IZR (s : bool) (m : Z) :
  IZR (cond_Zopp s m) = ((if s then -1 else 1) * IZR m)%R.
Proof. destruct s; cbn [cond_Zopp]; [rewrite opp_IZR |]; lra. Qed.

Lemma aligned_value (s : bool) (m : positive) (e ez : Z) :
  ez <= e ->
  (IZR (cond_Zopp s (Zpos (fst (shl_align m e ez)))) * bpow ez
   = B2R (S754_finite s m e))%R.
Proof.
  intros H. destruct (shl_align_spec m e ez) as (mz & e' & E & He' & Hm).
  rewrite E. cbn [fst B2R]. rewrite cond_Zopp_IZR, Hm.
  subst e'. rewrite (Z.min_r e ez H) in *.
  pose proof (@IZR_shl (Zpos m) (e - ez) e ltac:(lia)) as K.
  replace (e - (e - ez)) with ez in K by lia.
  destruct s; lra.
Qed.

Lemma SFadd_spec (x y : spec_float) :
  sf_valid x = true -> sf_valid y = true ->
  sf_finite x = true -> sf_finite y = true ->
  rounds (B2R x + B2R y) (B2E (SFadd prec emax x y)) /\
  sf_valid (SFadd prec emax x y) = true /\
  sf_nan (SFadd prec emax x y) = false.
Proof.
  intros Vx Vy Fx Fy.
  destruct x as [sx | sx | | sx mx ex]; try discriminate;
    destruct y as [sy | sy | | sy my ey]; try discriminate.
  - split; [| destruct sx, sy; auto].
    left. cbn [B2R]. split; [lra | destruct sx, sy; reflexivity].
  - cbn [SFadd]. split; [| auto]. cbn [B2R B2E]. rewrite Rplus_0_l.
    apply (@rounds_exact (S754_finite sy my ey)); auto.
  - cbn [SFadd]. split; [| auto]. cbn [B2R B2E]. rewrite Rplus_0_r.
    apply (@rounds_exact (S754_finite sx mx ex)); auto.
  - cbn [SFadd].
    set (ez := Z.min ex ey).
    pose proof (@aligned_value sx mx ex ez ltac:(lia)) as Hx.
    pose proof (@aligned_value sy my ey ez ltac:(lia)) as Hy.
    rewrite <- Hx, <- Hy, <- Rmult_plus_distr_r, <- plus_IZR.
    apply binary_normalize_spec.
Qed.

Lemma SFsub_spec (x y : spec_float) :
  sf_valid x = true -> sf_valid y = true ->
  sf_finite x = true -> sf_finite y = true ->
  rounds (B2R x - B2R y) (B2E (SFsub prec emax x y)) /\
  sf_valid (SFsub prec emax x y) = true /\
  sf_nan (SFsub prec emax x y) = false.
Proof.
  intros Vx Vy Fx Fy.
  destruct x as [sx | sx | | sx mx ex]; try discriminate;
    destruct y as [sy | sy | | sy my ey]; try discriminate.
  - split; [| destruct sx, sy; auto].
    left. cbn [B2R]. split; [lra | destruct sx, sy; reflexivity].
  - cbn [SFsub]. split; [| auto]. cbn [B2E].
    replace (B2R (S754_zero sx) - B2R (S754_finite sy my ey))%R
      with (B2R (S754_finite (negb sy) my ey))
      by (cbn [B2R]; destruct sy; cbn [negb]; lra).
    apply (@rounds_exact (S754_finite (negb sy) my ey)); auto.
  - cbn [SFsub]. split; [| auto]. cbn [B2R B2E]. rewrite Rminus_0_r.
    apply (@rounds_exact (S754_finite sx mx ex)); auto.
  - cbn [SFsub].
    set (ez := Z.min ex ey).
    pose proof (@aligned_value sx mx ex ez ltac:(lia)) as Hx.
    pose proof (@aligned_value sy my ey ez ltac:(lia)) as Hy.
    rewrite <- Hx, <- Hy, <- Rmult_minus_distr_r, <- minus_IZR.
    apply binary_normalize_spec.
Qed.

(** *** Division *)

Lemma new_location_inb (q my r : Z) :
  0 < my -> 0 <= r < my ->
  inb (shr_record_of_loc q (new_location my r)) (IZR q + IZR r / IZR my).
Proof.
  intros Hmy [Hr0 Hr1].
  assert (Pm : (0 < IZR my)%R) by (apply IZR_lt; lia).
  set (t := (IZR r / IZR my)%R).
  assert (Et : (IZR r = t * IZR my)%R) by (unfold t; field; lra).
  unfold new_location.
  destruct (Z.eqb_spec r 0) as [E0 | N0].
  - assert (t = 0)%R by (unfold t; rewrite E0; unfold Rdiv; apply Rmult_0_l).
    destruct (Z.even my); unfold new_location_even, new_location_odd;
      rewrite E0; cbn; lra.
  - assert (Pr : (0 < IZR r)%R) by (apply IZR_lt; lia).
    assert (Pt : (0 < t)%R) by nra.
    assert (Lt1 : (t < 1)%R).
    { assert (IZR r < IZR my)%R by (apply IZR_lt; lia). nra. }
    apply Z.eqb_neq in N0.
    destruct (Z.even my) eqn:Ev; unfold new_location_even, new_location_odd;
      rewrite N0.
    + destruct (Z.compare_spec (2 * r) my) as [E | L | G]; cbn.
      * apply (f_equal IZR) in E. rewrite mult_IZR in E. nra.
      * apply IZR_lt in L. rewrite mult_IZR in L. nra.
      * apply IZR_lt in G. rewrite mult_IZR in G. nra.
    + destruct (Z.compare_spec (2 * r + 1) my) as [E | L | G]; cbn.
      * assert (L : 2 * r < my) by lia.
        apply IZR_lt in L. rewrite mult_IZR in L. nra.
      * assert (L' : 2 * r < my) by lia.
        apply IZR_lt in L'. rewrite mult_IZR in L'. nra.
      * assert (G' : my < 2 * r).
        { assert (my <> 2 * r).
          { intros ->. rewrite Z.even_mul in Ev. discriminate. }
          lia. }
        apply IZR_lt in G'. rewrite mult_IZR in G'. nra.
Qed.

Lemma fexp_mono (a b : Z) : a <= b -> fexp prec emax a <= fexp prec emax b.
Proof. intros H. rewrite !fexp_eq. lia. Qed.

Lemma SFdiv_core_spec (m1 m2 : positive) (e1 e2 : Z) :
  exists q e' l,
    SFdiv_core_binary prec emax (Zpos m1) e1 (Zpos m2) e2 = (q, e', l) /\
    0 <= q /\
    inb (shr_record_of_loc q l)
        (IZR (Zpos m1) * bpow e1 / (IZR (Zpos m2) * bpow e2) / bpow e') /\
    e' <= fexp prec emax (Zdigits2 q + e').
Proof.
  unfold SFdiv_core_binary.
  set (d1 := Zdigits2 (Zpos m1)). set (d2 := Zdigits2 (Zpos m2)).
  set (e' := Z.min (fexp prec emax (d1 + e1 - (d2 + e2))) (e1 - e2)).
  set (s := e1 - e2 - e').
  assert (Hs : 0 <= s) by (unfold s, e'; lia).
  set (m' := match s with Z0 => Zpos m1 | Zpos _ => Z.shiftl (Zpos m1) s | Zneg _ => 0 end).
  assert (Hm' : m' = Zpos m1 * 2 ^ s).
  { unfold m'. destruct s as [| p | p] eqn:Es.
    - cbn. lia.
    - apply Z.shiftl_mul_pow2. lia.
    - lia. }
  clearbody m'.
  pose proof (Z_div_mod m' (Zpos m2) ltac:(lia)) as Hdiv.
  destruct (Z.div_eucl m' (Zpos m2)) as [q r]. destruct Hdiv as [Hq Hr].
  assert (P2 : 0 < 2 ^ s) by (apply Z.pow_pos_nonneg; lia).
  assert (Hq0 : 0 <= q) by nia.
  exists q, e', (new_location (Zpos m2) r).
  split; [reflexivity |]. split; [exact Hq0 |]. split.
  - replace (IZR (Zpos m1) * bpow e1 / (IZR (Zpos m2) * bpow e2) / bpow e')%R
      with (IZR q + IZR r / IZR (Zpos m2))%R; [apply new_location_inb; lia |].
    assert (Pm : (0 < IZR (Zpos m2))%R) by (apply IZR_lt; lia).
    pose proof (bpow_pos e2). pose proof (bpow_pos e').
    assert (E1 : bpow e1 = (bpow s * bpow e2 * bpow e')%R).
    { rewrite <- !bpow_add. f_equal. unfold s. lia. }
    assert (Em : (IZR (Zpos m1) * bpow s = IZR (Zpos m2) * IZR q + IZR r)%R).
    { rewrite bpow_IZR by exact Hs. rewrite <- mult_IZR, <- Hm', Hq.
      rewrite plus_IZR, mult_IZR. reflexivity. }
    rewrite E1.
    transitivity ((IZR (Zpos m1) * bpow s) / IZR (Zpos m2))%R; [| field; lra].
    rewrite Em. field. lra.
  - assert (Hd : d1 + s - d2 <= Zdigits2 q).
    { pose proof (Zdigits2_nonneg q) as Hn.
      destruct (Z_le_gt_dec (d1 + s - d2) 0) as [L | G]; [lia |].
      pose proof (@Zdigits2_bounds (Zpos m1) ltac:(lia)) as [B1 _].
      pose proof (@Zdigits2_bounds (Zpos m2) ltac:(lia)) as [_ B2].
      fold d1 in B1. fold d2 in B2.
      pose proof (@Zdigits2_pos (Zpos m2) ltac:(lia)) as Pd2. fold d2 in Pd2.
      pose proof (@Zdigits2_pos (Zpos m1) ltac:(lia)) as Pd1. fold d1 in Pd1.
      assert (Hlow : 2 ^ (d1 + s - d2 - 1) <= q).
      { assert (K1 : 2 ^ (d1 + s - 1) <= m').
        { rewrite Hm'. replace (d1 + s - 1) with ((d1 - 1) + s) by lia.
          rewrite Z.pow_add_r by lia. nia. }
        assert (K2 : 2 ^ (d1 + s - 1) = 2 ^ (d1 + s - d2 - 1) * 2 ^ d2).
        { rewrite <- Z.pow_add_r by lia. f_equal. lia. }
        assert (P3 : 0 < 2 ^ (d1 + s - d2 - 1)) by (apply Z.pow_pos_nonneg; lia).
        nia. }
      assert (Hqp : 0 < q).
      { assert (0 < 2 ^ (d1 + s - d2 - 1)) by (apply Z.pow_pos_nonneg; lia). lia. }
      pose proof (Zdigits2_bounds Hqp) as [_ B3].
      destruct (Z_lt_le_dec (Zdigits2 q) (d1 + s - d2)) as [L | L]; [| exact L].
      assert (2 ^ Zdigits2 q <= 2 ^ (d1 + s - d2 - 1)) by (apply Z.pow_le_mono_r; lia).
      lia. }
    assert (He : e' <= fexp prec emax (d1 + e1 - (d2 + e2))) by (unfold e'; lia).
    eapply Z.le_trans; [exact He |]. apply fexp_mono. unfold s in Hd. lia.
Qed.

(** What [binary_round_aux] makes of a located positive number. *)
Lemma round_aux_rounds (sx : bool) (mx ex : Z) (lx : location) (V : R) :
  0 <= mx -> inb (shr_record_of_loc mx lx) (V / bpow ex) ->
  ex <= fexp prec emax (Zdigits2 mx + ex) ->
  exists R0,
    rounds_pos V R0 /\
    B2E (binary_round_aux prec emax sx mx ex lx) = (sgn sx * R0)%R /\
    sf_valid (binary_round_aux prec emax sx mx ex lx) = true /\
    sf_nan (binary_round_aux prec emax sx mx ex lx) = false.
Proof.
  intros Hmx Hin Hex.
  destruct (@round_aux_spec sx mx ex lx (V / bpow ex) Hmx Hin Hex)
    as (n & Hnear & Hn & Hlt & Hnorm & Hr).
  cbv zeta in *.
  pose proof (bpow_pos ex) as Pe.
  replace (V / bpow ex * bpow ex)%R with V in * by (field; lra).
  destruct (rounded_facts Hn Hr) as (Ev & Hv & Hnan).
  exists (Rmin (IZR n * bpow (fexp prec emax (Zdigits2 mx + ex))) (bpow emax)).
  split; [| auto].
  exists (fexp prec emax (Zdigits2 mx + ex)), n. split; [| reflexivity].
  unfold round_at. split; [rewrite fexp_eq; lia |].
  split; [exact Hnear |]. split; [exact Hn |]. split; [exact Hlt | exact Hnorm].
Qed.

Lemma SFdiv_spec (x y : spec_float) :
  sf_valid x = true -> sf_valid y = true ->
  sf_finite x = true -> sf_finite y = true -> B2R y <> 0%R ->
  rounds (B2R x / B2R y) (B2E (SFdiv prec emax x y)) /\
  sf_valid (SFdiv prec emax x y) = true /\
  sf_nan (SFdiv prec emax x y) = false.
Proof.
  intros Vx Vy Fx Fy Hy.
  destruct y as [sy | sy | | sy my ey]; try discriminate;
    [cbn [B2R] in Hy; lra |].
  destruct x as [sx | sx | | sx mx ex]; try discriminate.
  - cbn [SFdiv]. split; [| auto]. left. cbn [B2R B2E]. split; [| reflexivity].
    unfold Rdiv. apply Rmult_0_l.
  - cbn [SFdiv].
    destruct (SFdiv_core_spec mx my ex ey) as (q & e' & l & E & Hq & Hin & He).
    rewrite E.
    set (V := (IZR (Zpos mx) * bpow ex / (IZR (Zpos my) * bpow ey))%R) in *.
    assert (PV : (0 < V)%R).
    { unfold V. apply Rdiv_lt_0_compat.
      - apply Rmult_lt_0_compat; [apply IZR_lt; lia | apply bpow_pos].
      - apply Rmult_lt_0_compat; [apply IZR_lt; lia | apply bpow_pos]. }
    destruct (@round_aux_rounds (xorb sx sy) q e' l V Hq Hin He)
      as (R0 & HR0 & Ev & Hv & Hnan).
    split; [| auto]. rewrite Ev.
    assert (EV : (B2R (S754_finite sx mx ex) / B2R (S754_finite sy my ey)
                  = sgn (xorb sx sy) * V)%R).
    { cbn [B2R]. unfold V, sgn.
      assert (0 < IZR (Zpos my))%R by (apply IZR_lt; lia).
      pose proof (bpow_pos ey).
      destruct sx, sy; cbn [xorb]; field; lra. }
    rewrite EV. unfold sgn. destruct (xorb sx sy).
    + right. right. split; [lra |].
      replace (- (-1 * V))%R with V by lra.
      replace (- (-1 * R0))%R with R0 by lra. exact HR0.
    + right. left. split; [lra |].
      replace (1 * V)%R with V by lra.
      replace (1 * R0)%R with R0 by lra. exact HR0.
Qed.

(* ------------------------------------------------------------------ *)
(** ** How far rounding moves a number *)

Lemma Rabs_le_between (x y : R) : (Rabs x <= y -> - y <= x <= y)%R.
Proof. unfold Rabs. destruct (Rcase_abs x); lra. Qed.

Lemma u_half_two : (u_half * (2 * IZR 4503599627370496) = 1)%R.
Proof.
  unfold u_half.
  assert (H : (bpow (-53) * bpow 53 = 1)%R) by (rewrite <- bpow_add; reflexivity).
  rewrite (@bpow_IZR 53) in H by lia.
  change (2 ^ 53) with (2 * 4503599627370496) in H. rewrite mult_IZR in H.
  exact H.
Qed.

Lemma u_half_pos : (0 < u_half)%R.
Proof. apply bpow_pos. Qed.

Lemma eta_half_pos : (0 < eta_half)%R.
Proof. apply bpow_pos. Qed.

Lemma eta_half_val : (bpow (-1074) / 2 = eta_half)%R.
Proof. unfold eta_half. rewrite <- bpow_pred. reflexivity. Qed.

Lemma round_at_err (v : R) (e n : Z) :
  round_at v e n -> (Rabs (IZR n * bpow e - v) <= bpow e / 2)%R.
Proof.
  intros (_ & [Hn _] & _). pose proof (bpow_pos e) as Pe.
  replace (IZR n * bpow e - v)%R with ((IZR n - v / bpow e) * bpow e)%R
    by (field; lra).
  rewrite Rabs_mult, (Rabs_pos_eq (bpow e)) by lra. nra.
Qed.

Lemma round_at_ulp (v : R) (e n : Z) :
  round_at v e n -> e = -1074 \/ (bpow e / 2 <= u_half * v)%R.
Proof.
  intros (_ & _ & _ & _ & [E | H]); [now left | right].
  pose proof (bpow_pos e) as Pe. rewrite bpow_prec1 in H.
  set (c := IZR 4503599627370496) in *.
  pose proof u_half_two as U. fold c in U. pose proof u_half_pos as Pu.
  set (X := (v / bpow e)%R) in *.
  assert (Ev : v = (X * bpow e)%R) by (unfold X; field; lra).
  rewrite Ev.
  assert (K : (1 <= u_half * (2 * X))%R) by nra.
  nra.
Qed.

Lemma round_at_nonneg (v : R) (e n : Z) : round_at v e n -> (0 <= IZR n * bpow e)%R.
Proof.
  intros (_ & _ & Hn & _). apply IZR_le in Hn. pose proof (bpow_pos e). nra.
Qed.

Lemma rounds_pos_nonneg (v r : R) : rounds_pos v r -> (0 <= r)%R.
Proof.
  intros (e & n & Hat & ->). apply Rmin_bpow. eapply round_at_nonneg; eassumption.
Qed.

Lemma rounds_pos_value (v r : R) :
  rounds_pos v r -> (r < bpow emax)%R ->
  exists e n, round_at v e n /\ r = (IZR n * bpow e)%R.
Proof.
  intros (e & n & Hat & ->) Hlt. exists e, n. split; [exact Hat |].
  unfold Rmin in *. destruct (Rle_dec (IZR n * bpow e) (bpow emax)); lra.
Qed.

Lemma rounds_pos_err (v r : R) :
  (0 < v)%R -> rounds_pos v r -> (r < bpow emax)%R ->
  (Rabs (r - v) <= u_half * v + eta_half)%R.
Proof.
  intros Pv H Hlt. destruct (rounds_pos_value H Hlt) as (e & n & Hat & ->).
  pose proof (round_at_err Hat) as He.
  pose proof u_half_pos. pose proof eta_half_pos.
  destruct (round_at_ulp Hat) as [E | U].
  - subst e. rewrite eta_half_val in He. nra.
  - lra.
Qed.

Lemma int_near (n k : Z) : (Rabs (IZR n - IZR k) <= / 2)%R -> n = k.
Proof.
  intros H. apply Rabs_le_between in H. destruct H as [H1 H2].
  destruct (Z_lt_le_dec n k) as [L | L].
  - assert (n + 1 <= k) by lia. apply IZR_le in H. rewrite plus_IZR in H. lra.
  - destruct (Z_lt_le_dec k n) as [G | G]; [| lia].
    assert (k + 1 <= n) by lia. apply IZR_le in H. rewrite plus_IZR in H. lra.
Qed.

(** On the grid of the multiples of [2^emin] the error is relative. *)
Lemma rounds_pos_err_grid (v r : R) (k : Z) :
  (0 < v)%R -> rounds_pos v r -> (r < bpow emax)%R ->
  v = (IZR k * bpow (-1074))%R ->
  (Rabs (r - v) <= u_half * v)%R.
Proof.
  intros Pv H Hlt Hk. destruct (rounds_pos_value H Hlt) as (e & n & Hat & ->).
  pose proof (round_at_err Hat) as He.
  destruct (round_at_ulp Hat) as [E | U]; [| lra].
  subst e. destruct Hat as (_ & [Hn _] & _).
  pose proof (bpow_pos (-1074)) as Pb.
  replace (v / bpow (-1074))%R with (IZR k) in Hn by (rewrite Hk; field; lra).
  apply int_near in Hn. subst n. rewrite <- Hk.
  rewrite Rminus_diag, Rabs_R0. pose proof u_half_pos. nra.
Qed.

Lemma rounds_pos_finite (v r : R) :
  (0 < v)%R -> rounds_pos v r -> (v * (1 + u_half) < bpow emax)%R ->
  (r < bpow emax)%R.
Proof.
  intros Pv (e & n & Hat & ->) Hb.
  assert (Hn : (IZR n * bpow e < bpow emax)%R).
  { pose proof (round_at_err Hat) as He. apply Rabs_le_between in He.
    destruct (round_at_ulp Hat) as [E | U]; [| lra].
    subst e. destruct Hat as (_ & [Hn _] & _ & Hv & _).
    apply Rabs_le_between in Hn. rewrite bpow_prec in Hv.
    assert (Hn' : (IZR n < IZR 9007199254740992 + 1)%R) by lra.
    rewrite <- plus_IZR in Hn'. apply lt_IZR in Hn'.
    assert (Hn2 : n <= 9007199254740992) by lia.
    apply IZR_le in Hn2. rewrite <- bpow_prec in Hn2.
    assert (bpow prec * bpow (-1074) < bpow emax)%R
      by (rewrite <- bpow_add; apply bpow_lt; unfold prec, emax; lia).
    pose proof (bpow_pos (-1074)). nra. }
  rewrite Rmin_left by lra. exact Hn.
Qed.

(** *** The signed forms *)

Lemma rounds_sign (v r : R) :
  rounds v r -> ((0 <= v -> 0 <= r) /\ (v <= 0 -> r <= 0))%R.
Proof.
  intros [[-> ->] | [[Pv H] | [Nv H]]].
  - split; lra.
  - apply rounds_pos_nonneg in H. split; lra.
  - apply rounds_pos_nonneg in H. split; lra.
Qed.

Lemma rounds_err (v r : R) :
  rounds v r -> (Rabs r < bpow emax)%R ->
  (Rabs (r - v) <= u_half * Rabs v + eta_half)%R.
Proof.
  intros [[-> ->] | [[Pv H] | [Nv H]]] Hlt.
  - rewrite Rminus_diag, Rabs_R0. pose proof eta_half_pos. lra.
  - pose proof (rounds_pos_nonneg H).
    rewrite (Rabs_pos_eq r) in Hlt by assumption.
    rewrite (Rabs_pos_eq v) by lra. apply rounds_pos_err; assumption.
  - pose proof (rounds_pos_nonneg H).
    rewrite <- (Rabs_Ropp r), (Rabs_pos_eq (- r)) in Hlt by assumption.
    rewrite <- (Rabs_Ropp v), (Rabs_pos_eq (- v)) by lra.
    rewrite <- (Rabs_Ropp (r - v)).
    replace (- (r - v))%R with (- r - - v)%R by lra.
    apply rounds_pos_err; [lra | assumption | assumption].
Qed.

Lemma rounds_err_grid (v r : R) (k : Z) :
  rounds v r -> (Rabs r < bpow emax)%R -> v = (IZR k * bpow (-1074))%R ->
  (Rabs (r - v) <= u_half * Rabs v)%R.
Proof.
  intros [[-> ->] | [[Pv H] | [Nv H]]] Hlt Hk.
  - rewrite Rminus_diag, Rabs_R0. lra.
  - pose proof (rounds_pos_nonneg H).
    rewrite (Rabs_pos_eq r) in Hlt by assumption.
    rewrite (Rabs_pos_eq v) by lra. eapply rounds_pos_err_grid; eassumption.
  - pose proof (rounds_pos_nonneg H).
    rewrite <- (Rabs_Ropp r), (Rabs_pos_eq (- r)) in Hlt by assumption.
    rewrite <- (Rabs_Ropp v), (Rabs_pos_eq (- v)) by lra.
    rewrite <- (Rabs_Ropp (r - v)).
    replace (- (r - v))%R with (- r - - v)%R by lra.
    apply rounds_pos_err_grid with (k := - k); [lra | assumption | assumption |].
    rewrite opp_IZR, Hk. ring.
Qed.

Lemma rounds_finite (v r : R) :
  rounds v r -> (Rabs v * (1 + u_half) < bpow emax)%R ->
  (Rabs r < bpow emax)%R.
Proof.
  intros [[-> ->] | [[Pv H] | [Nv H]]] Hb.
  - rewrite Rabs_R0. apply bpow_pos.
  - pose proof (rounds_pos_nonneg H).
    rewrite (Rabs_pos_eq v) in Hb by lra. rewrite (Rabs_pos_eq r) by assumption.
    eapply rounds_pos_finite; eassumption.
  - pose proof (rounds_pos_nonneg H).
    rewrite <- (Rabs_Ropp v), (Rabs_pos_eq (- v)) in Hb by lra.
    rewrite <- (Rabs_Ropp r), (Rabs_pos_eq (- r)) by assumption.
    eapply rounds_pos_finite; [| eassumption | assumption]. lra.
Qed.

(** *** Finite floats in real terms *)

Lemma finite_abs_below (x : spec_float) :
  sf_valid x = true -> sf_finite x = true -> (Rabs (B2R x) < bpow emax)%R.
Proof.
  destruct x as [s | s | | s m e]; cbn [sf_finite sf_valid SpecFloat.valid_binary B2R];
    try discriminate; intros Hv _.
  - rewrite Rabs_R0. apply bpow_pos.
  - pose proof (@finite_below_emax m e Hv) as H.
    assert (0 < IZR (Zpos m) * bpow e)%R.
    { assert (0 < IZR (Zpos m))%R by (apply IZR_lt; lia).
      pose proof (bpow_pos e). nra. }
    destruct s.
    + replace (-1 * IZR (Zpos m) * bpow e)%R with (- (IZR (Zpos m) * bpow e))%R by lra.
      rewrite Rabs_Ropp, Rabs_pos_eq; lra.
    + replace (1 * IZR (Zpos m) * bpow e)%R with (IZR (Zpos m) * bpow e)%R by lra.
      rewrite Rabs_pos_eq; lra.
Qed.

Lemma finite_of_below (x : spec_float) :
  sf_nan x = false -> (Rabs (B2E x) < bpow emax)%R -> sf_finite x = true.
Proof.
  destruct x as [s | s | | s m e]; cbn [sf_finite sf_nan B2E]; try discriminate;
    try reflexivity.
  intros _ H. pose proof (bpow_pos emax).
  destruct s.
  - replace (-1 * bpow emax)%R with (- bpow emax)%R in H by lra.
    rewrite Rabs_Ropp, Rabs_pos_eq in H; lra.
  - replace (1 * bpow emax)%R with (bpow emax)%R in H by lra.
    rewrite Rabs_pos_eq in H; lra.
Qed.

Lemma finite_grid (x : spec_float) :
  sf_valid x = true -> sf_finite x = true ->
  exists k : Z, B2R x = (IZR k * bpow (-1074))%R.
Proof.
  destruct x as [s | s | | s m e]; cbn [sf_finite sf_valid SpecFloat.valid_binary B2R];
    try discriminate; intros Hv _.
  - exists 0. lra.
  - apply bounded_facts in Hv. destruct Hv as ([He _] & _).
    exists ((if s then -1 else 1) * (Zpos m * 2 ^ (e + 1074))).
    rewrite mult_IZR.
    pose proof (@IZR_shl (Zpos m) (e + 1074) e ltac:(lia)) as K.
    replace (e - (e + 1074)) with (-1074) in K by lia.
    transitivity (IZR (if s then -1 else 1)
                  * (IZR (Zpos m * 2 ^ (e + 1074)) * bpow (-1074)))%R;
      [rewrite K; destruct s; lra | ring].
Qed.

(* ------------------------------------------------------------------ *)
(** ** The order of floats *)

Lemma finite_pos_value (m : positive) (e : Z) : (0 < IZR (Zpos m) * bpow e)%R.
Proof.
  assert (0 < IZR (Zpos m))%R by (apply IZR_lt; lia).
  pose proof (bpow_pos e). nra.
Qed.

Lemma compare_pos (m1 m2 : positive) (e1 e2 : Z) :
  SpecFloat.bounded prec emax m1 e1 = true ->
  SpecFloat.bounded prec emax m2 e2 = true ->
  match (match e1 ?= e2 with
         | Lt => Lt
         | Gt => Gt
         | Eq => Pos.compare_cont Eq m1 m2
         end) with
  | Lt => (IZR (Zpos m1) * bpow e1 < IZR (Zpos m2) * bpow e2)%R
  | Eq => (IZR (Zpos m1) * bpow e1 = IZR (Zpos m2) * bpow e2)%R
  | Gt => (IZR (Zpos m2) * bpow e2 < IZR (Zpos m1) * bpow e1)%R
  end.
Proof.
  intros B1 B2. apply bounded_facts in B1, B2.
  destruct B1 as ([L1 U1] & M1 & N1). destruct B2 as ([L2 U2] & M2 & N2).
  assert (Far : forall (ma mb : positive) (ea eb : Z),
             Zpos ma < 9007199254740992 -> 4503599627370496 <= Zpos mb -> ea < eb ->
             (IZR (Zpos ma) * bpow ea < IZR (Zpos mb) * bpow eb)%R).
  { intros ma mb ea eb Ha Hb Hlt.
    apply IZR_lt in Ha. apply IZR_le in Hb.
    assert (K : (2 * bpow ea <= bpow eb)%R)
      by (rewrite <- bpow_succ; apply bpow_le; lia).
    change 9007199254740992 with (2 * 4503599627370496) in Ha.
    rewrite mult_IZR in Ha.
    pose proof (bpow_pos ea). pose proof (bpow_pos eb).
    assert (0 < IZR 4503599627370496)%R by (apply IZR_lt; lia).
    apply Rlt_le_trans with (2 * IZR 4503599627370496 * bpow ea)%R; [nra |].
    apply Rle_trans with (IZR 4503599627370496 * bpow eb)%R; nra. }
  destruct (Z.compare_spec e1 e2) as [E | L | G].
  - subst e2. rewrite Pos.compare_cont_spec. unfold Pos.switch_Eq.
    pose proof (bpow_pos e1).
    destruct (Pos.compare_spec m1 m2) as [E | L | G].
    + rewrite E. reflexivity.
    + apply Pos2Z.pos_lt_pos, IZR_lt in L. nra.
    + apply Pos2Z.pos_lt_pos, IZR_lt in G. nra.
  - apply Far; [exact M1 | lia | exact L].
  - apply Far; [exact M2 | lia | exact G].
Qed.

Lemma SFcompare_spec (x y : spec_float) :
  sf_valid x = true -> sf_valid y = true ->
  sf_nan x = false -> sf_nan y = false ->
  exists c, SFcompare x y = Some c /\
            match c with
            | Lt => (B2E x < B2E y)%R
            | Eq => B2E x = B2E y
            | Gt => (B2E y < B2E x)%R
            end.
Proof.
  intros Vx Vy Nx Ny. pose proof (bpow_pos emax) as Pm.
  destruct x as [sx | sx | | sx mx ex]; try discriminate;
    destruct y as [sy | sy | | sy my ey]; try discriminate;
    cbn [SFcompare B2E B2R sf_valid SpecFloat.valid_binary] in *.
  - exists Eq. split; reflexivity.
  - destruct sy; eexists; (split; [reflexivity |]); cbv beta iota; lra.
  - pose proof (finite_pos_value my ey).
    destruct sy; eexists; (split; [reflexivity |]); cbv beta iota; lra.
  - destruct sx; eexists; (split; [reflexivity |]); cbv beta iota; lra.
  - destruct sx, sy; eexists; (split; [reflexivity |]); cbv beta iota; lra.
  - pose proof (@finite_below_emax my ey Vy). pose proof (finite_pos_value my ey).
    destruct sx, sy; eexists; (split; [reflexivity |]); cbv beta iota; lra.
  - pose proof (finite_pos_value mx ex).
    destruct sx; eexists; (split; [reflexivity |]); cbv beta iota; lra.
  - pose proof (@finite_below_emax mx ex Vx). pose proof (finite_pos_value mx ex).
    destruct sx, sy; eexists; (split; [reflexivity |]); cbv beta iota; lra.
  - pose proof (finite_pos_value mx ex). pose proof (finite_pos_value my ey).
    destruct sx, sy.
    + pose proof (@compare_pos mx my ex ey Vx Vy) as C. eexists. split; [reflexivity |].
      destruct (ex ?= ey); [destruct (Pos.compare_cont Eq mx my) | |];
        cbn [CompOpp]; cbv beta iota; lra.
    + eexists. split; [reflexivity |]. cbn. lra.
    + eexists. split; [reflexivity |]. cbn. lra.
    + pose proof (@compare_pos mx my ex ey Vx Vy) as C. eexists. split; [reflexivity |].
      destruct (ex ?= ey); [destruct (Pos.compare_cont Eq mx my) | |];
        cbn [CompOpp]; cbv beta iota; lra.
Qed.

Lemma fl_valid (x : float) : sf_valid (Prim2SF x) = true.
Proof. apply Prim2SF_valid. Qed.

Lemma fl_number_nan (x : float) : fl_number x = true -> sf_nan (Prim2SF x) = false.
Proof. unfold fl_number. destruct (sf_nan (Prim2SF x)); [discriminate | reflexivity]. Qed.

Lemma fl_finite_number (x : float) : fl_finite x = true -> fl_number x = true.
Proof. unfold fl_finite, fl_number. destruct (Prim2SF x); cbn; congruence. Qed.

Lemma F2E_finite (x : float) : fl_finite x = true -> F2E x = F2R x.
Proof. apply B2E_finite. Qed.

(** [<=] and [<] on floats are the order of their values. *)
Lemma leb_order (x y : float) :
  fl_number x = true -> fl_number y = true ->
  ((x <=? y)%float = true <-> (F2E x <= F2E y)%R).
Proof.
  intros Hx Hy. apply fl_number_nan in Hx, Hy.
  rewrite leb_spec. unfold SFleb, F2E.
  destruct (@SFcompare_spec _ _ (fl_valid x) (fl_valid y) Hx Hy) as (c & -> & H).
  destruct c; split; intros K; try reflexivity; try discriminate; lra.
Qed.

Lemma ltb_order (x y : float) :
  fl_number x = true -> fl_number y = true ->
  ((x <? y)%float = true <-> (F2E x < F2E y)%R).
Proof.
  intros Hx Hy. apply fl_number_nan in Hx, Hy.
  rewrite ltb_spec. unfold SFltb, F2E.
  destruct (@SFcompare_spec _ _ (fl_valid x) (fl_valid y) Hx Hy) as (c & -> & H).
  destruct c; split; intros K; try reflexivity; try discriminate; lra.
Qed.

Lemma leb_number (x y : float) :
  (x <=? y)%float = true -> fl_number x = true /\ fl_number y = true.
Proof.
  rewrite leb_spec. unfold SFleb, fl_number.
  destruct (Prim2SF x), (Prim2SF y); cbn; intros H; try discriminate; auto.
Qed.

Lemma ltb_number (x y : float) :
  (x <? y)%float = true -> fl_number x = true /\ fl_number y = true.
Proof.
  rewrite ltb_spec. unfold SFltb, fl_number.
  destruct (Prim2SF x), (Prim2SF y); cbn; intros H; try discriminate; auto.
Qed.

(* ------------------------------------------------------------------ *)
(** ** The arithmetic of floats in real terms *)

Lemma add_rounds (x y : float) :
  fl_finite x = true -> fl_finite y = true ->
  rounds (F2R x + F2R y) (F2E (x + y)) /\ fl_number (x + y) = true.
Proof.
  intros Hx Hy. unfold F2R, F2E, fl_number. rewrite add_spec. unfold SF64add.
  destruct (@SFadd_spec _ _ (fl_valid x) (fl_valid y) Hx Hy) as (H & _ & N).
  rewrite N. split; [exact H | reflexivity].
Qed.

Lemma sub_rounds (x y : float) :
  fl_finite x = true -> fl_finite y = true ->
  rounds (F2R x - F2R y) (F2E (x - y)) /\ fl_number (x - y) = true.
Proof.
  intros Hx Hy. unfold F2R, F2E, fl_number. rewrite sub_spec. unfold SF64sub.
  destruct (@SFsub_spec _ _ (fl_valid x) (fl_valid y) Hx Hy) as (H & _ & N).
  rewrite N. split; [exact H | reflexivity].
Qed.

Lemma div_rounds (x y : float) :
  fl_finite x = true -> fl_finite y = true -> F2R y <> 0%R ->
  rounds (F2R x / F2R y) (F2E (x / y)) /\ fl_number (x / y) = true.
Proof.
  intros Hx Hy H0. unfold F2R, F2E, fl_number. rewrite div_spec. unfold SF64div.
  destruct (@SFdiv_spec _ _ (fl_valid x) (fl_valid y) Hx Hy H0) as (H & _ & N).
  rewrite N. split; [exact H | reflexivity].
Qed.

Lemma fl_finite_below (x : float) :
  fl_number x = true -> (Rabs (F2E x) < bpow emax)%R -> fl_finite x = true.
Proof. intros H. apply finite_of_below, fl_number_nan, H. Qed.

Lemma fl_below (x : float) : fl_finite x = true -> (Rabs (F2R x) < bpow emax)%R.
Proof. apply finite_abs_below, fl_valid. Qed.

Lemma fl_grid (x : float) :
  fl_finite x = true -> exists k : Z, F2R x = (IZR k * bpow (-1074))%R.
Proof. apply finite_grid, fl_valid. Qed.

Lemma add_finite_inv (x y : float) :
  fl_finite (x + y) = true -> fl_finite x = true /\ fl_finite y = true.
Proof.
  unfold fl_finite. rewrite add_spec. unfold SF64add.
  destruct (Prim2SF x) as [sx | sx | | sx mx ex], (Prim2SF y) as [sy | sy | | sy my ey];
    cbn [SFadd sf_finite]; try (intros H; split; solve [reflexivity | discriminate]).
  all: destruct sx, sy; cbn; intros H; discriminate.
Qed.

(** An addition that stays finite is off by at most one part in [2^53]. *)
Lemma add_err (x y : float) :
  fl_finite (x + y) = true ->
  (Rabs (F2R (x + y) - (F2R x + F2R y)) <= u_half * Rabs (F2R x + F2R y))%R.
Proof.
  intros H. destruct (@add_finite_inv x y H) as [Hx Hy].
  destruct (@add_rounds x y Hx Hy) as [Hr _]. rewrite (@F2E_finite _ H) in Hr.
  destruct (@fl_grid x Hx) as [kx Ex]. destruct (@fl_grid y Hy) as [ky Ey].
  apply rounds_err_grid with (k := kx + ky); [exact Hr | apply fl_below, H |].
  rewrite Ex, Ey, plus_IZR. ring.
Qed.

Lemma add_finite_fwd (x y : float) :
  fl_finite x = true -> fl_finite y = true ->
  (Rabs (F2R x + F2R y) * (1 + u_half) < bpow emax)%R ->
  fl_finite (x + y) = true.
Proof.
  intros Hx Hy Hb. destruct (@add_rounds x y Hx Hy) as [Hr Hn].
  apply fl_finite_below; [exact Hn |]. eapply rounds_finite; eassumption.
Qed.

Lemma add_sign (x y : float) :
  fl_finite (x + y) = true -> (0 <= F2R x + F2R y)%R -> (0 <= F2R (x + y))%R.
Proof.
  intros H Hp. destruct (@add_finite_inv x y H) as [Hx Hy].
  destruct (@add_rounds x y Hx Hy) as [Hr _]. rewrite (@F2E_finite _ H) in Hr.
  apply rounds_sign in Hr. apply Hr, Hp.
Qed.

Lemma div_finite_fwd (x y : float) :
  fl_finite x = true -> fl_finite y = true -> F2R y <> 0%R ->
  (Rabs (F2R x / F2R y) * (1 + u_half) < bpow emax)%R ->
  fl_finite (x / y) = true.
Proof.
  intros Hx Hy H0 Hb. destruct (@div_rounds x y Hx Hy H0) as [Hr Hn].
  apply fl_finite_below; [exact Hn |]. eapply rounds_finite; eassumption.
Qed.

Lemma div_err (x y : float) :
  fl_finite x = true -> fl_finite y = true -> F2R y <> 0%R ->
  fl_finite (x / y) = true ->
  (Rabs (F2R (x / y) - F2R x / F2R y) <= u_half * Rabs (F2R x / F2R y) + eta_half)%R.
Proof.
  intros Hx Hy H0 H. destruct (@div_rounds x y Hx Hy H0) as [Hr _].
  rewrite (@F2E_finite _ H) in Hr.
  apply rounds_err; [exact Hr | apply fl_below, H].
Qed.

Lemma div_sign (x y : float) :
  fl_finite x = true -> fl_finite y = true -> F2R y <> 0%R ->
  fl_finite (x / y) = true ->
  (0 <= F2R x / F2R y)%R -> (0 <= F2R (x / y))%R.
Proof.
  intros Hx Hy H0 H Hp. destruct (@div_rounds x y Hx Hy H0) as [Hr _].
  rewrite (@F2E_finite _ H) in Hr. apply rounds_sign in Hr. apply Hr, Hp.
Qed.

Lemma sub_finite_fwd (x y : float) :
  fl_finite x = true -> fl_finite y = true ->
  (Rabs (F2R x - F2R y) * (1 + u_half) < bpow emax)%R ->
  fl_finite (x - y) = true.
Proof.
  intros Hx Hy Hb. destruct (@sub_rounds x y Hx Hy) as [Hr Hn].
  apply fl_finite_below; [exact Hn |]. eapply rounds_finite; eassumption.
Qed.

Lemma sub_err (x y : float) :
  fl_finite x = true -> fl_finite y = true -> fl_finite (x - y) = true ->
  (Rabs (F2R (x - y) - (F2R x - F2R y)) <= u_half * Rabs (F2R x - F2R y))%R.
Proof.
  intros Hx Hy H. destruct (@sub_rounds x y Hx Hy) as [Hr _].
  rewrite (@F2E_finite _ H) in Hr.
  destruct (@fl_grid x Hx) as [kx Ex]. destruct (@fl_grid y Hy) as [ky Ey].
  apply rounds_err_grid with (k := kx - ky); [exact Hr | apply fl_below, H |].
  rewrite Ex, Ey, minus_IZR. ring.
Qed.

Lemma abs_value (x : float) :
  F2R (abs x) = Rabs (F2R x) /\ fl_finite (abs x) = fl_finite x.
Proof.
  unfold F2R, fl_finite. rewrite abs_spec.
  destruct (Prim2SF x) as [s | s | | s m e]; cbn [SFabs B2R sf_finite];
    try (split; [symmetry; apply Rabs_R0 | reflexivity]).
  split; [| reflexivity]. pose proof (finite_pos_value m e).
  destruct s.
  - replace (-1 * IZR (Zpos m) * bpow e)%R with (- (IZR (Zpos m) * bpow e))%R by lra.
    rewrite Rabs_Ropp, Rabs_pos_eq; lra.
  - rewrite Rabs_pos_eq; lra.
Qed.

(* ------------------------------------------------------------------ *)
(** ** Sums of floats

    Left-to-right sums of non-negative floats against the exact sum of
    their values. *)

Section Powers.

Variable u : R.
Hypothesis u_pos : (0 < u)%R.
Hypothesis u_small : (u < 1)%R.

Lemma pow_up_pos (n : nat) : (1 <= (1 + u) ^ n)%R.
Proof. apply pow_R1_Rle. lra. Qed.

Lemma pow_down_pos (n : nat) : (0 < (1 - u) ^ n)%R.
Proof. apply pow_lt. lra. Qed.

Lemma pow_up (n : nat) :
  (2 * INR n * u <= 1 -> (1 + u) ^ n <= 1 + 2 * INR n * u)%R.
Proof.
  induction n as [| n IH]; intros H.
  - cbn. lra.
  - rewrite S_INR in *. pose proof (pos_INR n) as Pn.
    assert (H' : (2 * INR n * u <= 1)%R) by nra.
    specialize (IH H'). rewrite <- tech_pow_Rmult.
    pose proof (pow_up_pos n). nra.
Qed.

Lemma pow_down (n : nat) : (1 - INR n * u <= (1 - u) ^ n)%R.
Proof.
  induction n as [| n IH].
  - cbn. lra.
  - rewrite S_INR. pose proof (pos_INR n) as Pn.
    rewrite <- tech_pow_Rmult. pose proof (pow_down_pos n). nra.
Qed.

End Powers.

Lemma Rsum_nonneg (l : list float) :
  Forall (fun v => (0 <= F2R v)%R) l -> (0 <= Rsum l)%R.
Proof.
  induction 1 as [| v l Hv _ IH]; cbn [Rsum fold_right]; [lra |].
  fold (Rsum l). lra.
Qed.

Lemma Rsum_member (l : list float) (v : float) :
  Forall (fun v => (0 <= F2R v)%R) l -> In v l -> (F2R v <= Rsum l)%R.
Proof.
  induction 1 as [| w l Hw Hl IH]; intros Hin; [destruct Hin |].
  cbn [Rsum fold_right]. fold (Rsum l). pose proof (Rsum_nonneg Hl).
  destruct Hin as [-> | Hin]; [lra |]. specialize (IH Hin). lra.
Qed.

Lemma fold_finite_inv (l : list float) :
  forall acc, fl_finite (fold_left PrimFloat.add l acc) = true ->
              fl_finite acc = true /\ Forall (fun v => fl_finite v = true) l.
Proof.
  induction l as [| v l IH]; intros acc H; cbn [fold_left] in H.
  - split; [exact H | constructor].
  - destruct (IH _ H) as [Ha Hl]. destruct (@add_finite_inv acc v Ha) as [Hacc Hv].
    split; [exact Hacc | constructor; assumption].
Qed.

Lemma fold_bounds (l : list float) :
  forall acc,
    fl_finite (fold_left PrimFloat.add l acc) = true ->
    (0 <= F2R acc)%R -> Forall (fun v => (0 <= F2R v)%R) l ->
    ((F2R acc + Rsum l) * (1 - u_half) ^ List.length l
       <= F2R (fold_left PrimFloat.add l acc)
       <= (F2R acc + Rsum l) * (1 + u_half) ^ List.length l)%R.
Proof.
  pose proof u_half_pos as Pu.
  assert (Lu : (u_half < 1)%R).
  { pose proof u_half_two as U.
    assert (1 <= IZR 4503599627370496)%R by (apply IZR_le; lia). nra. }
  induction l as [| v l IH]; intros acc H Ha Hl; cbn [fold_left List.length Rsum fold_right].
  - cbn. lra.
  - fold (Rsum l). inversion Hl as [| ? ? Hv Hl']; subst.
    cbn [fold_left] in H.
    destruct (fold_finite_inv _ _ H) as [Hf _].
    pose proof (@add_err acc v Hf) as He.
    pose proof (@add_sign acc v Hf ltac:(lra)) as Hs.
    rewrite (Rabs_pos_eq (F2R acc + F2R v)) in He by lra.
    apply Rabs_le_between in He.
    specialize (IH _ H Hs Hl').
    pose proof (Rsum_nonneg Hl') as PT.
    pose proof (pow_up_pos Pu (List.length l)) as P1.
    pose proof (@pow_down_pos u_half Lu (List.length l)) as P2.
    rewrite <- !tech_pow_Rmult.
    set (a' := F2R (acc + v)) in *. set (s := (F2R acc + F2R v)%R) in *.
    set (T := Rsum l) in *.
    set (pu := ((1 + u_half) ^ List.length l)%R) in *.
    set (pd := ((1 - u_half) ^ List.length l)%R) in *.
    replace (F2R acc + (F2R v + T))%R with (s + T)%R by (unfold s; lra).
    destruct IH as [IH1 IH2]. split.
    + apply Rle_trans with ((a' + T) * pd)%R; [| exact IH1].
      replace ((s + T) * ((1 - u_half) * pd))%R
        with (((s + T) * (1 - u_half)) * pd)%R by ring.
      apply Rmult_le_compat_r; [lra |]. nra.
    + apply Rle_trans with ((a' + T) * pu)%R; [exact IH2 |].
      replace ((s + T) * ((1 + u_half) * pu))%R
        with (((s + T) * (1 + u_half)) * pu)%R by ring.
      apply Rmult_le_compat_r; [lra |]. nra.
Qed.

Lemma fold_sign (l : list float) :
  forall acc,
    fl_finite (fold_left PrimFloat.add l acc) = true ->
    (0 <= F2R acc)%R -> Forall (fun v => (0 <= F2R v)%R) l ->
    (0 <= F2R (fold_left PrimFloat.add l acc))%R.
Proof.
  induction l as [| v l IH]; intros acc H Ha Hl; cbn [fold_left] in *; [exact Ha |].
  inversion Hl as [| ? ? Hv Hl']; subst.
  destruct (fold_finite_inv _ _ H) as [Hf _].
  apply IH; [exact H | apply (@add_sign acc v Hf); lra | exact Hl'].
Qed.

Lemma fold_finite_fwd (l : list float) :
  forall acc,
    fl_nonneg acc -> Forall fl_nonneg l ->
    ((F2R acc + Rsum l) * (1 + u_half) ^ List.length l * (1 + u_half) < bpow emax)%R ->
    fl_finite (fold_left PrimFloat.add l acc) = true.
Proof.
  pose proof u_half_pos as Pu.
  induction l as [| v l IH]; intros acc [Fa Pa] Hl Hb; cbn [fold_left]; [exact Fa |].
  inversion Hl as [| ? ? [Fv Pv] Hl']; subst.
  cbn [List.length Rsum fold_right] in Hb. fold (Rsum l) in Hb.
  rewrite <- tech_pow_Rmult in Hb.
  assert (PT : (0 <= Rsum l)%R).
  { apply Rsum_nonneg. eapply Forall_impl; [| exact Hl']. intros w [_ Hw]. exact Hw. }
  pose proof (pow_up_pos Pu (List.length l)) as P1.
  set (s := (F2R acc + F2R v)%R) in *. set (T := Rsum l) in *.
  set (pu := ((1 + u_half) ^ List.length l)%R) in *.
  replace (F2R acc + (F2R v + T))%R with (s + T)%R in Hb by (unfold s; lra).
  assert (Ps : (0 <= s)%R) by (unfold s; lra).
  assert (Hf : fl_finite (acc + v) = true).
  { apply add_finite_fwd; [exact Fa | exact Fv |]. fold s.
    rewrite Rabs_pos_eq by exact Ps.
    apply Rle_lt_trans with ((s + T) * ((1 + u_half) * pu) * (1 + u_half))%R; [| exact Hb].
    assert (K1 : (1 <= (1 + u_half) * pu)%R) by nra.
    assert (K2 : ((s + T) * 1 <= (s + T) * ((1 + u_half) * pu))%R)
      by (apply Rmult_le_compat_l; lra).
    apply Rmult_le_compat_r; [lra |].
    apply Rle_trans with ((s + T) * 1)%R; [lra | exact K2]. }
  pose proof (@add_err acc v Hf) as He. fold s in He.
  rewrite (Rabs_pos_eq s) in He by exact Ps. apply Rabs_le_between in He.
  pose proof (@add_sign acc v Hf Ps) as Hs.
  apply IH; [split; assumption | exact Hl' |].
  fold T pu.
  apply Rle_lt_trans with ((s + T) * ((1 + u_half) * pu) * (1 + u_half))%R; [| exact Hb].
  apply Rmult_le_compat_r; [lra |].
  replace ((s + T) * ((1 + u_half) * pu))%R with (((s + T) * (1 + u_half)) * pu)%R by ring.
  apply Rmult_le_compat_r; [lra |]. nra.
Qed.

(** *** Constants *)

Lemma F2R_zero : F2R 0%float = 0%R.
Proof. reflexivity. Qed.

Lemma fl_finite_zero : fl_finite 0%float = true.
Proof. reflexivity. Qed.

Lemma F2R_one : F2R 1%float = 1%R.
Proof.
  unfold F2R. change (Prim2SF 1) with (S754_finite false 4503599627370496 (-52)).
  cbn [B2R].
  assert (H : (bpow 52 * bpow (-52) = 1)%R) by (rewrite <- bpow_add; reflexivity).
  rewrite (@bpow_IZR 52) in H by lia. change (2 ^ 52) with 4503599627370496 in H.
  lra.
Qed.

Lemma fl_finite_one : fl_finite 1%float = true.
Proof. reflexivity. Qed.

Lemma bpow_emax_big : (4 < bpow emax)%R.
Proof.
  assert (H : (bpow 2 < bpow emax)%R) by (apply bpow_lt; unfold emax; lia).
  rewrite (@bpow_IZR 2) in H by lia. exact H.
Qed.

Lemma u_half_tiny : (u_half * IZR 9007199254740992 = 1)%R.
Proof.
  pose proof u_half_two as H.
  change 9007199254740992 with (2 * 4503599627370496). rewrite mult_IZR. exact H.
Qed.

Lemma eta_half_tiny : (eta_half * IZR 1152921504606846976 <= 1)%R.
Proof.
  assert (H : (bpow (-1075) <= bpow (-60))%R) by (apply bpow_le; lia).
  assert (K : (bpow (-60) * bpow 60 = 1)%R) by (rewrite <- bpow_add; reflexivity).
  rewrite (@bpow_IZR 60) in K by lia. change (2 ^ 60) with 1152921504606846976 in K.
  unfold eta_half.
  assert (0 < IZR 1152921504606846976)%R by (apply IZR_lt; lia). nra.
Qed.

(** *** The quotients of [_normalise] *)

Lemma quotient_facts (S v : float) :
  fl_finite S = true -> (0 < F2R S)%R ->
  fl_finite v = true -> (0 <= F2R v)%R -> (F2R v <= 2 * F2R S)%R ->
  fl_nonneg (v / S) /\
  (Rabs (F2R (v / S) - F2R v / F2R S) <= u_half * (F2R v / F2R S) + eta_half)%R.
Proof.
  intros FS PS Fv Pv Hb.
  set (q := (F2R v / F2R S)%R).
  assert (Eq : (F2R v = q * F2R S)%R) by (unfold q; field; lra).
  assert (Pq : (0 <= q)%R).
  { unfold q, Rdiv. apply Rmult_le_pos; [lra |].
    left. apply Rinv_0_lt_compat. lra. }
  assert (Hq : (q <= 2)%R) by nra.
  assert (H0 : F2R S <> 0%R) by lra.
  assert (Hf : fl_finite (v / S) = true).
  { apply div_finite_fwd; try assumption. fold q.
    rewrite Rabs_pos_eq by exact Pq.
    pose proof u_half_tiny. pose proof u_half_pos. pose proof bpow_emax_big.
    assert (0 < IZR 9007199254740992)%R by (apply IZR_lt; lia).
    assert (u_half <= 1)%R by nra.
    nra. }
  split; [split; [exact Hf |] |].
  - apply div_sign; try assumption.
  - pose proof (@div_err v S Fv FS H0 Hf) as He. fold q in He.
    rewrite (Rabs_pos_eq q) in He by exact Pq. exact He.
Qed.

Lemma quotients_sum (S : float) (l : list float) :
  fl_finite S = true -> (0 < F2R S)%R ->
  Forall (fun v => fl_finite v = true /\ (0 <= F2R v)%R /\ (F2R v <= 2 * F2R S)%R) l ->
  Forall fl_nonneg (map (fun v => (v / S)%float) l) /\
  (Rabs (Rsum (map (fun v => (v / S)%float) l) - Rsum l / F2R S)
     <= u_half * (Rsum l / F2R S) + INR (List.length l) * eta_half)%R.
Proof.
  intros FS PS. induction 1 as [| v l (Fv & Pv & Hb) Hl [IH1 IH2]].
  - split; [constructor |]. cbn [map Rsum fold_right List.length INR].
    unfold Rdiv. rewrite !Rmult_0_l, Rminus_diag, Rabs_R0. lra.
  - destruct (@quotient_facts S v FS PS Fv Pv Hb) as [Hn He].
    split; [constructor; assumption |].
    cbn [map Rsum fold_right]. fold (Rsum l).
    fold (Rsum (map (fun v => (v / S)%float) l)).
    change (List.length (v :: l)) with (Datatypes.S (List.length l)). rewrite S_INR.
    replace ((F2R v + Rsum l) / F2R S)%R with (F2R v / F2R S + Rsum l / F2R S)%R
      by (field; lra).
    apply Rabs_le_between in He, IH2. apply Rabs_le. lra.
Qed.

(** The weights that [_normalise] returns add up to 1.0 within
    [7e-7], for at most [2^30] positive values whose sum is finite. *)
Lemma normalise_sums (raws : list float) :
  raws <> [] -> Z.of_nat (List.length raws) <= 2 ^ 30 ->
  fl_finite (fsum raws) = true ->
  Forall (fun v => sf_pos (Prim2SF v) = true) raws ->
  Forall fl_nonneg (map (fun v => (v / fsum raws)%float) raws) /\
  fl_finite (fsum (map (fun v => (v / fsum raws)%float) raws)) = true /\
  (Rabs (F2R (fsum (map (fun v => (v / fsum raws)%float) raws)) - 1)
     <= 7 / 10000000)%R.
Proof.
  intros Hne Hlen Hfin Hpos.
  pose proof u_half_pos as Pu. pose proof u_half_tiny as Tu.
  pose proof eta_half_pos as Pe. pose proof eta_half_tiny as Te.
  pose proof bpow_emax_big as Pm.
  assert (P53 : (0 < IZR 9007199254740992)%R) by (apply IZR_lt; lia).
  assert (P60 : (0 < IZR 1152921504606846976)%R) by (apply IZR_lt; lia).
  assert (Lu : (u_half < 1)%R) by nra.
  set (n := List.length raws) in *.
  assert (Hn : (INR n <= IZR 1073741824)%R).
  { rewrite INR_IZR_INZ. apply IZR_le. exact Hlen. }
  pose proof (pos_INR n) as Pn.
  assert (Hnu : (INR n * u_half <= 2 / 10000000)%R) by nra.
  assert (Hne' : (INR n * eta_half <= 1 / 1000000000)%R) by nra.
  assert (Hu9 : (u_half <= 1 / 1000000000)%R) by nra.
  (* the values are finite and positive *)
  unfold fsum in Hfin.
  destruct (fold_finite_inv _ _ Hfin) as [_ Hall].
  assert (Hval : Forall (fun v => fl_finite v = true /\ (0 < F2R v)%R) raws).
  { clear - Hall Hpos. induction Hall as [| v l Hv _ IH]; [constructor |].
    inversion Hpos as [| ? ? Pv Pl]; subst. constructor; [| exact (IH Pl)].
    split; [exact Hv |]. unfold F2R, fl_finite in *.
    destruct (Prim2SF v) as [s | s | | s m e]; try discriminate.
    destruct s; [discriminate |]. cbn [B2R].
    pose proof (finite_pos_value m e). lra. }
  assert (Hnn : Forall (fun v => (0 <= F2R v)%R) raws).
  { eapply Forall_impl; [| exact Hval]. intros v [_ H]. lra. }
  assert (PT : (0 < Rsum raws)%R).
  { destruct raws as [| v l]; [congruence |].
    inversion Hval as [| ? ? [_ Pv] _]; subst. inversion Hnn as [| ? ? _ Pl]; subst.
    cbn [Rsum fold_right]. fold (Rsum l). pose proof (Rsum_nonneg Pl). lra. }
  (* the total *)
  pose proof (@fold_bounds raws 0%float Hfin ltac:(rewrite F2R_zero; lra) Hnn) as [B1 B2].
  rewrite F2R_zero, Rplus_0_l in B1, B2. fold n in B1, B2.
  fold (fsum raws) in B1, B2, Hfin.
  pose proof (@pow_up u_half Pu Lu n ltac:(lra)) as A1.
  pose proof (@pow_down u_half Pu Lu n) as A2.
  pose proof (@pow_up_pos u_half Pu n) as A3.
  pose proof (@pow_down_pos u_half Lu n) as A4.
  set (a := ((1 + u_half) ^ n)%R) in *. set (b := ((1 - u_half) ^ n)%R) in *.
  set (T := Rsum raws) in *. set (Sf := F2R (fsum raws)) in *.
  assert (Ha : (a <= 1 + 4 / 10000000)%R) by lra.
  assert (Hb : (1 - 2 / 10000000 <= b)%R) by lra.
  assert (PS : (0 < Sf)%R) by nra.
  set (Q := (T / Sf)%R).
  assert (EQ : (T = Q * Sf)%R) by (unfold Q; field; lra).
  assert (PQ : (0 < Q)%R) by (unfold Q; apply Rdiv_lt_0_compat; lra).
  assert (Q1 : (Q * b <= 1)%R).
  { pose proof B1 as B1'. rewrite EQ in B1'.
    assert (Q * b * Sf <= 1 * Sf)%R by lra.
    apply Rmult_le_reg_r with Sf; assumption. }
  assert (Q2 : (1 <= Q * a)%R).
  { pose proof B2 as B2'. rewrite EQ in B2'.
    assert (1 * Sf <= Q * a * Sf)%R by lra.
    apply Rmult_le_reg_r with Sf; assumption. }
  assert (Q3 : (Q <= 1 + 3 / 10000000)%R) by nra.
  assert (Q4 : (1 - 4 / 10000000 <= Q)%R) by nra.
  (* the quotients *)
  assert (Hmem : Forall (fun v => fl_finite v = true /\ (0 <= F2R v)%R
                                  /\ (F2R v <= 2 * Sf)%R) raws).
  { apply Forall_forall. intros v Hin.
    pose proof (proj1 (Forall_forall _ _) Hval v Hin) as [Fv Pv].
    pose proof (@Rsum_member raws v Hnn Hin) as Hle. fold T in Hle.
    split; [exact Fv |]. split; [lra |]. nra. }
  destruct (@quotients_sum (fsum raws) raws Hfin PS Hmem) as [W1 W2].
  fold n T Sf Q in W2.
  set (ws := map (fun v => (v / fsum raws)%float) raws) in *.
  apply Rabs_le_between in W2.
  assert (Wn : Forall (fun v => (0 <= F2R v)%R) ws).
  { eapply Forall_impl; [| exact W1]. intros v [_ H]. exact H. }
  pose proof (Rsum_nonneg Wn) as PW.
  assert (Lw : List.length ws = n) by (unfold ws; apply length_map).
  assert (W3 : (Rsum ws <= 1 + 31 / 100000000)%R) by nra.
  assert (W4 : (1 - 41 / 100000000 <= Rsum ws)%R) by nra.
  assert (Ff : fl_finite (fsum ws) = true).
  { unfold fsum. apply fold_finite_fwd.
    - split; [reflexivity | rewrite F2R_zero; lra].
    - exact W1.
    - rewrite F2R_zero, Rplus_0_l, Lw. fold a.
      assert (Rsum ws * a <= 2)%R by nra. nra. }
  split; [exact W1 |]. split; [exact Ff |].
  unfold fsum in Ff.
  pose proof (@fold_bounds ws 0%float Ff ltac:(rewrite F2R_zero; lra) Wn) as [C1 C2].
  rewrite F2R_zero, Rplus_0_l, Lw in C1, C2. fold a b in C1, C2.
  fold (fsum ws) in C1, C2.
  apply Rabs_le. split; nra.
Qed.

Lemma micro_value : (9 / 10000000 <= F2R 1e-6%float)%R.
Proof.
  unfold F2R.
  change (Prim2SF 1e-6) with (S754_finite false 4722366482869645 (-72)).
  cbn [B2R].
  assert (K : (bpow (-72) * bpow 72 = 1)%R) by (rewrite <- bpow_add; reflexivity).
  rewrite (@bpow_IZR 72) in K by lia.
  change (2 ^ 72) with 4722366482869645213696 in K.
  assert (0 < IZR 4722366482869645213696)%R by (apply IZR_lt; lia).
  pose proof (bpow_pos (-72)).
  apply Rmult_le_reg_r with (IZR 4722366482869645213696); [assumption |].
  rewrite Rmult_assoc, Rmult_assoc, K. lra.
Qed.

(** The test of a sum against 1.0. *)
Lemma near_one_check (x : float) :
  fl_finite x = true -> (Rabs (F2R x - 1) <= 7 / 10000000)%R ->
  (abs (x - 1) <=? 1e-6)%float = true.
Proof.
  intros Fx Hx.
  pose proof u_half_pos as Pu. pose proof u_half_tiny as Tu.
  pose proof bpow_emax_big as Pm.
  assert (P53 : (0 < IZR 9007199254740992)%R) by (apply IZR_lt; lia).
  assert (Lu : (u_half <= 1)%R) by nra.
  pose proof (Rabs_pos (F2R x - 1)) as Pa.
  assert (Fs : fl_finite (x - 1) = true).
  { apply sub_finite_fwd; [exact Fx | reflexivity |]. rewrite F2R_one. nra. }
  pose proof (@sub_err x 1%float Fx fl_finite_one Fs) as He.
  rewrite F2R_one in He. apply Rabs_le_between in He.
  destruct (abs_value (x - 1)) as [Ea Fa]. rewrite Fs in Fa.
  apply leb_order.
  - apply fl_finite_number, Fa.
  - reflexivity.
  - rewrite (@F2E_finite _ Fa), Ea.
    rewrite (@F2E_finite 1e-6%float eq_refl).
    apply Rle_trans with (8 / 10000000)%R; [| pose proof micro_value; lra].
    apply Rabs_le. apply Rabs_le_between in Hx.
    assert (Rabs (F2R x - 1) <= 7 / 10000000)%R by (apply Rabs_le; lra).
    split; nra.
Qed.

Lemma nonneg_check (x : float) : fl_nonneg x -> (0 <=? x)%float = true.
Proof.
  intros [Fx Px]. apply leb_order; [reflexivity | apply fl_finite_number, Fx |].
  rewrite (@F2E_finite _ Fx). change (F2E 0) with 0%R. exact Px.
Qed.

(* ------------------------------------------------------------------ *)
(** ** tree.py: [get_weights] *)

Lemma mapM_Forall2 {A B} (f : A -> result B) (l : list A) (ys : list B) :
  mapM f l = Ok ys -> Forall2 (fun x y => f x = Ok y) l ys.
Proof.
  revert ys. induction l as [| x l IH]; intros ys H; simpl in H.
  - inversion H. constructor.
  - bind_inv H. bind_inv H. inversion H; subst. constructor; [exact Ha | apply IH, Ha0].
Qed.

Lemma mapM_length {A B} (f : A -> result B) (l : list A) (ys : list B) :
  mapM f l = Ok ys -> List.length ys = List.length l.
Proof.
  intros H. apply mapM_Forall2 in H. symmetry. exact (Forall2_length H).
Qed.

(** A loop that appends one value per element is a [mapM]. *)
Lemma foldM_append {A B} (f : A -> result B) (body : list B -> A -> result (list B))
    (l : list A) :
  (forall acc x, body acc x = (y <- f x ;; Ok (acc ++ [y]))) ->
  forall acc res, foldM body l acc = Ok res ->
  exists ys, mapM f l = Ok ys /\ res = acc ++ ys.
Proof.
  intros Hb. induction l as [| x l IH]; intros acc res H; simpl in H.
  - inversion H. exists []. split; [reflexivity | symmetry; apply app_nil_r].
  - rewrite Hb in H. bind_inv H. bind_inv Ha. inversion Ha; subst. clear Ha.
    apply IH in H. destruct H as (ys & Hys & ->).
    exists (a0 :: ys). split; [| rewrite <- app_assoc; reflexivity].
    simpl. rewrite Ha0, Hys. reflexivity.
Qed.

Lemma strength_of_value (t : Tree) (acc : list float) (entry : Z * Z) :
  strength_of t acc entry = (s <- strength_value t entry ;; Ok (acc ++ [s])).
Proof.
  unfold strength_of, strength_value. destruct entry as [i leaves].
  destruct (root_node_index t =? i); [reflexivity |].
  destruct (get_parent t i); simpl; try reflexivity.
  destruct (get_edge_length t i a); simpl; reflexivity.
Qed.

Lemma strength_value_spec (t : Tree) (i leaves : Z) (s : float) :
  strength_value t (i, leaves) = Ok s -> is_strength t i leaves s.
Proof.
  unfold strength_value, is_strength. destruct (root_node_index t =? i).
  - intros H. inversion H. reflexivity.
  - intros H. bind_inv H. bind_inv H. exists a, a0. auto.
Qed.

(** The loop that climbs from a node adds the strengths met on the way
    to the root. *)
Lemma climb_spec (t : Tree) (strengths : list float) (steps : nat) :
  forall node w r,
    climb t steps strengths node w = Ok r ->
    exists path ss,
      root_path t node path /\
      mapM (getitem strengths) path = Ok ss /\
      r = fold_left PrimFloat.add ss w.
Proof.
  induction steps as [| n IH]; intros node w r H; simpl in H; [discriminate |].
  destruct (Z.eqb_spec node (root_node_index t)) as [-> | Hne]; simpl in H.
  - inversion H; subst. exists [], []. repeat split. constructor.
  - bind_inv H. bind_inv H. apply IH in H. destruct H as (path & ss & P & M & ->).
    exists (node :: path), (a :: ss). split; [| split].
    + econstructor; eassumption.
    + simpl. rewrite Ha, M. reflexivity.
    + reflexivity.
Qed.

Lemma leaf_weight_spec (t : Tree) (strengths : list float) (node : Z) (raw : float) :
  leaf_weight t strengths node = Ok raw ->
  exists path w,
    root_path t node path /\ path_weight strengths path w /\ raw = guarded w.
Proof.
  unfold leaf_weight. intros H. bind_inv H. inversion H; subst. clear H.
  apply climb_spec in Ha. destruct Ha as (path & ss & P & M & ->).
  exists path, (fsum ss). split; [exact P |]. split; [| reflexivity].
  exists ss. split; [exact M | reflexivity].
Qed.

Lemma normalise_spec (values ws : list float) :
  _normalise values = Ok ws ->
  ws = map (fun v => (v / fsum values)%float) values.
Proof.
  unfold _normalise. generalize (fsum values) as total. intros total.
  revert ws. induction values as [| v vs IH]; intros ws H; simpl in H.
  - inversion H. reflexivity.
  - bind_inv H. bind_inv H. inversion H; subst. simpl.
    unfold fdiv in Ha. destruct (total =? 0)%float; [discriminate |].
    inversion Ha; subst. rewrite (IH _ Ha0). reflexivity.
Qed.

Lemma normalise_never_negative (values : list float) :
  Forall (fun v => sf_pos (Prim2SF v) = true) values ->
  Forall never_negative (map (fun v => (v / fsum values)%float) values).
Proof.
  intros H.
  assert (T : sf_nonneg (Prim2SF (fsum values)) = true).
  { apply fsum_nonneg. eapply Forall_impl; [| exact H].
    intros v. apply sf_pos_nonneg. }
  revert T. generalize (fsum values) as total. intros total T.
  induction H as [| v vs Hv _ IH]; simpl; constructor; [| exact IH].
  apply nonneg_never_negative, div_nonneg; assumption.
Qed.

(** The weights of the overflowing tree: the claim of C7 fails as
    stated, the three weights are 0 and so is their sum. *)
Lemma long_tree_weights :
  (t <- long_tree sample_constants ;;
   ws <- get_weights sample_constants t ;;
   Ok (leaf_count t, ws, (abs (fsum ws - 1) <=? 1e-6)%float))
  = Ok (3, [0; 0; 0]%float, false).
Proof. vm_compute. reflexivity. Qed.

Lemma div_by_non_finite (v S : float) :
  fl_finite S = false -> zero_or_nan (v / S) = true.
Proof.
  unfold fl_finite, zero_or_nan. rewrite div_spec. unfold SF64div.
  destruct (Prim2SF S) as [s | s | | s m e]; cbn [sf_finite]; try discriminate;
    intros _; destruct (Prim2SF v); reflexivity.
Qed.

(** With infinite edges the weights are not numbers at all. *)
Lemma endless_tree_weights :
  (t <- endless_tree sample_constants ;;
   ws <- get_weights sample_constants t ;;
   Ok (leaf_count t, map is_nan ws, map (fun w => (0 <=? w)%float) ws))
  = Ok (3, [true; true; true], [false; false; false]).
Proof. vm_compute. reflexivity. Qed.

(** C7, amended.  [get_weights] returns [[]] for [leaf_count] 0, [[1.0]]
    for 1 and [[0.5, 0.5]] for 2 (each non-empty one sums to exactly 1.0).
    For any other tree for which it returns: every node has the strength
    "edge length to the parent over the leaves under the node" (0 for
    the root); the raw weight of each leaf is the sum of the strengths on
    its path to the root, replaced by 1.0 when below 1e-4; the result is
    each of these divided by their sum, and no returned weight is below
    zero.  When the sum of the raw weights is finite (no overflow, no
    infinite or undefined length) and the tree has at most [2^30]
    leaves, every returned weight is a number at least 0 and the
    weights add up to 1.0 within 1e-6.  (Once the sum overflows the
    weights are 0 and add up to 0; with infinite lengths they are not
    numbers.) *)
Theorem get_weights_spec (consts : Constants) (t : Tree) :
  (leaf_count t = 0 -> get_weights consts t = Ok []) /\
  (leaf_count t = 1 -> get_weights consts t = Ok [1.0%float]) /\
  (leaf_count t = 2 -> get_weights consts t = Ok [0.5%float; 0.5%float]) /\
  fsum [1.0%float] = 1%float /\ fsum [0.5%float; 0.5%float] = 1%float /\
  (forall ws,
     leaf_count t <> 0 -> leaf_count t <> 1 -> leaf_count t <> 2 ->
     get_weights consts t = Ok ws ->
     exists counts strengths raws,
       node_child_counts consts t = Ok counts /\
       Forall2 (fun '(i, leaves) s => is_strength t i leaves s)
         (enumerate counts) strengths /\
       Forall2 (fun node raw =>
                  exists path w,
                    root_path t node path /\ path_weight strengths path w /\
                    raw = guarded w)
         (range 0 (leaf_count t)) raws /\
       ws = map (fun v => (v / fsum raws)%float) raws /\
       Forall never_negative ws /\
       (0 < leaf_count t <= 2 ^ 30 -> fl_finite (fsum raws) = true ->
        Forall (fun w => (0 <=? w)%float = true) ws /\
        (abs (fsum ws - 1) <=? 1e-6)%float = true)).
Proof.
  unfold get_weights.
  split; [intros ->; reflexivity |]. split; [intros ->; reflexivity |].
  split; [intros ->; reflexivity |]. split; [reflexivity |]. split; [reflexivity |].
  intros ws H0 H1 H2 H.
  destruct (Z.eqb_spec (leaf_count t) 0) as [E | _]; [contradiction |].
  destruct (Z.eqb_spec (leaf_count t) 1) as [E | _]; [contradiction |].
  destruct (Z.eqb_spec (leaf_count t) 2) as [E | _]; [contradiction |].
  bind_inv H. rename a into counts. bind_inv H. rename a into strengths.
  bind_inv H. rename a into raws.
  apply (foldM_append (strength_value t) (strength_of t)) in Ha0;
    [| apply strength_of_value].
  destruct Ha0 as (ys & Hys & ->). simpl in *.
  apply mapM_Forall2 in Hys. apply mapM_Forall2 in Ha1.
  apply normalise_spec in H. subst ws.
  assert (Hpos : Forall (fun v => sf_pos (Prim2SF v) = true) raws).
  { clear - Ha1. induction Ha1 as [| node raw ns rs Hn _ IH]; constructor; [| exact IH].
    apply leaf_weight_spec in Hn. destruct Hn as (_ & w & _ & _ & ->).
    apply guarded_pos. }
  assert (Hlen : List.length raws = Z.to_nat (leaf_count t)).
  { rewrite <- (Forall2_length Ha1). unfold range.
    rewrite length_map, length_seq. f_equal. lia. }
  exists counts, ys, raws. split; [exact Ha |].
  split; [| split; [| split; [| split]]].
  - eapply Forall2_impl; [| exact Hys]. intros [i leaves] s.
    apply strength_value_spec.
  - eapply Forall2_impl; [| exact Ha1]. intros node raw. apply leaf_weight_spec.
  - reflexivity.
  - apply normalise_never_negative. exact Hpos.
  - intros [Hl1 Hl2] Hfin.
    destruct (@normalise_sums raws) as (W1 & W2 & W3).
    + intros ->. cbn in Hlen. lia.
    + rewrite Hlen. lia.
    + exact Hfin.
    + exact Hpos.
    + split.
      * eapply Forall_impl; [| exact W1]. intros w. apply nonneg_check.
      * apply near_one_check; assumption.
Qed.

Lemma get_weights_spec_witness :
  exists t ws,
    test_tree sample_constants = Ok t /\
    get_weights sample_constants t = Ok ws /\
    node_child_counts sample_constants t = Ok [1; 1; 1; 1; 2; 3; 4] /\
    fsum ws = 1%float /\
    Forall never_negative ws /\
    Forall (fun w => (0 <=? w)%float = true) ws /\
    (abs (fsum ws - 1) <=? 1e-6)%float = true.
Proof.
  assert (E : exists t, test_tree sample_constants = Ok t)
    by (eexists; vm_compute; reflexivity).
  destruct E as [t E].
  assert (L : leaf_count t = 4)
    by (vm_compute in E; inversion E; reflexivity).
  assert (W : exists ws, get_weights sample_constants t = Ok ws /\ fsum ws = 1%float
                         /\ forallb zero_or_nan ws = false).
  { vm_compute in E. inversion E. eexists.
    split; [vm_compute; reflexivity |]. split; vm_compute; reflexivity. }
  destruct W as (ws & W & S & Z).
  exists t, ws. split; [exact E |]. split; [exact W |].
  split; [vm_compute in E; inversion E; vm_compute; reflexivity |].
  split; [exact S |].
  destruct (get_weights_spec sample_constants t) as (_ & _ & _ & _ & _ & G).
  destruct (G ws) as (counts & strengths & raws & _ & _ & _ & Ews & N & F);
    [rewrite L; discriminate .. | exact W |].
  split; [exact N |]. apply F; [rewrite L; lia |].
  destruct (fl_finite (fsum raws)) eqn:Fin; [reflexivity | exfalso].
  assert (K : forallb zero_or_nan ws = true).
  { rewrite Ews. apply forallb_forall. intros w Hw.
    apply in_map_iff in Hw. destruct Hw as (v & <- & _).
    apply div_by_non_finite, Fin. }
  congruence.
Defined.

(* ------------------------------------------------------------------ *)
(** ** The small merge

    The guards of [constants.py] stay symbolic: the tree of one or two
    sequences is run by head reduction, each test on a guard settled by
    the assumptions.  The score columns and the logarithm enter through
    the equations of [pinned]. *)

Lemma ltb_irrefl (d : float) : (d <? d)%float = false.
Proof.
  rewrite ltb_spec. unfold SFltb.
  destruct (Prim2SF d) as [[|] | [|] | | [|] m e]; simpl; try reflexivity.
  - rewrite Z.compare_refl. rewrite Pos.compare_cont_refl. reflexivity.
  - rewrite Z.compare_refl. rewrite Pos.compare_cont_refl. reflexivity.
Qed.

Lemma ltb_minus_zero (L : float) : (0 <? L)%float = true -> (- 0 <? L)%float = true.
Proof.
  rewrite !ltb_spec. unfold SFltb.
  change (Prim2SF (- 0)) with (S754_zero true). change (Prim2SF 0) with (S754_zero false).
  destruct (Prim2SF L) as [[|] | [|] | | [|] m e]; simpl; auto.
Qed.

(** Head reduction of the left-hand side up to the next test on a guard. *)
Ltac whnf_lhs :=
  match goal with
  | |- ?l = _ =>
      let l' := eval lazy head beta iota zeta match fix
                  delta -[get_percentage_identity_pair calculate_distance Z.eqb PrimFloat.ltb] in l in
      change l with l'
  end; cbv beta.

(** Settles one comparison with [ID_GUARD] by arithmetic. *)
Ltac settle_test :=
  match goal with
  | |- context [Z.eqb ?x ?y] =>
      let x' := eval cbv in x in
      let y' := eval cbv in y in
      let E := fresh in
      first [ assert (E : Z.eqb x y = true)
                by (change (Z.eqb x' y' = true); apply Z.eqb_eq; lia)
            | assert (E : Z.eqb x y = false)
                by (change (Z.eqb x' y' = false); apply Z.eqb_neq; lia) ];
      rewrite E; clear E
  end.

(** Settles one comparison with [LENGTH_GUARD]: by [HL], or because both
    sides are the same float. *)
Ltac settle_float HL :=
  match goal with
  | |- context [PrimFloat.ltb ?x ?y] =>
      let x' := eval cbv in x in
      let y' := eval cbv in y in
      let E := fresh in
      first [ assert (E : PrimFloat.ltb x y = true)
                by (change (PrimFloat.ltb x' y' = true); exact HL)
            | assert (E : PrimFloat.ltb x y = false)
                by (change (PrimFloat.ltb x' y' = false); apply ltb_irrefl) ];
      rewrite E; clear E
  end.

Lemma tree_one ver go ge sc sg g L am om libm cc al n0 s0 tr w p :
  let c := Build_Constants ver go ge sc sg g L am om in
  let a := Build_Alignment cc al [n0] [s0] tr w p in
  exists t, tree_from_alignment c libm a = Ok t /\ leaf_count t = 1.
Proof.
  intros c a. subst c a.
  eexists; split.
  - whnf_lhs. repeat (settle_test; whnf_lhs). reflexivity.
  - reflexivity.
Qed.

Lemma tree_two ver go ge sc sg g L am om libm cc al n0 n1 s0 s1 tr w p pid d :
  let c := Build_Constants ver go ge sc sg g L am om in
  let a := Build_Alignment cc al [n0; n1] [s0; s1] tr w p in
  get_percentage_identity_pair a 1 0 = Ok pid ->
  calculate_distance libm pid = Ok d ->
  (d <? L)%float = true ->
  g < 0 \/ 2 < g ->
  exists t, tree_from_alignment c libm a = Ok t /\ leaf_count t = 2.
Proof.
  intros c a Hp Hd HL Hg. subst c a.
  eexists; split.
  - whnf_lhs.
    match goal with
    | |- context [get_percentage_identity_pair ?x ?i ?j] =>
        let E := fresh in
        assert (E : get_percentage_identity_pair x i j = Ok pid) by exact Hp;
        rewrite E; clear E
    end.
    whnf_lhs.
    match goal with
    | |- context [calculate_distance ?x ?i] =>
        let E := fresh in
        assert (E : calculate_distance x i = Ok d) by exact Hd;
        rewrite E; clear E
    end.
    whnf_lhs.
    repeat (first [settle_float HL | settle_test]; whnf_lhs).
    reflexivity.
  - reflexivity.
Qed.

Lemma weights_cached c libm a w :
  _weights a = Some w -> Alignment_get_weights c libm a = Ok (w, a).
Proof. intros H. unfold Alignment_get_weights. rewrite H. reflexivity. Qed.

Lemma weights_from_tree c libm a t w :
  _weights a = None -> _tree a = None ->
  tree_from_alignment c libm a = Ok t ->
  get_weights c t = Ok w ->
  Alignment_get_weights c libm a
  = Ok (w, set_weights (set_tree a (Some t)) (Some w)).
Proof.
  intros Hw Ht Htree Hg. unfold Alignment_get_weights, _build_weights.
  rewrite Hw, Ht, Htree. cbn [bind]. rewrite Hg. reflexivity.
Qed.

Lemma counts_warm c libm a a1 w col :
  Alignment_get_weights c libm a = Ok (w, a1) -> _weights a1 = Some w ->
  _alphabet a1 = _alphabet a ->
  get_fractional_weighted_counts c libm a col
  = get_fractional_weighted_counts c libm a1 col.
Proof.
  intros H H1 Ha. unfold get_fractional_weighted_counts.
  rewrite H, (@weights_cached c libm a1 w H1), Ha. reflexivity.
Qed.

Lemma positions_warm c libm a a1 w :
  Alignment_get_weights c libm a = Ok (w, a1) -> _weights a1 = Some w ->
  _alphabet a1 = _alphabet a ->
  _positions a = None -> _positions a1 = None ->
  _col_count a1 = _col_count a -> 0 < _col_count a ->
  positions c libm a = positions c libm a1.
Proof.
  intros H H1 Ha Hp Hp1 Hc Hpos. unfold positions. rewrite Hp, Hp1.
  unfold _build_positions. rewrite Hc.
  destruct (range 0 (_col_count a)) as [| col cols] eqn:E.
  - unfold range in E. apply map_eq_nil in E.
    destruct (Z.to_nat (_col_count a - 0)) eqn:En; [lia | discriminate].
  - cbn [foldM]. unfold build_position at 1 3.
    rewrite (@counts_warm c libm a a1 w col H H1 Ha). reflexivity.
Qed.

Lemma table_get_In (t : list (float * float)) (x y : float) :
  table_get t x = Some y -> In (x, y) t.
Proof.
  induction t as [| [k v] t IH]; simpl; [discriminate |].
  destruct (PrimFloat.Leibniz.eqb k x) eqn:E.
  - intros H. injection H as ->. apply FloatAxioms.Leibniz.eqb_spec in E. subst. now left.
  - intros H. right. now apply IH.
Qed.

Lemma floats_eqb_eq (a b : list float) : floats_eqb a b = true -> a = b.
Proof.
  revert b. induction a as [| x a IH]; intros [| y b]; simpl; try discriminate; auto.
  intros H. apply andb_true_iff in H. destruct H as [H1 H2].
  apply FloatAxioms.Leibniz.eqb_spec in H1. apply IH in H2. congruence.
Qed.

Lemma column_get_In t counts col :
  column_get t counts = Some col -> In (counts, col) t.
Proof.
  induction t as [| [key c] t IH]; cbn [column_get]; [discriminate |].
  destruct (floats_eqb key counts) eqn:E.
  - intros H. injection H as ->. apply floats_eqb_eq in E. subst. now left.
  - intros H. right. now apply IH.
Qed.

Lemma log_guard (lg : float -> float) :
  (forall x y, In (x, y) sample_log_table -> lg x = y) ->
  lg = fun x => match table_get sample_log_table x with
                | Some y => y
                | None => lg x
                end.
Proof.
  intros H. apply functional_extensionality. intros x.
  destruct (table_get sample_log_table x) eqn:E; [| reflexivity].
  apply H, table_get_In, E.
Qed.

Lemma scores_guard c t :
  (forall counts col, In (counts, col) t -> profile_scores c AMINO counts = Ok col) ->
  profile_scores c
  = fun alphabet counts =>
      match alphabet, column_get t counts with
      | AMINO, Some col => Ok col
      | _, _ => profile_scores c alphabet counts
      end.
Proof.
  intros H. apply functional_extensionality. intros al.
  apply functional_extensionality. intros counts.
  destruct al; try reflexivity.
  destruct (column_get t counts) eqn:E; [| reflexivity].
  apply H, column_get_In, E.
Qed.

Lemma pinned_profiles_scores c :
  (forall k col, In (k, col) pinned_columns ->
     profile_scores c AMINO (one_hot k) = Ok col) ->
  forall counts col, In (counts, col) pinned_profiles ->
    profile_scores c AMINO counts = Ok col.
Proof.
  intros H counts col Hin. unfold pinned_profiles in Hin.
  apply in_map_iff in Hin. destruct Hin as ([k col'] & E & Hin).
  injection E as <- <-. apply H, Hin.
Qed.

Lemma distance_of_equals libm :
  c_log libm 1 = 0%float -> c_pow libm 0 2 = 0%float ->
  calculate_distance libm 1 = Ok (- 0)%float.
Proof.
  intros Hlog Hpow. unfold calculate_distance.
  change (1 - 1)%float with 0%float. change (0 <? 0.75)%float with true.
  cbv iota. unfold square. rewrite Hpow. simpl.
  unfold math_log. change (1 - 0 - 0 / 5)%float with 1%float.
  change (1 <=? 0)%float with false. cbv iota. rewrite Hlog. reflexivity.
Qed.

Lemma get_weights_one c t : leaf_count t = 1 -> get_weights c t = Ok [1.0%float].
Proof. intros H. unfold get_weights. rewrite H. reflexivity. Qed.

Lemma get_weights_two c t :
  leaf_count t = 2 -> get_weights c t = Ok [0.5%float; 0.5%float].
Proof. intros H. unfold get_weights. rewrite H. reflexivity. Qed.

(** C1: merging the query alignment [{query: "GTIV"}] with the reference
    [{A: "GT-DVG", B: "GTK-VG"}] by [combine_alignments], weights derived
    from the built tree, gives [{query: "GT--IV", A: "GT-DVG",
    B: "GTK-VG"}], the query first and the references in their order, for
    any constants and C library that satisfy [pinned]. *)
Theorem merge_small_query (c : Constants) (libm : Libm) :
  pinned c libm ->
  merged c libm SMALL_QUERY SMALL_DB
  = Ok [("query", "GT--IV"); ("A", "GT-DVG"); ("B", "GTK-VG")].
Proof.
  intros [Hgo Hge Hsc Hsg Hid HL Hcols Hlog Hpow].
  pose proof (distance_of_equals libm (Hlog _ _ (or_introl eq_refl)) Hpow) as Hd.
  apply ltb_minus_zero in HL.
  pose proof (scores_guard _ _ (pinned_profiles_scores _ Hcols)) as Hguard.
  clear Hcols. rename Hguard into Hcols.
  destruct libm as [lg pw]. cbn [c_log c_pow] in Hlog, Hpow.
  apply log_guard in Hlog.
  destruct c as [ver go ge sc sg g L am om].
  cbn [GAP_OPEN GAP_EXTEND SCORE_CENTER SCORE_GUARD ID_GUARD LENGTH_GUARD] in *.
  subst go ge sc sg.
  unfold merged.
  match goal with
  | |- context [Alignment_init SMALL_QUERY None None None] =>
      let v := eval vm_compute in (Alignment_init SMALL_QUERY None None None) in
      change (Alignment_init SMALL_QUERY None None None) with v
  end.
  match goal with
  | |- context [Alignment_init SMALL_DB None None None] =>
      let v := eval vm_compute in (Alignment_init SMALL_DB None None None) in
      change (Alignment_init SMALL_DB None None None) with v
  end.
  cbn [bind].
  match goal with
  | |- context [combine_alignments ?c ?l ?q ?r] =>
      set (c0 := c) in *; set (l0 := l) in *; set (q0 := q); set (r0 := r)
  end.
  destruct (@tree_one ver (-2.9)%float 0%float (-0.52)%float (-1e37)%float g L am om l0
              4 AMINO "query" [Some "G"%char; Some "T"%char; Some "I"%char; Some "V"%char]
              None None None) as (tq & Htq & Hlq).
  destruct (@tree_two ver (-2.9)%float 0%float (-0.52)%float (-1e37)%float g L am om l0
              6 AMINO "A" "B"
              [Some "G"%char; Some "T"%char; None; Some "D"%char; Some "V"%char; Some "G"%char]
              [Some "G"%char; Some "T"%char; Some "K"%char; None; Some "V"%char; Some "G"%char]
              None None None 1%float (- 0)%float eq_refl Hd HL Hid) as (tr & Htr & Hlr).
  pose proof (@weights_from_tree c0 l0 q0 tq _ eq_refl eq_refl Htq (@get_weights_one c0 tq Hlq)) as Hwq.
  pose proof (@weights_from_tree c0 l0 r0 tr _ eq_refl eq_refl Htr (@get_weights_two c0 tr Hlr)) as Hwr.
  unfold combine_alignments.
  change (negb (Alphabet_eqb (_alphabet q0) (_alphabet r0))) with false. cbv iota.
  rewrite (@positions_warm c0 l0 q0 _ _ Hwq eq_refl eq_refl eq_refl eq_refl eq_refl eq_refl).
  rewrite (@positions_warm c0 l0 r0 _ _ Hwr eq_refl eq_refl eq_refl eq_refl eq_refl eq_refl).
  clear Htq Htr Hwq Hwr Hd.
  unfold positions, _build_positions, build_position.
  rewrite Hcols. clear Hcols.
  subst l0. rewrite Hlog. clear Hlog.
  vm_compute. reflexivity.
Qed.

(** The sample parameters satisfy [pinned]. *)
Lemma sample_pinned : pinned sample_constants sample_libm.
Proof.
  split; try reflexivity.
  - left. reflexivity.
  - intros k col H. vm_compute in H.
    repeat (destruct H as [H | H]; [injection H as <- <-; vm_compute; reflexivity |]).
    destruct H.
  - intros x y H.
    repeat (destruct H as [H | H]; [injection H as <- <-; vm_compute; reflexivity |]).
    destruct H.
Qed.

Lemma merge_small_query_witness :
  merged sample_constants sample_libm SMALL_QUERY SMALL_DB
  = Ok [("query", "GT--IV"); ("A", "GT-DVG"); ("B", "GTK-VG")].
Proof. apply merge_small_query. exact sample_pinned. Defined.

(* ------------------------------------------------------------------ *)
(** ** Merging a sequence with itself *)






(* ------------------------------------------------------------------ *)
(** ** The cache round trip *)

Lemma steady_refl (a : Alignment) : steady a a.
Proof. split; [unfold keeps; repeat split | exact (fun H => H)]. Qed.

Lemma steady_trans (a b c : Alignment) : steady a b -> steady b c -> steady a c.
Proof.
  unfold steady, keeps. intros ((? & ? & ? & ? & ?) & ?) ((? & ? & ? & ? & ?) & ?).
  split; [repeat split; congruence | auto].
Qed.

Lemma range_length (lo hi : Z) : List.length (range lo hi) = Z.to_nat (hi - lo).
Proof. unfold range. rewrite length_map, length_seq. reflexivity. Qed.

Lemma tree_leaf_count c libm a t :
  tree_from_alignment c libm a = Ok t -> leaf_count t = len (_sequences a).
Proof.
  unfold tree_from_alignment. intros H. peel H.
  unfold Tree_init in H. peel H.
  match type of H with Ok ?r = Ok _ => assert (E : r = t) by congruence end.
  rewrite <- E. cbv beta iota delta [leaf_count].
  replace (2 * len (_sequences a) - 1 + 1) with (len (_sequences a) * 2) by lia.
  apply Z.div_mul. lia.
Qed.

Lemma get_weights_length c t w :
  get_weights c t = Ok w -> 0 <= leaf_count t -> len w = leaf_count t.
Proof.
  unfold get_weights. intros H Hpos.
  destruct (leaf_count t =? 0) eqn:E0.
  { inversion H. apply Z.eqb_eq in E0. rewrite E0. reflexivity. }
  destruct (leaf_count t =? 1) eqn:E1.
  { inversion H. apply Z.eqb_eq in E1. rewrite E1. reflexivity. }
  destruct (leaf_count t =? 2) eqn:E2.
  { inversion H. apply Z.eqb_eq in E2. rewrite E2. reflexivity. }
  peel H. unfold _normalise in H.
  apply mapM_length in H, Ha1. unfold len. rewrite H, Ha1, range_length. lia.
Qed.

Lemma get_weights_steady c libm a w a' :
  Alignment_get_weights c libm a = Ok (w, a') ->
  steady a a' /\ _weights a' = Some w.
Proof.
  unfold Alignment_get_weights, _build_weights.
  destruct (_weights a) as [w0 |] eqn:Ew.
  - intros H. inversion H; subst. split; [apply steady_refl | exact Ew].
  - intros H.
    apply bind_Ok in H. destruct H as ([w1 a1] & H1 & H). injection H as <- <-.
    apply bind_Ok in H1. destruct H1 as ([t a2] & Ht & H1).
    apply bind_Ok in H1. destruct H1 as (w2 & Hw & H1). injection H1 as <- <-.
    assert (K : keeps a a2 /\ (weights_fit a -> leaf_count t = len (_sequences a))).
    { destruct (_tree a) as [t0 |] eqn:Et.
      - injection Ht as <- <-. split; [unfold keeps; repeat split; reflexivity |].
        intros [_ F]. apply (F Ew _ Et).
      - apply bind_Ok in Ht. destruct Ht as (t1 & Ht1 & Ht). injection Ht as <- <-.
        split; [unfold keeps; repeat split; reflexivity |].
        intros _. apply tree_leaf_count in Ht1. exact Ht1. }
    destruct K as [K L]. split; [| reflexivity].
    split.
    + unfold keeps in *. cbn. exact K.
    + intros F. specialize (L F). split.
      * cbn. intros w0 E. injection E as <-. right.
        destruct K as (_ & _ & _ & -> & _).
        rewrite <- L. apply (@get_weights_length c t w2 Hw). rewrite L. unfold len. lia.
      * cbn. discriminate.
Qed.

Lemma foldM_steady {A S} (body : S * Alignment -> A -> result (S * Alignment))
    (l : list A) :
  (forall s a x s' a', body (s, a) x = Ok (s', a') -> steady a a') ->
  forall s a s' a', foldM body l (s, a) = Ok (s', a') -> steady a a'.
Proof.
  intros Hb. induction l as [| x l IH]; intros s a s' a' H; simpl in H.
  - injection H as <- <-. apply steady_refl.
  - apply bind_Ok in H. destruct H as ([s1 a1] & H1 & H).
    eapply steady_trans; [eapply Hb, H1 | eapply IH, H].
Qed.

Lemma get_sequence_weight_steady c libm a i x a' :
  get_sequence_weight c libm a i = Ok (x, a') -> steady a a'.
Proof.
  unfold get_sequence_weight. intros H.
  apply bind_Ok in H. destruct H as ([w a1] & H1 & H).
  apply bind_Ok in H. destruct H as (y & _ & H). injection H as <- <-.
  apply get_weights_steady in H1. apply H1.
Qed.

Lemma weight_total_steady c libm selects a x a' :
  weight_total c libm selects a = Ok (x, a') -> steady a a'.
Proof.
  unfold weight_total. apply foldM_steady.
  intros s a0 [i seq] s' a1 H.
  apply bind_Ok in H. destruct H as (b & _ & H). destruct b.
  - apply bind_Ok in H. destruct H as ([w a2] & H1 & H). injection H as <- <-.
    eapply get_sequence_weight_steady, H1.
  - injection H as <- <-. apply steady_refl.
Qed.

Lemma get_column_ungapped_weight_steady c libm a col x a' :
  get_column_ungapped_weight c libm a col = Ok (x, a') -> steady a a'.
Proof. apply weight_total_steady. Qed.

Lemma get_gap_open_weight_total_steady c libm a col x a' :
  get_gap_open_weight_total c libm a col = Ok (x, a') -> steady a a'.
Proof.
  unfold get_gap_open_weight_total. destruct (col <? 1); apply weight_total_steady.
Qed.

Lemma get_gap_close_weight_total_steady c libm a col x a' :
  get_gap_close_weight_total c libm a col = Ok (x, a') -> steady a a'.
Proof.
  unfold get_gap_close_weight_total.
  destruct (_col_count a - 1 =? col); apply weight_total_steady.
Qed.

Lemma get_fractional_weighted_counts_steady c libm a col x a' :
  get_fractional_weighted_counts c libm a col = Ok (x, a') -> steady a a'.
Proof.
  unfold get_fractional_weighted_counts. intros H.
  apply bind_Ok in H. destruct H as ([w a1] & H1 & H).
  apply bind_Ok in H. destruct H as ([counts total] & _ & H).
  apply get_weights_steady in H1. destruct H1 as [H1 _].
  destruct (truthy total).
  - apply bind_Ok in H. destruct H as (u & _ & H). injection H as <- <-. exact H1.
  - injection H as <- <-. exact H1.
Qed.

Lemma build_position_steady c libm a col pos a' :
  build_position c libm a col = Ok (pos, a') -> steady a a' /\ post_init c pos.
Proof.
  unfold build_position. intros H.
  apply bind_Ok in H. destruct H as ([counts a1] & H1 & H).
  apply bind_Ok in H. destruct H as (sc & _ & H).
  apply bind_Ok in H. destruct H as ([u a2] & H2 & H).
  apply bind_Ok in H. destruct H as ([o a3] & H3 & H).
  apply bind_Ok in H. destruct H as ([cl a4] & H4 & H).
  injection H as <- <-. split; [| reflexivity].
  apply get_fractional_weighted_counts_steady in H1.
  apply get_column_ungapped_weight_steady in H2.
  apply get_gap_open_weight_total_steady in H3.
  apply get_gap_close_weight_total_steady in H4.
  eauto using steady_trans.
Qed.

Lemma build_positions_steady c libm (l : list Z) acc a ps a' :
  foldM (fun '(acc, self) column =>
           '(pos, self) <- build_position c libm self column ;;
           Ok (acc ++ [pos], self)) l (acc, a) = Ok (ps, a') ->
  steady a a' /\
  List.length ps = (List.length acc + List.length l)%nat /\
  (Forall (post_init c) acc -> Forall (post_init c) ps).
Proof.
  revert acc a. induction l as [| x l IH]; intros acc a H; simpl in H.
  - injection H as <- <-. split; [apply steady_refl |]. split; [simpl; lia | auto].
  - apply bind_Ok in H. destruct H as ([acc1 a1] & H1 & H).
    apply bind_Ok in H1. destruct H1 as ([pos a2] & H1 & E). injection E as <- <-.
    apply build_position_steady in H1. destruct H1 as [S1 P1].
    apply IH in H. destruct H as (S2 & L2 & F2).
    split; [eapply steady_trans; eassumption |].
    split.
    + rewrite L2, length_app. simpl. lia.
    + intros F. apply F2. apply Forall_app. split; [exact F | constructor; [exact P1 | constructor]].
Qed.

Lemma positions_built c libm a ps a1 :
  _positions a = None ->
  positions c libm a = Ok (ps, a1) ->
  exists a', a1 = set_positions a' (Some ps) /\ steady a a' /\
             List.length ps = Z.to_nat (_col_count a) /\
             Forall (post_init c) ps.
Proof.
  intros Hp H. unfold positions in H. rewrite Hp in H.
  apply bind_Ok in H. destruct H as ([ps' a'] & H1 & H). injection H as <- <-.
  exists a'. split; [reflexivity |].
  unfold _build_positions in H1. apply build_positions_steady in H1.
  destruct H1 as (S & L & F). split; [exact S |].
  split; [| apply F; constructor].
  rewrite L, range_length. simpl. f_equal. lia.
Qed.

Lemma ingest_fixed (ch : ascii) (e : option ascii) :
  Sequence_ingest AMINO ch = Ok e -> ingested e.
Proof.
  intros H. pose proof H as H0. unfold Sequence_ingest in H.
  destruct (is_gap_char (str1 ch)); [injection H as <-; exact I |].
  cbn [is_residue is_wildcard str1 bind] in H.
  destruct (str_in (str1 ch) "ACDEFGHIKLMNPQRSTVWY"); cbn [negb] in H.
  - injection H as <-. exact H0.
  - destruct (str_in (str1 ch) "BXZ"); cbn [negb] in H.
    + injection H as <-. exact H0.
    + injection H as <-. reflexivity.
Qed.

Lemma length_list_ascii_of_string (s : string) :
  List.length (list_ascii_of_string s) = String.length s.
Proof. induction s as [| ch s IH]; simpl; [reflexivity | rewrite IH; reflexivity]. Qed.

Lemma from_string_ingested (line : string) (s : Sequence) :
  Sequence_from_string line AMINO = Ok s ->
  Forall ingested s /\ len s = strlen line.
Proof.
  unfold Sequence_from_string. intros H. split.
  - apply mapM_Forall2 in H.
    induction H as [| ch e l s' Hx _ IH]; constructor; [| exact IH].
    eapply ingest_fixed, Hx.
  - apply mapM_length in H. unfold len, strlen. rewrite H.
    rewrite length_list_ascii_of_string. reflexivity.
Qed.

Lemma str_length (s : Sequence) : strlen (Sequence_str s) = len s.
Proof.
  unfold strlen, len, Sequence_str.
  rewrite <- length_list_ascii_of_string, list_ascii_of_string_of_list_ascii, length_map.
  reflexivity.
Qed.

Lemma from_string_str (s : Sequence) :
  Forall ingested s -> Sequence_from_string (Sequence_str s) AMINO = Ok s.
Proof.
  unfold Sequence_from_string, Sequence_str.
  rewrite list_ascii_of_string_of_list_ascii.
  induction 1 as [| e s He _ IH]; [reflexivity |].
  cbn [map mapM]. rewrite IH. destruct e as [ch |].
  - unfold ingested in He. rewrite He. reflexivity.
  - reflexivity.
Qed.

(** What [Alignment.__init__] leaves behind when it returns. *)
Lemma Alignment_init_Ok items tree weights positions a :
  Alignment_init items tree weights positions = Ok a ->
  items <> [] /\
  _names a = map fst items /\
  Forall2 (fun it s => Sequence_from_string (snd it) AMINO = Ok s) items (_sequences a) /\
  Forall (fun it => strlen (snd it) = _col_count a) items /\
  _alphabet a = AMINO /\ _tree a = tree /\ _weights a = weights /\
  _positions a = positions /\
  (nonempty weights = true -> olen weights = len items).
Proof.
  unfold Alignment_init. destruct items as [| [n0 first] items']; [discriminate |].
  set (items := (n0, first) :: items').
  destruct (forallb _ items) eqn:Eall; cbn [negb]; [| discriminate].
  destruct (nonempty weights && negb (olen weights =? len items)) eqn:Ew; [discriminate |].
  destruct (nonempty positions && negb (olen positions =? strlen first)); [discriminate |].
  intros H. apply bind_Ok in H. destruct H as (seqs & Hs & H). injection H as <-.
  cbn [_names _sequences _col_count _alphabet _tree _weights _positions].
  split; [discriminate |]. split; [reflexivity |].
  split.
  { apply mapM_Forall2 in Hs. clear - Hs.
    induction Hs as [| [n l] s its ss Hx _ IH]; constructor; [exact Hx | exact IH]. }
  split.
  { rewrite forallb_forall in Eall. apply Forall_forall. intros [n l] Hin.
    specialize (Eall _ Hin). cbn in Eall. apply Z.eqb_eq in Eall. exact Eall. }
  repeat (split; [reflexivity |]).
  intros Hn. rewrite Hn in Ew. cbn in Ew. apply negb_false_iff, Z.eqb_eq in Ew. exact Ew.
Qed.

Lemma mapM_map_Ok {A B} (f : B -> result A) (g : A -> B) (l : list A) :
  Forall (fun x => f (g x) = Ok x) l -> mapM f (map g l) = Ok l.
Proof.
  induction 1 as [| x l Hx _ IH]; [reflexivity |].
  cbn [map mapM]. rewrite Hx, IH. reflexivity.
Qed.

Lemma mapM_JInt (l : list Z) : mapM as_int (map JInt l) = Ok l.
Proof. apply mapM_map_Ok, Forall_forall. reflexivity. Qed.

Lemma mapM_JFloat (l : list float) : mapM as_float (map JFloat l) = Ok l.
Proof. apply mapM_map_Ok, Forall_forall. reflexivity. Qed.

Lemma from_json_to_json c p : post_init c p -> from_json c (to_json p) = Ok p.
Proof.
  intros H. unfold from_json, to_json.
  match goal with
  | |- (if negb ?b then _ else _) = _ => change b with true
  end.
  cbn [negb]. 
  change (keyword _ "sort_order") with (Ok (JList (map JInt (sort_order p)))).
  change (keyword _ "base_counts") with (Ok (JList (map JFloat (base_counts p)))).
  change (keyword _ "scores") with (Ok (JList (map JFloat (scores p)))).
  change (keyword _ "ungapped_weight") with (Ok (JFloat (ungapped_weight p))).
  change (keyword _ "gap_opens") with (Ok (JFloat (gap_opens p))).
  change (keyword _ "gap_closes") with (Ok (JFloat (gap_closes p))).
  change (keyword_default _ "score_gap_open") with (Ok (score_gap_open p)).
  change (keyword_default _ "score_gap_close") with (Ok (score_gap_close p)).
  cbn [bind as_list as_float]. rewrite mapM_JInt, !mapM_JFloat. cbn [bind].
  symmetry. f_equal. exact H.
Qed.

Lemma dict_set_fresh {V} (d : list (string * V)) (k : string) (v : V) :
  ~ In k (map fst d) -> dict_set d k v = d ++ [(k, v)].
Proof.
  induction d as [| [k' v'] d IH]; intros H; [reflexivity |].
  cbn [dict_set]. destruct (String.eqb k' k) eqn:E.
  - apply String.eqb_eq in E. subst. exfalso. apply H. now left.
  - cbn [app]. rewrite IH; [reflexivity |]. intros Hin. apply H. now right.
Qed.

Lemma dict_fold_NoDup {V} (items acc : list (string * V)) :
  NoDup (map fst (acc ++ items)) ->
  fold_left (fun d '(k, v) => dict_set d k v) items acc = acc ++ items.
Proof.
  revert acc. induction items as [| [k v] items IH]; intros acc H.
  - cbn. symmetry. apply app_nil_r.
  - cbn [fold_left]. rewrite dict_set_fresh.
    + rewrite IH; rewrite <- app_assoc; [reflexivity | exact H].
    + rewrite map_app in H. cbn [map fst] in H.
      apply NoDup_remove_2 in H. intros Hin. apply H. apply in_or_app. now left.
Qed.

Lemma dict_of_items_NoDup {V} (items : list (string * V)) :
  NoDup (map fst items) -> dict_of_items items = items.
Proof. intros H. unfold dict_of_items. now rewrite dict_fold_NoDup. Qed.

Lemma names_of_combine {V} (names : list string) (xs : list V) :
  List.length names = List.length xs -> map fst (combine names xs) = names.
Proof.
  revert xs. induction names as [| n names IH]; intros [| x xs] H; try discriminate.
  - reflexivity.
  - cbn. f_equal. apply IH. now injection H.
Qed.

Lemma as_sequences_items (names : list string) (seqs : list Sequence) :
  mapM (fun '(k, s) => match s with
                       | JStr s => Ok (k, s)
                       | _ => Raise TypeError
                       end)
    (combine names (map (fun s => JStr (Sequence_str s)) seqs))
  = Ok (combine names (map Sequence_str seqs)).
Proof.
  revert seqs. induction names as [| n names IH]; intros [| s seqs]; try reflexivity.
  cbn [map combine mapM bind]. rewrite IH. reflexivity.
Qed.

Lemma reload_sequences (names : list string) (seqs : list Sequence) :
  List.length names = List.length seqs ->
  Forall (Forall ingested) seqs ->
  mapM (fun '(_, sequence) => Sequence_from_string sequence AMINO)
    (combine names (map Sequence_str seqs)) = Ok seqs.
Proof.
  revert seqs. induction names as [| n names IH]; intros [| s seqs] H F; try discriminate.
  - reflexivity.
  - inversion F; subst. cbn [map combine mapM].
    rewrite from_string_str by assumption. cbn [bind].
    rewrite IH; [reflexivity | now injection H | assumption].
Qed.

Lemma Alignment_init_reload names (seqs : list Sequence) cc w ps :
  names <> [] ->
  List.length names = List.length seqs ->
  Forall (fun s => len s = cc) seqs ->
  Forall (Forall ingested) seqs ->
  len w = len names ->
  len ps = cc ->
  Alignment_init (combine names (map Sequence_str seqs)) None (Some w) (Some ps)
  = Ok {| _col_count := cc; _alphabet := AMINO; _names := names;
          _sequences := seqs; _tree := None; _weights := Some w;
          _positions := Some ps |}.
Proof.
  intros Hne Hlen Hcc Hing Hw Hps.
  pose proof (reload_sequences names Hlen Hing) as Hre.
  pose proof (names_of_combine names (map Sequence_str seqs)) as Hnames.
  rewrite length_map in Hnames. specialize (Hnames Hlen).
  assert (Hall : forallb (fun '(_, seq) => strlen seq =? cc)
                   (combine names (map Sequence_str seqs)) = true).
  { apply forallb_forall. intros [n str] Hin. apply in_combine_r in Hin.
    apply in_map_iff in Hin. destruct Hin as (s & <- & Hin).
    rewrite str_length. apply Z.eqb_eq.
    rewrite Forall_forall in Hcc. apply Hcc, Hin. }
  assert (Hitems : len (combine names (map Sequence_str seqs)) = len names).
  { unfold len. rewrite length_combine, length_map. unfold Sequence in *. lia. }
  unfold Alignment_init.
  destruct names as [| n names]; [congruence |].
  destruct seqs as [| s seqs]; [discriminate |].
  cbn [map combine] in *.
  assert (Hfirst : strlen (Sequence_str s) = cc).
  { rewrite str_length. inversion Hcc; assumption. }
  rewrite Hfirst, Hall. cbn [negb].
  cbn [olen]. rewrite Hitems, Hw, Hps, !Z.eqb_refl. cbn [negb].
  rewrite !andb_false_r.
  rewrite Hre. cbn [bind]. rewrite Hnames. reflexivity.
Qed.

Lemma init_weights_fit items tree weights a :
  (weights = None -> forall t, tree = Some t -> leaf_count t = len items) ->
  Alignment_init items tree weights None = Ok a ->
  weights_fit a /\ List.length (_names a) = List.length (_sequences a) /\
  Forall (fun s => len s = _col_count a) (_sequences a) /\
  Forall (Forall ingested) (_sequences a) /\ 0 <= _col_count a.
Proof.
  intros Htree Hinit.
  destruct (@Alignment_init_Ok _ _ _ _ _ Hinit)
    as (Hne & Hnames & Hseqs & Hlens & Halpha & Ht & Hw & Hp & Hwl).
  assert (Hlen : List.length items = List.length (_sequences a))
    by apply (Forall2_length Hseqs).
  split; [| split; [| split; [| split]]].
  - split.
    + intros w E. rewrite Hw in E. rewrite E in Hwl.
      destruct w as [| x w]; [now left | right].
      specialize (Hwl eq_refl). cbn [olen] in Hwl.
      rewrite Hwl. unfold len. now rewrite Hlen.
    + intros E t Et. rewrite Hw in E. rewrite Ht in Et.
      rewrite (Htree E t Et). unfold len. now rewrite Hlen.
  - rewrite Hnames, length_map. exact Hlen.
  - clear - Hseqs Hlens. induction Hseqs as [| it s its ss Hx _ IH]; constructor.
    + apply from_string_ingested in Hx. destruct Hx as [_ ->].
      inversion Hlens; assumption.
    + apply IH. inversion Hlens; assumption.
  - clear - Hseqs. induction Hseqs as [| it s its ss Hx _ IH]; constructor; [| exact IH].
    apply from_string_ingested in Hx. apply Hx.
  - destruct items as [| it items]; [congruence |].
    inversion Hlens; subst. rewrite <- H1. unfold strlen. lia.
Qed.

(** C8: the cache round trip.  For an alignment as the constructor
    returns it (names distinct, no positions given, a given tree having as
    many leaves as there are sequences when it is to give the weights):
    when [to_cache_file] returns, [from_cache_file] on the document it
    wrote returns an alignment with the same names and sequences, the same
    weights and, field by field, the same positions.  The file body is
    the JSON document itself: [json.dump] followed by [json.load] gives
    every float back bit for bit. *)
Theorem cache_round_trip (c : Constants) (libm : Libm)
    (items : list (string * string)) (tree : option Tree)
    (weights : option (list float)) (a a1 : Alignment) (doc : json) :
  NoDup (map fst items) ->
  (weights = None -> forall t, tree = Some t -> leaf_count t = len items) ->
  Alignment_init items tree weights None = Ok a ->
  to_cache_file c libm a = Ok (doc, a1) ->
  exists b ps w,
    positions c libm a = Ok (ps, a1) /\
    _positions a1 = Some ps /\ _weights a1 = Some w /\
    _names a1 = _names a /\ _sequences a1 = _sequences a /\
    from_cache_file c (Some doc) = Ok b /\
    _names b = _names a1 /\ _sequences b = _sequences a1 /\
    _weights b = Some w /\ _positions b = Some ps.
Proof.
  intros Hnd Htree Hinit Hto.
  destruct (@init_weights_fit items tree weights a Htree Hinit) as (Hfit & Hlen & Hcc & Hing & Hpos).
  destruct (@Alignment_init_Ok _ _ _ _ _ Hinit)
    as (Hne & Hnames & _ & _ & _ & _ & _ & Hp & _).
  unfold to_cache_file in Hto.
  apply bind_Ok in Hto. destruct Hto as ([ps a2] & Hps & Hto).
  apply bind_Ok in Hto. destruct Hto as (u & Hw & Hto).
  injection Hto as <- <-.
  apply assert_Ok in Hw.
  destruct (@positions_built c libm a ps a2 Hp Hps) as (a' & -> & [K F] & Lps & Post).
  specialize (F Hfit). destruct K as (Kc & Ka & Kn & Ks & Kp).
  cbn [set_positions _weights _names _sequences _positions _alphabet] in *.
  destruct (_weights a') as [[| x w] |] eqn:Ew; try discriminate.
  destruct F as [F _]. destruct (F _ Ew) as [F' | F']; [discriminate |].
  eexists _, ps, (x :: w).
  split; [exact Hps |]. split; [reflexivity |]. split; [reflexivity |].
  split; [exact Kn |]. split; [exact Ks |].
  assert (Hdoc : from_cache_file c
            (Some (JObj
               [("alphabet", JStr (Alphabet_str (_alphabet a')));
                ("sequences",
                 JObj (dict_of_items
                         (combine (_names a')
                            (map (fun s => JStr (Sequence_str s)) (_sequences a')))));
                ("weights", JList (map JFloat (x :: w)));
                ("positions", JList (map to_json ps));
                ("version", JStr (VERSION c))]))
          = Ok {| _col_count := _col_count a; _alphabet := AMINO;
                  _names := _names a; _sequences := _sequences a;
                  _tree := None; _weights := Some (x :: w);
                  _positions := Some ps |}).
  { unfold from_cache_file.
    change (subscript _ "version") with (Ok (JStr (VERSION c))).
    change (subscript _ "positions") with (Ok (JList (map to_json ps))).
    change (subscript _ "weights") with (Ok (JList (map JFloat (x :: w)))).
    change (subscript _ "sequences")
      with (Ok (JObj (dict_of_items
                        (combine (_names a')
                           (map (fun s => JStr (Sequence_str s)) (_sequences a')))))).
    cbn [bind]. rewrite String.eqb_refl. cbn [negb iterate bind].
    rewrite (mapM_map_Ok (from_json c) to_json).
    2:{ eapply Forall_impl; [| exact Post]. intros p. apply from_json_to_json. }
    cbn [bind]. rewrite Kn, Ks.
    rewrite dict_of_items_NoDup.
    2:{ rewrite names_of_combine; [rewrite Hnames; exact Hnd |].
        rewrite length_map. exact Hlen. }
    unfold as_sequences.
    assert (Hitems : json_truthy
              (JObj (combine (_names a)
                       (map (fun s => JStr (Sequence_str s)) (_sequences a)))) = true).
    { clear - Hnames Hne Hlen. revert Hlen. rewrite Hnames.
      destruct items as [| it items]; [congruence |].
      destruct (_sequences a); intros Hlen; [discriminate Hlen |]. reflexivity. }
    rewrite Hitems. cbn [negb]. rewrite as_sequences_items. cbn [bind].
    unfold as_weights, as_list. rewrite mapM_JFloat. cbn [bind].
    apply Alignment_init_reload; try assumption.
    - rewrite Hnames. destruct items; [congruence | discriminate].
    - rewrite F', Ks. unfold len. now rewrite Hlen.
    - unfold len. rewrite Lps. lia. }
  split; [exact Hdoc |].
  cbn. rewrite Kn, Ks. repeat split; reflexivity.
Qed.

Lemma cache_round_trip_witness :
  exists a a1 doc b,
    Alignment_init SMALL_DB None None None = Ok a /\
    to_cache_file sample_constants sample_libm a = Ok (doc, a1) /\
    from_cache_file sample_constants (Some doc) = Ok b /\
    _names b = _names a1 /\ _sequences b = _sequences a1 /\
    _weights b = _weights a1 /\ _positions b = _positions a1.
Proof.
  assert (Ha : exists a, Alignment_init SMALL_DB None None None = Ok a)
    by (eexists; vm_compute; reflexivity).
  destruct Ha as [a Ha].
  assert (Hto : exists doc a1,
            to_cache_file sample_constants sample_libm a = Ok (doc, a1)).
  { vm_compute in Ha. injection Ha as <-. eexists. eexists. vm_compute. reflexivity. }
  destruct Hto as (doc & a1 & Hto).
  assert (Hnd : NoDup (map fst SMALL_DB)).
  { repeat constructor; simpl; intuition discriminate. }
  destruct (@cache_round_trip sample_constants sample_libm SMALL_DB None None a a1 doc
              Hnd (fun _ t E => False_ind _ (eq_ind None (fun o => match o with None => True | Some _ => False end) I (Some t) E))
              Ha Hto)
    as (b & ps & w & _ & Hp1 & Hw1 & _ & _ & Hb & Hn & Hs & Hw & Hp).
  exists a, a1, doc, b.
  repeat split; try assumption; congruence.
Defined.

(* ------------------------------------------------------------------ *)
(** ** Sequences: reading and printing *)

Lemma ingest_total (alphabet : Alphabet) (c : ascii) :
  alphabet <> RNA -> exists e, Sequence_ingest alphabet c = Ok e /\ ingested_in alphabet e.
Proof.
  intros Hrna. unfold Sequence_ingest.
  destruct (is_gap_char (str1 c)) eqn:Eg; [exists None; split; [reflexivity | exact I] |].
  destruct alphabet; [| | congruence]; cbn [is_residue is_wildcard str1 bind].
  - destruct (str_in (str1 c) "ACDEFGHIKLMNPQRSTVWY") eqn:Er; cbn [negb].
    + exists (Some c). split; [reflexivity |]. unfold ingested_in, Sequence_ingest.
      rewrite Eg. cbn [is_residue is_wildcard str1 bind]. fold (str1 c). rewrite Er. reflexivity.
    + destruct (str_in (str1 c) "BXZ") eqn:Ew; cbn [negb].
      * exists (Some c). split; [reflexivity |]. unfold ingested_in, Sequence_ingest.
        rewrite Eg. cbn [is_residue is_wildcard str1 bind]. fold (str1 c).
        rewrite Er. cbn [negb]. rewrite Ew. reflexivity.
      * exists (Some (wildcard_of AMINO)). split; reflexivity.
  - destruct (str_in (str1 c) "GATC") eqn:Er; cbn [negb].
    + exists (Some c). split; [reflexivity |]. unfold ingested_in, Sequence_ingest.
      rewrite Eg. cbn [is_residue is_wildcard str1 bind]. fold (str1 c). rewrite Er. reflexivity.
    + exists (Some c). split; [reflexivity |]. unfold ingested_in, Sequence_ingest.
      rewrite Eg. cbn [is_residue is_wildcard str1 bind]. fold (str1 c).
      rewrite Er. reflexivity.
Qed.

Lemma from_string_total (alphabet : Alphabet) (l : list ascii) :
  alphabet <> RNA ->
  exists s, mapM (Sequence_ingest alphabet) l = Ok s /\
            List.length s = List.length l /\ Forall (ingested_in alphabet) s.
Proof.
  intros Hrna. induction l as [| c l (s & Hs & Hl & Hf)].
  - exists []. repeat split. constructor.
  - destruct (ingest_total c Hrna) as (e & He & Hi).
    exists (e :: s). cbn [mapM]. rewrite He, Hs. cbn [bind].
    split; [reflexivity |]. split; [cbn; now rewrite Hl | now constructor].
Qed.

Lemma from_string_str_in (alphabet : Alphabet) (s : Sequence) :
  is_gap_char "-" = true ->
  Forall (ingested_in alphabet) s ->
  Sequence_from_string (Sequence_str s) alphabet = Ok s.
Proof.
  intros _. unfold Sequence_from_string, Sequence_str.
  rewrite list_ascii_of_string_of_list_ascii.
  induction 1 as [| e s He _ IH]; [reflexivity |].
  cbn [map mapM]. rewrite IH. destruct e as [ch |].
  - unfold ingested_in in He. rewrite He. reflexivity.
  - reflexivity.
Qed.

(** Reading a line never fails outside the RNA alphabet and keeps one
    entry per character; printing the sequence and reading it again gives
    the same sequence, with the same length as the line. *)
Theorem sequence_round_trip (alphabet : Alphabet) (line : string) :
  alphabet <> RNA ->
  exists s,
    Sequence_from_string line alphabet = Ok s /\
    len s = strlen line /\
    strlen (Sequence_str s) = strlen line /\
    Sequence_from_string (Sequence_str s) alphabet = Ok s.
Proof.
  intros Hrna.
  destruct (from_string_total (list_ascii_of_string line) Hrna) as (s & Hs & Hl & Hf).
  exists s. split; [exact Hs |].
  assert (L : len s = strlen line).
  { unfold len, strlen. rewrite Hl, length_list_ascii_of_string. reflexivity. }
  split; [exact L |]. split; [rewrite str_length; exact L |].
  apply from_string_str_in; [reflexivity | exact Hf].
Qed.

Lemma sequence_round_trip_witness :
  exists s,
    Sequence_from_string "GT-.x?" AMINO = Ok s /\
    Sequence_str s = "GT--XX" /\
    Sequence_from_string (Sequence_str s) AMINO = Ok s.
Proof.
  destruct (@sequence_round_trip AMINO "GT-.x?") as (s & H1 & _ & _ & H2);
    [discriminate |].
  exists s. split; [exact H1 |]. split; [| exact H2].
  vm_compute in H1. injection H1 as <-. reflexivity.
Defined.

(** With the DNA alphabet every character that is no gap character is
    kept as it is: whatever is not one of G, A, T, C counts as a wildcard,
    so the replacement by [N] never happens. *)
Theorem dna_ingest_keeps_everything (line : string) :
  Sequence_from_string line DNA
  = Ok (map (fun c => if is_gap_char (str1 c) then None else Some c)
          (list_ascii_of_string line)).
Proof.
  unfold Sequence_from_string.
  induction (list_ascii_of_string line) as [| c l IH]; [reflexivity |].
  cbn [mapM map]. rewrite IH.
  unfold Sequence_ingest. destruct (is_gap_char (str1 c)); [reflexivity |].
  cbn [is_residue is_wildcard str1 bind].
  destruct (str_in (str1 c) "GATC"); reflexivity.
Qed.

Lemma plain_ingest (c : ascii) (e : option ascii) :
  plain_amino c = true -> Sequence_ingest AMINO c = Ok e ->
  match e with Some x => x | None => "-"%char end = c.
Proof.
  destruct c as [[] [] [] [] [] [] [] []]; vm_compute; intros Hp He;
    try discriminate; injection He as <-; reflexivity.
Qed.

Lemma plain_line_printed (line : string) (s : Sequence) :
  forallb plain_amino (list_ascii_of_string line) = true ->
  Sequence_from_string line AMINO = Ok s ->
  Sequence_str s = line.
Proof.
  unfold Sequence_from_string, Sequence_str. intros Hp Hs.
  rewrite <- (string_of_list_ascii_of_string line). f_equal.
  revert s Hs Hp. induction (list_ascii_of_string line) as [| c l IH]; intros s Hs Hp.
  - injection Hs as <-. reflexivity.
  - cbn [mapM] in Hs. apply bind_Ok in Hs. destruct Hs as (e & He & Hs).
    apply bind_Ok in Hs. destruct Hs as (s' & Hs' & Hs). injection Hs as <-.
    cbn [forallb] in Hp. apply andb_true_iff in Hp. destruct Hp as [Hc Hp].
    cbn [map]. rewrite (IH s' Hs' Hp). f_equal.
    apply plain_ingest; assumption.
Qed.

(** With the amino alphabet a line of residues, wildcards and hyphens is
    printed back as it was read. *)
Theorem amino_plain_line_unchanged (line : string) (s : Sequence) :
  forallb plain_amino (list_ascii_of_string line) = true ->
  Sequence_from_string line AMINO = Ok s ->
  Sequence_str s = line.
Proof. apply plain_line_printed. Qed.

Lemma amino_plain_line_unchanged_witness :
  exists s, Sequence_from_string "GT-DVGBXZ" AMINO = Ok s /\ Sequence_str s = "GT-DVGBXZ".
Proof.
  eexists. split; [vm_compute; reflexivity |].
  apply amino_plain_line_unchanged; vm_compute; reflexivity.
Defined.

(* ------------------------------------------------------------------ *)
(** ** The constructor of [Alignment] *)

Lemma consistent_lengths_forallb (items : list (string * string)) (cc : Z) :
  forallb (fun '(_, seq) => strlen seq =? cc) items = true <->
  (forall n s, In (n, s) items -> strlen s = cc).
Proof.
  rewrite forallb_forall. split.
  - intros H n s Hin. specialize (H _ Hin). cbn in H. now apply Z.eqb_eq.
  - intros H [n s] Hin. apply Z.eqb_eq. eapply H, Hin.
Qed.

Lemma amino_lines_read (items : list (string * string)) :
  exists seqs,
    mapM (fun '(_, sequence) => Sequence_from_string sequence AMINO) items = Ok seqs.
Proof.
  induction items as [| [n l] items (seqs & IH)]; [exists []; reflexivity |].
  destruct (@from_string_total AMINO (list_ascii_of_string l)) as (s & Hs & _);
    [discriminate |].
  exists (s :: seqs). cbn [mapM]. unfold Sequence_from_string at 1.
  rewrite Hs, IH. reflexivity.
Qed.

(** [Alignment.__init__] either returns or raises [ValueError], and it
    returns exactly when there is at least one sequence, all lines are as
    long as the first, given weights (unless the list is empty) are as
    many as the sequences, and given positions (unless empty) as many as
    the columns. *)
Theorem Alignment_init_outcome (items : list (string * string)) (tree : option Tree)
    (weights : option (list float)) (positions : option AlignmentPositions) :
  ((exists a, Alignment_init items tree weights positions = Ok a) \/
   Alignment_init items tree weights positions = Raise ValueError) /\
  ((exists a, Alignment_init items tree weights positions = Ok a) <->
   (items <> [] /\ consistent_lengths items /\
    (nonempty weights = true -> olen weights = len items) /\
    (nonempty positions = true ->
     olen positions = strlen (snd (hd ("", "") items))))).
Proof.
  unfold Alignment_init, consistent_lengths.
  destruct items as [| [n0 first] items'].
  { split; [right; reflexivity |]. split; [intros [a H]; discriminate | intros [H _]; congruence]. }
  set (items := (n0, first) :: items'). cbn [hd snd].
  destruct (amino_lines_read items) as (seqs & Hseqs).
  pose proof (consistent_lengths_forallb items (strlen first)) as Hall.
  destruct (forallb _ items) eqn:Eall; cbn [negb].
  2:{ split; [right; reflexivity |]. split; [intros [a H]; discriminate |].
      intros (_ & H & _). apply Hall in H. discriminate. }
  destruct (nonempty weights) eqn:Ew; cbn [andb].
  - destruct (olen weights =? len items) eqn:Elw; cbn [negb].
    2:{ split; [right; reflexivity |]. split; [intros [a H]; discriminate |].
        intros (_ & _ & H & _). apply Z.eqb_neq in Elw. now specialize (H eq_refl). }
    apply Z.eqb_eq in Elw.
    destruct (nonempty positions) eqn:Ep; cbn [andb].
    + destruct (olen positions =? strlen first) eqn:Elp; cbn [negb].
      2:{ split; [right; reflexivity |]. split; [intros [a H]; discriminate |].
          intros (_ & _ & _ & H). apply Z.eqb_neq in Elp. now specialize (H eq_refl). }
      apply Z.eqb_eq in Elp. rewrite Hseqs. cbn [bind].
      split; [left; eexists; reflexivity |]. split; [| intros _; eexists; reflexivity].
      intros _. split; [discriminate |]. split; [now apply Hall |]. split; auto.
    + rewrite Hseqs. cbn [bind].
      split; [left; eexists; reflexivity |]. split; [| intros _; eexists; reflexivity].
      intros _. split; [discriminate |]. split; [now apply Hall |].
      split; [auto | discriminate].
  - destruct (nonempty positions) eqn:Ep; cbn [andb].
    + destruct (olen positions =? strlen first) eqn:Elp; cbn [negb].
      2:{ split; [right; reflexivity |]. split; [intros [a H]; discriminate |].
          intros (_ & _ & _ & H). apply Z.eqb_neq in Elp. now specialize (H eq_refl). }
      apply Z.eqb_eq in Elp. rewrite Hseqs. cbn [bind].
      split; [left; eexists; reflexivity |]. split; [| intros _; eexists; reflexivity].
      intros _. split; [discriminate |]. split; [now apply Hall |].
      split; [discriminate | auto].
    + rewrite Hseqs. cbn [bind].
      split; [left; eexists; reflexivity |]. split; [| intros _; eexists; reflexivity].
      intros _. split; [discriminate |]. split; [now apply Hall |].
      split; discriminate.
Qed.

Lemma constructed_facts (items : list (string * string)) (tree : option Tree)
    (weights : option (list float)) (positions : option AlignmentPositions)
    (a : Alignment) :
  Alignment_init items tree weights positions = Ok a ->
  _names a = map fst items /\
  len (_sequences a) = len items /\
  0 <= _col_count a /\
  Forall (fun s => len s = _col_count a) (_sequences a) /\
  Forall (Forall ingested) (_sequences a) /\
  _alphabet a = AMINO /\
  _tree a = tree /\ _weights a = weights /\ _positions a = positions.
Proof.
  intros Hinit.
  destruct (@Alignment_init_Ok _ _ _ _ _ Hinit)
    as (Hne & Hnames & Hseqs & Hlens & Halpha & Ht & Hw & Hp & _).
  split; [exact Hnames |].
  split; [unfold len; now rewrite (Forall2_length Hseqs) |].
  split.
  { destruct items as [| it items]; [congruence |].
    inversion Hlens; subst. rewrite <- H1. unfold strlen. lia. }
  split.
  { clear - Hseqs Hlens. induction Hseqs as [| it s its ss Hx _ IH]; constructor.
    - apply from_string_ingested in Hx. destruct Hx as [_ ->].
      inversion Hlens; assumption.
    - apply IH. inversion Hlens; assumption. }
  split.
  { clear - Hseqs. induction Hseqs as [| it s its ss Hx _ IH]; constructor; [| exact IH].
    apply from_string_ingested in Hx. apply Hx. }
  repeat split; assumption.
Qed.

(** What holds of every alignment the constructor returns: the names are
    the keys in their order, there is one sequence per name, every
    sequence has exactly [column_count] entries, each entry is a gap or a
    character that reads back as itself, the alphabet is amino and the
    caches hold what was passed. *)
Theorem constructed_alignment (items : list (string * string)) (tree : option Tree)
    (weights : option (list float)) (positions : option AlignmentPositions)
    (a : Alignment) :
  Alignment_init items tree weights positions = Ok a ->
  _names a = map fst items /\
  len (_sequences a) = len items /\
  0 <= _col_count a /\
  Forall (fun s => len s = _col_count a) (_sequences a) /\
  Forall (Forall ingested) (_sequences a) /\
  _alphabet a = AMINO /\
  _tree a = tree /\ _weights a = weights /\ _positions a = positions.
Proof. apply constructed_facts. Qed.

Lemma constructed_alignment_witness :
  exists a,
    Alignment_init SMALL_DB None None None = Ok a /\
    _names a = ["A"; "B"] /\ len (_sequences a) = 2 /\
    Forall (fun s => len s = _col_count a) (_sequences a).
Proof.
  assert (H : exists a, Alignment_init SMALL_DB None None None = Ok a)
    by (eexists; vm_compute; reflexivity).
  destruct H as [a H]. exists a. split; [exact H |].
  destruct (@constructed_alignment _ _ _ _ _ H) as (Hn & Hl & _ & Hc & _).
  repeat split; assumption.
Defined.

Lemma reload_plain (names : list string) (seqs : list Sequence) (cc : Z) :
  names <> [] ->
  List.length names = List.length seqs ->
  Forall (fun s => len s = cc) seqs ->
  Forall (Forall ingested) seqs ->
  Alignment_init (combine names (map Sequence_str seqs)) None None None
  = Ok {| _col_count := cc; _alphabet := AMINO; _names := names;
          _sequences := seqs; _tree := None; _weights := None;
          _positions := None |}.
Proof.
  intros Hne Hlen Hcc Hing.
  pose proof (@reload_sequences names seqs Hlen Hing) as Hre.
  pose proof (names_of_combine names (map Sequence_str seqs)) as Hnames.
  rewrite length_map in Hnames. specialize (Hnames Hlen).
  assert (Hall : forallb (fun '(_, seq) => strlen seq =? cc)
                   (combine names (map Sequence_str seqs)) = true).
  { apply forallb_forall. intros [n str] Hin. apply in_combine_r in Hin.
    apply in_map_iff in Hin. destruct Hin as (s & <- & Hin).
    rewrite str_length. apply Z.eqb_eq.
    rewrite Forall_forall in Hcc. apply Hcc, Hin. }
  unfold Alignment_init.
  destruct names as [| n names]; [congruence |].
  destruct seqs as [| s seqs]; [discriminate |].
  cbn [map combine] in *.
  assert (Hfirst : strlen (Sequence_str s) = cc).
  { rewrite str_length. inversion Hcc; assumption. }
  rewrite Hfirst, Hall. cbn [negb nonempty andb].
  rewrite Hre. cbn [bind]. rewrite Hnames. reflexivity.
Qed.

(** [to_dict] and the constructor are inverse to each other: building an
    alignment from the dictionary of a constructed one gives the same
    names, sequences and column count; and the dictionary of an alignment
    built from lines of residues, wildcards and hyphens is the input. *)
Theorem to_dict_round_trip (items : list (string * string)) (tree : option Tree)
    (weights : option (list float)) (positions : option AlignmentPositions)
    (a : Alignment) :
  NoDup (map fst items) ->
  Alignment_init items tree weights positions = Ok a ->
  (exists b,
     Alignment_init (Alignment_to_dict a) None None None = Ok b /\
     _names b = _names a /\ _sequences b = _sequences a /\
     _col_count b = _col_count a /\ _alphabet b = _alphabet a) /\
  (Forall (fun it => forallb plain_amino (list_ascii_of_string (snd it)) = true) items ->
   Alignment_to_dict a = items).
Proof.
  intros Hnd Hinit.
  destruct (@Alignment_init_Ok _ _ _ _ _ Hinit)
    as (Hne & Hnames & Hseqs & Hlens & Halpha & _).
  destruct (@constructed_facts _ _ _ _ _ Hinit) as (_ & Hl & _ & Hcc & Hing & _).
  assert (Hlen : List.length (_names a) = List.length (_sequences a)).
  { rewrite Hnames, length_map. unfold len in Hl. lia. }
  assert (Hd : Alignment_to_dict a
               = combine (_names a) (map Sequence_str (_sequences a))).
  { unfold Alignment_to_dict. apply dict_of_items_NoDup.
    rewrite names_of_combine; [rewrite Hnames; exact Hnd |].
    rewrite length_map. exact Hlen. }
  split.
  - eexists. rewrite Hd. split.
    + apply (@reload_plain (_names a) (_sequences a) (_col_count a)); try assumption.
      rewrite Hnames. destruct items; [congruence | discriminate].
    + cbn. rewrite Halpha. repeat split; reflexivity.
  - intros Hplain. rewrite Hd, Hnames. clear - Hseqs Hplain.
    induction Hseqs as [| [n l] s its ss Hx _ IH]; [reflexivity |].
    inversion Hplain; subst. cbn [map combine fst]. f_equal; [| now apply IH].
    f_equal. cbn [snd] in *. now apply plain_line_printed.
Qed.

Lemma to_dict_round_trip_witness :
  exists a,
    Alignment_init SMALL_DB None None None = Ok a /\
    Alignment_to_dict a = SMALL_DB /\
    exists b, Alignment_init (Alignment_to_dict a) None None None = Ok b /\
              _sequences b = _sequences a.
Proof.
  assert (H : exists a, Alignment_init SMALL_DB None None None = Ok a)
    by (eexists; vm_compute; reflexivity).
  destruct H as [a H]. exists a. split; [exact H |].
  assert (Hnd : NoDup (map fst SMALL_DB)).
  { repeat constructor; simpl; intuition discriminate. }
  destruct (@to_dict_round_trip _ _ _ _ _ Hnd H) as [(b & Hb & _ & Hs & _) Hp].
  split.
  - apply Hp. repeat constructor.
  - exists b. split; assumption.
Defined.

(* ------------------------------------------------------------------ *)
(** ** Helpers of [tree_from_alignment] *)

Lemma elem_eqb_sym (x y : option ascii) : elem_eqb x y = elem_eqb y x.
Proof.
  destruct x as [x |], y as [y |]; try reflexivity. cbn.
  destruct (Ascii.eqb x y) eqn:E.
  - apply Ascii.eqb_eq in E. subst. symmetry. apply Ascii.eqb_refl.
  - symmetry. apply Ascii.eqb_neq. apply Ascii.eqb_neq in E. congruence.
Qed.

Lemma identity_fold_sym (si sj : Sequence) (acc : Z * Z) :
  fold_left (fun '(count, same) '(first, second) =>
               if negb (is_gap first) && negb (is_gap second)
               then (count + 1, if elem_eqb first second then same + 1 else same)
               else (count, same))
    (combine si sj) acc
  = fold_left (fun '(count, same) '(first, second) =>
                 if negb (is_gap first) && negb (is_gap second)
                 then (count + 1, if elem_eqb first second then same + 1 else same)
                 else (count, same))
      (combine sj si) acc.
Proof.
  revert sj acc. induction si as [| x si IH]; intros [| y sj] acc; try reflexivity.
  cbn [combine fold_left]. rewrite IH. destruct acc as [count same].
  rewrite (andb_comm (negb (is_gap x))), (elem_eqb_sym x y). reflexivity.
Qed.

Lemma getitem_outcome {A} (l : list A) (i : Z) :
  (exists x, getitem l i = Ok x) \/ getitem l i = Raise IndexError.
Proof.
  unfold getitem, resolve_index.
  destruct ((_ <? 0) || (_ <=? _)); cbn [bind]; [now right |].
  destruct (nth_error l _); [left; eexists; reflexivity | now right].
Qed.

(** The identity of two sequences does not depend on their order: both
    calls return the same value or raise the same [IndexError]. *)
Theorem percentage_identity_symmetric (a : Alignment) (i j : Z) :
  get_percentage_identity_pair a i j = get_percentage_identity_pair a j i.
Proof.
  unfold get_percentage_identity_pair.
  destruct (getitem_outcome (_sequences a) i) as [[si Ei] | Ei];
    destruct (getitem_outcome (_sequences a) j) as [[sj Ej] | Ej];
    rewrite Ei, Ej; cbn [bind]; try reflexivity.
  rewrite (identity_fold_sym si sj). reflexivity.
Qed.

(** [get_flat_index] addresses the pairs of distinct indices below [n]
    without gaps or clashes: it is symmetric, the pair [(i, j)] with
    [j < i < n] lands in [0 .. n(n-1)/2 - 1], and two different such pairs
    land in different places. *)
Theorem flat_index_is_triangular (n i j i' j' : Z) :
  0 <= j < i -> i < n -> 0 <= j' < i' -> i' < n ->
  get_flat_index i j = get_flat_index j i /\
  0 <= get_flat_index i j < n * (n - 1) / 2 /\
  (get_flat_index i j = get_flat_index i' j' -> i = i' /\ j = j').
Proof.
  intros Hj Hi Hj' Hi'.
  assert (T : forall k, 0 <= k -> 2 * (k * (k - 1) / 2) = k * (k - 1)).
  { intros k Hk.
    assert (E : (k * (k - 1)) mod 2 = 0).
    { rewrite Z.mul_mod by lia.
      destruct (Z.mod_pos_bound k 2 ltac:(lia)) as [? ?].
      assert (Hc : k mod 2 = 0 \/ k mod 2 = 1) by lia.
      destruct Hc as [Hc | Hc].
      - rewrite Hc. reflexivity.
      - replace ((k - 1) mod 2) with 0; [rewrite Z.mul_0_r; reflexivity |].
        symmetry. rewrite Zminus_mod, Hc. reflexivity. }
    pose proof (Z.div_mod (k * (k - 1)) 2 ltac:(lia)). lia. }
  pose proof (T i ltac:(lia)) as Ti. pose proof (T i' ltac:(lia)) as Ti'.
  pose proof (T n ltac:(lia)) as Tn.
  unfold get_flat_index.
  replace (j <=? i) with true by (symmetry; apply Z.leb_le; lia).
  replace (i <=? j) with false by (symmetry; apply Z.leb_gt; lia).
  replace (j' <=? i') with true by (symmetry; apply Z.leb_le; lia).
  split; [reflexivity |]. split; [nia |].
  intros E.
  assert (i = i') by nia. subst i'. split; [reflexivity | lia].
Qed.

Lemma flat_index_is_triangular_witness :
  get_flat_index 3 1 = get_flat_index 1 3 /\ 0 <= get_flat_index 3 1 < 4 * (4 - 1) / 2.
Proof.
  destruct (@flat_index_is_triangular 4 3 1 2 0
              ltac:(lia) ltac:(lia) ltac:(lia) ltac:(lia)) as (H1 & H2 & _).
  split; assumption.
Defined.

Lemma insert_desc_perm (x : Z * float) (l : list (Z * float)) :
  Permutation (insert_desc x l) (x :: l).
Proof.
  induction l as [| y l IH]; [reflexivity |]. cbn [insert_desc].
  destruct (key_lt y x); [reflexivity |].
  rewrite IH. apply perm_swap.
Qed.

Lemma sort_fold_perm (items acc : list (Z * float)) :
  Permutation (fold_left (fun acc x => insert_desc x acc) items acc) (items ++ acc).
Proof.
  revert acc. induction items as [| x items IH]; intros acc; [reflexivity |].
  cbn [fold_left app]. rewrite IH. rewrite insert_desc_perm.
  symmetry. apply Permutation_middle.
Qed.

Lemma enumerate_indices {A} (l : list A) : map fst (enumerate l) = range 0 (len l).
Proof.
  unfold enumerate. 
  assert (H : forall (xs : list Z) (ys : list A),
            List.length xs = List.length ys -> map fst (combine xs ys) = xs).
  { induction xs as [| x xs IH]; intros [| y ys] E; try discriminate; [reflexivity |].
    cbn. f_equal. apply IH. now injection E. }
  apply H. unfold range, len. rewrite length_map, length_seq. lia.
Qed.

Lemma range_NoDup (lo hi : Z) : NoDup (range lo hi).
Proof.
  unfold range. generalize (Z.to_nat (hi - lo)) as n. generalize 0%nat as a.
  intros a n. revert a. induction n as [| n IH]; intros a; cbn [seq map]; constructor.
  - intros Hin. apply in_map_iff in Hin. destruct Hin as (x & E & Hx).
    apply in_seq in Hx. lia.
  - apply IH.
Qed.

Lemma sorted_indices_perm (values : list float) :
  Permutation (get_indices_by_decreasing_value values) (range 0 (len values)) /\
  len (get_indices_by_decreasing_value values) = len values /\
  NoDup (get_indices_by_decreasing_value values).
Proof.
  assert (P : Permutation (get_indices_by_decreasing_value values) (range 0 (len values))).
  { unfold get_indices_by_decreasing_value.
    rewrite <- enumerate_indices. apply Permutation_map.
    rewrite sort_fold_perm, app_nil_r. reflexivity. }
  split; [exact P |]. split.
  - unfold len at 1. rewrite (Permutation_length P). unfold range.
    rewrite length_map, length_seq. unfold len. lia.
  - eapply Permutation_NoDup; [symmetry; exact P |].
    apply range_NoDup.
Qed.

(** The sort order of a list of values names every index exactly once. *)
Theorem sort_order_is_permutation (values : list float) :
  Permutation (get_indices_by_decreasing_value values) (range 0 (len values)) /\
  len (get_indices_by_decreasing_value values) = len values /\
  NoDup (get_indices_by_decreasing_value values).
Proof. apply sorted_indices_perm. Qed.

(* ------------------------------------------------------------------ *)
(** ** The tree and the weights of an alignment *)

Lemma getitem_nth {A} (l : list A) (i : Z) (x : A) :
  0 <= i -> nth_error l (Z.to_nat i) = Some x -> getitem l i = Ok x.
Proof.
  intros Hi Hn. unfold getitem, resolve_index.
  assert (Hlt : (Z.to_nat i < List.length l)%nat)
    by (apply nth_error_Some; congruence).
  assert (E0 : (i <? 0) = false) by (apply Z.ltb_ge; lia).
  assert (E1 : (len l <=? i) = false) by (apply Z.leb_gt; unfold len; lia).
  rewrite E0. cbv beta iota zeta. rewrite E0, E1.
  cbn [orb bind]. rewrite Hn. reflexivity.
Qed.

Lemma getitem_app_replicate {A} (n : Z) (x : A) (rest : list A) (i : Z) :
  0 <= i < n -> getitem (replicate n x ++ rest) i = Ok x.
Proof.
  intros Hi. apply getitem_nth; [lia |].
  unfold replicate.
  rewrite nth_error_app1 by (rewrite repeat_length; lia).
  assert (H : forall (k m : nat), (k < m)%nat -> nth_error (repeat x m) k = Some x).
  { induction k as [| k IH]; intros [| m] Hk; try lia; [reflexivity |].
    cbn. apply IH. lia. }
  apply H. lia.
Qed.

(** The tree that [tree_from_alignment] returns has one leaf per
    sequence, in the order of the sequences and under their names,
    [2n - 1] nodes in all with the root last, every list of the tree as
    long as the node count, and the first [n] nodes are its leaves. *)
Theorem built_tree_shape (c : Constants) (libm : Libm) (a : Alignment) (t : Tree) :
  tree_from_alignment c libm a = Ok t ->
  let n := len (_sequences a) in
  leaf_count t = n /\
  node_count t = 2 * n - 1 /\
  root_node_index t = 2 * n - 2 /\
  names t = _names a /\ len (_names a) = n /\
  len (parents t) = node_count t /\ len (lefts t) = node_count t /\
  len (rights t) = node_count t /\
  len (left_lengths t) = node_count t /\ len (right_lengths t) = node_count t /\
  getitem (parents t) (root_node_index t) = Ok (ID_GUARD c) /\
  (forall i, 0 <= i < n -> is_leaf c t i = Ok true).
Proof.
  intros H. cbv zeta. unfold tree_from_alignment in H. peel H.
  unfold Tree_init in H. peel H.
  match type of H with Ok ?r = Ok _ => assert (E : r = t) by congruence end.
  clear H. set (n := len (_sequences a)) in *.
  repeat match goal with
         | H : assert _ = Ok _ |- _ => apply assert_Ok in H
         end.
  apply Z.ltb_lt in Ha2. apply Z.eqb_eq in Ha3, Ha4, Ha5, Ha6, Ha7, Ha8, Ha10.
  assert (L : (2 * n - 1 + 1) / 2 = n).
  { replace (2 * n - 1 + 1) with (n * 2) by lia. apply Z.div_mul. lia. }
  rewrite L in Ha8.
  rewrite <- E. cbv beta iota delta [leaf_count node_count root_node_index names
    parents lefts rights left_lengths right_lengths].
  split; [exact L |]. split; [reflexivity |]. split; [lia |].
  split; [reflexivity |]. split; [exact Ha8 |].
  split; [exact Ha3 |]. split; [exact Ha4 |]. split; [exact Ha5 |].
  split; [exact Ha6 |]. split; [exact Ha7 |].
  split; [rewrite Ha9; f_equal; exact Ha10 |].
  intros i Hi. unfold is_leaf.
  cbv beta iota delta [node_count lefts rights].
  replace (i <? 2 * n - 1) with true by (symmetry; apply Z.ltb_lt; lia).
  cbn [assert bind].
  destruct (2 * n - 1 =? 1); [reflexivity |].
  rewrite !getitem_app_replicate by exact Hi. cbn [bind].
  rewrite Z.eqb_refl. reflexivity.
Qed.

Lemma built_tree_shape_witness :
  exists a t,
    Alignment_init SMALL_DB None None None = Ok a /\
    tree_from_alignment sample_constants sample_libm a = Ok t /\
    leaf_count t = 2 /\ node_count t = 3 /\ names t = ["A"; "B"] /\
    is_leaf sample_constants t 1 = Ok true.
Proof.
  assert (H : exists a t, Alignment_init SMALL_DB None None None = Ok a /\
                          tree_from_alignment sample_constants sample_libm a = Ok t).
  { eexists. eexists. split; [vm_compute; reflexivity |]. vm_compute. reflexivity. }
  destruct H as (a & t & Ha & Ht). exists a, t.
  split; [exact Ha |]. split; [exact Ht |].
  destruct (@built_tree_shape _ _ _ _ Ht) as (H1 & H2 & _ & H4 & _ & _ & _ & _ & _ & _ & _ & H12).
  vm_compute in Ha. injection Ha as <-.
  split; [exact H1 |]. split; [exact H2 |]. split; [exact H4 |].
  apply H12. cbn. lia.
Defined.

(** The weights of an alignment that was given neither weights nor a
    tree: there is one weight per sequence, the call leaves names,
    sequences and positions alone, and a second call returns the same
    weights from the cache without changing the alignment again. *)
Theorem alignment_weights_cached (c : Constants) (libm : Libm) (a a' : Alignment)
    (w : list float) :
  _weights a = None -> _tree a = None ->
  Alignment_get_weights c libm a = Ok (w, a') ->
  len w = len (_sequences a) /\
  keeps a a' /\
  Alignment_get_weights c libm a' = Ok (w, a').
Proof.
  intros Hw Ht H.
  destruct (@get_weights_steady c libm a w a' H) as [[K F] W].
  split; [| split; [exact K | apply weights_cached; exact W]].
  assert (Fit : weights_fit a).
  { split; [intros w0 E; congruence | intros _ t E; congruence]. }
  destruct (F Fit) as [F1 _]. destruct (F1 _ W) as [-> | E].
  - (* an empty list of weights means no sequences *)
    unfold Alignment_get_weights, _build_weights in H. rewrite Hw, Ht in H.
    apply bind_Ok in H. destruct H as ([w1 a1] & H1 & H). injection H as <- <-.
    apply bind_Ok in H1. destruct H1 as ([t a2] & H1 & H2).
    apply bind_Ok in H1. destruct H1 as (t1 & Ht1 & H1). injection H1 as <- <-.
    apply bind_Ok in H2. destruct H2 as (w2 & Hw2 & H2). injection H2 as <- <-.
    apply tree_leaf_count in Ht1. apply get_weights_length in Hw2.
    + rewrite <- Ht1. exact Hw2.
    + rewrite Ht1. unfold len. lia.
  - destruct K as (_ & _ & _ & Ks & _). rewrite <- Ks. exact E.
Qed.

Lemma alignment_weights_cached_witness :
  exists a w a',
    Alignment_init SMALL_DB None None None = Ok a /\
    Alignment_get_weights sample_constants sample_libm a = Ok (w, a') /\
    len w = 2 /\
    Alignment_get_weights sample_constants sample_libm a' = Ok (w, a').
Proof.
  assert (H : exists a w a', Alignment_init SMALL_DB None None None = Ok a /\
              Alignment_get_weights sample_constants sample_libm a = Ok (w, a')).
  { eexists. eexists. eexists. split; [vm_compute; reflexivity |]. vm_compute. reflexivity. }
  destruct H as (a & w & a' & Ha & Hw). exists a, w, a'.
  split; [exact Ha |]. split; [exact Hw |].
  assert (E : a = {| _col_count := 6; _alphabet := AMINO; _names := ["A"; "B"];
                     _sequences := _sequences a; _tree := None; _weights := None;
                     _positions := None |}).
  { vm_compute in Ha. injection Ha as <-. reflexivity. }
  destruct (@alignment_weights_cached sample_constants sample_libm a a' w) as (H1 & _ & H3);
    [rewrite E; reflexivity | rewrite E; reflexivity | exact Hw |].
  split; [| exact H3]. rewrite H1. vm_compute in Ha. injection Ha as <-. reflexivity.
Defined.

(* ------------------------------------------------------------------ *)
(** ** The positions of an alignment *)

Lemma setitem_length {A} (l l' : list A) (i : Z) (x : A) :
  setitem l i x = Ok l' -> List.length l' = List.length l.
Proof.
  unfold setitem. intros H. apply bind_Ok in H. destruct H as (k & _ & H).
  injection H as <-. apply replace_nth_length.
Qed.

Lemma bump_length (d : list (option string * Z)) (key : string) (amount : float)
    (counts counts' : list float) :
  bump d key amount counts = Ok counts' -> List.length counts' = List.length counts.
Proof.
  unfold bump. intros H. peel H. eapply setitem_length, H.
Qed.

Lemma count_step_length (alphabet : Alphabet) (col : Z) (st st' : list float * float)
    (entry : Sequence * float) :
  count_step alphabet col st entry = Ok st' ->
  List.length (fst st') = List.length (fst st).
Proof.
  unfold count_step. destruct st as [counts total], entry as [seq weight].
  intros H. apply bind_Ok in H. destruct H as (e & _ & H).
  destruct e as [ch |]; [| injection H as <-; reflexivity].
  apply bind_Ok in H. destruct H as (w & _ & H).
  apply bind_Ok in H. destruct H as (counts1 & H1 & H). injection H as <-.
  cbn [fst].
  destruct w.
  - destruct alphabet.
    + destruct (String.eqb (str1 ch) "B");
        [peel H1; apply bump_length in H1, Ha; congruence |].
      destruct (String.eqb (str1 ch) "Z");
        [peel H1; apply bump_length in H1, Ha; congruence |].
      injection H1 as <-. apply length_map.
    + destruct (String.eqb (str1 ch) "R");
        [peel H1; apply bump_length in H1, Ha; congruence |].
      destruct (String.eqb (str1 ch) "Y");
        [peel H1; apply bump_length in H1, Ha; congruence |].
      injection H1 as <-. apply length_map.
    + destruct (String.eqb (str1 ch) "R");
        [peel H1; apply bump_length in H1, Ha; congruence |].
      destruct (String.eqb (str1 ch) "Y");
        [peel H1; apply bump_length in H1, Ha; congruence |].
      injection H1 as <-. apply length_map.
  - destruct (Alphabet_eqb alphabet AMINO); eapply bump_length, H1.
Qed.

Lemma count_fold_length (alphabet : Alphabet) (col : Z)
    (entries : list (Sequence * float)) (st st' : list float * float) :
  foldM (count_step alphabet col) entries st = Ok st' ->
  List.length (fst st') = List.length (fst st).
Proof.
  revert st. induction entries as [| e entries IH]; intros st H; cbn [foldM] in H.
  - injection H as <-. reflexivity.
  - apply bind_Ok in H. destruct H as (st1 & H1 & H).
    apply IH in H. apply count_step_length in H1. congruence.
Qed.

Lemma replicate_length {A} (n : Z) (x : A) : List.length (replicate n x) = Z.to_nat n.
Proof. unfold replicate. apply repeat_length. Qed.

Lemma counts_length (c : Constants) (libm : Libm) (a a' : Alignment) (col : Z)
    (counts : list float) :
  get_fractional_weighted_counts c libm a col = Ok (counts, a') ->
  len counts = get_size (_alphabet a).
Proof.
  unfold get_fractional_weighted_counts. intros H.
  apply bind_Ok in H. destruct H as ([w a1] & _ & H).
  apply bind_Ok in H. destruct H as ([counts1 total] & H1 & H).
  apply count_fold_length in H1. cbn [fst] in H1. rewrite replicate_length in H1.
  assert (L : len counts1 = get_size (_alphabet a)).
  { unfold len. rewrite H1. destruct (_alphabet a); reflexivity. }
  destruct (truthy total).
  - apply bind_Ok in H. destruct H as (u & _ & H). injection H as <- <-.
    unfold len. rewrite length_map. exact L.
  - injection H as <- <-. exact L.
Qed.

Lemma scores_length (c : Constants) (alphabet : Alphabet) (counts scores : list float) :
  profile_scores c alphabet counts = Ok scores -> len scores = get_size alphabet.
Proof.
  unfold profile_scores. intros H. apply mapM_length in H.
  unfold len. rewrite H, range_length. destruct alphabet; reflexivity.
Qed.

(** The shape of one built position. *)
Lemma build_position_shape (c : Constants) (libm : Libm) (a a' : Alignment) (col : Z)
    (pos : AlignmentPosition) :
  build_position c libm a col = Ok (pos, a') ->
  len (base_counts pos) = get_size (_alphabet a) /\
  len (scores pos) = get_size (_alphabet a) /\
  Permutation (sort_order pos) (range 0 (get_size (_alphabet a))).
Proof.
  unfold build_position. intros H.
  apply bind_Ok in H. destruct H as ([counts a1] & H1 & H).
  apply bind_Ok in H. destruct H as (sc & Hsc & H).
  apply bind_Ok in H. destruct H as ([u a2] & _ & H).
  apply bind_Ok in H. destruct H as ([o a3] & _ & H).
  apply bind_Ok in H. destruct H as ([cl a4] & _ & H).
  injection H as <- <-. cbn [AlignmentPosition_init base_counts scores sort_order].
  pose proof (counts_length _ _ _ _ H1) as Lc.
  apply get_fractional_weighted_counts_steady in H1.
  destruct H1 as [(_ & Ka & _) _]. rewrite Ka in Hsc.
  apply scores_length in Hsc.
  split; [exact Lc |]. split; [exact Hsc |].
  rewrite <- Lc. apply sorted_indices_perm.
Qed.

Lemma build_positions_shape (c : Constants) (libm : Libm) (l : list Z)
    (acc : AlignmentPositions) (a : Alignment) (ps : AlignmentPositions) (a' : Alignment)
    (P : AlignmentPosition -> Prop) :
  (forall a0 a1 col pos, _alphabet a0 = _alphabet a ->
     build_position c libm a0 col = Ok (pos, a1) -> P pos) ->
  foldM (fun '(acc, self) column =>
           '(pos, self) <- build_position c libm self column ;;
           Ok (acc ++ [pos], self)) l (acc, a) = Ok (ps, a') ->
  Forall P acc -> Forall P ps.
Proof.
  intros HP. revert acc a HP. induction l as [| x l IH]; intros acc a HP H F; cbn [foldM] in H.
  - injection H as <- <-. exact F.
  - apply bind_Ok in H. destruct H as ([acc1 a1] & H1 & H).
    apply bind_Ok in H1. destruct H1 as ([pos a2] & H1 & E). injection E as <- <-.
    pose proof (build_position_steady _ _ _ _ H1) as [[(_ & Ka & _) _] _].
    eapply IH; [| exact H |].
    + intros a0 a3 col pos0 E. apply HP. congruence.
    + apply Forall_app. split; [exact F |]. constructor; [| constructor].
      eapply HP; [reflexivity | exact H1].
Qed.

(** The positions of an alignment, when first asked for: there is one per
    column; each has as many counts and scores as the alphabet has
    residues, a sort order that names every residue index once, and gap
    scores that are the two gap weights times [GAP_OPEN / 2]; names and
    sequences stay as they were; and asking again returns the same
    positions from the cache. *)
Theorem positions_built_once (c : Constants) (libm : Libm) (a a1 : Alignment)
    (ps : AlignmentPositions) :
  _positions a = None -> 0 <= _col_count a ->
  positions c libm a = Ok (ps, a1) ->
  len ps = _col_count a /\
  Forall (fun p =>
            len (base_counts p) = get_size (_alphabet a) /\
            len (scores p) = get_size (_alphabet a) /\
            Permutation (sort_order p) (range 0 (get_size (_alphabet a))) /\
            score_gap_open p = (gap_opens p * GAP_OPEN c / 2)%float /\
            score_gap_close p = (gap_closes p * GAP_OPEN c / 2)%float) ps /\
  _names a1 = _names a /\ _sequences a1 = _sequences a /\
  positions c libm a1 = Ok (ps, a1).
Proof.
  intros Hp Hcc H.
  destruct (@positions_built c libm a ps a1 Hp H) as (a' & -> & [K _] & L & Post).
  destruct K as (_ & _ & Kn & Ks & _).
  split; [unfold len; rewrite L; lia |].
  split.
  - unfold positions in H. rewrite Hp in H.
    apply bind_Ok in H. destruct H as ([ps' a2] & H1 & H). injection H as <- _.
    unfold _build_positions in H1.
    assert (S : Forall (fun p =>
                  len (base_counts p) = get_size (_alphabet a) /\
                  len (scores p) = get_size (_alphabet a) /\
                  Permutation (sort_order p) (range 0 (get_size (_alphabet a)))) ps').
    { eapply build_positions_shape; [| exact H1 | constructor].
      intros a0 a3 col pos E Hb. rewrite <- E. eapply build_position_shape, Hb. }
    rewrite Forall_forall in *. intros p Hin.
    destruct (S p Hin) as (S1 & S2 & S3). specialize (Post p Hin).
    repeat split; try assumption.
    + rewrite Post. reflexivity.
    + rewrite Post. reflexivity.
  - split; [exact Kn |]. split; [exact Ks |]. apply positions_cached. reflexivity.
Qed.

Lemma positions_built_once_witness :
  exists a ps a1,
    Alignment_init SMALL_DB None None None = Ok a /\
    positions sample_constants sample_libm a = Ok (ps, a1) /\
    len ps = 6 /\
    positions sample_constants sample_libm a1 = Ok (ps, a1).
Proof.
  assert (H : exists a ps a1, Alignment_init SMALL_DB None None None = Ok a /\
              positions sample_constants sample_libm a = Ok (ps, a1)).
  { eexists. eexists. eexists. split; [vm_compute; reflexivity |]. vm_compute. reflexivity. }
  destruct H as (a & ps & a1 & Ha & Hp). exists a, ps, a1.
  split; [exact Ha |]. split; [exact Hp |].
  assert (E : a = {| _col_count := 6; _alphabet := AMINO; _names := ["A"; "B"];
                     _sequences := _sequences a; _tree := None; _weights := None;
                     _positions := None |}).
  { vm_compute in Ha. injection Ha as <-. reflexivity. }
  destruct (@positions_built_once sample_constants sample_libm a a1 ps)
    as (H1 & _ & _ & _ & H5);
    [rewrite E; reflexivity | rewrite E; cbn; lia | exact Hp |].
  split; [| exact H5]. rewrite H1, E. reflexivity.
Defined.
(* ------------------------------------------------------------------ *)
(** ** Positions: the terminal gaps and the JSON form *)

Lemma map_last_spec (c : Constants) (l : list AlignmentPosition) :
  l <> [] ->
  match nth_error l (List.length l - 1) with
  | Some last =>
      if negb (score_gap_open last =? SCORE_GUARD c)%float
      then replace_nth l (List.length l - 1) (with_score_gap_close last 0%float)
      else l
  | None => l
  end = map_last (close_reset c) l.
Proof.
  induction l as [| x l IH]; [congruence |]. intros _.
  destruct l as [| y l].
  - cbn. unfold close_reset. destruct (negb _); reflexivity.
  - specialize (IH ltac:(discriminate)).
    replace (List.length (x :: y :: l) - 1)%nat with (S (List.length (y :: l) - 1))
      by (cbn [List.length]; lia).
    cbn [nth_error].
    change (map_last (close_reset c) (x :: y :: l))
      with (x :: map_last (close_reset c) (y :: l)).
    rewrite <- IH.
    destruct (nth_error (y :: l) (List.length (y :: l) - 1)) as [last |]; [| reflexivity].
    destruct (negb (score_gap_open last =? SCORE_GUARD c)%float); reflexivity.
Qed.

Lemma set_terminal_gaps_spec (c : Constants) (p : AlignmentPosition)
    (rest : AlignmentPositions) :
  set_terminal_gaps c (p :: rest)
  = match rest with
    | [] => [open_reset c p]
    | _ :: _ => open_reset c p :: map_last (close_reset c) rest
    end.
Proof.
  unfold set_terminal_gaps.
  assert (E : (if negb (score_gap_open p =? SCORE_GUARD c)%float
               then replace_nth (p :: rest) 0 (with_score_gap_open p 0%float)
               else p :: rest) = open_reset c p :: rest).
  { unfold open_reset. destruct (negb _); reflexivity. }
  rewrite E. clear E. destruct rest as [| q rest].
  - cbn. reflexivity.
  - replace (1 <? len (open_reset c p :: q :: rest)) with true.
    2:{ symmetry. apply Z.ltb_lt. unfold len. cbn [List.length]. lia. }
    cbn [andb].
    replace (List.length (open_reset c p :: q :: rest) - 1)%nat
      with (S (List.length (q :: rest) - 1)) by (cbn [List.length]; lia).
    cbn [nth_error].
    pose proof (@map_last_spec c (q :: rest) ltac:(discriminate)) as M.
    destruct (nth_error (q :: rest) (List.length (q :: rest) - 1)) as [last |].
    + rewrite <- M.
      destruct (negb (score_gap_open last =? SCORE_GUARD c)%float); reflexivity.
    + rewrite <- M. reflexivity.
Qed.

Lemma open_reset_twice (c : Constants) (p : AlignmentPosition) :
  open_reset c (open_reset c p) = open_reset c p.
Proof.
  unfold open_reset.
  destruct (negb (score_gap_open p =? SCORE_GUARD c)%float) eqn:E.
  - cbn [with_score_gap_open score_gap_open].
    destruct (negb (0 =? SCORE_GUARD c)%float); reflexivity.
  - rewrite E. reflexivity.
Qed.

Lemma close_reset_twice (c : Constants) (p : AlignmentPosition) :
  close_reset c (close_reset c p) = close_reset c p.
Proof.
  unfold close_reset.
  destruct (negb (score_gap_open p =? SCORE_GUARD c)%float) eqn:E.
  - cbn [with_score_gap_close score_gap_open]. rewrite E. reflexivity.
  - rewrite E. reflexivity.
Qed.

Lemma map_last_twice {A} (g : A -> A) (l : list A) :
  (forall x, g (g x) = g x) -> map_last g (map_last g l) = map_last g l.
Proof.
  intros Hg. induction l as [| x l IH]; [reflexivity |].
  destruct l as [| y l]; [cbn; now rewrite Hg |].
  cbn [map_last] in *. destruct l as [| z l].
  - cbn. now rewrite Hg.
  - cbn [map_last] in *. f_equal. exact IH.
Qed.

Lemma map_last_nonempty {A} (g : A -> A) (l : list A) : l <> [] -> map_last g l <> [].
Proof. destruct l as [| x [| y l]]; cbn; congruence. Qed.

(** [set_terminal_gaps] resets the gap-open score of the first position
    and, in a tuple of more than one, the gap-close score of the last one
    (each unless the position's gap-open score is [SCORE_GUARD]), and
    nothing else; doing it a second time changes nothing, so profiles
    that went through one merge enter the next one unchanged. *)
Theorem set_terminal_gaps_idempotent (c : Constants) (ps : AlignmentPositions) :
  set_terminal_gaps c (set_terminal_gaps c ps) = set_terminal_gaps c ps /\
  len (set_terminal_gaps c ps) = len ps /\
  (forall p rest, ps = p :: rest ->
     set_terminal_gaps c ps
     = match rest with
       | [] => [open_reset c p]
       | _ :: _ => open_reset c p :: map_last (close_reset c) rest
       end).
Proof.
  split; [| split].
  - destruct ps as [| p rest]; [reflexivity |].
    rewrite set_terminal_gaps_spec. destruct rest as [| q rest].
    + rewrite set_terminal_gaps_spec, open_reset_twice. reflexivity.
    + rewrite set_terminal_gaps_spec.
      destruct (map_last (close_reset c) (q :: rest)) as [| q' rest'] eqn:E.
      * exfalso. revert E. apply map_last_nonempty. discriminate.
      * rewrite open_reset_twice. f_equal. rewrite <- E.
        apply map_last_twice, close_reset_twice.
  - unfold len. rewrite set_terminal_gaps_length. reflexivity.
  - intros p rest ->. apply set_terminal_gaps_spec.
Qed.

(** Reading back the JSON form of a position recomputes the two gap
    scores from the gap weights: the stored [score_gap_open] and
    [score_gap_close] are ignored.  So the position comes back unchanged
    exactly when its gap scores are the ones [__post_init__] computes,
    which the terminal positions of a merged alignment no longer are. *)
Theorem position_json_round_trip (c : Constants) (p : AlignmentPosition) :
  from_json c (to_json p)
  = Ok (AlignmentPosition_init c (sort_order p) (base_counts p) (scores p)
          (ungapped_weight p) (gap_opens p) (gap_closes p)) /\
  (from_json c (to_json p) = Ok p <->
   score_gap_open p = (gap_opens p * GAP_OPEN c / 2)%float /\
   score_gap_close p = (gap_closes p * GAP_OPEN c / 2)%float).
Proof.
  assert (E : from_json c (to_json p)
              = Ok (AlignmentPosition_init c (sort_order p) (base_counts p) (scores p)
                      (ungapped_weight p) (gap_opens p) (gap_closes p))).
  { unfold from_json, to_json.
    match goal with
    | |- (if negb ?b then _ else _) = _ => change b with true
    end.
    cbn [negb].
    change (keyword _ "sort_order") with (Ok (JList (map JInt (sort_order p)))).
    change (keyword _ "base_counts") with (Ok (JList (map JFloat (base_counts p)))).
    change (keyword _ "scores") with (Ok (JList (map JFloat (scores p)))).
    change (keyword _ "ungapped_weight") with (Ok (JFloat (ungapped_weight p))).
    change (keyword _ "gap_opens") with (Ok (JFloat (gap_opens p))).
    change (keyword _ "gap_closes") with (Ok (JFloat (gap_closes p))).
    change (keyword_default _ "score_gap_open") with (Ok (score_gap_open p)).
    change (keyword_default _ "score_gap_close") with (Ok (score_gap_close p)).
    cbn [bind as_list as_float]. rewrite mapM_JInt, !mapM_JFloat. reflexivity. }
  split; [exact E |]. rewrite E. split.
  - intros H. injection H as H. rewrite <- H at 1 3. split; reflexivity.
  - intros [H1 H2]. f_equal. destruct p; cbn in *. subst. reflexivity.
Qed.

Lemma keyword_outcome (items : list (string * json)) (name : string) :
  (exists v, keyword items name = Ok v /\ dict_get String.eqb items name = Some v) \/
  (keyword items name = Raise TypeError /\ dict_get String.eqb items name = None).
Proof.
  unfold keyword. destruct (dict_get String.eqb items name);
    [left; eexists; split; reflexivity | right; split; reflexivity].
Qed.

(** [from_json] raises [TypeError] on a document that is no object, on an
    object with a key that is no field of a position, and on an object
    that lacks one of the six fields without a default. *)
Theorem from_json_rejects (c : Constants) (data : json) :
  (forall items, data <> JObj items) \/
  (exists items, data = JObj items /\
     ((exists k v, In (k, v) items /\ ~ In k position_fields) \/
      (exists k, In k required_fields /\ dict_get String.eqb items k = None))) ->
  from_json c data = Raise TypeError.
Proof.
  intros [H | (items & -> & H)].
  - destruct data; try reflexivity. exfalso. eapply H. reflexivity.
  - unfold from_json.
    destruct (forallb _ items) eqn:Eall; cbn [negb]; [| reflexivity].
    destruct H as [(k & v & Hin & Hk) | (k & Hk & Hnone)].
    + exfalso. rewrite forallb_forall in Eall. specialize (Eall _ Hin). cbv beta iota in Eall.
      apply existsb_exists in Eall. destruct Eall as (f & Hf & E).
      apply String.eqb_eq in E. subst. contradiction.
    + destruct (keyword_outcome items "sort_order") as [(v1 & -> & D1) | [-> D1]];
        [| reflexivity].
      destruct (keyword_outcome items "base_counts") as [(v2 & -> & D2) | [-> D2]];
        [| reflexivity].
      destruct (keyword_outcome items "scores") as [(v3 & -> & D3) | [-> D3]];
        [| reflexivity].
      destruct (keyword_outcome items "ungapped_weight") as [(v4 & -> & D4) | [-> D4]];
        [| reflexivity].
      destruct (keyword_outcome items "gap_opens") as [(v5 & -> & D5) | [-> D5]];
        [| reflexivity].
      destruct (keyword_outcome items "gap_closes") as [(v6 & -> & D6) | [-> D6]];
        [| reflexivity].
      exfalso. unfold required_fields in Hk. cbn [In] in Hk.
      repeat (destruct Hk as [<- | Hk]; [congruence |]). exact Hk.
Qed.

Lemma from_json_rejects_witness :
  from_json sample_constants (JObj [("sort_order", JList [])]) = Raise TypeError /\
  from_json sample_constants (JList []) = Raise TypeError.
Proof.
  split; apply from_json_rejects.
  - right. eexists. split; [reflexivity |]. right. exists "scores".
    split; [cbn; tauto | reflexivity].
  - left. discriminate.
Defined.

(* ------------------------------------------------------------------ *)
(** ** align.py: the traceback cells *)

Lemma low_bits (k n : Z) : 0 <= k < 4 -> 2 <= n -> Z.testbit k n = false.
Proof.
  intros Hk Hn. assert (C : k = 0 \/ k = 1 \/ k = 2 \/ k = 3) by lia.
  destruct C as [-> | [-> | [-> | ->]]]; [apply Z.testbit_0_l | | |];
    apply Z.bits_above_log2; cbn; lia.
Qed.

Lemma put_bits_field (mask bit old : Z) (n : Z) :
  0 <= n ->
  Z.testbit (put_bits mask bit old) n
  = (Z.testbit old n && negb (Z.testbit mask n)) || Z.testbit bit n.
Proof.
  intros Hn. unfold put_bits.
  rewrite Z.lor_spec, Z.land_spec, Z.lnot_spec by exact Hn. reflexivity.
Qed.

(** Evaluates the bits of the masks and finishes by cases on the bits
    that stay unknown. *)
Ltac bits_done b :=
  repeat match goal with
         | |- context [Z.testbit ?c ?n] =>
             lazymatch c with
             | 3 => idtac | 4 => idtac | 8 => idtac
             end;
             lazymatch n with
             | 0 => idtac | 1 => idtac | 2 => idtac | 3 => idtac
             end;
             let v := eval vm_compute in (Z.testbit c n) in
             change (Z.testbit c n) with v
         end;
  rewrite ?(@low_bits b) by lia;
  repeat match goal with
         | |- context [Z.testbit ?x ?n] => destruct (Z.testbit x n)
         end;
  reflexivity.

(** The three fields of a traceback cell. *)
Lemma cell_fields (old : Z) :
  (forall b, 0 <= b < 4 ->
     Z.land (put_bits BIT__M b old) BIT__M = b /\
     Z.land (put_bits BIT__M b old) BIT__D = Z.land old BIT__D /\
     Z.land (put_bits BIT__M b old) BIT__I = Z.land old BIT__I) /\
  (Z.land (put_bits BIT__D BIT_MD old) BIT__D = BIT_MD /\
   Z.land (put_bits BIT__D BIT_MD old) BIT__M = Z.land old BIT__M /\
   Z.land (put_bits BIT__D BIT_MD old) BIT__I = Z.land old BIT__I) /\
  (Z.land (put_bits BIT__I BIT_MI old) BIT__I = BIT_MI /\
   Z.land (put_bits BIT__I BIT_MI old) BIT__M = Z.land old BIT__M /\
   Z.land (put_bits BIT__I BIT_MI old) BIT__D = Z.land old BIT__D).
Proof.
  assert (T : forall n, 0 <= n -> n = 0 \/ n = 1 \/ n = 2 \/ n = 3 \/ 4 <= n) by (intros; lia).
  assert (H3 : forall n, 4 <= n -> Z.testbit 3 n = false)
    by (intros; apply Z.bits_above_log2; cbn; lia).
  assert (H4 : forall n, 4 <= n -> Z.testbit 4 n = false)
    by (intros; apply Z.bits_above_log2; cbn; lia).
  assert (H8 : forall n, 4 <= n -> Z.testbit 8 n = false)
    by (intros; apply Z.bits_above_log2; cbn; lia).
  unfold BIT__M, BIT__D, BIT__I, BIT_MD, BIT_MI.
  split; [| split].
  - intros b Hb. repeat split; apply Z.bits_inj'; intros n Hn;
      rewrite !Z.land_spec, put_bits_field by exact Hn;
      destruct (T n Hn) as [-> | [-> | [-> | [-> | Hbig]]]];
      rewrite ?H3, ?H4, ?H8 by lia; bits_done b.
  - repeat split; apply Z.bits_inj'; intros n Hn;
      rewrite !Z.land_spec, put_bits_field by exact Hn;
      destruct (T n Hn) as [-> | [-> | [-> | [-> | Hbig]]]];
      rewrite ?H3, ?H4, ?H8 by lia; bits_done 0.
  - repeat split; apply Z.bits_inj'; intros n Hn;
      rewrite !Z.land_spec, put_bits_field by exact Hn;
      destruct (T n Hn) as [-> | [-> | [-> | [-> | Hbig]]]];
      rewrite ?H3, ?H4, ?H8 by lia; bits_done 0.
Qed.

(** A traceback cell holds three independent answers.  Writing the
    predecessor of the M state and asking for it gives it back
    ([set_bit_tbm], [recurse_m]), writing the M predecessor of the D or of
    the I state gives [MATCH] back ([recurse_d], [recurse_i]); each write
    leaves the answers for the other two states as they were; and a cell
    never written answers every state with itself. *)
Theorem traceback_cell_round_trip (old : Z) (m previous : Modification) :
  get_modification (put_bits BIT__M (match_bits m) old) MATCH = Ok m /\
  get_modification (put_bits BIT__D BIT_MD old) DELETION = Ok MATCH /\
  get_modification (put_bits BIT__I BIT_MI old) INSERTION = Ok MATCH /\
  (previous <> MATCH ->
   get_modification (put_bits BIT__M (match_bits m) old) previous
   = get_modification old previous) /\
  (previous <> DELETION ->
   get_modification (put_bits BIT__D BIT_MD old) previous
   = get_modification old previous) /\
  (previous <> INSERTION ->
   get_modification (put_bits BIT__I BIT_MI old) previous
   = get_modification old previous) /\
  get_modification 0 previous = Ok previous.
Proof.
  destruct (cell_fields old) as (HM & (HD1 & HD2 & HD3) & (HI1 & HI2 & HI3)).
  assert (Hb : 0 <= match_bits m < 4)
    by (destruct m; unfold match_bits, BIT_MM, BIT_DM, BIT_IM; lia).
  destruct (HM _ Hb) as (HM1 & HM2 & HM3).
  unfold get_modification.
  split; [rewrite HM1; destruct m; reflexivity |].
  split; [rewrite HD1; reflexivity |].
  split; [rewrite HI1; reflexivity |].
  split; [| split; [| split]].
  - intros Hp. destruct previous; [rewrite HM2 | rewrite HM3 | congruence]; reflexivity.
  - intros Hp. destruct previous; [congruence | rewrite HD3 | rewrite HD2]; reflexivity.
  - intros Hp. destruct previous; [rewrite HI3 | congruence | rewrite HI2]; reflexivity.
  - destruct previous; reflexivity.
Qed.

Lemma traceback_cell_round_trip_witness :
  get_modification (put_bits BIT__M (match_bits INSERTION) 13) MATCH = Ok INSERTION /\
  get_modification (put_bits BIT__M (match_bits INSERTION) 13) DELETION
  = get_modification 13 DELETION.
Proof.
  destruct (traceback_cell_round_trip 13 INSERTION DELETION) as (H1 & _ & _ & H4 & _).
  split; [exact H1 | apply H4; discriminate].
Defined.

(* ------------------------------------------------------------------ *)
(** ** align.py: what the edges of a path record *)

Lemma build_path_loop_located (tb : list (list Z)) (steps : nat) :
  forall (edge : Edge) (acc res : list Edge),
    build_path_loop steps tb edge acc = Ok res ->
    exists extra,
      res = acc ++ extra /\
      located extra /\
      query_length edge = query_step (type edge) + query_steps extra /\
      reference_length edge = reference_step (type edge) + reference_steps extra.
Proof.
  induction steps as [| n IH]; intros edge acc res H; simpl in H; [discriminate |].
  bind_inv H. bind_inv H. bind_inv H. rename a1 into next.
  destruct (type edge) eqn:T; simpl in H;
    match type of H with
    | (if ?b then _ else _) = _ => destruct b eqn:Z
    end.
  all: try (inversion H; subst; exists []; rewrite app_nil_r; simpl;
            apply andb_true_iff in Z; destruct Z as [Zq Zr];
            apply Z.eqb_eq in Zq, Zr; repeat split; lia).
  all: bind_inv H; rename a1 into copy;
       apply Edge_init_Ok in Ha2; destruct Ha2 as (Ct & Cq & Cr & _ & _);
       apply IH in H; destruct H as (extra & -> & Hloc & Hq & Hr);
       exists (copy :: extra); rewrite <- app_assoc;
       rewrite query_steps_cons, reference_steps_cons;
       cbn [query_step reference_step app located];
       repeat split; solve [assumption | lia].
Qed.

Lemma located_forward (l : list Edge) :
  located l ->
  forall (before after : list Edge) (e : Edge),
    rev l = before ++ e :: after ->
    query_length e = query_steps (before ++ [e]) /\
    reference_length e = reference_steps (before ++ [e]).
Proof.
  induction l as [| x l IH]; intros Hloc before after e E.
  - destruct before; discriminate.
  - cbn [located] in Hloc. destruct Hloc as (Hq & Hr & Hloc).
    cbn [rev] in E.
    destruct after as [| y after _] using rev_ind.
    + apply app_inj_tail in E. destruct E as [<- <-].
      rewrite query_steps_app, reference_steps_app, query_steps_rev, reference_steps_rev.
      cbn. lia.
    + replace (before ++ e :: after ++ [y]) with ((before ++ e :: after) ++ [y]) in E
        by (rewrite <- app_assoc; reflexivity).
      apply app_inj_tail in E. destruct E as [E _].
      eapply IH; eassumption.
Qed.

Lemma build_path_located (tb : list (list Z)) (q r : Z) (last : Modification) (p : Path) :
  build_path tb q r last = Ok p ->
  (exists rest, p = rest ++ [{| type := last; query_length := q; reference_length := r |}]) /\
  (forall before after e, p = before ++ e :: after ->
     query_length e = query_steps (before ++ [e]) /\
     reference_length e = reference_steps (before ++ [e])).
Proof.
  unfold build_path. intros H. bind_inv H. bind_inv H. bind_inv H.
  inversion H; subst; clear H.
  apply Edge_init_Ok in Ha. destruct Ha as (Et & Eq & Er & _ & _).
  apply Edge_init_Ok in Ha0. destruct Ha0 as (Ct & Cq & Cr & _ & _).
  apply build_path_loop_located in Ha1. destruct Ha1 as (extra & -> & Hloc & Hq & Hr).
  change ([a0] ++ extra) with (a0 :: extra).
  split.
  - exists (rev extra). cbn [rev]. f_equal. f_equal.
    destruct a0 as [t0 q0 r0]. cbn in *. congruence.
  - apply located_forward. cbn [located]. repeat split; try assumption; congruence.
Qed.

(** Every edge of a path that [global_align] returns records the point it
    leads to: its [query_length] and [reference_length] are the numbers
    of query and of reference columns consumed by the path up to and
    including that edge.  The last edge so records the lengths of the two
    profiles. *)
Theorem path_edges_record_progress (consts : Constants) (libm : Libm)
    (q r : AlignmentPositions) (alphabet : Alphabet) (p : Path) :
  snd (global_align consts libm q r alphabet) = Ok p ->
  (exists rest e, p = rest ++ [e] /\ query_length e = len q /\ reference_length e = len r) /\
  (forall before after e, p = before ++ e :: after ->
     query_length e = query_steps (before ++ [e]) /\
     reference_length e = reference_steps (before ++ [e])).
Proof.
  unfold global_align. cbn [snd]. unfold global_align_body. intros H. peel H.
  apply build_path_located in H. destruct H as [(rest & ->) Hf].
  split; [| exact Hf].
  eexists rest, _. split; [reflexivity |]. cbn [query_length reference_length].
  unfold len. rewrite !set_terminal_gaps_length. split; reflexivity.
Qed.

Lemma path_edges_record_progress_witness :
  exists p rest e,
    snd (global_align sample_constants sample_libm
           (built_positions SMALL_QUERY) (built_positions SMALL_DB) AMINO) = Ok p /\
    p = rest ++ [e] /\ query_length e = 4 /\ reference_length e = 6.
Proof.
  assert (H : exists p, snd (global_align sample_constants sample_libm
                (built_positions SMALL_QUERY) (built_positions SMALL_DB) AMINO) = Ok p)
    by (eexists; vm_compute; reflexivity).
  destruct H as [p H].
  destruct (@path_edges_record_progress _ _ _ _ _ _ H) as [(rest & e & E & Hq & Hr) _].
  exists p, rest, e. split; [exact H |]. split; [exact E |].
  split; [rewrite Hq | rewrite Hr]; vm_compute; reflexivity.
Defined.

Lemma empty_profile_raises (consts : Constants) (libm : Libm)
    (q r : AlignmentPositions) (alphabet : Alphabet) :
  q = [] \/ r = [] ->
  snd (global_align consts libm q r alphabet) = Raise IndexError.
Proof.
  intros H. unfold global_align. cbn [snd]. unfold global_align_body.
  set (r' := set_terminal_gaps consts r). set (q' := set_terminal_gaps consts q).
  assert (Hs : setitem (replicate (len r' + 1) (SCORE_GUARD consts)) 0 0%float
               = Ok (0%float :: replicate (len r') (SCORE_GUARD consts))).
  { unfold setitem, resolve_index, len. rewrite replicate_length.
    replace (Z.to_nat (Z.of_nat (List.length r') + 1)) with (S (List.length r')) by lia.
    cbn [Z.ltb Z.compare orb].
    replace (Z.of_nat (S (List.length r')) <=? 0) with false
      by (symmetry; apply Z.leb_gt; lia).
    cbn [bind Z.to_nat]. unfold replicate.
    replace (Z.to_nat (Z.of_nat (List.length r') + 1)) with (S (List.length r')) by lia.
    rewrite Nat2Z.id. reflexivity. }
  cbn [prev_match]. rewrite Hs. cbn [bind].
  unfold store_current_match at 1. cbn [current_match set_prev_match].
  assert (Hc : exists cm, setitem (replicate (len r' + 1) 0%float) 0 (SCORE_GUARD consts)
                          = Ok cm).
  { unfold setitem, resolve_index, len. rewrite replicate_length.
    replace (Z.to_nat (Z.of_nat (List.length r') + 1)) with (S (List.length r')) by lia.
    cbn [Z.ltb Z.compare orb].
    replace (Z.of_nat (S (List.length r')) <=? 0) with false
      by (symmetry; apply Z.leb_gt; lia).
    cbn [bind]. eexists. reflexivity. }
  destruct Hc as [cm Hc]. rewrite Hc. cbn [bind].
  destruct H as [-> | ->].
  - reflexivity.
  - subst r'. cbn [set_terminal_gaps].
    destruct (getitem_outcome q' 0) as [[q0 E] | E]; rewrite E; reflexivity.
Qed.

(** [global_align] needs a column on both sides: with an empty query or
    an empty reference profile it raises [IndexError]. *)
Theorem global_align_empty_profile (consts : Constants) (libm : Libm)
    (q r : AlignmentPositions) (alphabet : Alphabet) :
  q = [] \/ r = [] ->
  snd (global_align consts libm q r alphabet) = Raise IndexError.
Proof. apply empty_profile_raises. Qed.

Lemma global_align_empty_profile_witness :
  snd (global_align sample_constants sample_libm [] (built_positions SMALL_DB) AMINO)
  = Raise IndexError.
Proof. apply global_align_empty_profile. left. reflexivity. Defined.

(* ------------------------------------------------------------------ *)
(** ** Applying a path to a sequence *)

Lemma query_steps_nonneg (p : Path) : 0 <= query_steps p.
Proof.
  induction p as [| e p IH]; [cbn; lia |].
  rewrite query_steps_cons. destruct (type e); cbn [query_step]; lia.
Qed.

Lemma reference_steps_nonneg (p : Path) : 0 <= reference_steps p.
Proof.
  induction p as [| e p IH]; [cbn; lia |].
  rewrite reference_steps_cons. destruct (type e); cbn [reference_step]; lia.
Qed.

Lemma Sequence_str_cons (e : option ascii) (seq : Sequence) :
  list_ascii_of_string (Sequence_str (e :: seq))
  = glyph e :: list_ascii_of_string (Sequence_str seq).
Proof.
  unfold Sequence_str. rewrite !list_ascii_of_string_of_list_ascii.
  destruct e; reflexivity.
Qed.

Lemma firstn_succ_cons {A} (k : Z) (x : A) (l : list A) :
  0 <= k -> firstn (Z.to_nat (1 + k)) (x :: l) = x :: firstn (Z.to_nat k) l.
Proof.
  intros Hk. replace (Z.to_nat (1 + k)) with (S (Z.to_nat k)) by lia. reflexivity.
Qed.

Lemma build_query_result_cases (edges : Path) :
  forall seq : Sequence,
    (len seq < query_steps edges -> build_query_result seq edges = Raise StopIteration) /\
    (query_steps edges <= len seq ->
     exists s, build_query_result seq edges = Ok s /\
       aligned_to INSERTION edges (firstn (Z.to_nat (query_steps edges)) seq) s).
Proof.
  induction edges as [| e edges IH]; intros seq.
  - split; [cbn; unfold len; lia |]. intros _. exists "". split; [reflexivity |].
    cbn. repeat split. constructor.
  - rewrite query_steps_cons. pose proof (query_steps_nonneg edges) as Hpos.
    cbn [build_query_result]. destruct (type e) eqn:T; cbn [query_step].
    + (* DELETION *)
      destruct seq as [| x seq].
      * split; [reflexivity | intros H; unfold len in H; cbn [List.length] in H; lia].
      * destruct (IH seq) as [IH1 IH2]. unfold len in *. cbn [List.length].
        split.
        -- intros H. rewrite IH1 by lia. reflexivity.
        -- intros H. destruct IH2 as (s & -> & L & K & G); [lia |].
           eexists. split; [reflexivity |].
           rewrite firstn_succ_cons by lia. unfold aligned_to.
           cbn [list_ascii_of_string kept_columns gap_columns]. rewrite T.
           cbn [Modification_eqb]. rewrite Sequence_str_cons, K.
           unfold strlen, len in *. cbn [String.length List.length].
           repeat split; [lia | exact G].
    + (* INSERTION *)
      destruct (IH seq) as [IH1 IH2]. split.
      * intros H. rewrite IH1 by lia. reflexivity.
      * intros H. destruct IH2 as (s & -> & L & K & G); [lia |].
        eexists. split; [reflexivity |].
        replace (0 + query_steps edges) with (query_steps edges) by lia.
        unfold aligned_to.
        cbn [list_ascii_of_string kept_columns gap_columns]. rewrite T.
        cbn [Modification_eqb]. unfold strlen, len in *.
        cbn [String.length List.length].
        repeat split; [lia | exact K | constructor; [reflexivity | exact G]].
    + (* MATCH *)
      destruct seq as [| x seq].
      * split; [reflexivity | intros H; unfold len in H; cbn [List.length] in H; lia].
      * destruct (IH seq) as [IH1 IH2]. unfold len in *. cbn [List.length].
        split.
        -- intros H. rewrite IH1 by lia. reflexivity.
        -- intros H. destruct IH2 as (s & -> & L & K & G); [lia |].
           eexists. split; [reflexivity |].
           rewrite firstn_succ_cons by lia. unfold aligned_to.
           cbn [list_ascii_of_string kept_columns gap_columns]. rewrite T.
           cbn [Modification_eqb]. rewrite Sequence_str_cons, K.
           unfold strlen, len in *. cbn [String.length List.length].
           repeat split; [lia | exact G].
Qed.

Lemma build_reference_result_cases (edges : Path) :
  forall seq : Sequence,
    (len seq < reference_steps edges ->
     build_reference_result seq edges = Raise StopIteration) /\
    (reference_steps edges <= len seq ->
     exists s, build_reference_result seq edges = Ok s /\
       aligned_to DELETION edges (firstn (Z.to_nat (reference_steps edges)) seq) s).
Proof.
  induction edges as [| e edges IH]; intros seq.
  - split; [cbn; unfold len; lia |]. intros _. exists "". split; [reflexivity |].
    cbn. repeat split. constructor.
  - rewrite reference_steps_cons. pose proof (reference_steps_nonneg edges) as Hpos.
    cbn [build_reference_result]. destruct (type e) eqn:T; cbn [reference_step].
    + (* DELETION *)
      destruct (IH seq) as [IH1 IH2]. split.
      * intros H. rewrite IH1 by lia. reflexivity.
      * intros H. destruct IH2 as (s & -> & L & K & G); [lia |].
        eexists. split; [reflexivity |].
        replace (0 + reference_steps edges) with (reference_steps edges) by lia.
        unfold aligned_to.
        cbn [list_ascii_of_string kept_columns gap_columns]. rewrite T.
        cbn [Modification_eqb]. unfold strlen, len in *.
        cbn [String.length List.length].
        repeat split; [lia | exact K | constructor; [reflexivity | exact G]].
    + (* INSERTION *)
      destruct seq as [| x seq].
      * split; [reflexivity | intros H; unfold len in H; cbn [List.length] in H; lia].
      * destruct (IH seq) as [IH1 IH2]. unfold len in *. cbn [List.length].
        split.
        -- intros H. rewrite IH1 by lia. reflexivity.
        -- intros H. destruct IH2 as (s & -> & L & K & G); [lia |].
           eexists. split; [reflexivity |].
           rewrite firstn_succ_cons by lia. unfold aligned_to.
           cbn [list_ascii_of_string kept_columns gap_columns]. rewrite T.
           cbn [Modification_eqb]. rewrite Sequence_str_cons, K.
           unfold strlen, len in *. cbn [String.length List.length].
           repeat split; [lia | exact G].
    + (* MATCH *)
      destruct seq as [| x seq].
      * split; [reflexivity | intros H; unfold len in H; cbn [List.length] in H; lia].
      * destruct (IH seq) as [IH1 IH2]. unfold len in *. cbn [List.length].
        split.
        -- intros H. rewrite IH1 by lia. reflexivity.
        -- intros H. destruct IH2 as (s & -> & L & K & G); [lia |].
           eexists. split; [reflexivity |].
           rewrite firstn_succ_cons by lia. unfold aligned_to.
           cbn [list_ascii_of_string kept_columns gap_columns]. rewrite T.
           cbn [Modification_eqb]. rewrite Sequence_str_cons, K.
           unfold strlen, len in *. cbn [String.length List.length].
           repeat split; [lia | exact G].
Qed.

(** [build_query_result] walks the path and the sequence together: it
    raises [StopIteration] exactly when the M and D edges of the path
    outnumber the entries of the sequence; otherwise the string it
    returns has one character per edge, a hyphen at every I edge, and at
    the M and D edges, in order, the printed entries of the sequence that
    the path consumes.  Entries beyond those are dropped without notice.
    [build_reference_result] does the same with the roles of I and D
    exchanged. *)
Theorem build_result_by_columns (seq : Sequence) (edges : Path) :
  (len seq < query_steps edges -> build_query_result seq edges = Raise StopIteration) /\
  (query_steps edges <= len seq ->
   exists s, build_query_result seq edges = Ok s /\
     aligned_to INSERTION edges (firstn (Z.to_nat (query_steps edges)) seq) s) /\
  (len seq < reference_steps edges ->
   build_reference_result seq edges = Raise StopIteration) /\
  (reference_steps edges <= len seq ->
   exists s, build_reference_result seq edges = Ok s /\
     aligned_to DELETION edges (firstn (Z.to_nat (reference_steps edges)) seq) s).
Proof.
  destruct (build_query_result_cases edges seq) as [Q1 Q2].
  destruct (build_reference_result_cases edges seq) as [R1 R2].
  repeat split; assumption.
Qed.

Lemma build_result_by_columns_witness :
  build_query_result [Some "G"%char] [Edge_of MATCH; Edge_of DELETION]
  = Raise StopIteration /\
  exists s, build_query_result [Some "G"%char; None; Some "T"%char]
              [Edge_of MATCH; Edge_of INSERTION; Edge_of DELETION] = Ok s /\
            s = "G--".
Proof.
  destruct (build_result_by_columns [Some "G"%char] [Edge_of MATCH; Edge_of DELETION])
    as (H1 & _).
  destruct (build_result_by_columns [Some "G"%char; None; Some "T"%char]
              [Edge_of MATCH; Edge_of INSERTION; Edge_of DELETION]) as (_ & H2 & _).
  split; [apply H1; vm_compute; reflexivity |].
  destruct H2 as (s & Hs & _); [vm_compute; discriminate |].
  exists s. split; [exact Hs |]. vm_compute in Hs. injection Hs as <-. reflexivity.
Defined.

(* ------------------------------------------------------------------ *)
(** ** The sequences of a merged alignment *)

Lemma mapM_Forall2_Ok {A B} (f : A -> result B) (P : A -> Prop) (Q : A -> B -> Prop)
    (l : list A) :
  Forall P l ->
  (forall x, P x -> exists y, f x = Ok y /\ Q x y) ->
  exists ys, mapM f l = Ok ys /\ Forall2 Q l ys.
Proof.
  intros HP Hf. induction HP as [| x l Hx _ (ys & IH & F)].
  - exists []. split; [reflexivity | constructor].
  - destruct (Hf x Hx) as (y & Hy & Hq). exists (y :: ys).
    cbn [mapM]. rewrite Hy, IH. split; [reflexivity | now constructor].
Qed.

(** What a successful [combine_alignments] went through. *)
Lemma combine_Ok (c : Constants) (libm : Libm) (q r : Alignment) (res : ResultAlignment) :
  _positions q = None -> _positions r = None ->
  combine_alignments c libm q r = Ok res ->
  exists qp rp,
    List.length qp = Z.to_nat (_col_count q) /\
    List.length rp = Z.to_nat (_col_count r) /\
    global_align_body c libm (set_terminal_gaps c qp) (set_terminal_gaps c rp)
      (_alphabet r) = Ok (path res) /\
    _names (_query res) = _names q /\ _sequences (_query res) = _sequences q /\
    _names (_reference res) = _names r /\ _sequences (_reference res) = _sequences r.
Proof.
  intros Hq Hr H. unfold combine_alignments in H.
  destruct (negb _); [discriminate |].
  apply bind_Ok in H. destruct H as ([qp q1] & Hqp & H).
  apply bind_Ok in H. destruct H as ([rp r1] & Hrp & H).
  unfold global_align in H.
  apply bind_Ok in H. destruct H as (p & Hp & H). injection H as <-.
  destruct (@positions_built c libm q qp q1 Hq Hqp) as (q' & -> & [Kq _] & Lq & _).
  destruct (@positions_built c libm r rp r1 Hr Hrp) as (r' & -> & [Kr _] & Lr & _).
  destruct Kq as (_ & _ & Kqn & Kqs & _). destruct Kr as (_ & Kra & Krn & Krs & _).
  exists qp, rp. cbn [path _query _reference set_positions _names _sequences _alphabet] in *.
  rewrite Kra in Hp. repeat split; assumption.
Qed.

Lemma string_nonempty (s : string) : 0 < strlen s -> negb (String.eqb s "") = true.
Proof. destruct s; [unfold strlen; cbn; lia | reflexivity]. Qed.

Lemma firstn_whole {A} (l : list A) : firstn (Z.to_nat (len l)) l = l.
Proof. unfold len. rewrite Nat2Z.id. apply firstn_all. Qed.

(** The path of a merge of two constructed alignments spends exactly the
    columns of each. *)
Lemma merge_core (c : Constants) (libm : Libm)
    (qi ri : list (string * string)) (q r : Alignment) (res : ResultAlignment) :
  Alignment_init qi None None None = Ok q ->
  Alignment_init ri None None None = Ok r ->
  combine_alignments c libm q r = Ok res ->
  query_steps (path res) = _col_count q /\
  reference_steps (path res) = _col_count r /\
  0 < len (path res) /\
  _names (_query res) = _names q /\ _sequences (_query res) = _sequences q /\
  _names (_reference res) = _names r /\ _sequences (_reference res) = _sequences r.
Proof.
  intros Hq Hr H.
  destruct (@constructed_facts _ _ _ _ _ Hq) as (_ & _ & Hqc & _ & _ & _ & _ & _ & Hqp).
  destruct (@constructed_facts _ _ _ _ _ Hr) as (_ & _ & Hrc & _ & _ & _ & _ & _ & Hrp).
  destruct (@combine_Ok c libm q r res Hqp Hrp H)
    as (qp & rp & Lq & Lr & Hp & Kqn & Kqs & Krn & Krs).
  pose proof (@global_align_body_steps c libm _ _ _ _ Hp) as [Sq Sr].
  unfold len in Sq, Sr. rewrite set_terminal_gaps_length in Sq, Sr.
  rewrite Lq in Sq. rewrite Lr in Sr.
  assert (Hne : qp <> []).
  { intros E.
    pose proof (@empty_profile_raises c libm qp rp (_alphabet r) (or_introl E)) as E1.
    unfold global_align in E1. cbn [snd] in E1. rewrite E1 in Hp. discriminate. }
  assert (Hpos : 0 < len (path res)).
  { destruct qp as [| x qp]; [congruence |].
    cbn [List.length] in Lq.
    destruct (path res) as [| e p]; [cbn in Sq; lia | unfold len; cbn [List.length]; lia]. }
  repeat split; try assumption; lia.
Qed.

Lemma query_row (edges : Path) (seq : Sequence) :
  0 < len edges -> query_steps edges = len seq ->
  exists s, build_query_result seq edges = Ok s /\
            negb (String.eqb s "") = true /\ aligned_to INSERTION edges seq s.
Proof.
  intros Hpos Hs. destruct (build_query_result_cases edges seq) as [_ B].
  destruct B as (s & Hb & Ha); [lia |]. exists s.
  rewrite Hs, firstn_whole in Ha.
  split; [exact Hb |]. split; [| exact Ha].
  apply string_nonempty. destruct Ha as [-> _]. exact Hpos.
Qed.

Lemma reference_row (edges : Path) (seq : Sequence) :
  0 < len edges -> reference_steps edges = len seq ->
  exists s, build_reference_result seq edges = Ok s /\
            negb (String.eqb s "") = true /\ aligned_to DELETION edges seq s.
Proof.
  intros Hpos Hs. destruct (build_reference_result_cases edges seq) as [_ B].
  destruct B as (s & Hb & Ha); [lia |]. exists s.
  rewrite Hs, firstn_whole in Ha.
  split; [exact Hb |]. split; [| exact Ha].
  apply string_nonempty. destruct Ha as [-> _]. exact Hpos.
Qed.

Lemma merged_sequences_facts (c : Constants) (libm : Libm)
    (qi ri : list (string * string)) (q r : Alignment) (res : ResultAlignment) :
  Alignment_init qi None None None = Ok q ->
  Alignment_init ri None None None = Ok r ->
  combine_alignments c libm q r = Ok res ->
  ResultAlignment_names res = map fst qi ++ map fst ri /\
  0 < len (path res) /\
  exists qs rs,
    ResultAlignment_sequences res = Ok (qs ++ rs) /\
    Forall2 (aligned_to INSERTION (path res)) (_sequences q) qs /\
    Forall2 (aligned_to DELETION (path res)) (_sequences r) rs.
Proof.
  intros Hq Hr H.
  destruct (@constructed_facts _ _ _ _ _ Hq) as (Hqn & _ & _ & Hql & _).
  destruct (@constructed_facts _ _ _ _ _ Hr) as (Hrn & _ & _ & Hrl & _).
  destruct (@merge_core c libm qi ri q r res Hq Hr H)
    as (Sq & Sr & Hpos & Kqn & Kqs & Krn & Krs).
  split; [unfold ResultAlignment_names; rewrite Kqn, Krn, Hqn, Hrn; reflexivity |].
  split; [exact Hpos |].
  unfold ResultAlignment_sequences. rewrite Kqs, Krs.
  destruct (@mapM_Forall2_Ok _ _
              (fun seq => r0 <- in_generator (build_query_result seq (path res)) ;;
                          _ <- assert (negb (String.eqb r0 "")) ;; Ok r0)
              (fun s => len s = _col_count q)
              (aligned_to INSERTION (path res)) (_sequences q) Hql)
    as (qs & Hqs & Fq).
  { intros seq Hs. destruct (@query_row (path res) seq Hpos) as (s & Hb & Hn & Ha);
      [congruence |].
    exists s. rewrite Hb. cbn [in_generator bind]. rewrite Hn.
    split; [reflexivity | exact Ha]. }
  destruct (@mapM_Forall2_Ok _ _
              (fun seq => r0 <- in_generator (build_reference_result seq (path res)) ;;
                          _ <- assert (negb (String.eqb r0 "")) ;; Ok r0)
              (fun s => len s = _col_count r)
              (aligned_to DELETION (path res)) (_sequences r) Hrl)
    as (rs & Hrs & Fr).
  { intros seq Hs. destruct (@reference_row (path res) seq Hpos) as (s & Hb & Hn & Ha);
      [congruence |].
    exists s. rewrite Hb. cbn [in_generator bind]. rewrite Hn.
    split; [reflexivity | exact Ha]. }
  exists qs, rs. rewrite Hqs. cbn [bind]. rewrite Hrs. cbn [bind].
  repeat split; assumption.
Qed.

(** A merge keeps the columns of both inputs.  When [combine_alignments]
    returns for two alignments built by the constructor, the sequences of
    the result can always be produced; they come query first, then
    reference, under the original names; all have the length of the
    path; and deleting from a query row the columns of the I edges (from
    a reference row those of the D edges), which hold hyphens, leaves the
    original sequence as it prints. *)
Theorem merge_keeps_columns (c : Constants) (libm : Libm)
    (qi ri : list (string * string)) (q r : Alignment) (res : ResultAlignment) :
  Alignment_init qi None None None = Ok q ->
  Alignment_init ri None None None = Ok r ->
  combine_alignments c libm q r = Ok res ->
  ResultAlignment_names res = map fst qi ++ map fst ri /\
  0 < len (path res) /\
  exists qs rs,
    ResultAlignment_sequences res = Ok (qs ++ rs) /\
    Forall2 (aligned_to INSERTION (path res)) (_sequences q) qs /\
    Forall2 (aligned_to DELETION (path res)) (_sequences r) rs.
Proof. apply merged_sequences_facts. Qed.

Lemma merge_keeps_columns_witness :
  exists q r res qs rs,
    Alignment_init SMALL_QUERY None None None = Ok q /\
    Alignment_init SMALL_DB None None None = Ok r /\
    combine_alignments sample_constants sample_libm q r = Ok res /\
    ResultAlignment_names res = ["query"; "A"; "B"] /\
    ResultAlignment_sequences res = Ok (qs ++ rs) /\
    Forall2 (aligned_to INSERTION (path res)) (_sequences q) qs.
Proof.
  assert (H : exists q r res,
            Alignment_init SMALL_QUERY None None None = Ok q /\
            Alignment_init SMALL_DB None None None = Ok r /\
            combine_alignments sample_constants sample_libm q r = Ok res).
  { eexists. eexists. eexists.
    split; [vm_compute; reflexivity |]. split; [vm_compute; reflexivity |].
    vm_compute. reflexivity. }
  destruct H as (q & r & res & Hq & Hr & Hres).
  destruct (@merge_keeps_columns _ _ _ _ _ _ _ Hq Hr Hres)
    as (Hn & _ & qs & rs & Hs & Fq & _).
  exists q, r, res, qs, rs. repeat split; assumption.
Defined.

(* ------------------------------------------------------------------ *)
(** ** Dictionaries and the names of a merged alignment *)

Lemma dict_set_keys {V} (d : list (string * V)) (k : string) (v : V) :
  map fst (dict_set d k v)
  = if existsb (String.eqb k) (map fst d) then map fst d else map fst d ++ [k].
Proof.
  induction d as [| [k' v'] d IH]; [reflexivity |].
  cbn [dict_set map fst existsb]. rewrite (String.eqb_sym k k').
  destruct (String.eqb k' k) eqn:E; [reflexivity |].
  cbn [map fst orb]. rewrite IH. destruct (existsb _ _); reflexivity.
Qed.

Lemma dict_fold_keys {V} (items acc : list (string * V)) :
  NoDup (map fst acc) ->
  let d := fold_left (fun d '(k, v) => dict_set d k v) items acc in
  NoDup (map fst d) /\ incl (map fst d) (map fst acc ++ map fst items).
Proof.
  revert acc. induction items as [| [k v] items IH]; intros acc Hnd; cbn zeta.
  - split; [exact Hnd |]. rewrite app_nil_r. apply incl_refl.
  - cbn [fold_left].
    assert (Hnd' : NoDup (map fst (dict_set acc k v))).
    { rewrite dict_set_keys. destruct (existsb _ _) eqn:E; [exact Hnd |].
      apply NoDup_app; [exact Hnd | repeat constructor; intros [] | ].
      intros x Hx [Ex | []]. subst x.
      assert (Et : existsb (String.eqb k) (map fst acc) = true)
        by (apply existsb_exists; exists k; split; [exact Hx | apply String.eqb_refl]).
      congruence. }
    destruct (IH _ Hnd') as [N I]. split; [exact N |].
    intros x Hx. apply I in Hx. apply in_app_or in Hx. apply in_or_app.
    destruct Hx as [Hx | Hx].
    + rewrite dict_set_keys in Hx. destruct (existsb _ _); [now left |].
      apply in_app_or in Hx. destruct Hx as [Hx | [<- | []]]; [now left |].
      right. now left.
    + right. now right.
Qed.

Lemma dict_of_items_length {V} (items : list (string * V)) :
  List.length (dict_of_items items) = List.length items <-> NoDup (map fst items).
Proof.
  split.
  - intros L. unfold dict_of_items in L.
    destruct (@dict_fold_keys V items [] (NoDup_nil _)) as [N I]. cbn zeta in N, I.
    cbn [map app] in I.
    eapply NoDup_incl_NoDup; [exact N | | exact I].
    rewrite !length_map. lia.
  - intros H. rewrite dict_of_items_NoDup by exact H. reflexivity.
Qed.

(** The dictionary of a merged alignment exists only when the names of
    the query and of the reference are all different: then it maps the
    names, query first, to the aligned sequences; if a name occurs twice,
    [to_dict] raises [ValueError]. *)
Theorem result_to_dict_names (res : ResultAlignment) (ss : list string) :
  ResultAlignment_sequences res = Ok ss ->
  List.length ss = List.length (ResultAlignment_names res) ->
  (NoDup (ResultAlignment_names res) ->
   ResultAlignment_to_dict res = Ok (combine (ResultAlignment_names res) ss)) /\
  (~ NoDup (ResultAlignment_names res) ->
   ResultAlignment_to_dict res = Raise ValueError).
Proof.
  intros Hs Hl. unfold ResultAlignment_to_dict. rewrite Hs. cbn [bind].
  set (names := ResultAlignment_names res) in *.
  assert (Hk : map fst (combine names ss) = names)
    by (apply names_of_combine; symmetry; exact Hl).
  assert (Hc : List.length (combine names ss) = List.length names)
    by (rewrite length_combine; lia).
  pose proof (dict_of_items_length (combine names ss)) as D. rewrite Hk, Hc in D.
  split; intros Hnd.
  - rewrite dict_of_items_NoDup by (rewrite Hk; exact Hnd).
    unfold len. rewrite Hc, Z.eqb_refl. reflexivity.
  - destruct (len (dict_of_items (combine names ss)) =? len names) eqn:E; [| reflexivity].
    exfalso. apply Hnd, D. apply Z.eqb_eq in E. unfold len in E. lia.
Qed.

Lemma result_to_dict_names_witness :
  exists q res,
    Alignment_init [("A", "GTIV")] None None None = Ok q /\
    combine_alignments sample_constants sample_libm q (built_alignment SMALL_DB) = Ok res /\
    ResultAlignment_to_dict res = Raise ValueError.
Proof.
  assert (H : exists q res ss,
            Alignment_init [("A", "GTIV")] None None None = Ok q /\
            combine_alignments sample_constants sample_libm q (built_alignment SMALL_DB)
            = Ok res /\
            ResultAlignment_sequences res = Ok ss /\
            ResultAlignment_names res = ["A"; "A"; "B"] /\
            List.length ss = 3%nat).
  { eexists. eexists. eexists.
    split; [vm_compute; reflexivity |]. split; [vm_compute; reflexivity |].
    split; [vm_compute; reflexivity |]. split; reflexivity. }
  destruct H as (q & res & ss & Hq & Hres & Hs & Hn & Hl).
  exists q, res. split; [exact Hq |]. split; [exact Hres |].
  destruct (@result_to_dict_names res ss Hs) as [_ H2]; [rewrite Hn; exact Hl |].
  apply H2. rewrite Hn. intros N. inversion N as [| x l Hx _]; subst.
  apply Hx. now left.
Defined.

(* ------------------------------------------------------------------ *)
(** ** One aligned pair against the whole insertion *)

Lemma query_alignment (qs : string) :
  Alignment_init [("query", qs)] None None None
  = (s <- Sequence_from_string qs AMINO ;;
     Ok {| _col_count := strlen qs; _alphabet := AMINO; _names := ["query"];
           _sequences := [s]; _tree := None; _weights := None; _positions := None |}).
Proof.
  unfold Alignment_init.
  cbv beta iota zeta delta [forallb nonempty andb negb mapM map fst].
  rewrite Z.eqb_refl. cbv beta iota delta [andb negb].
  destruct (Sequence_from_string qs AMINO); reflexivity.
Qed.

Lemma dict_get_rows {A B} (Q : A -> B -> Prop) (l : list A) (ys : list B) :
  Forall2 Q l ys ->
  forall (names : list string) (name : string),
    match dict_get String.eqb (combine names l) name,
          dict_get String.eqb (combine names ys) name with
    | Some a, Some b => Q a b
    | None, None => True
    | _, _ => False
    end.
Proof.
  induction 1 as [| a b l ys Hab _ IH]; intros names name.
  - destruct names; exact I.
  - destruct names as [| n names]; [exact I |].
    cbn [combine dict_get]. destruct (String.eqb n name); [exact Hab | apply IH].
Qed.

Lemma dict_get_absent {V} (names : list string) (xs : list V) (name : string) :
  ~ In name names -> dict_get String.eqb (combine names xs) name = None.
Proof.
  revert xs. induction names as [| n names IH]; intros xs Hn; [reflexivity |].
  destruct xs as [| x xs]; [reflexivity |]. cbn [combine dict_get].
  destruct (String.eqb n name) eqn:E.
  - apply String.eqb_eq in E. exfalso. apply Hn. now left.
  - apply IH. intros H. apply Hn. now right.
Qed.

Lemma pair_and_insert (c : Constants) (libm : Libm) (ri : list (string * string))
    (r : Alignment) (qs name x y : string) :
  Alignment_init ri None None None = Ok r ->
  NoDup (map fst ri) ->
  get_aligned_pair c libm qs name r = Ok (x, y) <->
  exists refs,
    insert_into_alignment c libm qs r = Ok (x, refs) /\
    dict_get String.eqb refs name = Some y.
Proof.
  intros Hr Hnd.
  destruct (@constructed_facts _ _ _ _ _ Hr) as (Hrn & Hrl0 & _ & Hrl & _ & Hra & _).
  unfold get_aligned_pair, insert_into_alignment, get_sequence_by_name.
  rewrite Hra.
  pose proof (query_alignment qs) as Hq.
  destruct (Sequence_from_string qs AMINO) as [first | e |] eqn:Hf; cbn [bind] in Hq.
  2,3: rewrite Hq; cbn [bind]; split;
       [ intros H; destruct (dict_get _ _ _); discriminate
       | intros (refs & H & _); discriminate ].
  rewrite Hq. cbn [bind].
  match type of Hq with _ = Ok ?a => set (q := a) in * end.
  destruct (combine_alignments c libm q r) as [res | e |] eqn:Hc; cbn [bind].
  2,3: split;
       [ intros H; destruct (dict_get _ _ _); discriminate
       | intros (refs & H & _); discriminate ].
  destruct (@merge_core c libm _ ri q r res Hq Hr Hc)
    as (Sq & Sr & Hpos & _ & _ & Krn & Krs).
  cbv zeta.
  destruct (@from_string_ingested _ _ Hf) as [_ Lf].
  destruct (@query_row (path res) first Hpos) as (xq & Hxq & _);
    [rewrite Sq, Lf; reflexivity |].
  destruct (@mapM_Forall2_Ok _ _
              (fun seq => r0 <- build_reference_result seq (path res) ;;
                          _ <- assert (negb (String.eqb r0 "")) ;; Ok r0)
              (fun s => len s = _col_count r)
              (fun seq s => build_reference_result seq (path res) = Ok s)
              (_sequences r) Hrl)
    as (rs & Hrs & Fr).
  { intros seq Hs. destruct (@reference_row (path res) seq Hpos) as (s & Hb & Hn & _);
      [congruence |].
    exists s. rewrite Hb. cbn [bind]. rewrite Hn. split; reflexivity. }
  unfold get_aligned_references. rewrite Krs, Krn, Hrs. cbn [bind].
  assert (Ll : List.length (_names r) = List.length rs).
  { rewrite <- (Forall2_length Fr), Hrn, length_map. unfold len in Hrl0. lia. }
  rewrite dict_of_items_NoDup
    by (rewrite names_of_combine by exact Ll; rewrite Hrn; exact Hnd).
  change (getitem (_sequences q) 0) with (Ok (A := Sequence) first).
  cbn [bind]. rewrite Hxq. cbn [bind].
  pose proof (@dict_get_rows _ _ _ _ _ Fr (_names r) name) as Hrow.
  destruct (dict_get String.eqb (combine (_names r) (_sequences r)) name)
    as [seq |] eqn:Es;
  destruct (dict_get String.eqb (combine (_names r) rs) name) as [s |] eqn:Ey;
    try contradiction; cbn [bind].
  - rewrite Hrow. cbn [bind]. split.
    + intros H. injection H as <- <-. exists (combine (_names r) rs).
      split; [reflexivity | exact Ey].
    + intros (refs & H & Hg). injection H as <- <-. rewrite Ey in Hg.
      injection Hg as <-. reflexivity.
  - split; [discriminate |].
    intros (refs & H & Hg). injection H as <- <-. rewrite Ey in Hg. discriminate.
Qed.

(** For a constructed reference alignment with distinct names,
    [get_aligned_pair] succeeds exactly when [insert_into_alignment]
    succeeds and its dictionary has the name, and then gives the same
    aligned query and that dictionary's aligned sequence of the name. *)
Theorem aligned_pair_is_insert_row (c : Constants) (libm : Libm)
    (ri : list (string * string)) (r : Alignment) (qs name x y : string) :
  Alignment_init ri None None None = Ok r ->
  NoDup (map fst ri) ->
  get_aligned_pair c libm qs name r = Ok (x, y) <->
  exists refs,
    insert_into_alignment c libm qs r = Ok (x, refs) /\
    dict_get String.eqb refs name = Some y.
Proof. apply pair_and_insert. Qed.

Lemma aligned_pair_is_insert_row_witness :
  exists r x y refs,
    Alignment_init SMALL_DB None None None = Ok r /\
    get_aligned_pair sample_constants sample_libm "GTIV" "B" r = Ok (x, y) /\
    insert_into_alignment sample_constants sample_libm "GTIV" r = Ok (x, refs) /\
    dict_get String.eqb refs "B" = Some y.
Proof.
  assert (H : exists r x y,
            Alignment_init SMALL_DB None None None = Ok r /\
            get_aligned_pair sample_constants sample_libm "GTIV" "B" r = Ok (x, y)).
  { eexists. eexists. eexists.
    split; [vm_compute; reflexivity |]. vm_compute. reflexivity. }
  destruct H as (r & x & y & Hr & Hp).
  assert (Hnd : NoDup (map fst SMALL_DB)).
  { cbn. repeat constructor; cbn; intuition discriminate. }
  destruct (proj1 (@aligned_pair_is_insert_row _ _ _ _ "GTIV" "B" x y Hr Hnd) Hp)
    as (refs & Hi & Hg).
  exists r, x, y, refs. repeat split; assumption.
Defined.

(** A reference name the alignment does not have makes
    [get_aligned_pair] raise [ValueError], whatever the query is, before
    anything is aligned. *)
Theorem aligned_pair_unknown_name (c : Constants) (libm : Libm)
    (qs name : string) (a : Alignment) :
  ~ In name (_names a) ->
  get_aligned_pair c libm qs name a = Raise ValueError.
Proof.
  intros Hn. unfold get_aligned_pair, get_sequence_by_name.
  rewrite dict_get_absent by exact Hn. reflexivity.
Qed.

Lemma aligned_pair_unknown_name_witness :
  get_aligned_pair sample_constants sample_libm "GTIV" "C" (built_alignment SMALL_DB)
  = Raise ValueError.
Proof.
  apply aligned_pair_unknown_name. vm_compute. intuition discriminate.
Defined.

Lemma map_snd_combine {A B} (xs : list A) (ys : list B) :
  List.length xs = List.length ys -> map snd (combine xs ys) = ys.
Proof.
  revert ys. induction xs as [| x xs IH]; intros [| y ys] H; try discriminate.
  - reflexivity.
  - cbn. f_equal. apply IH. now injection H.
Qed.

(** What [insert_into_alignment] returns for a constructed reference
    alignment with distinct names: the dictionary has the names of the
    reference in their order, and one path lays out every row: the aligned
    query is the query with hyphens at the path's insertions, each aligned
    reference is its sequence with hyphens at the path's deletions, so all
    rows have the length of the path. *)
Theorem insert_keeps_columns (c : Constants) (libm : Libm)
    (ri : list (string * string)) (r : Alignment) (qs x : string)
    (refs : list (string * string)) :
  Alignment_init ri None None None = Ok r ->
  NoDup (map fst ri) ->
  insert_into_alignment c libm qs r = Ok (x, refs) ->
  map fst refs = map fst ri /\
  exists (edges : Path) (first : Sequence),
    Sequence_from_string qs AMINO = Ok first /\
    aligned_to INSERTION edges first x /\
    Forall2 (aligned_to DELETION edges) (_sequences r) (map snd refs).
Proof.
  intros Hr Hnd.
  destruct (@constructed_facts _ _ _ _ _ Hr) as (Hrn & Hrl0 & _ & Hrl & _).
  unfold insert_into_alignment.
  pose proof (query_alignment qs) as Hq.
  destruct (Sequence_from_string qs AMINO) as [first | e |] eqn:Hf; cbn [bind] in Hq.
  2,3: rewrite Hq; cbn [bind]; discriminate.
  rewrite Hq. cbn [bind].
  match type of Hq with _ = Ok ?a => set (q := a) in * end.
  destruct (combine_alignments c libm q r) as [res | e |] eqn:Hc; cbn [bind];
    try discriminate.
  destruct (@merge_core c libm _ ri q r res Hq Hr Hc)
    as (Sq & Sr & Hpos & _ & _ & Krn & Krs).
  destruct (@from_string_ingested _ _ Hf) as [_ Lf].
  destruct (@query_row (path res) first Hpos) as (xq & Hxq & _ & Hax);
    [rewrite Sq, Lf; reflexivity |].
  destruct (@mapM_Forall2_Ok _ _
              (fun seq => r0 <- build_reference_result seq (path res) ;;
                          _ <- assert (negb (String.eqb r0 "")) ;; Ok r0)
              (fun s => len s = _col_count r)
              (aligned_to DELETION (path res))
              (_sequences r) Hrl)
    as (rs & Hrs & Fr).
  { intros seq Hs. destruct (@reference_row (path res) seq Hpos) as (s & Hb & Hn & Ha);
      [congruence |].
    exists s. rewrite Hb. cbn [bind]. rewrite Hn. split; [reflexivity | exact Ha]. }
  unfold get_aligned_references. rewrite Krs, Krn, Hrs. cbn [bind].
  assert (Ll : List.length (_names r) = List.length rs).
  { rewrite <- (Forall2_length Fr), Hrn, length_map. unfold len in Hrl0. lia. }
  rewrite dict_of_items_NoDup
    by (rewrite names_of_combine by exact Ll; rewrite Hrn; exact Hnd).
  change (getitem (_sequences q) 0) with (Ok (A := Sequence) first).
  cbn [bind]. rewrite Hxq. cbn [bind].
  intros H. injection H as <- <-.
  split; [rewrite names_of_combine by exact Ll; exact Hrn |].
  exists (path res), first. split; [reflexivity |]. split; [exact Hax |].
  rewrite map_snd_combine by exact Ll. exact Fr.
Qed.

Lemma insert_keeps_columns_witness :
  exists r x refs,
    Alignment_init SMALL_DB None None None = Ok r /\
    insert_into_alignment sample_constants sample_libm "GTIV" r = Ok (x, refs) /\
    map fst refs = ["A"; "B"].
Proof.
  assert (H : exists r x refs,
            Alignment_init SMALL_DB None None None = Ok r /\
            insert_into_alignment sample_constants sample_libm "GTIV" r = Ok (x, refs)).
  { eexists. eexists. eexists.
    split; [vm_compute; reflexivity |]. vm_compute. reflexivity. }
  destruct H as (r & x & refs & Hr & Hi).
  assert (Hnd : NoDup (map fst SMALL_DB)).
  { cbn. repeat constructor; cbn; intuition discriminate. }
  destruct (@insert_keeps_columns _ _ _ _ _ _ _ Hr Hnd Hi) as [Hn _].
  exists r, x, refs. repeat split; assumption.
Defined.

(* ------------------------------------------------------------------ *)
(** ** MUSCLE-style arguments *)

Lemma list_in_In (x : string) (l : list string) : list_in x l = true <-> In x l.
Proof.
  unfold list_in. rewrite existsb_exists. split.
  - intros (y & Hy & E). apply String.eqb_eq in E. now subst.
  - intros H. exists x. split; [exact H | apply String.eqb_refl].
Qed.

Lemma list_index_nonneg (l : list string) (x : string) (i : Z) :
  list_index l x = Ok i -> 0 <= i.
Proof.
  revert i. induction l as [| y l IH]; intros i; [discriminate |].
  cbn [list_index]. destruct (String.eqb y x).
  - intros H. injection H as <-. lia.
  - destruct (list_index l x) as [j | |]; try discriminate.
    cbn [bind]. intros H. injection H as <-. specialize (IH j eq_refl). lia.
Qed.

Lemma pop_index (l : list string) (x : string) :
  (list_in x l = true ->
   exists i, list_index l x = Ok i /\ list_pop l i = Ok (without_first x l)) /\
  (list_in x l = false -> list_index l x = Raise ValueError).
Proof.
  induction l as [| y l IH]; [split; [discriminate | reflexivity] |].
  unfold list_in in *. cbn [existsb list_index without_first].
  rewrite (String.eqb_sym x y).
  destruct (String.eqb y x) eqn:E; cbn [orb].
  - split; [| discriminate]. intros _. exists 0. split; reflexivity.
  - destruct IH as [IH1 IH2]. split.
    + intros H. destruct (IH1 H) as (i & Hi & Hp). exists (i + 1).
      pose proof (list_index_nonneg _ _ Hi) as Hi0.
      rewrite Hi. split; [reflexivity |].
      unfold list_pop, resolve_index in *. cbv zeta in *.
      unfold len in *. cbn [List.length].
      destruct (i <? 0) eqn:E0.
      * apply Z.ltb_lt in E0. lia.
      * destruct ((i <? 0) || (Z.of_nat (List.length l) <=? i)) eqn:E1; [discriminate |].
        apply orb_false_iff in E1. destruct E1 as [E1 E2].
        apply Z.ltb_ge in E1. apply Z.leb_gt in E2.
        replace (i + 1 <? 0) with false by (symmetry; apply Z.ltb_ge; lia).
        replace ((i + 1 <? 0) || (Z.of_nat (S (List.length l)) <=? i + 1)) with false
          by (symmetry; apply orb_false_iff; split;
              [apply Z.ltb_ge | apply Z.leb_gt]; lia).
        cbn [bind] in *. injection Hp as Hp.
        replace (Z.to_nat (i + 1)) with (S (Z.to_nat i)) by lia.
        cbn [remove_nth]. now rewrite Hp.
    + intros H. now rewrite (IH2 H).
Qed.

Lemma set_index (l : list string) (x z : string) :
  list_in x l = true ->
  exists i, list_index l x = Ok i /\ setitem l i z = Ok (rename_first x z l).
Proof.
  induction l as [| y l IH]; [discriminate |].
  unfold list_in in *. cbn [existsb list_index rename_first].
  rewrite (String.eqb_sym x y).
  destruct (String.eqb y x) eqn:E; cbn [orb].
  - intros _. exists 0. split; reflexivity.
  - intros H. destruct (IH H) as (i & Hi & Hp). exists (i + 1).
    pose proof (list_index_nonneg _ _ Hi) as Hi0.
    rewrite Hi. split; [reflexivity |].
    unfold setitem, resolve_index in *. cbv zeta in *.
    unfold len in *. cbn [List.length].
    destruct (i <? 0) eqn:E0.
    + apply Z.ltb_lt in E0. lia.
    + destruct ((i <? 0) || (Z.of_nat (List.length l) <=? i)) eqn:E1; [discriminate |].
      apply orb_false_iff in E1. destruct E1 as [E1 E2].
      apply Z.ltb_ge in E1. apply Z.leb_gt in E2.
      replace (i + 1 <? 0) with false by (symmetry; apply Z.ltb_ge; lia).
      replace ((i + 1 <? 0) || (Z.of_nat (S (List.length l)) <=? i + 1)) with false
        by (symmetry; apply orb_false_iff; split;
            [apply Z.ltb_ge | apply Z.leb_gt]; lia).
      cbn [bind] in *. injection Hp as Hp.
      replace (Z.to_nat (i + 1)) with (S (Z.to_nat i)) by lia.
      cbn [replace_nth]. now rewrite Hp.
Qed.

Lemma without_first_in (x y : string) (l : list string) :
  x <> y -> list_in y (without_first x l) = list_in y l.
Proof.
  intros Hxy. induction l as [| z l IH]; [reflexivity |].
  unfold list_in in *. cbn [without_first existsb].
  destruct (String.eqb z x) eqn:E.
  - apply String.eqb_eq in E. subst z.
    replace (String.eqb y x) with false; [reflexivity |].
    symmetry. apply String.eqb_neq. congruence.
  - cbn [existsb]. now rewrite IH.
Qed.

Lemma without_first_filter (f : string -> bool) (x : string) (l : list string) :
  f x = false -> filter f (without_first x l) = filter f l.
Proof.
  intros Hx. induction l as [| z l IH]; [reflexivity |].
  cbn [without_first filter]. destruct (String.eqb z x) eqn:E.
  - apply String.eqb_eq in E. subst z. now rewrite Hx.
  - cbn [filter]. now rewrite IH.
Qed.

Lemma rename_first_filter (f : string -> bool) (x z : string) (l : list string) :
  f x = false -> f z = false -> filter f (rename_first x z l) = filter f l.
Proof.
  intros Hx Hz. induction l as [| y l IH]; [reflexivity |].
  cbn [rename_first filter]. destruct (String.eqb y x) eqn:E.
  - apply String.eqb_eq in E. subst y. cbn [filter]. now rewrite Hx, Hz.
  - cbn [filter]. now rewrite IH.
Qed.

Lemma without_first_length (x : string) (l : list string) :
  list_in x l = true -> len (without_first x l) = len l - 1.
Proof.
  induction l as [| z l IH]; [discriminate |].
  unfold list_in, len in *. cbn [without_first existsb List.length].
  rewrite (String.eqb_sym x z). destruct (String.eqb z x); cbn [orb].
  - intros _. lia.
  - intros H. cbn [List.length]. specialize (IH H). lia.
Qed.

Lemma rename_first_length (x z : string) (l : list string) :
  len (rename_first x z l) = len l.
Proof.
  induction l as [| y l IH]; [reflexivity |].
  unfold len in *. cbn [rename_first]. destruct (String.eqb y x); cbn [List.length]; lia.
Qed.

(** What [_swap_muscle_args] does to a command line.  Without any of
    [-profile], [-in1], [-in2] it is returned as it is.  With one of them
    both [-profile] and [-in1] must be there, else the call raises
    [ValueError].  When both are there the call returns: the first
    [-quiet], [-profile] and [-in1] are taken out and the first [-in2]
    becomes [--reference-alignment], while all other arguments stay in
    their order. *)
Theorem swap_muscle_args_outcome (args : list string) :
  (list_in "-profile" args = false -> list_in "-in1" args = false ->
   list_in "-in2" args = false -> _swap_muscle_args args = Ok args) /\
  (list_in "-profile" args || list_in "-in1" args || list_in "-in2" args = true ->
   list_in "-profile" args && list_in "-in1" args = false ->
   _swap_muscle_args args = Raise ValueError) /\
  (list_in "-profile" args = true -> list_in "-in1" args = true ->
   _swap_muscle_args args
   = Ok ((if list_in "-in2" args then rename_first "-in2" "--reference-alignment"
          else fun l => l)
           (without_first "-in1" (without_first "-profile"
              (if list_in "-quiet" args then without_first "-quiet" args else args)))) /\
   exists out,
     _swap_muscle_args args = Ok out /\
     filter plain_argument out = filter plain_argument args /\
     len out = len args - 2 - (if list_in "-quiet" args then 1 else 0)).
Proof.
  assert (Hany : existsb (fun a => list_in a ["-profile"; "-in1"; "-in2"]) args
                 = list_in "-profile" args || list_in "-in1" args || list_in "-in2" args).
  { unfold list_in. induction args as [| a args IH]; [reflexivity |].
    set (f := fun a => existsb (String.eqb a) ["-profile"; "-in1"; "-in2"]) in *.
    cbn [existsb]. rewrite IH. unfold f. cbn [existsb].
    rewrite (String.eqb_sym a "-profile"), (String.eqb_sym a "-in1"),
      (String.eqb_sym a "-in2").
    destruct (String.eqb "-profile" a), (String.eqb "-in1" a), (String.eqb "-in2" a);
      cbn [orb];
      destruct (existsb (String.eqb "-profile") args),
        (existsb (String.eqb "-in1") args), (existsb (String.eqb "-in2") args);
      reflexivity. }
  assert (Hq : (if list_in "-quiet" args
                then i <- list_index args "-quiet" ;; list_pop args i
                else Ok args)
               = Ok (if list_in "-quiet" args then without_first "-quiet" args else args)).
  { destruct (list_in "-quiet" args) eqn:E; [| reflexivity].
    destruct (proj1 (pop_index args "-quiet") E) as (i & Hi & Hp).
    rewrite Hi. cbn [bind]. exact Hp. }
  set (a1 := if list_in "-quiet" args then without_first "-quiet" args else args) in *.
  assert (Hp1 : list_in "-profile" a1 = list_in "-profile" args).
  { unfold a1. destruct (list_in "-quiet" args); [| reflexivity].
    apply without_first_in. discriminate. }
  assert (Hi1 : list_in "-in1" a1 = list_in "-in1" args).
  { unfold a1. destruct (list_in "-quiet" args); [| reflexivity].
    apply without_first_in. discriminate. }
  assert (Hi2 : list_in "-in2" a1 = list_in "-in2" args).
  { unfold a1. destruct (list_in "-quiet" args); [| reflexivity].
    apply without_first_in. discriminate. }
  unfold _swap_muscle_args. rewrite Hany, Hq. cbn [bind].
  split; [intros -> -> ->; reflexivity |]. split.
  - intros -> Hboth. destruct (list_in "-profile" args) eqn:Ep.
    + cbn [andb] in Hboth.
      destruct (proj1 (pop_index a1 "-profile")) as (i & Hi & Hp); [congruence |].
      rewrite Hi. cbn [bind]. rewrite Hp. cbn [bind].
      rewrite (proj2 (pop_index (without_first "-profile" a1) "-in1"));
        [reflexivity |].
      rewrite without_first_in by discriminate. congruence.
    + rewrite (proj2 (pop_index a1 "-profile")) by congruence. reflexivity.
  - intros Ep Ei. rewrite Ep. cbn [orb].
    destruct (proj1 (pop_index a1 "-profile")) as (i & Hi & Hp); [congruence |].
    rewrite Hi. cbn [bind]. rewrite Hp. cbn [bind].
    set (a2 := without_first "-profile" a1) in *.
    assert (Hi1' : list_in "-in1" a2 = true)
      by (unfold a2; rewrite without_first_in by discriminate; congruence).
    destruct (proj1 (pop_index a2 "-in1") Hi1') as (j & Hj & Hq2).
    rewrite Hj. cbn [bind]. rewrite Hq2. cbn [bind].
    set (a3 := without_first "-in1" a2) in *.
    assert (Hi2' : list_in "-in2" a3 = list_in "-in2" args).
    { unfold a3, a2. rewrite !without_first_in by discriminate. exact Hi2. }
    rewrite Hi2'.
    assert (Hf : filter plain_argument a3 = filter plain_argument args).
    { unfold a3, a2. rewrite !without_first_filter by reflexivity.
      unfold a1. destruct (list_in "-quiet" args); [| reflexivity].
      now rewrite without_first_filter by reflexivity. }
    assert (Hl : len a3 = len args - 2 - (if list_in "-quiet" args then 1 else 0)).
    { unfold a3. rewrite without_first_length by exact Hi1'.
      unfold a2. rewrite without_first_length by congruence.
      unfold a1. destruct (list_in "-quiet" args) eqn:Eq.
      - rewrite without_first_length by exact Eq. lia.
      - lia. }
    destruct (list_in "-in2" args) eqn:E2.
    + destruct (@set_index a3 "-in2" "--reference-alignment") as (k & Hk & Hs);
        [congruence |].
      rewrite Hk. cbn [bind]. rewrite Hs. split; [reflexivity |].
      eexists. split; [reflexivity |]. split.
      * rewrite rename_first_filter by reflexivity. exact Hf.
      * rewrite rename_first_length. exact Hl.
    + split; [reflexivity |]. exists a3. repeat split; assumption.
Qed.

Lemma swap_muscle_args_outcome_witness :
  _swap_muscle_args ["brawn"; "-quiet"; "-profile"; "-in1"; "q.fa"; "-in2"; "db.fa"]
  = Ok ["brawn"; "q.fa"; "--reference-alignment"; "db.fa"] /\
  _swap_muscle_args ["brawn"; "-in2"; "db.fa"] = Raise ValueError.
Proof.
  split.
  - destruct (swap_muscle_args_outcome
                ["brawn"; "-quiet"; "-profile"; "-in1"; "q.fa"; "-in2"; "db.fa"])
      as (_ & _ & H).
    destruct (H eq_refl eq_refl) as [H1 _]. exact H1.
  - destruct (swap_muscle_args_outcome ["brawn"; "-in2"; "db.fa"]) as (_ & H & _).
    apply H; reflexivity.
Defined.

(* ------------------------------------------------------------------ *)
(** ** Reading FASTA *)

Lemma foldM_app {A S} (body : S -> A -> result S) (l1 l2 : list A) (s : S) :
  foldM body (l1 ++ l2) s = (s' <- foldM body l1 s ;; foldM body l2 s').
Proof.
  revert s. induction l1 as [| x l1 IH]; intros s; [reflexivity |].
  cbn [app foldM]. destruct (body s x); cbn [bind]; [apply IH | reflexivity ..].
Qed.

Lemma getitem_last {A} (l : list A) (x : A) : getitem (l ++ [x]) (-1) = Ok x.
Proof.
  unfold getitem, resolve_index, len. rewrite length_app. cbn [List.length].
  change (-1 <? 0) with true. cbv beta iota zeta.
  replace (-1 + Z.of_nat (List.length l + 1)) with (Z.of_nat (List.length l)) by lia.
  replace (Z.of_nat (List.length l) <? 0) with false by (symmetry; apply Z.ltb_ge; lia).
  replace (Z.of_nat (List.length l + 1) <=? Z.of_nat (List.length l)) with false
    by (symmetry; apply Z.leb_gt; lia).
  cbn [orb bind]. rewrite Nat2Z.id, nth_error_app2 by lia.
  rewrite Nat.sub_diag. reflexivity.
Qed.

Lemma replace_nth_last {A} (l : list A) (x y : A) :
  replace_nth (l ++ [x]) (List.length l) y = l ++ [y].
Proof. induction l as [| z l IH]; [reflexivity |]. cbn. now rewrite IH. Qed.

Lemma setitem_last {A} (l : list A) (x y : A) :
  setitem (l ++ [x]) (-1) y = Ok (l ++ [y]).
Proof.
  unfold setitem, resolve_index, len. rewrite length_app. cbn [List.length].
  change (-1 <? 0) with true. cbv beta iota zeta.
  replace (-1 + Z.of_nat (List.length l + 1)) with (Z.of_nat (List.length l)) by lia.
  replace (Z.of_nat (List.length l) <? 0) with false by (symmetry; apply Z.ltb_ge; lia).
  replace (Z.of_nat (List.length l + 1) <=? Z.of_nat (List.length l)) with false
    by (symmetry; apply Z.leb_gt; lia).
  cbn [orb bind]. rewrite Nat2Z.id, replace_nth_last. reflexivity.
Qed.

Lemma last_case {A} (l : list A) : l = [] \/ exists l' x, l = l' ++ [x].
Proof.
  destruct l as [| y l]; [now left |]. right.
  destruct (@exists_last _ (y :: l)) as (l' & x & E); [discriminate |].
  now exists l', x.
Qed.

Lemma is_nil_app {A} (l : list A) (x : A) : is_nil (l ++ [x]) = false.
Proof. destruct l; reflexivity. Qed.

Lemma is_nil_true {A} (l : list A) : is_nil l = true <-> l = [].
Proof. destruct l; split; intros H; try reflexivity; discriminate. Qed.

Lemma header_line (s : string) : prefix ">" s = true -> s = (">" ++ str_tail s)%string.
Proof.
  destruct s as [| c s]; [discriminate |]. cbn [prefix].
  destruct (ascii_dec ">" c) as [<- | ]; [reflexivity | discriminate].
Qed.

Lemma header_prefix (n : string) : prefix ">" (">" ++ n) = true.
Proof. cbn. destruct n; reflexivity. Qed.

(** The lines of a file skip the blank ones. *)
Lemma skip_blank (lines : list string) (st : list string * list (list string)) :
  foldM (fun st line => from_file_entry st (strip line)) lines st
  = foldM from_file_entry (filter nonblank (map strip lines)) st.
Proof.
  revert st. induction lines as [| l lines IH]; intros st; [reflexivity |].
  cbn [foldM map filter]. unfold nonblank at 1.
  destruct (String.eqb (strip l) "") eqn:E; cbn [negb].
  - apply String.eqb_eq in E. rewrite E. destruct st as [names seqs].
    cbn [from_file_entry prefix String.eqb negb bind]. apply IH.
  - cbn [foldM]. destruct (from_file_entry st (strip l)); cbn [bind];
      [apply IH | reflexivity ..].
Qed.

Lemma fasta_lines_snoc (records : list (string * list string)) (r : string * list string) :
  fasta_lines (records ++ [r]) = fasta_lines records ++ (">" ++ fst r)%string :: snd r.
Proof.
  unfold fasta_lines. rewrite map_app, concat_app. cbn [map List.concat].
  now rewrite app_nil_r.
Qed.

(** Reading pieces after a header. *)
Lemma read_pieces (ps : list string) :
  Forall (fun p => nonblank p = true /\ prefix ">" p = false) ps ->
  forall names seqs l,
    foldM from_file_entry ps (names, seqs ++ [l]) = Ok (names, seqs ++ [l ++ ps]).
Proof.
  induction 1 as [| p ps [Hb Hp] _ IH]; intros names seqs l.
  - now rewrite app_nil_r.
  - cbn [foldM from_file_entry]. rewrite Hp. unfold nonblank in Hb. rewrite Hb.
    rewrite is_nil_app, getitem_last. cbn [bind]. rewrite setitem_last. cbn [bind].
    rewrite IH, <- app_assoc. reflexivity.
Qed.

Lemma read_records (records : list (string * list string)) :
  Forall record_ok records ->
  Forall (fun r => Forall (fun p => nonblank p = true) (snd r)) records ->
  forall names seqs,
    Forall (fun s => s <> []) seqs ->
    foldM from_file_entry (fasta_lines records) (names, seqs)
    = Ok (names ++ map fst records, seqs ++ map snd records).
Proof.
  induction 1 as [| [n ps] records [Hne Hp] _ IH]; intros Hb names seqs Hs.
  - now rewrite !app_nil_r.
  - inversion Hb as [| ? ? Hb1 Hb2]; subst. cbn [fst snd] in *.
    change (fasta_lines ((n, ps) :: records))
      with (((">" ++ n)%string :: ps) ++ fasta_lines records).
    rewrite foldM_app. cbn [app foldM from_file_entry].
    rewrite header_prefix.
    assert (Hm : (if is_nil seqs then Ok false
                  else last <- getitem seqs (-1) ;; Ok (is_nil last)) = Ok false).
    { destruct (last_case seqs) as [-> | (l' & x & ->)]; [reflexivity |].
      rewrite is_nil_app, getitem_last. cbn [bind].
      apply Forall_app in Hs. destruct Hs as [_ Hs]. inversion Hs; subst.
      destruct x; [congruence | reflexivity]. }
    rewrite Hm. cbn [bind].
    replace (str_tail (">" ++ n)) with n by reflexivity.
    rewrite read_pieces.
    2:{ clear - Hp Hb1. induction Hp as [| p ps Hx _ IHp]; constructor.
        - inversion Hb1; subst. now split.
        - apply IHp. now inversion Hb1. }
    cbn [bind app]. rewrite IH; [| exact Hb2 |].
    + cbn [map fst snd]. now rewrite <- !app_assoc.
    + apply Forall_app. split; [exact Hs |]. repeat constructor. exact Hne.
Qed.

(** What the loop has read when it gets through its lines. *)
Lemma read_lines (lines : list string) :
  Forall (fun l => nonblank l = true) lines ->
  forall names seqs,
    foldM from_file_entry lines ([], []) = Ok (names, seqs) ->
    exists records,
      lines = fasta_lines records /\
      names = map fst records /\ seqs = map snd records /\
      Forall (fun r => snd r <> []) (removelast records) /\
      Forall (fun r => Forall (fun p => prefix ">" p = false) (snd r)) records.
Proof.
  induction lines as [| x lines IH] using rev_ind; intros Hb names seqs H.
  - injection H as <- <-. exists []. repeat split; constructor.
  - apply Forall_app in Hb. destruct Hb as [Hb Hx]. inversion Hx as [| ? ? Hx1 _]; subst.
    rewrite foldM_app in H. apply bind_Ok in H. destruct H as ([n0 s0] & H0 & H).
    destruct (IH Hb _ _ H0) as (recs & -> & -> & -> & Hne & Hp).
    cbn [foldM] in H. apply bind_Ok in H. destruct H as (st & H & Hst).
    injection Hst as ->. unfold from_file_entry in H.
    destruct (prefix ">" x) eqn:Epx.
    + apply bind_Ok in H. destruct H as (missing & Hm & H).
      destruct missing; [discriminate |]. injection H as <- <-.
      exists (recs ++ [(str_tail x, [])]).
      rewrite fasta_lines_snoc, !map_app. cbn [fst snd map].
      rewrite <- header_line by exact Epx. rewrite removelast_last.
      repeat split.
      * destruct (last_case recs) as [-> | (recs' & r & ->)]; [constructor |].
        rewrite removelast_last in Hne. apply Forall_app. split; [exact Hne |].
        repeat constructor. rewrite map_app in Hm. cbn [map] in Hm.
        rewrite is_nil_app, getitem_last in Hm. cbn [bind] in Hm.
        destruct (snd r); [discriminate | discriminate].
      * apply Forall_app. split; [exact Hp |]. repeat constructor.
    + unfold nonblank in Hx1. rewrite Hx1 in H.
      destruct (last_case recs) as [-> | (recs' & r & ->)]; [discriminate |].
      rewrite map_app in H. cbn [map] in H.
      rewrite is_nil_app, getitem_last in H. cbn [bind] in H.
      rewrite setitem_last in H. cbn [bind] in H. injection H as <- <-.
      exists (recs' ++ [(fst r, snd r ++ [x])]).
      rewrite !fasta_lines_snoc, !map_app. cbn [fst snd map].
      rewrite !removelast_last in *. apply Forall_app in Hp. destruct Hp as [Hp1 Hp2].
      inversion Hp2; subst.
      repeat split.
      * rewrite <- !app_assoc. reflexivity.
      * exact Hne.
      * apply Forall_app. split; [exact Hp1 |]. repeat constructor. cbn [snd].
        apply Forall_app. split; [assumption |]. repeat constructor. exact Epx.
Qed.

Lemma fasta_lines_nonblank (records : list (string * list string)) :
  Forall (fun l => nonblank l = true) (fasta_lines records) ->
  Forall (fun r => Forall (fun p => nonblank p = true) (snd r)) records.
Proof.
  induction records as [| [n ps] records IH]; intros H; [constructor |].
  change (fasta_lines ((n, ps) :: records))
    with (((">" ++ n)%string :: ps) ++ fasta_lines records) in H.
  apply Forall_app in H. destruct H as [H1 H2]. inversion H1; subst.
  constructor; [assumption | now apply IH].
Qed.

Lemma filter_nonblank (lines : list string) :
  Forall (fun l => nonblank l = true) (filter nonblank lines).
Proof. apply Forall_forall. intros l Hl. now apply filter_In in Hl. Qed.

Lemma check_pieces (names : list string) (seqs : list (list string)) :
  List.length names = List.length seqs ->
  foldM (fun (_ : unit) '(name, seq) =>
           if is_nil (A := string) seq then Raise ValueError else Ok tt)
    (combine names seqs) tt = Ok tt <->
  Forall (fun s => s <> []) seqs.
Proof.
  revert seqs. induction names as [| n names IH]; intros [| s seqs] Hl; try discriminate.
  - split; [constructor | reflexivity].
  - injection Hl as Hl. cbn [combine foldM].
    destruct s as [| p s]; cbn [is_nil bind].
    + split; [discriminate |]. intros H. inversion H; subst. congruence.
    + rewrite (IH _ Hl). split.
      * intros H. constructor; [discriminate | exact H].
      * intros H. now inversion H.
Qed.

Lemma combine_map_records (records : list (string * list string)) :
  combine (map fst records) (map (String.concat "") (map snd records))
  = map (fun r => (fst r, String.concat "" (snd r))) records.
Proof. induction records as [| r records IH]; [reflexivity |]. cbn. now rewrite IH. Qed.

Lemma Forall_removelast {A} (P : A -> Prop) (l : list A) :
  Forall P l -> Forall P (removelast l).
Proof.
  intros H. destruct (last_case l) as [-> | (l' & x & ->)]; [constructor |].
  rewrite removelast_last. apply Forall_app in H. apply H.
Qed.

Lemma from_file_records (lines : list string) (a : Alignment) :
  Alignment_from_file lines = Ok a <->
  exists records,
    filter nonblank (map strip lines) = fasta_lines records /\
    Forall record_ok records /\
    Alignment_init
      (dict_of_items (map (fun r => (fst r, String.concat "" (snd r))) records))
      None None None = Ok a.
Proof.
  unfold Alignment_from_file. rewrite skip_blank. split.
  - intros H. apply bind_Ok in H. destruct H as ([names seqs] & H0 & H).
    destruct (@read_lines _ (filter_nonblank _) _ _ H0)
      as (recs & E & -> & -> & Hne & Hp).
    exists recs. split; [exact E |].
    destruct (negb _); [discriminate |].
    apply bind_Ok in H. destruct H as (u & Hc & H).
    rewrite combine_map_records in H. split; [| exact H].
    assert (Hall : Forall (fun s => s <> []) (map snd recs)).
    { apply (@check_pieces (map fst recs)); [now rewrite !length_map |].
      destruct u. exact Hc. }
    rewrite Forall_map in Hall.
    apply Forall_forall. intros r Hr. split.
    + rewrite Forall_forall in Hall. now apply Hall.
    + rewrite Forall_forall in Hp. now apply Hp.
  - intros (recs & E & Hok & Ha). rewrite E.
    assert (Hb : Forall (fun r => Forall (fun p => nonblank p = true) (snd r)) recs).
    { apply fasta_lines_nonblank. rewrite <- E. apply filter_nonblank. }
    rewrite (@read_records recs Hok Hb [] []) by constructor.
    cbn [bind app]. unfold len. rewrite !length_map, Z.eqb_refl. cbn [negb].
    rewrite (proj2 (@check_pieces (map fst recs) (map snd recs)
                      ltac:(now rewrite !length_map))).
    2:{ rewrite Forall_map. eapply Forall_impl; [| exact Hok]. intros r [H _]. exact H. }
    cbn [bind]. rewrite combine_map_records. exact Ha.
Qed.

Lemma init_outcome (items : list (string * string)) :
  (exists a, Alignment_init items None None None = Ok a) \/
  Alignment_init items None None None = Raise ValueError.
Proof.
  unfold Alignment_init. destruct items as [| [n first] items]; [now right |].
  cbv zeta. destruct (negb (forallb _ _)); [now right |].
  cbn [nonempty andb].
  destruct (amino_lines_read ((n, first) :: items)) as (seqs & ->).
  left. eexists. reflexivity.
Qed.

Lemma entry_outcome (st : list string * list (list string)) (line : string) :
  (exists st', from_file_entry st line = Ok st') \/
  from_file_entry st line = Raise ValueError.
Proof.
  destruct st as [names seqs]. unfold from_file_entry.
  destruct (last_case seqs) as [-> | (l & x & ->)].
  - cbn [is_nil bind]. destruct (prefix ">" line); [left; eexists; reflexivity |].
    destruct (negb _); [now right | left; eexists; reflexivity].
  - rewrite is_nil_app, getitem_last. cbn [bind]. rewrite setitem_last. cbn [bind].
    destruct (prefix ">" line).
    + destruct (is_nil x); [now right | left; eexists; reflexivity].
    + destruct (negb _); left; eexists; reflexivity.
Qed.

Lemma entries_outcome (lines : list string) (st : list string * list (list string)) :
  (exists st', foldM from_file_entry lines st = Ok st') \/
  foldM from_file_entry lines st = Raise ValueError.
Proof.
  revert st. induction lines as [| l lines IH]; intros st.
  - left. eexists. reflexivity.
  - cbn [foldM]. destruct (entry_outcome st l) as [(st' & ->) | ->]; [apply IH | now right].
Qed.

Lemma from_file_outcome (lines : list string) :
  (exists a, Alignment_from_file lines = Ok a) \/
  Alignment_from_file lines = Raise ValueError.
Proof.
  unfold Alignment_from_file. rewrite skip_blank.
  destruct (entries_outcome (filter nonblank (map strip lines)) ([], []))
    as [([names seqs] & ->) | ->]; [| now right].
  cbn [bind]. destruct (negb _); [now right |].
  match goal with
  | |- context [foldM ?f ?l tt] =>
      assert (H : foldM f l tt = Ok tt \/ foldM f l tt = Raise ValueError)
  end.
  { generalize (combine names seqs). intros l.
    induction l as [| [n s] l IH]; [now left |].
    cbn [foldM]. destruct (is_nil s); cbn [bind]; [now right | exact IH]. }
  destruct H as [-> | ->]; [| now right].
  cbn [bind]. apply init_outcome.
Qed.

(** [Alignment.from_file] returns exactly for the files that, once every
    line is stripped and the blank lines are dropped, are a list of FASTA
    records, each a header line [>name] followed by at least one line that
    is no header, when the constructor accepts the dictionary of the
    names and the joined lines; it then returns what the constructor
    returns.  A name that comes twice keeps its first place and its last
    sequence. *)
Theorem from_file_reads_records (lines : list string) (a : Alignment) :
  Alignment_from_file lines = Ok a <->
  exists records,
    filter nonblank (map strip lines) = fasta_lines records /\
    Forall record_ok records /\
    Alignment_init
      (dict_of_items (map (fun r => (fst r, String.concat "" (snd r))) records))
      None None None = Ok a.
Proof. apply from_file_records. Qed.

Lemma from_file_reads_records_witness :
  exists a,
    Alignment_from_file
      ["  "; (">A" ++ NEWLINE)%string; ("GT-" ++ NEWLINE)%string; (" DVG" ++ NEWLINE)%string; "";
       (">B" ++ NEWLINE)%string; ("GTK-VG" ++ NEWLINE)%string] = Ok a /\
    Alignment_init SMALL_DB None None None = Ok a.
Proof.
  assert (H : exists a, Alignment_init SMALL_DB None None None = Ok a)
    by (eexists; vm_compute; reflexivity).
  destruct H as [a Ha]. exists a. split; [| exact Ha].
  apply from_file_reads_records.
  exists [("A", ["GT-"; "DVG"]); ("B", ["GTK-VG"])].
  split; [reflexivity |]. split; [| exact Ha].
  repeat constructor; discriminate.
Defined.

Lemma header_not_in_pieces (ps M before after : list string) (h : string) :
  Forall (fun p => prefix ">" p = false) ps ->
  ps ++ M = before ++ h :: after -> prefix ">" h = true ->
  exists before', M = before' ++ h :: after.
Proof.
  intros Hp. revert before. induction Hp as [| p ps Hx _ IH]; intros before E Hh.
  - now exists before.
  - destruct before as [| b before]; cbn [app] in E; injection E as E1 E2.
    + congruence.
    + eapply IH; eassumption.
Qed.

Lemma header_has_piece (records : list (string * list string)) :
  Forall record_ok records ->
  forall before h after,
    fasta_lines records = before ++ h :: after -> prefix ">" h = true ->
    exists p rest, after = p :: rest /\ prefix ">" p = false.
Proof.
  induction 1 as [| [n ps] records [Hne Hp] _ IH]; intros before h after E Hh.
  - destruct before; discriminate.
  - change (fasta_lines ((n, ps) :: records))
      with ((">" ++ n)%string :: ps ++ fasta_lines records) in E.
    cbn [snd] in *. destruct before as [| b before]; cbn [app] in E; injection E as E1 E2.
    + destruct ps as [| p ps]; [congruence |]. inversion Hp; subst.
      cbn [app]. eexists. eexists. split; [reflexivity | assumption].
    + destruct (@header_not_in_pieces _ _ _ _ _ Hp E2 Hh) as (before' & E').
      eapply IH; eassumption.
Qed.

(** Whatever the lines are, [Alignment.from_file] returns or raises
    [ValueError], and no other exception; it raises when no line has
    anything but whitespace, when the first such line is no header, and
    when a header is followed by the next header or by the end. *)
Theorem from_file_only_ValueError (lines : list string) :
  ((exists a, Alignment_from_file lines = Ok a) \/
   Alignment_from_file lines = Raise ValueError) /\
  (filter nonblank (map strip lines) = [] ->
   Alignment_from_file lines = Raise ValueError) /\
  (forall first rest,
     filter nonblank (map strip lines) = first :: rest -> prefix ">" first = false ->
     Alignment_from_file lines = Raise ValueError) /\
  (forall before header after,
     filter nonblank (map strip lines) = before ++ header :: after ->
     prefix ">" header = true ->
     (after = [] \/ exists next rest, after = next :: rest /\ prefix ">" next = true) ->
     Alignment_from_file lines = Raise ValueError).
Proof.
  assert (Hno : forall P : Prop,
             (forall a, Alignment_from_file lines = Ok a -> P -> False) -> P ->
             Alignment_from_file lines = Raise ValueError).
  { intros P H HP. destruct (from_file_outcome lines) as [[a Ha] | E]; [| exact E].
    exfalso. exact (H a Ha HP). }
  split; [apply from_file_outcome |]. split; [| split].
  - apply Hno. intros a Ha E. apply from_file_records in Ha.
    destruct Ha as (recs & Er & _ & Hi). rewrite E in Er.
    destruct recs as [| r recs]; [discriminate | discriminate].
  - intros first rest E Hp. revert Hp. apply Hno. intros a Ha Hp.
    apply from_file_records in Ha. destruct Ha as (recs & Er & _ & _).
    rewrite E in Er. destruct recs as [| r recs]; [discriminate |].
    change (fasta_lines (r :: recs))
      with ((">" ++ fst r)%string :: snd r ++ fasta_lines recs) in Er.
    injection Er as E1 _. subst first.
    pose proof (header_prefix (fst r)) as Hh. cbn in Hp, Hh. congruence.
  - intros before header after E Hh. apply Hno. intros a Ha Hafter.
    apply from_file_records in Ha. destruct Ha as (recs & Er & Hok & _).
    rewrite E in Er. symmetry in Er.
    destruct (@header_has_piece _ Hok _ _ _ Er Hh) as (p & rest & -> & Hp).
    destruct Hafter as [Hafter | (next & rest' & Hafter & Hn)]; [discriminate |].
    injection Hafter as <- _. congruence.
Qed.

Lemma from_file_only_ValueError_witness :
  Alignment_from_file [(">A" ++ NEWLINE)%string; (">B" ++ NEWLINE)%string; ("GTKV" ++ NEWLINE)%string]
  = Raise ValueError.
Proof.
  destruct (from_file_only_ValueError
              [(">A" ++ NEWLINE)%string; (">B" ++ NEWLINE)%string; ("GTKV" ++ NEWLINE)%string])
    as (_ & _ & _ & H).
  apply (H [] ">A" [">B"; "GTKV"]); [reflexivity | reflexivity |].
  right. exists ">B", ["GTKV"]. split; reflexivity.
Defined.

(* ------------------------------------------------------------------ *)
(** ** Writing FASTA and reading it back *)

Lemma list_of_append (a b : string) :
  list_ascii_of_string (a ++ b) = list_ascii_of_string a ++ list_ascii_of_string b.
Proof. induction a as [| c a IH]; [reflexivity |]. cbn. now rewrite IH. Qed.

Lemma list_of_concat (ws : list string) :
  list_ascii_of_string (String.concat "" ws)
  = List.concat (map list_ascii_of_string ws).
Proof.
  induction ws as [| x ws IH]; [reflexivity |].
  destruct ws as [| y ws].
  - cbn. now rewrite app_nil_r.
  - change (String.concat "" (x :: y :: ws))
      with (x ++ ("" ++ String.concat "" (y :: ws)))%string.
    rewrite list_of_append. change ("" ++ ?s)%string with s.
    rewrite IH. reflexivity.
Qed.

Lemma substring_list (n m : nat) (s : string) :
  list_ascii_of_string (substring n m s) = firstn m (skipn n (list_ascii_of_string s)).
Proof.
  revert n m. induction s as [| c s IH]; intros n m.
  - destruct n, m; reflexivity.
  - destruct n as [| n].
    + destruct m as [| m]; [reflexivity |]. cbn. now rewrite IH.
    + cbn. apply IH.
Qed.

Lemma str_slice_list (s : string) (i c : Z) :
  0 <= i -> 0 < c ->
  list_ascii_of_string (str_slice s i (i + c))
  = firstn (Z.to_nat c) (skipn (Z.to_nat i) (list_ascii_of_string s)).
Proof.
  intros Hi Hc. unfold str_slice. cbv zeta. rewrite substring_list.
  unfold strlen. rewrite <- length_list_ascii_of_string.
  set (l := list_ascii_of_string s).
  replace (i <? 0) with false by (symmetry; apply Z.ltb_ge; lia).
  replace (i + c <? 0) with false by (symmetry; apply Z.ltb_ge; lia).
  destruct (Z_le_gt_dec i (Z.of_nat (List.length l))) as [Hle | Hgt].
  - rewrite (Z.min_l i) by lia.
    destruct (Z_le_gt_dec (i + c) (Z.of_nat (List.length l))) as [Hle2 | Hgt2].
    + rewrite Z.min_l by lia. f_equal. lia.
    + rewrite Z.min_r by lia.
      rewrite !firstn_all2; [reflexivity | |]; rewrite length_skipn; lia.
  - rewrite !Z.min_r by lia. rewrite Z.sub_diag. cbn [Z.to_nat firstn].
    rewrite (skipn_all2 l) by lia. now destruct (Z.to_nat c).
Qed.

Lemma firstn_plus {A} (a b : nat) (l : list A) :
  firstn (a + b) l = firstn a l ++ firstn b (skipn a l).
Proof.
  revert l. induction a as [| a IH]; intros l; [reflexivity |].
  destruct l as [| x l]; [now destruct b |]. cbn. now rewrite IH.
Qed.

(** Cutting a list into pieces of [c] and joining them again. *)
Lemma pieces_join {A} (c m : nat) (l : list A) :
  List.concat (map (fun k => firstn c (skipn (k * c) l)) (seq 0 m)) = firstn (m * c) l.
Proof.
  induction m as [| m IH]; [reflexivity |].
  rewrite seq_S, map_app, concat_app, IH. cbn [map List.concat Nat.add].
  rewrite app_nil_r. replace (S m * c)%nat with (m * c + c)%nat by lia.
  now rewrite firstn_plus.
Qed.

Lemma range_step_up (hi step : Z) :
  0 < step ->
  range_step 0 hi step
  = map (fun k => step * Z.of_nat k) (seq 0 (Z.to_nat ((hi + step - 1) / step))).
Proof.
  intros H. unfold range_step.
  replace (0 <? step) with true by (symmetry; apply Z.ltb_lt; lia).
  cbv zeta. rewrite Z.sub_0_r. reflexivity.
Qed.

(** *** Lines of a buffer *)

Lemma lines_from_line (x rest cur : list ascii) :
  Forall (fun c => Ascii.eqb c "010" = false) x ->
  lines_from cur (x ++ "010"%char :: rest)
  = string_of_list_ascii (rev cur ++ x ++ ["010"%char]) :: lines_from [] rest.
Proof.
  intros H. revert cur. induction H as [| c x Hc _ IH]; intros cur.
  - reflexivity.
  - cbn [app lines_from]. rewrite Hc, IH. cbn [rev]. now rewrite <- app_assoc.
Qed.

(** What a line separator is made of. *)
Lemma linesep_parts (linesep : string) :
  linesep_ok linesep = true ->
  exists before,
    list_ascii_of_string linesep = before ++ ["010"%char] /\
    Forall (fun c => is_space c = true) before /\
    Forall (fun c => Ascii.eqb c "010" = false) before.
Proof.
  unfold linesep_ok. intros H.
  destruct (rev (list_ascii_of_string linesep)) as [| c before] eqn:E; [discriminate |].
  apply andb_true_iff in H. destruct H as [Hc Hb]. apply Ascii.eqb_eq in Hc. subst c.
  exists (rev before). split.
  - rewrite <- (rev_involutive (list_ascii_of_string linesep)), E. reflexivity.
  - rewrite forallb_forall in Hb.
    split; apply Forall_forall; intros c Hin; apply in_rev in Hin;
      specialize (Hb _ Hin); apply andb_true_iff in Hb; destruct Hb as [H1 H2];
      [exact H1 | now apply negb_true_iff in H2].
Qed.

Lemma lines_written (ls : list string) (linesep : string) :
  linesep_ok linesep = true ->
  Forall (fun l => Forall (fun c => Ascii.eqb c "010" = false) (list_ascii_of_string l))
    ls ->
  written_lines (List.concat (map (fun l => [l; linesep]) ls))
  = map (fun l => (l ++ linesep)%string) ls.
Proof.
  intros Hsep Hls. destruct (linesep_parts _ Hsep) as (before & Eb & _ & Hb).
  unfold written_lines. rewrite list_of_concat.
  induction Hls as [| l ls Hl _ IH]; [reflexivity |].
  cbn [map List.concat app]. rewrite Eb at 1. rewrite <- !app_assoc.
  cbn [app]. rewrite (app_assoc (list_ascii_of_string l) before).
  rewrite lines_from_line by (apply Forall_app; split; assumption).
  rewrite IH. cbn [rev app map]. f_equal.
  rewrite <- app_assoc, <- Eb, <- list_of_append.
  apply string_of_list_ascii_of_string.
Qed.

(** *** Stripping a written line *)

Lemma lstrip_spaces (spaces l : list ascii) :
  Forall (fun c => is_space c = true) spaces ->
  (forall c l', l = c :: l' -> is_space c = false) ->
  lstrip_list (spaces ++ l) = l.
Proof.
  intros Hs Hl. induction Hs as [| c spaces Hc _ IH].
  - destruct l as [| c l']; [reflexivity |]. cbn.
    now rewrite (Hl c l' eq_refl).
  - cbn. now rewrite Hc.
Qed.

Lemma strip_written (l linesep : string) :
  linesep_ok linesep = true -> clean_line l -> strip (l ++ linesep) = l.
Proof.
  intros Hsep (Hne & _ & Hfirst & Hlast).
  destruct (linesep_parts _ Hsep) as (before & Eb & Hb & _).
  assert (Hspaces : Forall (fun c => is_space c = true) (before ++ ["010"%char]))
    by (apply Forall_app; split; [exact Hb | repeat constructor]).
  unfold strip. rewrite list_of_append, Eb.
  set (L := list_ascii_of_string l) in *.
  assert (E1 : lstrip_list (L ++ before ++ ["010"%char]) = L ++ before ++ ["010"%char]).
  { apply (@lstrip_spaces [] _ (Forall_nil _)). intros c l' E.
    destruct L as [| c0 L'] eqn:EL.
    - exfalso. apply Hne. rewrite <- (string_of_list_ascii_of_string l).
      fold L. now rewrite EL.
    - injection E as <- _. now apply (Hfirst c0 L'). }
  rewrite E1, rev_app_distr.
  rewrite lstrip_spaces; [| now apply Forall_rev | exact Hlast].
  rewrite rev_involutive. apply string_of_list_ascii_of_string.
Qed.

Lemma read_back (ls : list string) (linesep : string) :
  linesep_ok linesep = true ->
  Forall clean_line ls ->
  filter nonblank
    (map strip (written_lines (List.concat (map (fun l => [l; linesep]) ls)))) = ls.
Proof.
  intros Hsep Hls. rewrite lines_written.
  - induction Hls as [| l ls Hl _ IH]; [reflexivity |].
    cbn [map filter]. rewrite (@strip_written _ _ Hsep Hl).
    unfold nonblank at 1. destruct Hl as [Hne _].
    destruct (String.eqb l "") eqn:E; [apply String.eqb_eq in E; congruence |].
    cbn [negb]. now rewrite IH.
  - exact Hsep.
  - eapply Forall_impl; [| exact Hls]. intros l H. apply H.
Qed.

(** *** The characters of a constructed sequence *)

Lemma plain_solid (c : ascii) :
  plain_amino c = true ->
  is_space c = false /\ Ascii.eqb c "010" = false /\ Ascii.eqb c ">" = false.
Proof.
  destruct c as [[] [] [] [] [] [] [] []]; vm_compute; intros H;
    try discriminate; repeat split.
Qed.

Lemma ingested_plain (e : option ascii) : ingested e -> plain_amino (glyph e) = true.
Proof.
  destruct e as [c |]; [| reflexivity]. unfold ingested, glyph.
  destruct c as [[] [] [] [] [] [] [] []]; vm_compute; intros H;
    try discriminate; reflexivity.
Qed.

Lemma printed_plain (seq : Sequence) :
  Forall ingested seq ->
  list_ascii_of_string (Sequence_str seq) = map glyph seq /\
  Forall (fun c => plain_amino c = true) (map glyph seq).
Proof.
  intros H. split.
  - unfold Sequence_str. now rewrite list_ascii_of_string_of_list_ascii.
  - apply Forall_map. eapply Forall_impl; [| exact H]. apply ingested_plain.
Qed.

Lemma plain_piece (P : list ascii) :
  P <> [] -> Forall (fun c => plain_amino c = true) P ->
  clean_line (string_of_list_ascii P) /\ prefix ">" (string_of_list_ascii P) = false.
Proof.
  intros Hne HP.
  assert (Hs : Forall (fun c => is_space c = false /\ Ascii.eqb c "010" = false
                                /\ Ascii.eqb c ">" = false) P)
    by (eapply Forall_impl; [| exact HP]; apply plain_solid).
  rewrite Forall_forall in Hs. split.
  - unfold clean_line. rewrite list_ascii_of_string_of_list_ascii.
    split; [| split; [| split]].
    + destruct P; [congruence | discriminate].
    + apply Forall_forall. intros c Hc. now apply Hs.
    + intros c l' ->. apply Hs. now left.
    + intros c l' E. apply Hs. apply in_rev. rewrite E. now left.
  - destruct P as [| c P]; [congruence |]. cbn [string_of_list_ascii prefix].
    destruct (ascii_dec ">" c) as [<- | _]; [| reflexivity].
    destruct (Hs ">"%char (or_introl eq_refl)) as (_ & _ & H). discriminate.
Qed.

Lemma header_clean (name : string) :
  name_ok name = true -> clean_line (">" ++ name).
Proof.
  unfold name_ok, clean_line. intros H. apply andb_true_iff in H.
  destruct H as [Hf Hl]. rewrite forallb_forall in Hf.
  change (list_ascii_of_string (">" ++ name))
    with (">"%char :: list_ascii_of_string name).
  set (N := list_ascii_of_string name) in *.
  split; [discriminate |]. split; [| split].
  - constructor; [reflexivity |]. apply Forall_forall. intros c Hc.
    specialize (Hf _ Hc). now apply negb_true_iff in Hf.
  - intros c l' E. injection E as <- _. reflexivity.
  - intros c l' E. cbn [rev] in E. destruct (rev N) as [| c0 R].
    + injection E as <- _. reflexivity.
    + injection E as <- _. now apply negb_true_iff in Hl.
Qed.

(** *** The pieces of one sequence *)

Lemma Forall_firstn_skipn {A} (P : A -> Prop) (a b : nat) (l : list A) :
  Forall P l -> Forall P (firstn a (skipn b l)).
Proof.
  intros H. rewrite <- (firstn_skipn b l) in H. apply Forall_app in H.
  destruct H as [_ H]. rewrite <- (firstn_skipn a (skipn b l)) in H.
  apply Forall_app in H. apply H.
Qed.

Lemma pieces_facts (sq : Sequence) (count columns : Z) :
  0 < count -> 0 < columns -> len sq = count -> Forall ingested sq ->
  pieces columns count (Sequence_str sq) <> [] /\
  Forall clean_line (pieces columns count (Sequence_str sq)) /\
  Forall (fun p => prefix ">" p = false) (pieces columns count (Sequence_str sq)) /\
  String.concat "" (pieces columns count (Sequence_str sq)) = Sequence_str sq.
Proof.
  intros Hcount Hcol Hlen Hing.
  destruct (printed_plain Hing) as [EL HP].
  unfold pieces. rewrite range_step_up by exact Hcol. rewrite map_map.
  set (q := (count + columns - 1) / columns).
  assert (Hq1 : columns * q <= count + columns - 1) by (apply Z.mul_div_le; lia).
  assert (Hq2 : count + columns - 1 < columns * Z.succ q)
    by (apply Z.mul_succ_div_gt; lia).
  assert (Hq : 0 < q) by nia.
  assert (HL : Z.of_nat (List.length (map glyph sq)) = count)
    by (rewrite length_map; exact Hlen).
  set (L := map glyph sq) in *.
  assert (Hpiece : forall k, In k (List.seq 0 (Z.to_nat q)) ->
            list_ascii_of_string
              (str_slice (Sequence_str sq) (columns * Z.of_nat k)
                 (columns * Z.of_nat k + columns))
            = firstn (Z.to_nat columns) (skipn (k * Z.to_nat columns) L)).
  { intros k Hk. rewrite str_slice_list by lia. rewrite EL. do 2 f_equal. nia. }
  assert (Hin : forall k, In k (List.seq 0 (Z.to_nat q)) ->
            firstn (Z.to_nat columns) (skipn (k * Z.to_nat columns) L) <> []).
  { intros k Hk E. apply in_seq in Hk. apply (f_equal (@List.length ascii)) in E.
    rewrite length_firstn, length_skipn in E. cbn [List.length] in E. nia. }
  split; [| split; [| split]].
  - destruct (Z.to_nat q) eqn:E; [lia | discriminate].
  - apply Forall_map. apply Forall_forall. intros k Hk.
    rewrite <- (string_of_list_ascii_of_string (str_slice _ _ _)).
    rewrite (Hpiece k Hk).
    apply plain_piece; [now apply Hin | now apply Forall_firstn_skipn].
  - apply Forall_map. apply Forall_forall. intros k Hk.
    rewrite <- (string_of_list_ascii_of_string (str_slice _ _ _)).
    rewrite (Hpiece k Hk).
    apply plain_piece; [now apply Hin | now apply Forall_firstn_skipn].
  - rewrite <- (string_of_list_ascii_of_string (String.concat "" _)).
    rewrite <- (string_of_list_ascii_of_string (Sequence_str sq)). f_equal.
    rewrite list_of_concat, map_map, EL.
    erewrite map_ext_in; [| intros k Hk; apply (Hpiece k Hk)].
    rewrite pieces_join.
    apply firstn_all2. nia.
Qed.

(** *** The whole file *)

Lemma written_records (linesep : string) (columns count : Z)
    (pairs : list (string * string)) :
  List.concat
    (map (fun '(name, sq) =>
            [(">" ++ name)%string; linesep]
            ++ List.concat
                 (map (fun i => [str_slice sq i (i + columns); linesep])
                    (range_step 0 count columns)))
       pairs)
  = List.concat
      (map (fun l => [l; linesep])
         (fasta_lines (map (fun p => (fst p, pieces columns count (snd p))) pairs))).
Proof.
  induction pairs as [| [n s] pairs IH]; [reflexivity |].
  cbn [map List.concat fst snd]. rewrite IH.
  change (fasta_lines ((n, pieces columns count s) :: ?r))
    with (((">" ++ n)%string :: pieces columns count s) ++ fasta_lines r).
  rewrite map_app, concat_app. cbn [map List.concat app].
  unfold pieces. rewrite map_map. reflexivity.
Qed.

Lemma written_pairs (cc columns : Z) (names : list string) (seqs : list Sequence) :
  0 < cc -> 0 < columns ->
  Forall (fun n => name_ok n = true) names ->
  Forall (fun s => len s = cc) seqs ->
  Forall (Forall ingested) seqs ->
  let pairs := combine names (map Sequence_str seqs) in
  let records := map (fun p => (fst p, pieces columns cc (snd p))) pairs in
  Forall clean_line (fasta_lines records) /\
  Forall record_ok records /\
  map (fun r => (fst r, String.concat "" (snd r))) records = pairs.
Proof.
  intros Hcc Hcol Hn. revert seqs.
  induction Hn as [| n names Hname _ IH]; intros seqs Hlen Hing; cbv zeta.
  - cbn. repeat split; constructor.
  - destruct seqs as [| s seqs]; [cbn; repeat split; constructor |].
    inversion Hlen as [| ? ? Hl1 Hl2]; subst. inversion Hing as [| ? ? Hi1 Hi2]; subst.
    destruct (IH seqs Hl2 Hi2) as (C & R & M). cbv zeta in C, R, M.
    destruct (@pieces_facts s (len s) columns Hcc Hcol eq_refl Hi1)
      as (Pne & Pclean & Pprefix & Pjoin).
    cbn [map combine fst snd].
    change (fasta_lines ((n, pieces columns (len s) (Sequence_str s)) :: ?r))
      with (((">" ++ n)%string :: pieces columns (len s) (Sequence_str s))
            ++ fasta_lines r).
    split; [| split].
    + apply Forall_app. split; [| exact C].
      constructor; [now apply header_clean | exact Pclean].
    + constructor; [split; assumption | exact R].
    + rewrite Pjoin, M. reflexivity.
Qed.

Lemma fasta_round (items : list (string * string)) (tree : option Tree)
    (weights : option (list float)) (positions : option AlignmentPositions)
    (a : Alignment) (columns : Z) (linesep : string) :
  Alignment_init items tree weights positions = Ok a ->
  NoDup (map fst items) ->
  _col_count a <> 0 ->
  Forall (fun it => name_ok (fst it) = true) items ->
  linesep_ok linesep = true ->
  exists writes b,
    Alignment_to_file linesep a columns = Ok writes /\
    Alignment_from_file (written_lines writes) = Ok b /\
    _names b = _names a /\ _sequences b = _sequences a /\
    _col_count b = _col_count a /\ _alphabet b = _alphabet a.
Proof.
  intros Hinit Hnd Hcc Hnames Hsep.
  destruct (@constructed_facts _ _ _ _ _ Hinit)
    as (Hn & Hl & H0 & Hlen & Hing & Halpha & _).
  assert (Hne : _names a <> []).
  { rewrite Hn. destruct items; [| discriminate].
    apply Alignment_init_Ok in Hinit. destruct Hinit as [Hi _]. congruence. }
  assert (Hlens : List.length (_names a) = List.length (_sequences a)).
  { rewrite Hn, length_map. unfold len in Hl. lia. }
  unfold Alignment_to_file.
  replace (_col_count a =? 0) with false by (symmetry; apply Z.eqb_neq; exact Hcc).
  cbn [negb assert bind]. cbv zeta.
  set (c := if columns <? 1 then _col_count a else columns).
  assert (Hc : 0 < c).
  { unfold c. destruct (columns <? 1) eqn:E; [lia |]. apply Z.ltb_ge in E. lia. }
  eexists.
  exists {| _col_count := _col_count a; _alphabet := AMINO; _names := _names a;
            _sequences := _sequences a; _tree := None; _weights := None;
            _positions := None |}.
  split; [reflexivity |]. split; [| cbn; rewrite Halpha; repeat split; reflexivity].
  rewrite written_records.
  destruct (@written_pairs (_col_count a) c (_names a) (_sequences a))
    as (C & R & M); try assumption; [lia | |].
  { rewrite Hn. apply Forall_map. exact Hnames. }
  cbv zeta in C, R, M.
  apply from_file_records. eexists. split; [apply read_back; eassumption |].
  split; [exact R |]. rewrite M.
  rewrite dict_of_items_NoDup.
  - apply reload_plain; assumption.
  - rewrite names_of_combine by (rewrite length_map; exact Hlens).
    rewrite Hn. exact Hnd.
Qed.

(** Writing a constructed alignment with [to_file] and reading the lines
    back with [from_file] gives its names, sequences, column count and
    alphabet again, for every [columns]: provided the alignment has a
    column, its names are distinct, contain no line feed and do not end
    in whitespace, and the line separator is whitespace ending in its
    only line feed. *)
Theorem fasta_round_trip (items : list (string * string)) (tree : option Tree)
    (weights : option (list float)) (positions : option AlignmentPositions)
    (a : Alignment) (columns : Z) (linesep : string) :
  Alignment_init items tree weights positions = Ok a ->
  NoDup (map fst items) ->
  _col_count a <> 0 ->
  Forall (fun it => name_ok (fst it) = true) items ->
  linesep_ok linesep = true ->
  exists writes b,
    Alignment_to_file linesep a columns = Ok writes /\
    Alignment_from_file (written_lines writes) = Ok b /\
    _names b = _names a /\ _sequences b = _sequences a /\
    _col_count b = _col_count a /\ _alphabet b = _alphabet a.
Proof. apply fasta_round. Qed.

Lemma fasta_round_trip_witness :
  exists a writes b,
    Alignment_init SMALL_DB None None None = Ok a /\
    Alignment_to_file NEWLINE a 4 = Ok writes /\
    Alignment_from_file (written_lines writes) = Ok b /\
    _names b = _names a /\ _sequences b = _sequences a.
Proof.
  assert (H : exists a, Alignment_init SMALL_DB None None None = Ok a)
    by (eexists; vm_compute; reflexivity).
  destruct H as [a Ha].
  assert (Hcc : _col_count a <> 0).
  { vm_compute in Ha. injection Ha as <-. discriminate. }
  assert (Hnd : NoDup (map fst SMALL_DB)).
  { cbn. repeat constructor; cbn; intuition discriminate. }
  assert (Hn : Forall (fun it => name_ok (fst it) = true) SMALL_DB)
    by (repeat constructor).
  destruct (@fasta_round_trip _ _ _ _ _ 4 NEWLINE Ha Hnd Hcc Hn eq_refl)
    as (writes & b & Hw & Hb & E1 & E2 & _).
  exists a, writes, b. repeat split; assumption.
Defined.

(* ------------------------------------------------------------------ *)
(** ** Writing a merged alignment and reading it back *)

Lemma mapM_attempts {A B} (f : A -> result B) (l : list A) (ys : list B) :
  mapM f l = Ok ys -> map f l = map Ok ys.
Proof.
  revert ys. induction l as [| x l IH]; intros ys H.
  - injection H as <-. reflexivity.
  - cbn [mapM] in H. apply bind_Ok in H. destruct H as (y & Hy & H).
    apply bind_Ok in H. destruct H as (ys' & Hys & H). injection H as <-.
    cbn [map]. now rewrite Hy, (IH _ Hys).
Qed.

(** The characters of an aligned row. *)
Lemma columns_cover {P : ascii -> Prop} (gap : Modification) (edges : Path) :
  forall l : list ascii,
    List.length l = List.length edges ->
    Forall P (kept_columns gap edges l) -> Forall P (gap_columns gap edges l) ->
    Forall P l.
Proof.
  induction edges as [| e edges IH]; intros [| ch l] Hl Hk Hg; try discriminate.
  - constructor.
  - cbn [kept_columns gap_columns] in Hk, Hg. injection Hl as Hl.
    destruct (Modification_eqb (type e) gap).
    + inversion Hg; subst. constructor; [assumption | now apply IH].
    + inversion Hk; subst. constructor; [assumption | now apply IH].
Qed.

Lemma aligned_plain (gap : Modification) (edges : Path) (sq : Sequence) (s : string) :
  aligned_to gap edges sq s -> Forall ingested sq ->
  Forall (fun c => plain_amino c = true) (list_ascii_of_string s).
Proof.
  intros (Hl & Hk & Hg) Hing. destruct (printed_plain Hing) as [EL HP].
  apply (@columns_cover _ gap edges).
  - unfold strlen, len in Hl. rewrite length_list_ascii_of_string. lia.
  - rewrite Hk, EL. exact HP.
  - eapply Forall_impl; [| exact Hg]. intros c ->. reflexivity.
Qed.

(** A string of residues, wildcards and hyphens is a printed sequence. *)
Lemma plain_is_printed (s : string) :
  Forall (fun c => plain_amino c = true) (list_ascii_of_string s) ->
  exists sq, Sequence_str sq = s /\ Forall ingested sq /\ len sq = strlen s.
Proof.
  intros H.
  destruct (@from_string_total AMINO (list_ascii_of_string s)) as (sq & Hs & _);
    [discriminate |].
  fold (Sequence_from_string s AMINO) in Hs.
  destruct (@from_string_ingested _ _ Hs) as [Hi Hl].
  exists sq. split; [| split; assumption].
  apply plain_line_printed; [| exact Hs].
  apply forallb_forall. rewrite Forall_forall in H. exact H.
Qed.

Lemma rows_written (linesep : string) (columns : Z) (names rows : list string) :
  columns <> 0 ->
  forall acc,
    foldM (fun written '(name, row) =>
             sq <- row ;;
             if columns =? 0 then Raise ValueError
             else
               Ok (written
                   ++ [(">" ++ name)%string; linesep]
                   ++ List.concat
                        (map (fun i => [str_slice sq i (i + columns); linesep])
                           (range_step 0 (strlen sq) columns))))
      (combine names (map Ok rows)) acc
    = Ok (acc
          ++ List.concat
               (map (fun '(name, sq) =>
                       [(">" ++ name)%string; linesep]
                       ++ List.concat
                            (map (fun i => [str_slice sq i (i + columns); linesep])
                               (range_step 0 (strlen sq) columns)))
                  (combine names rows))).
Proof.
  intros Hc. apply Z.eqb_neq in Hc. rewrite Hc. clear Hc. revert rows.
  induction names as [| n names IH]; intros rows acc.
  - cbn. now rewrite app_nil_r.
  - destruct rows as [| r rows]; [cbn; now rewrite app_nil_r |].
    cbn [map combine foldM bind].
    rewrite IH. cbn [List.concat]. now rewrite <- !app_assoc.
Qed.

Lemma merged_file_round (c : Constants) (libm : Libm)
    (qi ri : list (string * string)) (q r : Alignment) (res : ResultAlignment)
    (columns : Z) (linesep : string) :
  Alignment_init qi None None None = Ok q ->
  Alignment_init ri None None None = Ok r ->
  combine_alignments c libm q r = Ok res ->
  NoDup (map fst qi ++ map fst ri) ->
  Forall (fun it => name_ok (fst it) = true) (qi ++ ri) ->
  linesep_ok linesep = true ->
  exists rows writes b,
    ResultAlignment_sequences res = Ok rows /\
    ResultAlignment_to_file linesep res columns = Ok writes /\
    Alignment_from_file (written_lines writes) = Ok b /\
    _names b = ResultAlignment_names res /\
    map Sequence_str (_sequences b) = rows /\
    _col_count b = len (path res).
Proof.
  intros Hq Hr H Hnd Hnames Hsep.
  destruct (@constructed_facts _ _ _ _ _ Hq) as (Hqn & Hql0 & _ & Hql & Hqi & _).
  destruct (@constructed_facts _ _ _ _ _ Hr) as (Hrn & Hrl0 & _ & Hrl & Hri & _).
  destruct (@merge_core c libm qi ri q r res Hq Hr H)
    as (Sq & Sr & Hpos & Kqn & Kqs & Krn & Krs).
  set (n := len (path res)) in *.
  set (good := fun s : string =>
         strlen s = n /\ Forall (fun c => plain_amino c = true) (list_ascii_of_string s)).
  destruct (@mapM_Forall2_Ok _ _
              (fun seq => r0 <- in_generator (build_query_result seq (path res)) ;;
                          _ <- assert (negb (String.eqb r0 "")) ;; Ok r0)
              (fun s => len s = _col_count q /\ Forall ingested s)
              (fun _ s => good s) (_sequences q))
    as (qs & Hqs & Fq).
  { apply Forall_forall. intros s Hs. rewrite Forall_forall in Hql, Hqi. auto. }
  { intros seq [Hs Hi]. destruct (@query_row (path res) seq Hpos) as (s & Hb & Hn & Ha);
      [congruence |].
    exists s. rewrite Hb. cbn [in_generator bind]. rewrite Hn.
    split; [reflexivity |]. split; [apply Ha | eapply aligned_plain; eassumption]. }
  destruct (@mapM_Forall2_Ok _ _
              (fun seq => r0 <- in_generator (build_reference_result seq (path res)) ;;
                          _ <- assert (negb (String.eqb r0 "")) ;; Ok r0)
              (fun s => len s = _col_count r /\ Forall ingested s)
              (fun _ s => good s) (_sequences r))
    as (rs & Hrs & Fr).
  { apply Forall_forall. intros s Hs. rewrite Forall_forall in Hrl, Hri. auto. }
  { intros seq [Hs Hi].
    destruct (@reference_row (path res) seq Hpos) as (s & Hb & Hn & Ha); [congruence |].
    exists s. rewrite Hb. cbn [in_generator bind]. rewrite Hn.
    split; [reflexivity |]. split; [apply Ha | eapply aligned_plain; eassumption]. }
  assert (Hgood : Forall good (qs ++ rs)).
  { apply Forall_app. split.
    - clear - Fq. induction Fq; constructor; assumption.
    - clear - Fr. induction Fr; constructor; assumption. }
  assert (Hlen : List.length (ResultAlignment_names res) = List.length (qs ++ rs)).
  { unfold ResultAlignment_names. rewrite !length_app, Kqn, Krn.
    rewrite <- (Forall2_length Fq), <- (Forall2_length Fr), Hqn, Hrn, !length_map.
    unfold len in Hql0, Hrl0. lia. }
  assert (Hnames' : ResultAlignment_names res = map fst (qi ++ ri)).
  { unfold ResultAlignment_names. now rewrite Kqn, Krn, Hqn, Hrn, map_app. }
  (* the rows are printed sequences *)
  assert (Hsqs : exists sqs,
             map Sequence_str sqs = qs ++ rs /\
             Forall (fun s => len s = n) sqs /\ Forall (Forall ingested) sqs).
  { clear - Hgood. induction Hgood as [| s l [Hs Hp] _ (sqs & E & L & I)].
    - exists []. repeat split; constructor.
    - destruct (plain_is_printed _ Hp) as (sq & Es & Is & Ls).
      exists (sq :: sqs). cbn [map]. rewrite Es, E.
      split; [reflexivity |]. split; constructor; try assumption. congruence. }
  destruct Hsqs as (sqs & Esqs & Lsqs & Isqs).
  set (cols := if columns <? 1 then n else columns).
  assert (Hcols : 0 < cols).
  { unfold cols. destruct (columns <? 1) eqn:E; [lia |]. apply Z.ltb_ge in E. lia. }
  exists (qs ++ rs). eexists.
  exists {| _col_count := n; _alphabet := AMINO; _names := ResultAlignment_names res;
            _sequences := sqs; _tree := None; _weights := None; _positions := None |}.
  split.
  { unfold ResultAlignment_sequences. rewrite Kqs, Krs, Hqs. cbn [bind].
    rewrite Hrs. reflexivity. }
  split.
  { unfold ResultAlignment_to_file, ResultAlignment_rows. cbv zeta.
    rewrite Kqs, Krs, (mapM_attempts _ _ Hqs), (mapM_attempts _ _ Hrs), <- map_app.
    fold n. fold cols. rewrite rows_written by lia. reflexivity. }
  split; [| cbn; repeat split; [exact Esqs]].
  rewrite app_nil_l.
  assert (Ew : map (fun '(name, sq) =>
                      [(">" ++ name)%string; linesep]
                      ++ List.concat
                           (map (fun i => [str_slice sq i (i + cols); linesep])
                              (range_step 0 (strlen sq) cols)))
                 (combine (ResultAlignment_names res) (qs ++ rs))
               = map (fun '(name, sq) =>
                        [(">" ++ name)%string; linesep]
                        ++ List.concat
                             (map (fun i => [str_slice sq i (i + cols); linesep])
                                (range_step 0 n cols)))
                   (combine (ResultAlignment_names res) (qs ++ rs))).
  { apply map_ext_in. intros [name sq] Hin. apply in_combine_r in Hin.
    rewrite Forall_forall in Hgood. destruct (Hgood _ Hin) as [-> _]. reflexivity. }
  rewrite Ew, written_records, <- Esqs.
  destruct (@written_pairs n cols (ResultAlignment_names res) sqs)
    as (C & R & M); try assumption.
  { rewrite Hnames'. apply Forall_map. exact Hnames. }
  cbv zeta in C, R, M.
  apply from_file_records. eexists. split; [apply read_back; eassumption |].
  split; [exact R |]. rewrite M.
  assert (Hl2 : List.length (ResultAlignment_names res) = List.length sqs)
    by (rewrite Hlen, <- Esqs, length_map; reflexivity).
  rewrite dict_of_items_NoDup.
  - apply reload_plain; try assumption.
    rewrite Hnames'. destruct qi; [| discriminate].
    apply Alignment_init_Ok in Hq. destruct Hq as [Hq _]. congruence.
  - rewrite names_of_combine by (rewrite length_map; exact Hl2).
    rewrite Hnames', map_app. exact Hnd.
Qed.

(** The file that [ResultAlignment.to_file] writes for a merge of two
    constructed alignments is read back by [Alignment.from_file] as an
    alignment with the names of the result, its aligned sequences as
    rows, and one column per edge of the path: provided all names are
    distinct, contain no line feed and do not end in whitespace, and the
    line separator is whitespace ending in its only line feed. *)
Theorem merged_file_round_trip (c : Constants) (libm : Libm)
    (qi ri : list (string * string)) (q r : Alignment) (res : ResultAlignment)
    (columns : Z) (linesep : string) :
  Alignment_init qi None None None = Ok q ->
  Alignment_init ri None None None = Ok r ->
  combine_alignments c libm q r = Ok res ->
  NoDup (map fst qi ++ map fst ri) ->
  Forall (fun it => name_ok (fst it) = true) (qi ++ ri) ->
  linesep_ok linesep = true ->
  exists rows writes b,
    ResultAlignment_sequences res = Ok rows /\
    ResultAlignment_to_file linesep res columns = Ok writes /\
    Alignment_from_file (written_lines writes) = Ok b /\
    _names b = ResultAlignment_names res /\
    map Sequence_str (_sequences b) = rows /\
    _col_count b = len (path res).
Proof. apply merged_file_round. Qed.

Lemma merged_file_round_trip_witness :
  exists q r res rows writes b,
    Alignment_init SMALL_QUERY None None None = Ok q /\
    Alignment_init SMALL_DB None None None = Ok r /\
    combine_alignments sample_constants sample_libm q r = Ok res /\
    ResultAlignment_sequences res = Ok rows /\
    ResultAlignment_to_file NEWLINE res 60 = Ok writes /\
    Alignment_from_file (written_lines writes) = Ok b /\
    _names b = ["query"; "A"; "B"] /\
    map Sequence_str (_sequences b) = rows.
Proof.
  assert (H : exists q r res,
            Alignment_init SMALL_QUERY None None None = Ok q /\
            Alignment_init SMALL_DB None None None = Ok r /\
            combine_alignments sample_constants sample_libm q r = Ok res /\
            ResultAlignment_names res = ["query"; "A"; "B"]).
  { eexists. eexists. eexists.
    split; [vm_compute; reflexivity |]. split; [vm_compute; reflexivity |].
    split; [vm_compute; reflexivity |]. reflexivity. }
  destruct H as (q & r & res & Hq & Hr & Hres & Hn).
  assert (Hnd : NoDup (map fst SMALL_QUERY ++ map fst SMALL_DB)).
  { cbn. repeat constructor; cbn; intuition discriminate. }
  assert (Hok : Forall (fun it => name_ok (fst it) = true) (SMALL_QUERY ++ SMALL_DB))
    by (repeat constructor).
  destruct (@merged_file_round_trip _ _ _ _ _ _ _ 60 NEWLINE Hq Hr Hres Hnd Hok eq_refl)
    as (rows & writes & b & Hrows & Hw & Hb & E1 & E2 & _).
  exists q, r, res, rows, writes, b. rewrite <- Hn. repeat split; assumption.
Defined.
